(** * Berserk: transposition table and search core

    A shallow embedding of the transposition table (transposition.c) and of
    the search (search.c: [Search], [negamax], [quiesce]) of the Berserk
    chess engine, with the properties of the search core proved about it;
    and of the move counter (perft.c), of the score of an info line
    ([printInfo]) and of the game phase and the tapered score of the
    evaluation (eval.c: [getPhase], [taper]).

    Conventions of the embedding.
    - C [int] values are integers of [Z]; signed overflow is undefined in C
      and does not occur for the score ranges treated here.  Where it can
      occur it is written out: a widening of the aspiration window that
      overflows is [Abort], and the node counter wraps around as its
      two's complement representation does.  The 64-bit table words and
      the 16-bit score field have their conversions written out.
    - The engine is built with assertions enabled (the Makefile passes no
      NDEBUG), so a failed [assert] ends the run: the result is [Abort].
      An access outside the table, undefined in C, is [Abort] as well.
    - Recursion is bounded by fuel; running out of it is [Fuel].
    - The collaborators of the search (board, move generation, evaluation,
      static exchange evaluation, the UCI poll) and the macros of
      transposition.h are not part of the sources at hand: they are the
      fields of the classes [TTLayout] and [Engine]. *)

From Stdlib Require Import ZArith Lia Bool List.
From stdpp Require Import base list gmap.

Local Open Scope Z_scope.

(** ** Part I: definitions *)

(** *** Constants of search.c and of the C integer types *)

Definition CHECKMATE : Z := 32767.
Definition MATE_BOUND : Z := 30000.
Definition FUTILITY_MARGIN : Z := 85.
Definition SEE_PRUNE_CAPTURE_CUTOFF : Z := -70.
Definition SEE_PRUNE_CUTOFF : Z := -20.
Definition DELTA_CUTOFF : Z := 200.

Definition INT16_MAX : Z := 32767.
Definition INT16_MIN : Z := -32768.
Definition INT32_MAX : Z := 2147483647.
Definition INT32_MIN : Z := -2147483648.

Definition NULL_MOVE : Z := 0.
Definition NO_ENTRY : Z := 0.

(** C truth value of a comparison. *)
Definition b2z (b : bool) : Z := if b then 1 else 0.

(** [(int16_t) x] for [0 <= x < 2^16]. *)
Definition to_int16 (x : Z) : Z := if x <? 32768 then x else x - 65536.

(** The value of an [int] operation lies in the range of [int]; outside
    of it the operation overflows, which is undefined in C. *)
Definition int_ok (x : Z) : bool := (INT32_MIN <=? x) && (x <=? INT32_MAX).

(** An [int] counter past its range, as the two's complement
    representation leaves it: [INT32_MAX + 1] is [INT32_MIN]. *)
Definition wrap_int32 (x : Z) : Z := (x - INT32_MIN) mod 2 ^ 32 + INT32_MIN.

(** *** Results: a value, a failed assertion or fault, or no fuel left *)

Inductive Res (A : Type) : Type :=
| Ok (a : A)
| Abort
| Fuel.

Arguments Ok {A} a.
Arguments Abort {A}.
Arguments Fuel {A}.

#[global] Instance Res_bind : MBind Res := fun A B k m =>
  match m with
  | Ok a => k a
  | Abort => Abort
  | Fuel => Fuel
  end.

#[global] Instance Res_ret : MRet Res := fun A a => Ok a.

(** The run ended with a value. *)
Definition succeeds {A : Type} (r : Res A) : bool :=
  match r with
  | Ok _ => true
  | _ => false
  end.

(** [assert(b)] *)
Definition assert (b : bool) : Res unit := if b then Ok tt else Abort.

(** *** The table macros (transposition.h) *)

(** The header transposition.h is not among the sources.  Its macros and
    constants are the fields of this class; the functions of
    transposition.c below are written over it. [TTIdx] reads the global
    [POWER], which is its first argument here. *)
Class TTLayout : Type := {
  BUCKET_SIZE : Z;
  TT_LOWER : Z;
  TT_UPPER : Z;
  TT_EXACT : Z;
  TTIdx : Z -> Z -> Z;
  TTEntry : Z -> Z -> Z -> Z -> Z -> Z;  (* score flag depth move eval *)
  TTDepth : Z -> Z;
  TTFlag : Z -> Z;
  TTMove : Z -> Z;
  TTEval : Z -> Z
}.

(** What the code relies on from the header: the flags are three distinct
    values, [TTDepth] yields a C [int], the bucket of a hash is one of the
    [2^POWER] aligned buckets of the table. *)
Record TTLayoutLaws (L : TTLayout) : Prop := {
  bucket_size_pos : 1 <= BUCKET_SIZE;
  flags_distinct : TT_LOWER <> TT_UPPER /\ TT_LOWER <> TT_EXACT /\ TT_UPPER <> TT_EXACT;
  TTDepth_int : forall v, INT32_MIN <= TTDepth v <= INT32_MAX;
  TTIdx_bucket : forall P h, 0 <= P ->
    exists k, 0 <= k < 2 ^ P /\ TTIdx P h = 2 * BUCKET_SIZE * k
}.

(** The part of the header [TTPut] asserts after a write: the fields of a
    packed entry read back, for the values [ok] accepts. *)
Definition fields_roundtrip (L : TTLayout) (ok : Z -> Z -> Z -> Prop) : Prop :=
  forall score flag depth move eval,
    INT16_MIN <= score <= INT16_MAX -> INT16_MIN <= eval <= INT16_MAX ->
    ok flag depth move ->
    let v := TTEntry score flag depth move eval in
    to_int16 (Z.shiftr (Z.land v 0x0000FFFF00000000) 32) = score /\
    TTDepth v = depth /\ TTFlag v = flag /\ TTMove v = move /\ TTEval v = eval.

(** *** transposition.c *)

(** The globals [POWER], [SIZE] and [TRANSPOSITION_ENTRIES]: the table is
    one array of 64-bit words, keys at even and entries at odd indices.
    [NULL] is the empty array. *)
Record TTState : Type := {
  POWER : Z;
  SIZE : Z;
  TRANSPOSITION_ENTRIES : list Z
}.

Definition tt_start : TTState :=
  {| POWER := 0; SIZE := 0; TRANSPOSITION_ENTRIES := [] |}.

Definition tt_get (tbl : list Z) (i : Z) : Res Z :=
  if i <? 0 then Abort
  else match tbl !! Z.to_nat i with
       | Some v => Ok v
       | None => Abort
       end.

Definition tt_set (tbl : list Z) (i : Z) (v : Z) : Res (list Z) :=
  if (0 <=? i) && (i <? Z.of_nat (length tbl))
  then Ok (<[Z.to_nat i := v]> tbl)
  else Abort.

(** [TTClear]: memset of the [SIZE] bytes of the table to zero. *)
Definition TTClear (t : TTState) : TTState :=
  {| POWER := POWER t; SIZE := SIZE t;
     TRANSPOSITION_ENTRIES := replicate (length (TRANSPOSITION_ENTRIES t)) 0 |}.

(** [TTScore]: the 16-bit score field, sign-extended, with the mate
    adjustment undone. *)
Definition TTScore_raw (value : Z) : Z :=
  to_int16 (Z.shiftr (Z.land value 0x0000FFFF00000000) 32).

Definition TTScore (value ply : Z) : Z :=
  let score := TTScore_raw value in
  if score >? MATE_BOUND then score - ply
  else if score <? - MATE_BOUND then score + ply
  else score.

(** The score [TTPut] packs for [score] at [ply]. *)
Definition adjustedScore (score ply : Z) : Z :=
  if score >? MATE_BOUND then score + ply
  else if score <? - MATE_BOUND then score - ply
  else score.

(** Outcome of the scan of [TTPut]: the early [return] of the stored
    entry, or the index the write goes to. *)
Inductive Scan : Type :=
| ScanReturn (v : Z)
| ScanSlot (replacementIdx : Z).

Section Transposition.
Context {L : TTLayout}.

(** [TTInit]: [(int)log2(x)] of a positive integer is [Z.log2 x]; a
    size below one megabyte or a shift beyond the width of [int] has no
    defined result.  The allocation is taken to succeed. *)
Definition TTInit (mb : Z) (t : TTState) : Res TTState :=
  let power := Z.log2 (0x100000 / 8) + Z.log2 mb - Z.log2 BUCKET_SIZE - 1 in
  _ ← assert ((1 <=? mb) && (0 <=? power) && (power <? 31));
  let size := Z.shiftl 1 power * 8 * BUCKET_SIZE * 2 in
  Ok (TTClear {| POWER := power; SIZE := size;
                 TRANSPOSITION_ENTRIES := replicate (Z.to_nat (size / 8)) 0 |}).

(** The loop of [TTProbe], [n] slots left from index [i]. *)
Fixpoint TTProbe_scan (tbl : list Z) (hash : Z) (n : nat) (i : Z) : Res Z :=
  match n with
  | O => Ok NO_ENTRY
  | S n' =>
      k ← tt_get tbl i;
      if k =? hash then tt_get tbl (i + 1)
      else TTProbe_scan tbl hash n' (i + 2)
  end.

Definition TTProbe (hash : Z) (t : TTState) : Res Z :=
  TTProbe_scan (TRANSPOSITION_ENTRIES t) hash (Z.to_nat BUCKET_SIZE)
               (TTIdx (POWER t) hash).

(** The loop of [TTPut], [n] slots left from index [i]. *)
Fixpoint TTPut_scan (tbl : list Z) (hash depth flag : Z) (n : nat) (i : Z)
         (replacementIdx replacementDepth : Z) : Res Scan :=
  match n with
  | O => Ok (ScanSlot replacementIdx)
  | S n' =>
      currHash ← tt_get tbl i;
      if currHash =? 0 then Ok (ScanSlot i)
      else
        v ← tt_get tbl (i + 1);
        let currDepth := TTDepth v in
        if currHash =? hash then
          if (currDepth >? depth) && negb (flag =? TT_EXACT)
          then Ok (ScanReturn v)
          else Ok (ScanSlot i)
        else if currDepth <? replacementDepth
             then TTPut_scan tbl hash depth flag n' (i + 2) i currDepth
             else TTPut_scan tbl hash depth flag n' (i + 2)
                             replacementIdx replacementDepth
  end.

(** The write of [TTPut] to the chosen index, with its assertions. *)
Definition TTPut_store (replacementIdx hash depth score flag move ply eval : Z)
           (t : TTState) : Res (Z * TTState) :=
  let adjusted := adjustedScore score ply in
  _ ← assert (adjusted <=? INT16_MAX);
  _ ← assert (adjusted >=? INT16_MIN);
  _ ← assert (eval <=? INT16_MAX);
  _ ← assert (eval >=? INT16_MIN);
  tbl1 ← tt_set (TRANSPOSITION_ENTRIES t) replacementIdx hash;
  let tt := TTEntry adjusted flag depth move eval in
  tbl2 ← tt_set tbl1 (replacementIdx + 1) tt;
  _ ← assert (depth =? TTDepth tt);
  _ ← assert (score =? TTScore tt ply);
  _ ← assert (flag =? TTFlag tt);
  _ ← assert (move =? TTMove tt);
  _ ← assert (eval =? TTEval tt);
  Ok (tt, {| POWER := POWER t; SIZE := SIZE t; TRANSPOSITION_ENTRIES := tbl2 |}).

Definition TTPut (hash depth score flag move ply eval : Z) (t : TTState)
  : Res (Z * TTState) :=
  let idx := TTIdx (POWER t) hash in
  r ← TTPut_scan (TRANSPOSITION_ENTRIES t) hash depth flag
                  (Z.to_nat BUCKET_SIZE) idx idx INT32_MAX;
  match r with
  | ScanReturn v => Ok (v, t)
  | ScanSlot replacementIdx =>
      TTPut_store replacementIdx hash depth score flag move ply eval t
  end.

(** Key and entry of slot [j] of the bucket that starts at [idx]. *)
Definition slot_key (tbl : list Z) (idx : Z) (j : nat) : Z :=
  default 0 (tbl !! Z.to_nat (idx + 2 * Z.of_nat j)).

Definition slot_val (tbl : list Z) (idx : Z) (j : nat) : Z :=
  default 0 (tbl !! Z.to_nat (idx + 2 * Z.of_nat j + 1)).

(** The bucket at [idx] lies inside the table. *)
Definition bucket_in (tbl : list Z) (idx : Z) : Prop :=
  0 <= idx /\ idx + 2 * BUCKET_SIZE <= Z.of_nat (length tbl).

(** No slot before [j] is empty or holds [hash]. *)
Definition first_hit (tbl : list Z) (idx hash : Z) (j : nat) : Prop :=
  forall j', (j' < j)%nat ->
    slot_key tbl idx j' <> 0 /\ slot_key tbl idx j' <> hash.

(** The non-empty slots of the bucket at [idx] are a prefix of it. *)
Definition bucket_prefix (tbl : list Z) (idx : Z) : Prop :=
  forall j1 j2, (j1 < j2)%nat -> Z.of_nat j2 < BUCKET_SIZE ->
    slot_key tbl idx j1 = 0 -> slot_key tbl idx j2 = 0.

(** State of the scan of [TTPut] before slot [j0]: the candidate is the
    first slot of least depth among those passed. *)
Definition scan_inv (tbl : list Z) (idx : Z) (j0 : nat) (rIdx rDepth : Z) : Prop :=
  exists jm : nat,
    rIdx = idx + 2 * Z.of_nat jm /\
    ((j0 = O /\ jm = O /\ rDepth = INT32_MAX) \/
     ((jm < j0)%nat /\ rDepth = TTDepth (slot_val tbl idx jm) /\
      (forall j', (j' < j0)%nat ->
         TTDepth (slot_val tbl idx jm) <= TTDepth (slot_val tbl idx j')) /\
      (forall j', (j' < jm)%nat ->
         TTDepth (slot_val tbl idx jm) < TTDepth (slot_val tbl idx j')))).

(** What the scan answers, in the words of the replacement policy. *)
Definition scan_answer (tbl : list Z) (idx hash depth flag : Z) (r : Scan) : Prop :=
  (forall j, Z.of_nat j < BUCKET_SIZE -> first_hit tbl idx hash j ->
     slot_key tbl idx j = 0 -> r = ScanSlot (idx + 2 * Z.of_nat j)) /\
  (forall j, Z.of_nat j < BUCKET_SIZE -> first_hit tbl idx hash j ->
     slot_key tbl idx j <> 0 -> slot_key tbl idx j = hash ->
     r = if (TTDepth (slot_val tbl idx j) >? depth) && negb (flag =? TT_EXACT)
         then ScanReturn (slot_val tbl idx j)
         else ScanSlot (idx + 2 * Z.of_nat j)) /\
  ((forall j, Z.of_nat j < BUCKET_SIZE ->
      slot_key tbl idx j <> 0 /\ slot_key tbl idx j <> hash) ->
   exists j, Z.of_nat j < BUCKET_SIZE /\ r = ScanSlot (idx + 2 * Z.of_nat j) /\
     (forall j', Z.of_nat j' < BUCKET_SIZE ->
        TTDepth (slot_val tbl idx j) <= TTDepth (slot_val tbl idx j')) /\
     (forall j', (j' < j)%nat ->
        TTDepth (slot_val tbl idx j) < TTDepth (slot_val tbl idx j'))).

(** The table is unallocated or holds [2^POWER] buckets, and the
    non-empty slots of every bucket are a prefix of it. *)
Definition tt_inv (t : TTState) : Prop :=
  (TRANSPOSITION_ENTRIES t = [] \/
   (0 <= POWER t /\
    Z.of_nat (length (TRANSPOSITION_ENTRIES t)) = 2 * BUCKET_SIZE * 2 ^ POWER t)) /\
  forall k, 0 <= k -> bucket_prefix (TRANSPOSITION_ENTRIES t) (2 * BUCKET_SIZE * k).

(** The operations on the table, and a run of them. *)
Inductive TTOp : Type :=
| OpInit (mb : Z)
| OpClear
| OpPut (hash depth score flag move ply eval : Z).

Definition run_op (op : TTOp) (t : TTState) : Res TTState :=
  match op with
  | OpInit mb => TTInit mb t
  | OpClear => Ok (TTClear t)
  | OpPut hash depth score flag move ply eval =>
      '(_, t') ← TTPut hash depth score flag move ply eval t; Ok t'
  end.

Fixpoint run_ops (ops : list TTOp) (t : TTState) : Res TTState :=
  match ops with
  | [] => Ok t
  | op :: ops' => t' ← run_op op t; run_ops ops' t'
  end.

Definition put_hash_nonzero (op : TTOp) : Prop :=
  match op with
  | OpPut hash _ _ _ _ _ _ => hash <> 0
  | _ => True
  end.

End Transposition.

(** Modelled from the spec: transposition.h is missing, and the spec leaves
    the bit layout open.  This layout follows its data model: buckets of
    [B = 2] slots, the bucket index the low [P] bits of the hash, an entry
    packing a 16-bit evaluation, the 16-bit score at the bits [TTScore]
    reads, a 2-bit bound, a 6-bit depth and a 24-bit move. *)
Definition ref_TTIdx (P hash : Z) : Z := 2 * 2 * (hash mod 2 ^ P).

Definition ref_TTEntry (score flag depth move eval : Z) : Z :=
  (eval mod 65536) * 2 ^ 48 + (score mod 65536) * 2 ^ 32
  + flag * 2 ^ 30 + depth * 2 ^ 24 + move.

#[local] Instance ref_layout : TTLayout := {|
  BUCKET_SIZE := 2;
  TT_LOWER := 0;
  TT_UPPER := 1;
  TT_EXACT := 2;
  TTIdx := ref_TTIdx;
  TTEntry := ref_TTEntry;
  TTDepth := fun v => (v / 2 ^ 24) mod 64;
  TTFlag := fun v => (v / 2 ^ 30) mod 4;
  TTMove := fun v => v mod 2 ^ 24;
  TTEval := fun v => to_int16 ((v / 2 ^ 48) mod 65536)
|}.

Definition ref_ok (flag depth move : Z) : Prop :=
  0 <= flag < 4 /\ 0 <= depth < 64 /\ 0 <= move < 2 ^ 24.

(** *** types.h: move lists, principal variations, search data *)

(** Arrays indexed by ply, square pair or side: every index has a cell,
    zero until written.  An index outside the bounds of the C array is
    undefined in C. *)
Definition aget (a : gmap Z Z) (i : Z) : Z := default 0 (a !! i).
Definition aset (a : gmap Z Z) (i v : Z) : gmap Z Z := <[i := v]> a.

Record MoveList : Type := {
  ml_count : Z;
  ml_moves : list Z;
  ml_scores : list Z
}.

Definition ml_move (ml : MoveList) (i : Z) : Z := nth (Z.to_nat i) (ml_moves ml) 0.
Definition ml_score (ml : MoveList) (i : Z) : Z := nth (Z.to_nat i) (ml_scores ml) 0.

(** A [PV]: its [count] moves. *)
Definition PV : Type := list Z.

Record SearchParams : Type := {
  startTime : Z;
  endTime : Z;
  params_depth : Z;
  timeset : Z;
  movesToGo : Z;
  stopped : Z;
  quit : Z
}.

Definition WHITE : Z := 0.
Definition BLACK : Z := 1.

(** *** The collaborators of the search *)

(** Board, moves, evaluation and exchange evaluation (board.h, move.h,
    eval.h, see.h), of which the search uses what is listed here. *)
Class Position : Type := {
  Board : Type;
  zobrist : Board -> Z;
  checkers : Board -> Z;
  halfMove : Board -> Z;
  side : Board -> Z;
  xside : Board -> Z;
  squares : Board -> Z -> Z;
  isRepetition : Board -> bool;
  isMaterialDraw : Board -> bool;
  hasNonPawn : Board -> bool;
  Evaluate : Board -> Z;
  see : Board -> Z -> Z;
  makeMove : Z -> Board -> Board;
  undoMove : Z -> Board -> Board;
  nullMove : Board -> Board;
  undoNullMove : Board -> Board;
  moveStart : Z -> Z;
  moveEnd : Z -> Z;
  movePromo : Z -> Z;
  moveCapture : Z -> bool;
  moveEP : Z -> bool;
  NO_PIECE : Z;
  PAWN : Z -> Z;
  QUEEN : Z -> Z;
  PIECE_TYPE : Z -> Z;
  STATIC_MATERIAL_VALUE : Z -> Z
}.

Section SearchTypes.
Context {P : Position}.

Record SearchData : Type := {
  data_score : Z;
  data_bestMove : Z;
  board : Board;
  ply : Z;
  nodes : Z;
  seldepth : Z;
  skipMove : gmap Z Z;
  evals : gmap Z Z;
  moves : gmap Z Z;
  killers : gmap Z Z;   (* killers[p][k] at 2 * p + k *)
  counters : gmap Z Z;
  hh : gmap Z Z;        (* hh[s][i] at 4096 * s + i *)
  bf : gmap Z Z
}.

Definition set_result (d : SearchData) (s m : Z) : SearchData :=
  {| data_score := s; data_bestMove := m; board := board d; ply := ply d;
     nodes := nodes d; seldepth := seldepth d; skipMove := skipMove d;
     evals := evals d; moves := moves d; killers := killers d;
     counters := counters d; hh := hh d; bf := bf d |}.

Definition set_board (d : SearchData) (b : Board) : SearchData :=
  {| data_score := data_score d; data_bestMove := data_bestMove d; board := b;
     ply := ply d; nodes := nodes d; seldepth := seldepth d;
     skipMove := skipMove d; evals := evals d; moves := moves d;
     killers := killers d; counters := counters d; hh := hh d; bf := bf d |}.

Definition set_ply (d : SearchData) (p : Z) : SearchData :=
  {| data_score := data_score d; data_bestMove := data_bestMove d;
     board := board d; ply := p; nodes := nodes d; seldepth := seldepth d;
     skipMove := skipMove d; evals := evals d; moves := moves d;
     killers := killers d; counters := counters d; hh := hh d; bf := bf d |}.

Definition set_counts (d : SearchData) (n s : Z) : SearchData :=
  {| data_score := data_score d; data_bestMove := data_bestMove d;
     board := board d; ply := ply d; nodes := n; seldepth := s;
     skipMove := skipMove d; evals := evals d; moves := moves d;
     killers := killers d; counters := counters d; hh := hh d; bf := bf d |}.

Definition set_skipMove (d : SearchData) (a : gmap Z Z) : SearchData :=
  {| data_score := data_score d; data_bestMove := data_bestMove d;
     board := board d; ply := ply d; nodes := nodes d; seldepth := seldepth d;
     skipMove := a; evals := evals d; moves := moves d;
     killers := killers d; counters := counters d; hh := hh d; bf := bf d |}.

Definition set_evals (d : SearchData) (a : gmap Z Z) : SearchData :=
  {| data_score := data_score d; data_bestMove := data_bestMove d;
     board := board d; ply := ply d; nodes := nodes d; seldepth := seldepth d;
     skipMove := skipMove d; evals := a; moves := moves d;
     killers := killers d; counters := counters d; hh := hh d; bf := bf d |}.

Definition set_moves (d : SearchData) (a : gmap Z Z) : SearchData :=
  {| data_score := data_score d; data_bestMove := data_bestMove d;
     board := board d; ply := ply d; nodes := nodes d; seldepth := seldepth d;
     skipMove := skipMove d; evals := evals d; moves := a;
     killers := killers d; counters := counters d; hh := hh d; bf := bf d |}.

Definition set_killers (d : SearchData) (a : gmap Z Z) : SearchData :=
  {| data_score := data_score d; data_bestMove := data_bestMove d;
     board := board d; ply := ply d; nodes := nodes d; seldepth := seldepth d;
     skipMove := skipMove d; evals := evals d; moves := moves d;
     killers := a; counters := counters d; hh := hh d; bf := bf d |}.

Definition set_counters (d : SearchData) (a : gmap Z Z) : SearchData :=
  {| data_score := data_score d; data_bestMove := data_bestMove d;
     board := board d; ply := ply d; nodes := nodes d; seldepth := seldepth d;
     skipMove := skipMove d; evals := evals d; moves := moves d;
     killers := killers d; counters := a; hh := hh d; bf := bf d |}.

Definition set_hh (d : SearchData) (a : gmap Z Z) : SearchData :=
  {| data_score := data_score d; data_bestMove := data_bestMove d;
     board := board d; ply := ply d; nodes := nodes d; seldepth := seldepth d;
     skipMove := skipMove d; evals := evals d; moves := moves d;
     killers := killers d; counters := counters d; hh := a; bf := bf d |}.

Definition set_bf (d : SearchData) (a : gmap Z Z) : SearchData :=
  {| data_score := data_score d; data_bestMove := data_bestMove d;
     board := board d; ply := ply d; nodes := nodes d; seldepth := seldepth d;
     skipMove := skipMove d; evals := evals d; moves := moves d;
     killers := killers d; counters := counters d; hh := hh d; bf := a |}.

(** [initSearchData]: everything but the board is zeroed; the result
    fields are left as they are. *)
Definition initSearchData (d : SearchData) : SearchData :=
  {| data_score := data_score d; data_bestMove := data_bestMove d;
     board := board d; ply := 0; nodes := 0; seldepth := 0;
     skipMove := ∅; evals := ∅; moves := ∅; killers := ∅; counters := ∅;
     hh := ∅; bf := ∅ |}.

(** Modelled from the spec: the bodies of [addKiller], [addCounter],
    [addHistoryHeuristic] and [addBFHeuristic] (movegen.c) are missing;
    these follow section 4.2 of the spec, the counter slot and the history
    slots indexed by from-square * 64 + to-square. *)
Definition addKiller (d : SearchData) (move : Z) : SearchData :=
  if aget (killers d) (2 * ply d) =? move then d
  else set_killers d (aset (aset (killers d) (2 * ply d + 1)
                                 (aget (killers d) (2 * ply d)))
                           (2 * ply d) move).

Definition addCounter (d : SearchData) (move parent : Z) : SearchData :=
  set_counters d (aset (counters d) (moveStart parent * 64 + moveEnd parent) move).

Definition addHistoryHeuristic (d : SearchData) (move depth : Z) : SearchData :=
  let i := 4096 * side (board d) + moveStart move * 64 + moveEnd move in
  set_hh d (aset (hh d) i (aget (hh d) i + depth * depth)).

Definition addBFHeuristic (d : SearchData) (move depth : Z) : SearchData :=
  let i := 4096 * side (board d) + moveStart move * 64 + moveEnd move in
  set_bf d (aset (bf d) i (aget (bf d) i + depth * depth)).

End SearchTypes.

(** Move generation and ordering (movegen.h), the poll of the UCI input
    and of the clock ([communicate], with the outside world as [Env]), the
    table of late-move reductions, which [initLMR] fills from
    floating-point logarithms, and the constants [MAX_DEPTH] and
    [COUNTER]. *)
Class Engine {P : Position} : Type := {
  Env : Type;
  generateMoves : SearchData -> MoveList;
  generateQuiesceMoves : SearchData -> MoveList;
  bubbleTopMove : MoveList -> Z -> MoveList;
  communicate : Env -> SearchParams -> Env * SearchParams;
  LMR : Z -> Z -> Z;
  MAX_DEPTH : Z;
  COUNTER : Z
}.

(** The pieces as numbered in types.h. *)
Definition PAWN_WHITE : Z := 0.
Definition PAWN_BLACK : Z := 1.
Definition KNIGHT_WHITE : Z := 2.
Definition KNIGHT_BLACK : Z := 3.
Definition BISHOP_WHITE : Z := 4.
Definition BISHOP_BLACK : Z := 5.
Definition ROOK_WHITE : Z := 6.
Definition ROOK_BLACK : Z := 7.
Definition QUEEN_WHITE : Z := 8.
Definition QUEEN_BLACK : Z := 9.
Definition KING_WHITE : Z := 10.
Definition KING_BLACK : Z := 11.

(** The tables [initLMR] fills by integer formulas. *)
Definition LMP (improving depth : Z) : Z :=
  if improving =? 0 then Z.quot (3 + depth * depth) 2 else 3 + depth * depth.

Definition SEE (tactical depth : Z) : Z :=
  if tactical =? 0 then SEE_PRUNE_CUTOFF * depth * depth
  else SEE_PRUNE_CAPTURE_CUTOFF * depth.

Definition FUTILITY (depth : Z) : Z := FUTILITY_MARGIN * depth.

(** *** The state of a search *)

(** A call of [ttPut] by [negamax], with the stop flag, the alpha at entry
    and the beta of the node at the time of the call; a line of output. *)
Inductive Event : Type :=
| EvTTPut (stop a0 beta : Z) (hash depth score flag move ply eval : Z)
| EvInfo (depth score : Z) (pv : PV)
| EvBestMove (move : Z).

Section SearchState.
Context {P : Position} {E : Engine}.

(** The parameters, the search data, the table, the outside world, and
    the calls and output so far, latest first. *)
Record State : Type := {
  params : SearchParams;
  data : SearchData;
  table : TTState;
  env : Env;
  trace : list Event
}.

Definition set_params (st : State) (p : SearchParams) : State :=
  {| params := p; data := data st; table := table st; env := env st;
     trace := trace st |}.

Definition set_data (st : State) (d : SearchData) : State :=
  {| params := params st; data := d; table := table st; env := env st;
     trace := trace st |}.

Definition set_table (st : State) (t : TTState) : State :=
  {| params := params st; data := data st; table := t; env := env st;
     trace := trace st |}.

Definition set_env (st : State) (e : Env) : State :=
  {| params := params st; data := data st; table := table st; env := e;
     trace := trace st |}.

Definition log (st : State) (e : Event) : State :=
  {| params := params st; data := data st; table := table st; env := env st;
     trace := e :: trace st |}.

End SearchState.

(** *** search.c *)

Section SearchCode.
Context {L : TTLayout} {P : Position} {E : Engine}.

(** What a call of [negamax] or [quiesce] leaves: the score it returns,
    the principal variation written to its [pv] argument, and the state. *)
Definition Result : Type := (Z * PV * State)%type.

(** A part of a function body returns from the function or goes on. *)
Inductive Ctl (A : Type) : Type :=
| Return (r : Result)
| Next (a : A).

Arguments Return {A} r.
Arguments Next {A} a.

(** The position is no draw by repetition, material or the fifty-move
    rule. *)
Definition no_draw (b : Board) : Prop :=
  isRepetition b = false /\ isMaterialDraw b = false /\ halfMove b <= 99.

(** [data->nodes++; data->seldepth = max(data->ply, data->seldepth)];
    [nodes] is an [int], and the count wraps around at [INT32_MAX]. *)
Definition count_node (st : State) : State :=
  let d := data st in
  set_data st (set_counts d (wrap_int32 (nodes d + 1)) (Z.max (ply d) (seldepth d))).

(** [if ((data->nodes & 2047) == 0) communicate(params)] *)
Definition poll (st : State) : State :=
  if Z.land (nodes (data st)) 2047 =? 0 then
    let '(e, p) := communicate (env st) (params st) in
    set_params (set_env st e) p
  else st.

(** [data->moves[data->ply++] = move; makeMove(move, data->board)] *)
Definition push_move (move : Z) (st : State) : State :=
  let d := data st in
  set_data st (set_board (set_ply (set_moves d (aset (moves d) (ply d) move))
                                  (ply d + 1))
                         (makeMove move (board d))).

(** [undoMove(move, data->board); data->ply--] *)
Definition pop_move (move : Z) (st : State) : State :=
  let d := data st in
  set_data st (set_ply (set_board d (undoMove move (board d))) (ply d - 1)).

(** [data->moves[data->ply++] = NULL_MOVE; nullMove(data->board)] *)
Definition push_null (st : State) : State :=
  let d := data st in
  set_data st (set_board (set_ply (set_moves d (aset (moves d) (ply d) NULL_MOVE))
                                  (ply d + 1))
                         (nullMove (board d))).

(** [undoNullMove(data->board); data->ply--] *)
Definition pop_null (st : State) : State :=
  let d := data st in
  set_data st (set_ply (set_board d (undoNullMove (board d))) (ply d - 1)).

(** [data->skipMove[data->ply] = move] *)
Definition set_skip (move : Z) (st : State) : State :=
  let d := data st in
  set_data st (set_skipMove d (aset (skipMove d) (ply d) move)).

(** The stop flag is set. *)
Definition is_stopped (st : State) : bool := negb (stopped (params st) =? 0).

(** The cutoff on a table hit in [quiesce] (lines 346-356): the score to
    return, if any. *)
Definition quiesce_tt_cutoff (ttValue alpha beta ply : Z) : option Z :=
  if ttValue =? 0 then None
  else
    let score := TTScore ttValue ply in
    let flag := TTFlag ttValue in
    if flag =? TT_EXACT then Some score
    else if (flag =? TT_LOWER) && (score >=? beta) then Some score
    else if (flag =? TT_UPPER) && (score <=? alpha) then Some score
    else None.

(** The cutoff on a table hit in [negamax] (lines 150-162). *)
Definition negamax_tt_cutoff (ttValue alpha beta depth ply : Z) : option Z :=
  if ttValue =? 0 then None
  else if TTDepth ttValue >=? depth then
    let score := TTScore ttValue ply in
    let flag := TTFlag ttValue in
    if flag =? TT_EXACT then Some score
    else if (flag =? TT_LOWER) && (score >=? beta) then Some score
    else if (flag =? TT_UPPER) && (score <=? alpha) then Some score
    else None
  else None.

(** [ttValue ? ttEval(ttValue) : Evaluate(data->board)] *)
Definition static_eval (ttValue : Z) (b : Board) : Z :=
  if ttValue =? 0 then Evaluate b else TTEval ttValue.

(** The stand-pat score of [quiesce] (lines 358-363). *)
Definition stand_pat (ttValue : Z) (b : Board) (ply : Z) : Z :=
  let eval := static_eval ttValue b in
  if ttValue =? 0 then eval
  else
    let ttEval := TTScore ttValue ply in
    if TTFlag ttValue =? (if ttEval >? eval then TT_LOWER else TT_UPPER)
    then ttEval else eval.

(** The piece a move that is no promotion takes (line 384). *)
Definition captured_piece (b : Board) (move : Z) : Z :=
  if moveEP move then PAWN (xside b) else squares b (moveEnd move).

(** The move is passed over by lines 380-390 of [quiesce]: a promotion
    to a piece below the queens, or a move that is no promotion and that
    delta pruning discards. *)
Definition quiesce_skip (b : Board) (eval alpha move : Z) : bool :=
  if negb (movePromo move =? 0) then movePromo move <? QUEEN WHITE
  else eval + DELTA_CUTOFF
       + STATIC_MATERIAL_VALUE (PIECE_TYPE (captured_piece b move)) <? alpha.

(** The move loop of [quiesce] from index [i], with [k] iterations of
    fuel; [self] is the recursive call. *)
Fixpoint quiesce_loop (self : Z -> Z -> State -> Res Result) (k : nat) (i : Z)
         (ml : MoveList) (eval alpha beta bestScore : Z) (pv : PV) (st : State)
  : Res Result :=
  if negb (i <? ml_count ml) then Ok (bestScore, pv, st)
  else
    match k with
    | O => Fuel
    | S k' =>
        let ml := bubbleTopMove ml i in
        let move := ml_move ml i in
        let b := board (data st) in
        _ ← assert (negb (movePromo move =? 0)
                    || negb (captured_piece b move =? NO_PIECE));
        if quiesce_skip b eval alpha move
        then quiesce_loop self k' (i + 1) ml eval alpha beta bestScore pv st
        else if ml_score ml i <? 0 then Ok (bestScore, pv, st)
        else
          '(r, childPv, st1) ← self (- beta) (- alpha) (push_move move st);
          let score := - r in
          let st2 := pop_move move st1 in
          if is_stopped st2 then Ok (0, pv, st2)
          else if score >? bestScore then
            let alpha' := if score >? alpha then score else alpha in
            let pv' := if score >? alpha then move :: childPv else pv in
            if alpha' >=? beta then Ok (score, pv', st2)
            else quiesce_loop self k' (i + 1) ml eval alpha' beta score pv' st2
          else quiesce_loop self k' (i + 1) ml eval alpha beta bestScore pv st2
    end.

(** The body of [quiesce]. *)
Definition quiesce_body (self : Z -> Z -> State -> Res Result) (k : nat)
           (alpha beta : Z) (st : State) : Res Result :=
  let st := count_node st in
  let b := board (data st) in
  let p := ply (data st) in
  if isMaterialDraw b || isRepetition b || (halfMove b >? 99) then Ok (0, [], st)
  else if p >? MAX_DEPTH - 1 then Ok (Evaluate b, [], st)
  else
    let st := poll st in
    ttValue ← TTProbe (zobrist b) (table st);
    match quiesce_tt_cutoff ttValue alpha beta p with
    | Some score => Ok (score, [], st)
    | None =>
        let d := data st in
        let st := set_data st (set_evals d (aset (evals d) p (static_eval ttValue b))) in
        let eval := stand_pat ttValue b p in
        if eval >=? beta then Ok (eval, [], st)
        else
          let alpha := if eval >? alpha then eval else alpha in
          quiesce_loop self k 0 (generateQuiesceMoves (data st))
                       eval alpha beta eval [] st
    end.

Fixpoint quiesce (fuel : nat) (alpha beta : Z) (st : State) : Res Result :=
  match fuel with
  | O => Fuel
  | S f => quiesce_body (quiesce f) f alpha beta st
  end.

(** The variables of a [negamax] call that the move loop only reads. *)
Record Frame : Type := {
  isPV : bool;
  isRoot : bool;
  a0 : Z;
  fr_skipMove : Z;
  fr_depth : Z;
  fr_beta : Z;
  fr_ttValue : Z;
  improving : bool
}.

(** The variables of the move loop and what the loop leaves to the end
    of [negamax]. *)
Record Loop : Type := {
  lp_ml : MoveList;
  lp_alpha : Z;
  lp_bestScore : Z;
  lp_bestMove : Z;
  lp_numMoves : Z;
  lp_pv : PV;
  lp_childPv : PV;
  lp_st : State
}.

(** The mate-distance part of the preamble (lines 131-144). *)
Definition negamax_window (isRoot : bool) (alpha beta : Z) (st : State)
  : Ctl (Z * Z) :=
  if isRoot then Next (alpha, beta)
  else
    let b := board (data st) in
    let p := ply (data st) in
    if isRepetition b || isMaterialDraw b || (halfMove b >? 99)
    then Return (0, [], st)
    else if p >? MAX_DEPTH - 1 then Return (Evaluate b, [], st)
    else
      let alpha := Z.max alpha (- CHECKMATE + p) in
      let beta := Z.min beta (CHECKMATE - p - 1) in
      if alpha >=? beta then Return (alpha, [], st) else Next (alpha, beta).

(** The evaluation the pruning block works with (lines 174-178). *)
Definition prune_eval (ttValue depth eval p : Z) : Z :=
  if negb (ttValue =? 0) && (TTDepth ttValue >=? depth) then
    let ttEvalFromScore := TTScore ttValue p in
    if TTFlag ttValue =? (if ttEvalFromScore >? eval then TT_LOWER else TT_UPPER)
    then ttEvalFromScore else eval
  else eval.

(** Reverse futility pruning and null-move pruning (lines 180-204);
    what goes on is the child [PV] and the state. *)
Definition negamax_prune (self : Z -> Z -> Z -> State -> Res Result)
           (skip depth beta eval0 ttValue : Z) (st : State)
  : Res (Ctl (PV * State)) :=
  let d := data st in
  let p := ply d in
  let eval := prune_eval ttValue depth eval0 p in
  if (depth <=? 6) && (eval - FUTILITY depth >=? beta) && (eval <? MATE_BOUND)
  then Ok (Return (eval, [], st))
  else if (depth >=? 3) && negb (aget (moves d) (p - 1) =? NULL_MOVE)
          && (skip =? 0) && (eval >=? beta) && hasNonPawn (board d)
  then
    let R := 3 + Z.quot depth 6 + Z.min (Z.quot (eval - beta) 200) 3 in
    let R := if R >? depth then depth else R in
    '(r, childPv, st1) ← self (- beta) (- beta + 1) (depth - R) (push_null st);
    let score := - r in
    let st2 := pop_null st1 in
    if is_stopped st2 then Ok (Return (0, [], st2))
    else if score >=? beta then Ok (Return (beta, [], st2))
    else Ok (Next (childPv, st2))
  else Ok (Next ([], st)).

(** The move is passed over by late-move or exchange pruning (lines
    220-226). *)
Definition negamax_pruned (fr : Frame) (b : Board) (bestScore numMoves move : Z)
  : bool :=
  let tactical := negb (movePromo move =? 0) || moveCapture move in
  negb (isPV fr) && (bestScore >? - MATE_BOUND)
  && (((fr_depth fr <=? 8) && negb tactical
       && (numMoves >=? LMP (b2z (improving fr)) (fr_depth fr)))
      || (see b move <? SEE (b2z tactical) (fr_depth fr))).

(** The condition of the singular-extension search (lines 229-230). *)
Definition singular_candidate (fr : Frame) (p move : Z) : bool :=
  (fr_depth fr >=? 8) && (fr_skipMove fr =? 0) && negb (isRoot fr)
  && (move =? TTMove (fr_ttValue fr))
  && (TTDepth (fr_ttValue fr) >=? fr_depth fr - 3)
  && (Z.abs (TTScore (fr_ttValue fr) p) <? MATE_BOUND)
  && (TTFlag (fr_ttValue fr) =? TT_LOWER).

(** The singular-extension search (lines 228-242): the flag
    [singularExtension], the [PV] and the state go on. *)
Definition negamax_singular (self : Z -> Z -> Z -> State -> Res Result)
           (fr : Frame) (move : Z) (pv : PV) (st : State)
  : Res (Ctl (bool * PV * State)) :=
  let p := ply (data st) in
  if singular_candidate fr p move then
    let sBeta := Z.max (TTScore (fr_ttValue fr) p - fr_depth fr * 2) (- CHECKMATE) in
    let sDepth := Z.quot (fr_depth fr) 2 - 1 in
    '(score, pv', st1) ← self (sBeta - 1) sBeta sDepth (set_skip move st);
    let st2 := set_skip NULL_MOVE st1 in
    if score <? sBeta then Ok (Next (true, pv', st2))
    else if sBeta >=? fr_beta fr then Ok (Return (sBeta, pv', st2))
    else Ok (Next (false, pv', st2))
  else Ok (Next (false, pv, st)).

(** The reduction [R] of a move (lines 253-266). *)
Definition reduction (fr : Frame) (numMoves sc : Z) (tactical : bool) : Z :=
  if (fr_depth fr >=? 2) && (numMoves >? 1) && negb tactical then
    let R := LMR (Z.min (fr_depth fr) 63) (Z.min numMoves 63) in
    let R := R + b2z (negb (isPV fr)) + b2z (negb (improving fr))
             - b2z (sc >=? COUNTER) in
    let R := if sc >=? COUNTER then R - 1
             else R - Z.min 2 (Z.quot (sc - 149) 50) in
    Z.min (fr_depth fr - 1) (Z.max R 1)
  else 1.

(** The searches of one move (lines 268-275): the score, the child [PV]
    and the state. *)
Definition negamax_ladder (self : Z -> Z -> Z -> State -> Res Result)
           (fr : Frame) (alpha newDepth R numMoves : Z) (childPv : PV) (st : State)
  : Res Result :=
  '(score1, cpv1, st1) ←
    (if negb (R =? 1) then
       '(r, c, s) ← self (- alpha - 1) (- alpha) (newDepth - R) st; Ok (- r, c, s)
     else Ok (alpha + 1, childPv, st));
  '(score2, cpv2, st2) ←
    (if (negb (R =? 1) && (score1 >? alpha))
        || ((R =? 1) && (negb (isPV fr) || (numMoves >? 1))) then
       '(r, c, s) ← self (- alpha - 1) (- alpha) (newDepth - 1) st1; Ok (- r, c, s)
     else Ok (score1, cpv1, st1));
  if isPV fr
     && ((numMoves =? 1)
         || ((score2 >? alpha) && (isRoot fr || (score2 <? fr_beta fr)))) then
    '(r, c, s) ← self (- fr_beta fr) (- alpha) (newDepth - 1) st2; Ok (- r, c, s)
  else Ok (score2, cpv2, st2).

(** The loop over the moves before index [i] at a beta cutoff (lines
    302-307), [n] of them left from [j]. *)
Fixpoint bf_loop (n : nat) (j : Z) (ml : MoveList) (depth : Z) (d : SearchData)
  : SearchData :=
  match n with
  | O => d
  | S n' =>
      let m := ml_move ml j in
      bf_loop n' (j + 1) ml depth
              (if moveCapture m || negb (movePromo m =? 0) then d
               else addBFHeuristic d m depth)
  end.

(** The updates at a beta cutoff (lines 296-307). *)
Definition beta_cutoff (fr : Frame) (ml : MoveList) (i move : Z) (tactical : bool)
           (st : State) : State :=
  let d := data st in
  let d1 := if tactical then d
            else addHistoryHeuristic
                   (addCounter (addKiller d move) move (aget (moves d) (ply d - 1)))
                   move (fr_depth fr) in
  set_data st (bf_loop (Z.to_nat i) 0 ml (fr_depth fr) d1).

(** The move loop of [negamax] from index [i] (lines 211-312), with [k]
    iterations of fuel: it returns from [negamax], or leaves its
    variables to the end of the function. *)
Fixpoint negamax_loop (self : Z -> Z -> Z -> State -> Res Result) (fr : Frame)
         (k : nat) (i : Z) (lp : Loop) : Res (Ctl Loop) :=
  if negb (i <? ml_count (lp_ml lp)) then Ok (Next lp)
  else
    match k with
    | O => Fuel
    | S k' =>
        let ml := bubbleTopMove (lp_ml lp) i in
        let move := ml_move ml i in
        let st := lp_st lp in
        let skipped :=
          {| lp_ml := ml; lp_alpha := lp_alpha lp; lp_bestScore := lp_bestScore lp;
             lp_bestMove := lp_bestMove lp; lp_numMoves := lp_numMoves lp;
             lp_pv := lp_pv lp; lp_childPv := lp_childPv lp; lp_st := st |} in
        if fr_skipMove fr =? move then negamax_loop self fr k' (i + 1) skipped
        else if negamax_pruned fr (board (data st)) (lp_bestScore lp)
                               (lp_numMoves lp) move
        then negamax_loop self fr k' (i + 1) skipped
        else
          let tactical := negb (movePromo move =? 0) || moveCapture move in
          sing ← negamax_singular self fr move (lp_pv lp) st;
          match sing with
          | Return r => Ok (Return r)
          | Next (singularExtension, pv, st1) =>
              let numMoves := lp_numMoves lp + 1 in
              let st2 := push_move move st1 in
              let newDepth :=
                if singularExtension || negb (checkers (board (data st2)) =? 0)
                then fr_depth fr + 1 else fr_depth fr in
              let R := reduction fr numMoves (ml_score ml i) tactical in
              '(score, childPv, st3) ←
                negamax_ladder self fr (lp_alpha lp) newDepth R numMoves
                               (lp_childPv lp) st2;
              let st4 := pop_move move st3 in
              if is_stopped st4 then Ok (Return (0, pv, st4))
              else if score >? lp_bestScore lp then
                let alpha' := if score >? lp_alpha lp then score else lp_alpha lp in
                let pv' := if score >? lp_alpha lp then move :: childPv else pv in
                if alpha' >=? fr_beta fr then
                  Ok (Next {| lp_ml := ml; lp_alpha := alpha'; lp_bestScore := score;
                              lp_bestMove := move; lp_numMoves := numMoves;
                              lp_pv := pv'; lp_childPv := childPv;
                              lp_st := beta_cutoff fr ml i move tactical st4 |})
                else
                  negamax_loop self fr k' (i + 1)
                    {| lp_ml := ml; lp_alpha := alpha'; lp_bestScore := score;
                       lp_bestMove := move; lp_numMoves := numMoves;
                       lp_pv := pv'; lp_childPv := childPv; lp_st := st4 |}
              else
                negamax_loop self fr k' (i + 1)
                  {| lp_ml := ml; lp_alpha := lp_alpha lp;
                     lp_bestScore := lp_bestScore lp; lp_bestMove := lp_bestMove lp;
                     lp_numMoves := numMoves; lp_pv := pv; lp_childPv := childPv;
                     lp_st := st4 |}
          end
    end.

(** The bound stored with the result of a node (line 319). *)
Definition bound_of (bestScore beta a0 : Z) : Z :=
  if bestScore >=? beta then TT_LOWER
  else if bestScore <=? a0 then TT_UPPER
  else TT_EXACT.

(** The end of [negamax] (lines 314-326). *)
Definition negamax_finish (fr : Frame) (lp : Loop) : Res Result :=
  let st := lp_st lp in
  let d := data st in
  if ml_count (lp_ml lp) =? 0 then
    Ok (if negb (checkers (board d) =? 0) then - CHECKMATE + ply d else 0,
        lp_pv lp, st)
  else
    st' ← (if fr_skipMove fr =? 0 then
             let ttFlag := bound_of (lp_bestScore lp) (fr_beta fr) (a0 fr) in
             let st1 := log st (EvTTPut (stopped (params st)) (a0 fr) (fr_beta fr)
                                        (zobrist (board d)) (fr_depth fr)
                                        (lp_bestScore lp) ttFlag (lp_bestMove lp)
                                        (ply d) (aget (evals d) (ply d))) in
             '(_, t) ← TTPut (zobrist (board d)) (fr_depth fr) (lp_bestScore lp)
                             ttFlag (lp_bestMove lp) (ply d)
                             (aget (evals d) (ply d)) (table st);
             Ok (set_table st1 t)
           else Ok st);
    _ ← assert (lp_bestScore lp >=? - CHECKMATE);
    _ ← assert (lp_bestScore lp <=? CHECKMATE);
    Ok (lp_bestScore lp, lp_pv lp, st').

(** [negamax] past the table cutoff (lines 164-326): the node is
    searched, with the entry [ttValue] that was probed. *)
Definition negamax_search (self : Z -> Z -> Z -> State -> Res Result) (k : nat)
           (pvNode root : bool) (alpha0 skip depth alpha beta ttValue : Z)
           (st : State) : Res Result :=
  let b := board (data st) in
  let p := ply (data st) in
  let eval := static_eval ttValue b in
  let d := set_evals (data st) (aset (evals (data st)) p eval) in
  let impr := (p >=? 2) && (aget (evals d) p >? aget (evals d) (p - 2)) in
  _ ← assert (eval =? Evaluate b);
  let d := set_skipMove d (aset (skipMove d) (p + 1) NULL_MOVE) in
  let d := set_killers d (aset (aset (killers d) (2 * (p + 1)) NULL_MOVE)
                               (2 * (p + 1) + 1) NULL_MOVE) in
  let st := set_data st d in
  pr ← (if negb pvNode && (checkers b =? 0)
        then negamax_prune self skip depth beta eval ttValue st
        else Ok (Next ([], st)));
  match pr with
  | Return r => Ok r
  | Next (childPv, st) =>
      let fr := {| isPV := pvNode; isRoot := root; a0 := alpha0;
                   fr_skipMove := skip; fr_depth := depth; fr_beta := beta;
                   fr_ttValue := ttValue; improving := impr |} in
      lp ← negamax_loop self fr k 0
             {| lp_ml := generateMoves (data st); lp_alpha := alpha;
                lp_bestScore := - CHECKMATE; lp_bestMove := 0;
                lp_numMoves := 0; lp_pv := []; lp_childPv := childPv;
                lp_st := st |};
      match lp with
      | Return r => Ok r
      | Next lp' => negamax_finish fr lp'
      end
  end.

(** [negamax] from the table probe on (lines 149-326), the window
    being the one left by the preamble. *)
Definition negamax_node (self : Z -> Z -> Z -> State -> Res Result) (k : nat)
           (pvNode root : bool) (alpha0 skip depth alpha beta : Z) (st : State)
  : Res Result :=
  let b := board (data st) in
  let p := ply (data st) in
  ttValue ← (if negb (skip =? 0) then Ok NO_ENTRY
             else TTProbe (zobrist b) (table st));
  match negamax_tt_cutoff ttValue alpha beta depth p with
  | Some score => Ok (score, [], st)
  | None =>
      negamax_search self k pvNode root alpha0 skip depth alpha beta ttValue st
  end.

(** The body of [negamax]; [self] and [q] are the calls of [negamax]
    and [quiesce]. *)
Definition negamax_body (self : Z -> Z -> Z -> State -> Res Result)
           (q : Z -> Z -> State -> Res Result) (k : nat)
           (alpha beta depth : Z) (st : State) : Res Result :=
  let pvNode := negb (beta - alpha =? 1) in
  let root := ply (data st) =? 0 in
  let skip := aget (skipMove (data st)) (ply (data st)) in
  if depth =? 0 then q alpha beta st
  else
    let st := count_node st in
    match negamax_window root alpha beta st with
    | Return r => Ok r
    | Next (alpha', beta') =>
        negamax_node self k pvNode root alpha skip depth alpha' beta' (poll st)
    end.

Fixpoint negamax (fuel : nat) (alpha beta depth : Z) (st : State) : Res Result :=
  match fuel with
  | O => Fuel
  | S f => negamax_body (negamax f) (quiesce f) f alpha beta depth st
  end.

(** The window an iteration starts with (lines 89-91): delta, alpha,
    beta. *)
Definition aspiration_start (depth score : Z) : Z * Z * Z :=
  let delta := if depth >=? 5 then 10 else CHECKMATE in
  (delta, Z.max (score - delta) (- CHECKMATE), Z.min (score + delta) CHECKMATE).

(** The change of the window after a search that returned [score] (lines
    96-106): the next delta, alpha and beta, or nothing when the score is
    inside the window.  [delta], [alpha] and [beta] are [int]s:
    [alpha + beta], [alpha - delta], [beta + delta] and
    [delta += delta / 2] must not overflow. *)
Definition aspiration_widen (delta alpha beta score : Z)
  : Res (option (Z * Z * Z)) :=
  if score <=? alpha then
    _ ← assert (int_ok (alpha + beta));
    _ ← assert (int_ok (alpha - delta));
    _ ← assert (int_ok (delta + Z.quot delta 2));
    Ok (Some (delta + Z.quot delta 2, Z.max (alpha - delta) (- CHECKMATE),
              Z.quot (alpha + beta) 2))
  else if score >=? beta then
    _ ← assert (int_ok (beta + delta));
    _ ← assert (int_ok (delta + Z.quot delta 2));
    Ok (Some (delta + Z.quot delta 2, alpha, Z.min (beta + delta) CHECKMATE))
  else Ok None.

(** [while (!params->stopped)] of [Search] (lines 93-107), with [k]
    iterations of fuel. *)
Fixpoint aspiration_loop (fuel k : nat) (depth delta alpha beta score : Z)
         (pv : PV) (st : State) : Res Result :=
  if is_stopped st then Ok (score, pv, st)
  else
    match k with
    | O => Fuel
    | S k' =>
        '(score', pv', st') ← negamax fuel alpha beta depth st;
        widened ← aspiration_widen delta alpha beta score';
        match widened with
        | Some (delta', alpha', beta') =>
            aspiration_loop fuel k' depth delta' alpha' beta' score' pv' st'
        | None => Ok (score', pv', log st' (EvInfo depth score' pv'))
        end
    end.

(** The loop over the depths of [Search] (lines 88-108). *)
Fixpoint deepening_loop (fuel k : nat) (depth score : Z) (pv : PV) (st : State)
  : Res Result :=
  if negb ((depth <=? params_depth (params st)) && negb (is_stopped st))
  then Ok (score, pv, st)
  else
    match k with
    | O => Fuel
    | S k' =>
        let '(delta, alpha, beta) := aspiration_start depth score in
        '(score', pv', st') ← aspiration_loop fuel fuel depth delta alpha beta
                                              score pv st;
        deepening_loop fuel k' (depth + 1) score' pv' st'
    end.

(** [Search]; the lines printed are events of the trace. *)
Definition Search (fuel : nat) (st : State) : Res State :=
  let st := set_table st (TTClear (table st)) in
  let st := set_data st (initSearchData (data st)) in
  '(score, pv, st) ← negamax fuel (- CHECKMATE) CHECKMATE 1 st;
  let st := log st (EvInfo 1 score pv) in
  '(score, pv, st) ← deepening_loop fuel fuel 2 score pv st;
  entry ← TTProbe (zobrist (board (data st))) (table st);
  let st := set_data st (set_result (data st) score (TTMove entry)) in
  Ok (log st (EvBestMove (TTMove entry))).

(** A generated move list: a count that is not negative, and no null
    move among its moves. *)
Definition wf_moves (ml : MoveList) : Prop :=
  0 <= ml_count ml /\
  forall i, 0 <= i < ml_count ml -> ml_move ml i <> NULL_MOVE.

(** What the search relies on from move generation: the lists are well
    formed, and ordering a list keeps it so and keeps its count. *)
Record EngineLaws : Prop := {
  generate_wf : forall d, wf_moves (generateMoves d);
  bubble_count : forall ml i, ml_count (bubbleTopMove ml i) = ml_count ml;
  bubble_wf : forall ml i, wf_moves ml -> wf_moves (bubbleTopMove ml i)
}.

(** The bound recorded with a call of [ttPut] is the one the score, the
    beta of the node and the alpha at entry determine. *)
Definition put_bound_ok (e : Event) : Prop :=
  match e with
  | EvTTPut _ a0 beta _ _ score flag _ _ _ => flag = bound_of score beta a0
  | _ => True
  end.

(** The stop flag was clear at a call of [ttPut]. *)
Definition put_unstopped (e : Event) : Prop :=
  match e with
  | EvTTPut stop _ _ _ _ _ _ _ _ _ => stop = 0
  | _ => True
  end.

(** From [st] to [st'] the trace grew by events that satisfy [Q]. *)
Definition trace_grows (Q : Event -> Prop) (st st' : State) : Prop :=
  exists new, trace st' = new ++ trace st /\ Forall Q new.

(** Every call adds to the trace only events that satisfy [Q]. *)
Definition spec_q (Q : Event -> Prop) (q : Z -> Z -> State -> Res Result) : Prop :=
  forall alpha beta st r pv st',
    q alpha beta st = Ok (r, pv, st') -> trace_grows Q st st'.

Definition spec_n (Q : Event -> Prop) (self : Z -> Z -> Z -> State -> Res Result)
  : Prop :=
  forall alpha beta depth st r pv st',
    self alpha beta depth st = Ok (r, pv, st') -> trace_grows Q st st'.

(** The state of the move loop before index [i], seen from [st0]; under
    [strict], the stop flag is clear once a move has been searched. *)
Definition loop_inv (Q : Event -> Prop) (strict : Prop) (fr : Frame) (st0 : State)
           (i : Z) (lp : Loop) : Prop :=
  trace_grows Q st0 (lp_st lp) /\
  (strict ->
   wf_moves (lp_ml lp) /\ 0 <= lp_numMoves lp /\ 0 <= i /\
   (lp_numMoves lp = 0 ->
    lp_bestScore lp = - CHECKMATE /\ (fr_skipMove fr = 0 -> i = 0)) /\
   (lp_numMoves lp <> 0 -> stopped (params (lp_st lp)) = 0)).

(** What the loop leaves to the end of [negamax]. *)
Definition loop_exit (Q : Event -> Prop) (strict : Prop) (fr : Frame) (st0 : State)
           (lp : Loop) : Prop :=
  trace_grows Q st0 (lp_st lp) /\
  (strict -> fr_skipMove fr = 0 -> ml_count (lp_ml lp) <> 0 ->
   stopped (params (lp_st lp)) = 0).

(** An evaluation lies in the range of the scores that are no mate
    scores. *)
Definition eval_ok (e : Z) : Prop := - MATE_BOUND <= e <= MATE_BOUND.

(** A table word read as an entry: nothing, or a score field of at least
    [-CHECKMATE] with an evaluation in range. *)
Definition entry_ok (v : Z) : Prop :=
  v = 0 \/ (- CHECKMATE <= TTScore_raw v /\ eval_ok (TTEval v)).

(** The table has been allocated, with [2^POWER] buckets, and the words at
    its odd indices hold entries in range. *)
Definition table_ok (t : TTState) : Prop :=
  0 <= POWER t /\
  Z.of_nat (length (TRANSPOSITION_ENTRIES t)) = 2 * BUCKET_SIZE * 2 ^ POWER t /\
  forall n v, 0 <= n ->
    TRANSPOSITION_ENTRIES t !! Z.to_nat (2 * n + 1) = Some v -> entry_ok v.

(** What the score bounds rely on: the laws of the table header and of
    move generation, evaluations in range, a ply limit well below the
    distance between [MATE_BOUND] and [CHECKMATE]. *)
Record SearchLaws : Prop := {
  layout_laws : TTLayoutLaws L;
  engine_laws : EngineLaws;
  Evaluate_ok : forall b, eval_ok (Evaluate b);
  MAX_DEPTH_ok : 1 <= MAX_DEPTH <= 2000
}.

(** The table and the recorded evaluations are in range. *)
Definition search_inv (st : State) : Prop :=
  table_ok (table st) /\ forall j, eval_ok (aget (evals (data st)) j).

(** A call leaves the ply as it was, the excluded moves up to its ply as
    they were, and no excluded move at the next ply if there was none. *)
Definition frame (st st' : State) : Prop :=
  ply (data st') = ply (data st) /\
  (forall j, j <= ply (data st) ->
     aget (skipMove (data st')) j = aget (skipMove (data st)) j) /\
  (aget (skipMove (data st)) (ply (data st) + 1) = 0 ->
   aget (skipMove (data st')) (ply (data st) + 1) = 0).

(** The score bounds of a call of [quiesce] and of [negamax]. *)
Definition bounds_q (q : Z -> Z -> State -> Res Result) : Prop :=
  forall alpha beta st r pv st',
    search_inv st -> 0 <= ply (data st) <= MAX_DEPTH ->
    q alpha beta st = Ok (r, pv, st') ->
    search_inv st' /\ frame st st' /\
    - CHECKMATE + ply (data st) <= r <= CHECKMATE - ply (data st).

Definition bounds_n (self : Z -> Z -> Z -> State -> Res Result) : Prop :=
  forall alpha beta depth st r pv st',
    search_inv st -> 0 <= ply (data st) <= MAX_DEPTH ->
    alpha <= CHECKMATE - ply (data st) ->
    (ply (data st) = 0 -> - CHECKMATE <= alpha < beta /\ beta <= CHECKMATE) ->
    self alpha beta depth st = Ok (r, pv, st') ->
    search_inv st' /\ frame st st' /\
    - CHECKMATE <= r <= CHECKMATE - ply (data st) /\
    (aget (skipMove (data st)) (ply (data st)) = 0 ->
     - CHECKMATE + ply (data st) <= r).

(** The move loop of [negamax] before index [i], in a frame at ply [p]
    that started the loop in [st0]. *)
Definition bounds_inv (fr : Frame) (st0 : State) (i : Z) (lp : Loop) : Prop :=
  let p := ply (data st0) in
  search_inv (lp_st lp) /\ frame st0 (lp_st lp) /\
  aget (skipMove (data (lp_st lp))) (p + 1) = 0 /\
  wf_moves (lp_ml lp) /\ 0 <= i /\ 0 <= lp_numMoves lp /\
  - CHECKMATE + p <= lp_alpha lp < fr_beta fr /\
  - CHECKMATE <= lp_bestScore lp <= CHECKMATE - p /\
  (lp_numMoves lp = 0 ->
   lp_bestScore lp = - CHECKMATE /\ (fr_skipMove fr = 0 -> i = 0)) /\
  (lp_numMoves lp <> 0 -> - CHECKMATE + p <= lp_bestScore lp).

(** What the loop leaves to the end of [negamax]. *)
Definition bounds_exit (fr : Frame) (st0 : State) (lp : Loop) : Prop :=
  let p := ply (data st0) in
  search_inv (lp_st lp) /\ frame st0 (lp_st lp) /\
  - CHECKMATE <= lp_bestScore lp <= CHECKMATE - p /\
  (fr_skipMove fr = 0 -> ml_count (lp_ml lp) <> 0 ->
   - CHECKMATE + p <= lp_bestScore lp).

(** What a return from inside a frame at the ply of [st0] satisfies. *)
Definition bounds_ret (st0 : State) (res : Result) : Prop :=
  let '(r, _, st') := res in
  let p := ply (data st0) in
  search_inv st' /\ frame st0 st' /\ - CHECKMATE + p <= r <= CHECKMATE - p.

End SearchCode.

Arguments Return {P E A} r.
Arguments Next {P E A} a.

(** Sample data for the reference layout: a one-bucket table whose first
    slot holds hash 5 at depth 4, and runs of table operations. *)
Definition sample_table : TTState :=
  {| POWER := 0; SIZE := 32;
     TRANSPOSITION_ENTRIES := [5; ref_TTEntry 10 0 4 77 10; 0; 0] |}.

Definition sample_ops : list TTOp :=
  [OpInit 1; OpPut 32768 1 0 2 9 0 0; OpClear; OpPut 65536 2 0 2 9 0 0].

(** Two positions fill bucket 0, then a position of hash 0 is stored. *)
Definition zero_hash_ops : list TTOp :=
  [OpInit 1; OpPut 32768 1 0 2 9 0 0; OpPut 65536 2 0 2 9 0 0;
   OpPut 0 3 0 2 9 0 0].

(** The score a run returned. *)
Definition score_of {S : Type} (r : Res (Z * PV * S)) : Res Z :=
  match r with
  | Ok (s, _, _) => Ok s
  | Abort => Abort
  | Fuel => Fuel
  end.

(** The trace a run left. *)
Definition trace_of {P : Position} {E : Engine} (r : Res Result) : Res (list Event) :=
  match r with
  | Ok (_, _, st) => Ok (trace st)
  | Abort => Abort
  | Fuel => Fuel
  end.

(** The stop flag a run left. *)
Definition stopped_of {P : Position} {E : Engine} (r : Res Result) : Res Z :=
  match r with
  | Ok (_, _, st) => Ok (stopped (params st))
  | Abort => Abort
  | Fuel => Fuel
  end.

(** *** A small engine to run the search on

    Positions are nodes of a fixed tree; a board is the path from the
    root, latest node first.  A move holds its target node in the low six
    bits, then the promotion piece, the capture flag and the en-passant
    flag.  Pieces are numbered as in types.h (white pawn 0, ..., black
    queen 9), [PIECE_TYPE] halves the number. *)
Definition toy_node (b : list Z) : Z := hd 0 b.

Definition toy_move (target promo capture : Z) : Z :=
  target + 64 * promo + 1024 * capture.

Definition toy_eval (n : Z) : Z :=
  if n =? 0 then 50 else if n =? 1 then -300 else if n =? 2 then 20
  else if n =? 3 then 50 else if n =? 6 then 0 else if n =? 7 then -900
  else 0.

(** Nodes 0, 4 and 6 have moves: from 0 a capture to 1 and a quiet move
    to 2, from 4 (in check) a single quiet move to 5 (in check, no
    moves), from 6 a capturing promotion to a queen that leads to 7. *)
Definition toy_moves (n : Z) : list (Z * Z) :=
  if n =? 0 then [(toy_move 1 0 1, 10); (toy_move 2 0 0, 5)]
  else if n =? 4 then [(toy_move 5 0 0, 5)]
  else if n =? 6 then [(toy_move 7 8 1, 5)]
  else [].

Definition toy_noisy (n : Z) : list (Z * Z) :=
  if n =? 0 then [(toy_move 1 0 1, 10)]
  else if n =? 6 then [(toy_move 7 8 1, 5)]
  else [].

Definition toy_list (l : list (Z * Z)) : MoveList :=
  {| ml_count := Z.of_nat (length l); ml_moves := map fst l; ml_scores := map snd l |}.

#[local] Instance toy_position : Position := {|
  Board := list Z;
  zobrist := fun b => toy_node b + 1;
  checkers := fun b => if (toy_node b =? 4) || (toy_node b =? 5) then 1 else 0;
  halfMove := fun b => if toy_node b =? 3 then 100 else 0;
  side := fun b => Z.of_nat (length b) mod 2;
  xside := fun b => (Z.of_nat (length b) + 1) mod 2;
  squares := fun _ _ => 0;
  isRepetition := fun _ => false;
  isMaterialDraw := fun _ => false;
  hasNonPawn := fun _ => true;
  Evaluate := fun b => toy_eval (toy_node b);
  see := fun _ _ => 0;
  makeMove := fun m b => (m mod 64) :: b;
  undoMove := fun _ b => tl b;
  nullMove := fun b => toy_node b :: b;
  undoNullMove := fun b => tl b;
  moveStart := fun _ => 0;
  moveEnd := fun m => m mod 64;
  movePromo := fun m => (m / 64) mod 16;
  moveCapture := fun m => (m / 1024) mod 2 =? 1;
  moveEP := fun m => (m / 2048) mod 2 =? 1;
  NO_PIECE := 12;
  PAWN := fun s => s;
  QUEEN := fun s => 8 + s;
  PIECE_TYPE := fun p => p / 2;
  STATIC_MATERIAL_VALUE := fun t => nth (Z.to_nat t) [100; 325; 325; 550; 1000; 30000] 0
|}.

(** The outside world is a request to stop, which [communicate] passes on;
    the move lists are generated in order. *)
#[local] Instance toy_engine : Engine := {|
  Env := bool;
  generateMoves := fun d => toy_list (toy_moves (toy_node (board d)));
  generateQuiesceMoves := fun d => toy_list (toy_noisy (toy_node (board d)));
  bubbleTopMove := fun ml _ => ml;
  communicate := fun e p =>
    (e, if e then {| startTime := startTime p; endTime := endTime p;
                     params_depth := params_depth p; timeset := timeset p;
                     movesToGo := movesToGo p; stopped := 1; quit := quit p |}
        else p);
  LMR := fun _ _ => 1;
  MAX_DEPTH := 128;
  COUNTER := 700000
|}.

(** A one-bucket table with nothing stored. *)
Definition toy_table : TTState :=
  {| POWER := 0; SIZE := 32; TRANSPOSITION_ENTRIES := [0; 0; 0; 0] |}.

(** The state at node [n], [p] plies from the root, with the stop flag
    [stop] and the move [skip] excluded at this ply. *)
Definition toy_state (n p stop skip : Z) : State :=
  {| params := {| startTime := 0; endTime := 0; params_depth := 3; timeset := 0;
                  movesToGo := 0; stopped := stop; quit := 0 |};
     data := {| data_score := 0; data_bestMove := 0; board := [n]; ply := p;
                nodes := 0; seldepth := 0; skipMove := aset ∅ p skip;
                evals := ∅; moves := ∅; killers := ∅; counters := ∅;
                hh := ∅; bf := ∅ |};
     table := toy_table;
     env := false;
     trace := [] |}.

(** The state at node 0 whose table holds, for node 0, an exact score 77
    found at depth 0 with static evaluation 50. *)
Definition toy_hit_state (p : Z) : State :=
  set_table (toy_state 0 p 0 0)
            {| POWER := 0; SIZE := 32;
               TRANSPOSITION_ENTRIES := [1; ref_TTEntry 77 2 0 0 50; 0; 0] |}.

(** The same with the score found at depth 3. *)
Definition toy_deep_state (p : Z) : State :=
  set_table (toy_state 0 p 0 0)
            {| POWER := 0; SIZE := 32;
               TRANSPOSITION_ENTRIES := [1; ref_TTEntry 77 2 3 0 50; 0; 0] |}.

(** The state at node [n] in which the next node counted polls the
    outside world, which asks to stop. *)
Definition toy_polling_state (n p : Z) : State :=
  let st := toy_state n p 0 0 in
  set_env (set_data st (set_counts (data st) 2047 0)) true.

(** The same one ply from the root, after a capture that led to node 0. *)
Definition toy_polling_child : State :=
  let st := toy_polling_state 0 1 in
  set_data st (set_moves (data st) (aset ∅ 0 (toy_move 0 0 1))).

(** The frame of the root at depth 1 with the window [-1000, 1000], and
    the variables of its move loop before the first move. *)
Definition toy_root_frame : Frame :=
  {| isPV := true; isRoot := true; a0 := -1000; fr_skipMove := 0;
     fr_depth := 1; fr_beta := 1000; fr_ttValue := 0; improving := false |}.

Definition toy_root_loop (st : State) : Loop :=
  {| lp_ml := toy_list (toy_moves 0); lp_alpha := -1000;
     lp_bestScore := - CHECKMATE; lp_bestMove := 0; lp_numMoves := 0;
     lp_pv := []; lp_childPv := []; lp_st := st |}.


(** *** search.c: the score of an info line *)

(** What [printInfo] prints after [score]: [mate n], [mate -n] (a minus
    sign followed by [n]) or [cp s]. *)
Inductive InfoScore : Type :=
| ScoreMate (movesToMate : Z)
| ScoreMated (movesToMate : Z)
| ScoreCp (score : Z).

Definition printInfo_score (score : Z) : InfoScore :=
  if score >? MATE_BOUND then
    ScoreMate (Z.quot (CHECKMATE - score) 2 + Z.land (CHECKMATE - score) 1)
  else if score <? - MATE_BOUND then
    ScoreMated (Z.quot (CHECKMATE + score) 2 - Z.land (CHECKMATE - score) 1)
  else ScoreCp score.

(** *** eval.c: game phase and tapered scores *)

(** The macros [scoreMG] and [scoreEG] of eval.h and the population count
    [bits] of bits.h are not among the sources. *)
Class EvalTerms : Type := {
  bits : Z -> Z;
  scoreMG : Z -> Z;
  scoreEG : Z -> Z
}.

Definition MAX_PHASE : Z := 24.

Definition phaseMultipliers (i : Z) : Z :=
  nth (Z.to_nat i) [0; 0; 1; 1; 1; 1; 2; 2; 4; 4; 0; 0] 0.

Section Eval.
Context {T : EvalTerms}.

(** The loop of [getPhase] over the pieces [i], [n] of them left;
    [pieces] is [board->pieces]. *)
Fixpoint getPhase_loop (n : nat) (i : Z) (pieces : Z -> Z) (currentPhase : Z) : Z :=
  match n with
  | O => currentPhase
  | S n' =>
      getPhase_loop n' (i + 1) pieces
                    (currentPhase + phaseMultipliers i * bits (pieces i))
  end.

(** [getPhase]; the left shift of a negative [int] is undefined in C. *)
Definition getPhase (pieces : Z -> Z) : Res Z :=
  let currentPhase := MAX_PHASE - getPhase_loop 8 2 pieces 0 in
  _ ← assert (0 <=? currentPhase);
  Ok (Z.quot (Z.shiftl currentPhase 8 + Z.quot MAX_PHASE 2) MAX_PHASE).

(** [taper] *)
Definition taper (score phase : Z) : Z :=
  Z.quot (scoreMG score * (256 - phase) + scoreEG score * phase) 256.

End Eval.

(** *** perft.c *)

Definition INT64_MAX : Z := 9223372036854775807.
Definition INT64_MIN : Z := -9223372036854775808.

(** What [makeMove] does, [undoMove] undoes, and so for the null move. *)
Record PositionLaws {P : Position} : Prop := {
  undo_make : forall m b, undoMove m (makeMove m b) = b;
  undo_null : forall b, undoNullMove (nullMove b) = b
}.

Section Perft.
Context {P : Position} {E : Engine}.

(** The loop of [perft] over the moves from index [i], [n] of them left;
    [self] is the recursive call.  [depth - 1] for the least [int] and a
    sum outside the 64-bit integers are undefined in C. *)
Fixpoint perft_loop (self : Z -> SearchData -> Res (Z * SearchData)) (n : nat)
         (i : Z) (ml : MoveList) (depth nodes : Z) (d : SearchData)
  : Res (Z * SearchData) :=
  match n with
  | O => Ok (nodes, d)
  | S n' =>
      let m := ml_move ml i in
      _ ← assert (INT32_MIN <? depth);
      '(r, d1) ← self (depth - 1) (set_board d (makeMove m (board d)));
      _ ← assert ((INT64_MIN <=? nodes + r) && (nodes + r <=? INT64_MAX));
      perft_loop self n' (i + 1) ml depth (nodes + r)
                 (set_board d1 (undoMove m (board d1)))
  end.

(** [perft] *)
Fixpoint perft (fuel : nat) (depth : Z) (d : SearchData) : Res (Z * SearchData) :=
  match fuel with
  | O => Fuel
  | S f =>
      if depth =? 0 then Ok (1, d)
      else
        let ml := generateMoves d in
        if depth =? 1 then Ok (ml_count ml, d)
        else perft_loop (perft f) (Z.to_nat (ml_count ml)) 0 ml depth 0 d
  end.

(** The loop of [PerftTest]: the total so far and the lines printed,
    a move and its count each, latest first. *)
Fixpoint PerftTest_loop (fuel n : nat) (i : Z) (ml : MoveList) (depth total : Z)
         (lines : list (Z * Z)) (d : SearchData)
  : Res (Z * list (Z * Z) * SearchData) :=
  match n with
  | O => Ok (total, lines, d)
  | S n' =>
      let m := ml_move ml i in
      _ ← assert (INT32_MIN <? depth);
      '(nodes, d1) ← perft fuel (depth - 1) (set_board d (makeMove m (board d)));
      _ ← assert ((INT64_MIN <=? total + nodes) && (total + nodes <=? INT64_MAX));
      PerftTest_loop fuel n' (i + 1) ml depth (total + nodes) ((m, nodes) :: lines)
                     (set_board d1 (undoMove m (board d1)))
  end.

(** [PerftTest]: the total and the lines printed, first line first.  The
    search data is a local variable of which the board and the ply are
    set: [d0] is what the rest of it holds.  [duration] is the time the
    clock measured, in microseconds; the last line printed divides by
    it. *)
Definition PerftTest (fuel : nat) (depth : Z) (b : Board) (d0 : SearchData)
           (duration : Z) : Res (Z * list (Z * Z)) :=
  let d := set_ply (set_board d0 b) 0 in
  let ml := generateMoves d in
  '(total, lines, _) ← PerftTest_loop fuel (Z.to_nat (ml_count ml)) 0 ml depth 0 [] d;
  _ ← assert ((INT64_MIN <=? total * 1000000) && (total * 1000000 <=? INT64_MAX)
              && negb (duration =? 0));
  Ok (total, rev lines).

(** The number of sequences of [n] moves from the position of [d]: what
    [perft] is to count. *)
Fixpoint leaves_from (leaves : SearchData -> Z) (n : nat) (i : Z) (ml : MoveList)
         (d : SearchData) : Z :=
  match n with
  | O => 0
  | S n' =>
      leaves (set_board d (makeMove (ml_move ml i) (board d)))
      + leaves_from leaves n' (i + 1) ml d
  end.

Fixpoint leaves (n : nat) (d : SearchData) : Z :=
  match n with
  | O => 1
  | S n' =>
      let ml := generateMoves d in
      leaves_from (leaves n') (Z.to_nat (ml_count ml)) 0 ml d
  end.

End Perft.

(** *** The output of a search *)

(** The event is a call of [ttPut]. *)
Definition is_put (e : Event) : Prop :=
  match e with
  | EvTTPut _ _ _ _ _ _ _ _ _ _ => True
  | _ => False
  end.

(** The depths of the info lines of a trace, latest first. *)
Fixpoint info_depths (tr : list Event) : list Z :=
  match tr with
  | [] => []
  | EvInfo depth _ _ :: tr' => depth :: info_depths tr'
  | _ :: tr' => info_depths tr'
  end.

(** [delta] stays an [int] that can be taken from any alpha through [k]
    widenings of the window, each of which adds half of it. *)
Definition delta_fits (delta : Z) (k : nat) : Prop :=
  delta * 3 ^ Z.of_nat k <= (INT32_MAX - CHECKMATE) * 2 ^ Z.of_nat k.

(** *** More sample data *)

(** An engine over the sample positions in which every position has one
    move, to node 1. *)
Definition loop_engine : Engine (P := toy_position) := {|
  Env := bool;
  generateMoves := fun _ => toy_list [(toy_move 1 0 0, 0)];
  generateQuiesceMoves := fun _ => toy_list [];
  bubbleTopMove := fun ml _ => ml;
  communicate := fun e p => (e, p);
  LMR := fun _ _ => 1;
  MAX_DEPTH := 128;
  COUNTER := 700000
|}.

(** A sample of the terms of the evaluation: scores packed as the
    middlegame value plus 65536 times the endgame value, the population
    count of the low 64 bits. *)
Definition sample_bits (bb : Z) : Z :=
  fold_right (fun i acc => b2z (Z.testbit bb (Z.of_nat i)) + acc) 0 (seq 0 64).

#[local] Instance sample_terms : EvalTerms := {|
  bits := sample_bits;
  scoreMG := fun s => to_int16 (s mod 65536);
  scoreEG := fun s => to_int16 (((s + 32768) / 65536) mod 65536)
|}.

(** The pieces at the start of a game, by piece number. *)
Definition start_pieces (i : Z) : Z :=
  nth (Z.to_nat i)
      [0x00FF000000000000; 0x000000000000FF00;
       0x4200000000000000; 0x0000000000000042;
       0x2400000000000000; 0x0000000000000024;
       0x8100000000000000; 0x0000000000000081;
       0x0800000000000000; 0x0000000000000008;
       0x1000000000000000; 0x0000000000000010] 0.

(** *** What a call of the search leaves of the search data *)

Section SearchWalk.
Context {L : TTLayout} {P : Position} {E : Engine}.

(** Two search data agree on the position: the ply, the board, the
    counts and the moves played. *)
Definition same_pos (d d' : SearchData) : Prop :=
  ply d' = ply d /\ board d' = board d /\ nodes d' = nodes d /\
  seldepth d' = seldepth d /\ moves d' = moves d.

(** From [st] to [st'] the ply is the same, and so is the board when
    moves are undone as they were made; [seldepth] has not gone down and
    has not passed [MAX_DEPTH] unless it or the ply had before, and the
    moves played before the ply of [st] are the same. *)
Definition walk (st st' : State) : Prop :=
  ply (data st') = ply (data st) /\
  (PositionLaws -> board (data st') = board (data st)) /\
  seldepth (data st) <= seldepth (data st') /\
  seldepth (data st')
    <= Z.max (Z.max (seldepth (data st)) (ply (data st))) MAX_DEPTH /\
  forall j, j < ply (data st) ->
    aget (moves (data st')) j = aget (moves (data st)) j.

(** In [st], [walk] from [st0] and past the count of the node of [st0]. *)
Definition walk_in (st0 st : State) : Prop :=
  walk st0 st /\ ply (data st0) <= seldepth (data st).

(** What a call from [st] returns: its principal variation does not
    reach beyond ply [MAX_DEPTH]. *)
Definition walk_ret (st : State) (res : Result) : Prop :=
  let '(_, pv, st') := res in
  walk_in st st' /\ Z.of_nat (length pv) <= Z.max 0 (MAX_DEPTH - ply (data st)).

Definition walk_q (q : Z -> Z -> State -> Res Result) : Prop :=
  forall alpha beta st res, q alpha beta st = Ok res -> walk_ret st res.

Definition walk_n (self : Z -> Z -> Z -> State -> Res Result) : Prop :=
  forall alpha beta depth st res,
    self alpha beta depth st = Ok res -> walk_ret st res.

(** The variables of the move loop of [negamax], seen from the state
    [st0] at the entry of the call. *)
Definition walk_inv (st0 : State) (lp : Loop) : Prop :=
  walk_in st0 (lp_st lp) /\
  Z.of_nat (length (lp_pv lp)) <= MAX_DEPTH - ply (data st0) /\
  Z.of_nat (length (lp_childPv lp)) <= MAX_DEPTH - ply (data st0) - 1.

End SearchWalk.

(** *** The frames of a search *)

Section SearchFrames.
Context {L : TTLayout} {P : Position} {E : Engine}.

(** The beta a call of [negamax] goes on with after its preamble (lines
    131-144): the beta it was given at the root, and elsewhere that beta
    lowered to [CHECKMATE - ply - 1] by mate-distance pruning. *)
Definition node_beta (beta : Z) (st : State) : Z :=
  if ply (data st) =? 0 then beta
  else Z.min beta (CHECKMATE - ply (data st) - 1).

(** The event is the call of [ttPut] that ends a call of [negamax]: it
    carries the alpha the call was given, the beta the call went on
    with, its depth, the score it returned, and the bound these
    select. *)
Definition put_of_call (e : Event) : Prop :=
  exists fuel alpha beta depth st r pv st',
    negamax fuel alpha beta depth st = Ok (r, pv, st') /\
    match e with
    | EvTTPut _ alpha0 beta' _ d score flag _ _ _ =>
        alpha0 = alpha /\ beta' = node_beta beta st /\ d = depth /\
        score = r /\ flag = bound_of r (node_beta beta st) alpha
    | _ => False
    end.

(** Recursive calls that never return: a frame run with them returns
    only if it searches no child. *)
Definition no_child_q : Z -> Z -> State -> Res Result := fun _ _ _ => Fuel.

Definition no_child_n : Z -> Z -> Z -> State -> Res Result :=
  fun _ _ _ _ => Fuel.

(** Two states hold the same search data and the same table; the
    parameters (the stop flag among them), the outside world and the
    trace may differ. *)
Definition same_search (st1 st2 : State) : Prop :=
  data st1 = data st2 /\ table st1 = table st2.

Definition same_loop (lp1 lp2 : Loop) : Prop :=
  lp_ml lp1 = lp_ml lp2 /\ lp_alpha lp1 = lp_alpha lp2 /\
  lp_bestScore lp1 = lp_bestScore lp2 /\ lp_bestMove lp1 = lp_bestMove lp2 /\
  lp_numMoves lp1 = lp_numMoves lp2 /\ lp_pv lp1 = lp_pv lp2 /\
  lp_childPv lp1 = lp_childPv lp2 /\ same_search (lp_st lp1) (lp_st lp2).

(** [delta] after [k] widenings of the window (line 106). *)
Fixpoint widened_delta (k : nat) (delta : Z) : Z :=
  match k with
  | O => delta
  | S k' => widened_delta k' (delta + Z.quot delta 2)
  end.

End SearchFrames.
(** ** Part II: theorems *)

(** Case analysis on the integer comparisons of the goal. *)
Ltac zcases :=
  repeat match goal with
         | |- context [Z.gtb ?a ?b] => destruct (Z.gtb_spec a b)
         | |- context [Z.geb ?a ?b] => destruct (Z.geb_spec a b)
         | |- context [Z.ltb ?a ?b] => destruct (Z.ltb_spec a b)
         | |- context [Z.leb ?a ?b] => destruct (Z.leb_spec a b)
         | |- context [Z.eqb ?a ?b] => destruct (Z.eqb_spec a b)
         end.

(** *** The result monad *)

Lemma bind_Ok {A B : Type} (m : Res A) (k : A -> Res B) (b : B) :
  (m ≫= k) = Ok b -> exists a, m = Ok a /\ k a = Ok b.
Proof.
  destruct m as [a| |]; simpl; intros H; try discriminate.
  exists a. split; [reflexivity | exact H].
Qed.

Lemma assert_Ok (b : bool) (u : unit) : assert b = Ok u -> b = true.
Proof. destruct b; simpl; [reflexivity | discriminate]. Qed.

(** *** Reading and writing table words *)

Section TranspositionFacts.
Context {L : TTLayout}.

Lemma tt_get_key (tbl : list Z) (idx : Z) (j : nat) :
  bucket_in tbl idx -> Z.of_nat j < BUCKET_SIZE ->
  tt_get tbl (idx + 2 * Z.of_nat j) = Ok (slot_key tbl idx j).
Proof.
  intros [H0 H1] Hj. unfold tt_get, slot_key.
  destruct (Z.ltb_spec (idx + 2 * Z.of_nat j) 0) as [Hneg|_]; [lia|].
  destruct (lookup_lt_is_Some_2 tbl (Z.to_nat (idx + 2 * Z.of_nat j))) as [v Hv];
    [lia|].
  rewrite Hv. reflexivity.
Qed.

Lemma tt_get_val (tbl : list Z) (idx : Z) (j : nat) :
  bucket_in tbl idx -> Z.of_nat j < BUCKET_SIZE ->
  tt_get tbl (idx + 2 * Z.of_nat j + 1) = Ok (slot_val tbl idx j).
Proof.
  intros [H0 H1] Hj. unfold tt_get, slot_val.
  destruct (Z.ltb_spec (idx + 2 * Z.of_nat j + 1) 0) as [Hneg|_]; [lia|].
  destruct (lookup_lt_is_Some_2 tbl (Z.to_nat (idx + 2 * Z.of_nat j + 1)))
    as [v Hv]; [lia|].
  rewrite Hv. reflexivity.
Qed.

Lemma first_hit_unique (tbl : list Z) (idx hash : Z) (j1 j2 : nat) :
  first_hit tbl idx hash j1 -> first_hit tbl idx hash j2 ->
  (slot_key tbl idx j1 = 0 \/ slot_key tbl idx j1 = hash) ->
  (slot_key tbl idx j2 = 0 \/ slot_key tbl idx j2 = hash) ->
  j1 = j2.
Proof.
  intros F1 F2 K1 K2.
  destruct (Nat.lt_trichotomy j1 j2) as [Hlt|[Heq|Hgt]]; [|exact Heq|].
  - destruct (F2 j1 Hlt) as [A B]. destruct K1; contradiction.
  - destruct (F1 j2 Hgt) as [A B]. destruct K2; contradiction.
Qed.

Lemma TTPut_scan_spec (laws : TTLayoutLaws L) (tbl : list Z)
      (idx hash depth flag : Z) :
  bucket_in tbl idx ->
  forall (n j0 : nat) (rIdx rDepth : Z),
    Z.of_nat j0 + Z.of_nat n = BUCKET_SIZE ->
    (j0 = O -> (0 < n)%nat) ->
    first_hit tbl idx hash j0 ->
    scan_inv tbl idx j0 rIdx rDepth ->
    exists r,
      TTPut_scan tbl hash depth flag n (idx + 2 * Z.of_nat j0) rIdx rDepth = Ok r /\
      scan_answer tbl idx hash depth flag r.
Proof.
  intros Hin. induction n as [|n IH]; intros j0 rIdx rDepth Hsum Hpos Hfirst Hinv.
  - (* every slot passed: the candidate is evicted *)
    simpl. exists (ScanSlot rIdx). split; [reflexivity|].
    destruct Hinv as (jm & HrIdx & [(Hj0 & _)|(Hjm & HrD & Hmin & Hstrict)]).
    { specialize (Hpos Hj0). lia. }
    repeat split.
    + intros j Hj Fj Kj. destruct (Hfirst j) as [A _]; [lia | contradiction].
    + intros j Hj Fj Kj Kh. destruct (Hfirst j) as [_ B]; [lia | contradiction].
    + intros _. exists jm. repeat split; [lia | congruence | | exact Hstrict].
      intros j' Hj'. apply Hmin. lia.
  - simpl.
    assert (Hj0 : Z.of_nat j0 < BUCKET_SIZE) by lia.
    rewrite (tt_get_key tbl idx j0 Hin Hj0). simpl.
    destruct (Z.eqb_spec (slot_key tbl idx j0) 0) as [Hz|Hnz].
    + (* an empty slot *)
      exists (ScanSlot (idx + 2 * Z.of_nat j0)). split; [reflexivity|].
      repeat split.
      * intros j Hj Fj Kj.
        rewrite (first_hit_unique tbl idx hash j j0); auto.
      * intros j Hj Fj Kj Kh.
        assert (j = j0) by (apply (first_hit_unique tbl idx hash); auto).
        subst j. contradiction.
      * intros Hall. destruct (Hall j0 Hj0) as [A _]. contradiction.
    + rewrite (tt_get_val tbl idx j0 Hin Hj0). simpl.
      destruct (Z.eqb_spec (slot_key tbl idx j0) hash) as [Hh|Hnh].
      * (* the slot of this hash *)
        exists (if (TTDepth (slot_val tbl idx j0) >? depth)
                   && negb (flag =? TT_EXACT)
                then ScanReturn (slot_val tbl idx j0)
                else ScanSlot (idx + 2 * Z.of_nat j0)).
        split.
        { destruct ((TTDepth (slot_val tbl idx j0) >? depth)
                    && negb (flag =? TT_EXACT)); reflexivity. }
        repeat split.
        -- intros j Hj Fj Kj.
           assert (j = j0) by (apply (first_hit_unique tbl idx hash); auto).
           subst j. contradiction.
        -- intros j Hj Fj Kj Kh.
           assert (j = j0) by (apply (first_hit_unique tbl idx hash); auto).
           subst j. reflexivity.
        -- intros Hall. destruct (Hall j0 Hj0) as [_ B]. contradiction.
      * (* another position: keep the shallowest so far *)
        assert (Hfirst' : first_hit tbl idx hash (S j0)).
        { intros j' Hj'. destruct (Nat.eq_dec j' j0) as [->|Hne];
            [split; assumption | apply Hfirst; lia]. }
        replace (idx + 2 * Z.of_nat j0 + 2) with (idx + 2 * Z.of_nat (S j0)) by lia.
        pose proof (TTDepth_int L laws (slot_val tbl idx j0)) as Hd0.
        destruct (Z.ltb_spec (TTDepth (slot_val tbl idx j0)) rDepth) as [Hlt|Hge].
        -- apply IH; [lia | intros; discriminate | exact Hfirst' |].
           exists j0. split; [reflexivity|]. right.
           destruct Hinv as (jm & HrIdx & [(Hz0 & Hzm & HrD)|(Hjm & HrD & Hmin & Hstrict)]).
           ++ subst j0. repeat split; [lia | | intros j' Hj'; lia].
              intros j' Hj'. assert (j' = O) by lia. subst j'. lia.
           ++ repeat split; [lia | |].
              ** intros j' Hj'. destruct (Nat.eq_dec j' j0) as [->|Hne]; [lia|].
                 specialize (Hmin j'). lia.
              ** intros j' Hj'. specialize (Hmin j'). lia.
        -- apply IH; [lia | intros; discriminate | exact Hfirst' |].
           destruct Hinv as (jm & HrIdx & [(Hz0 & Hzm & HrD)|(Hjm & HrD & Hmin & Hstrict)]).
           ++ subst j0 jm. exists O. split; [exact HrIdx|]. right.
              unfold INT32_MAX in *.
              repeat split; [lia | | | intros j' Hj'; lia].
              ** subst rDepth. simpl in *. unfold INT32_MAX in *. lia.
              ** intros j' Hj'. assert (j' = O) by lia. subst j'. lia.
           ++ exists jm. split; [exact HrIdx|]. right.
              repeat split; [lia | exact HrD | | exact Hstrict].
              intros j' Hj'. destruct (Nat.eq_dec j' j0) as [->|Hne]; [lia|].
              apply Hmin. lia.
Qed.

End TranspositionFacts.

Section TranspositionPolicy.
Context {L : TTLayout}.

Lemma scan_inv_start (tbl : list Z) (idx : Z) :
  scan_inv tbl idx 0 idx INT32_MAX.
Proof. exists O. split; [lia|]. left. repeat split. Qed.

Lemma first_hit_start (tbl : list Z) (idx hash : Z) : first_hit tbl idx hash 0.
Proof. intros j' Hj'. lia. Qed.

(** C1. [TTPut] scans the bucket of [hash] in order.  The first slot that
    is empty or holds [hash] decides: an empty slot is written; a slot
    holding [hash] is written, unless its stored depth is greater than
    the incoming depth and the incoming bound is not [TT_EXACT], in which
    case the stored entry is returned and the table is left as it was.
    When no slot is empty or holds [hash], the first slot of least stored
    depth is written. *)
Theorem TTPut_replacement_policy (laws : TTLayoutLaws L)
        (hash depth score flag move ply eval : Z) (t : TTState) :
  let tbl := TRANSPOSITION_ENTRIES t in
  let idx := TTIdx (POWER t) hash in
  let put := TTPut hash depth score flag move ply eval t in
  let store j :=
    TTPut_store (idx + 2 * Z.of_nat j) hash depth score flag move ply eval t in
  bucket_in tbl idx ->
  (forall j, Z.of_nat j < BUCKET_SIZE -> first_hit tbl idx hash j ->
     slot_key tbl idx j = 0 -> put = store j) /\
  (forall j, Z.of_nat j < BUCKET_SIZE -> first_hit tbl idx hash j ->
     slot_key tbl idx j <> 0 -> slot_key tbl idx j = hash ->
     put = if (TTDepth (slot_val tbl idx j) >? depth) && negb (flag =? TT_EXACT)
           then Ok (slot_val tbl idx j, t)
           else store j) /\
  ((forall j, Z.of_nat j < BUCKET_SIZE ->
      slot_key tbl idx j <> 0 /\ slot_key tbl idx j <> hash) ->
   exists j, Z.of_nat j < BUCKET_SIZE /\ put = store j /\
     (forall j', Z.of_nat j' < BUCKET_SIZE ->
        TTDepth (slot_val tbl idx j) <= TTDepth (slot_val tbl idx j')) /\
     (forall j', (j' < j)%nat ->
        TTDepth (slot_val tbl idx j) < TTDepth (slot_val tbl idx j'))).
Proof.
  intros tbl idx put store Hin.
  pose proof (bucket_size_pos L laws) as HB.
  destruct (TTPut_scan_spec laws tbl idx hash depth flag Hin
              (Z.to_nat BUCKET_SIZE) O idx INT32_MAX) as (r & Hr & H1 & H2 & H3).
  { lia. }
  { intros _. lia. }
  { apply first_hit_start. }
  { apply scan_inv_start. }
  replace (idx + 2 * Z.of_nat 0) with idx in Hr by lia.
  assert (Hput : put = match r with
                       | ScanReturn v => Ok (v, t)
                       | ScanSlot s =>
                           TTPut_store s hash depth score flag move ply eval t
                       end).
  { unfold put, TTPut. fold idx. fold tbl. rewrite Hr. reflexivity. }
  repeat split.
  - intros j Hj Fj Kj. rewrite Hput, (H1 j Hj Fj Kj). reflexivity.
  - intros j Hj Fj Kj Kh. rewrite Hput, (H2 j Hj Fj Kj Kh).
    destruct ((TTDepth (slot_val tbl idx j) >? depth) && negb (flag =? TT_EXACT));
      reflexivity.
  - intros Hall. destruct (H3 Hall) as (j & Hj & Hrj & Hmin & Hstrict).
    exists j. repeat split; try assumption.
    rewrite Hput, Hrj. reflexivity.
Qed.

End TranspositionPolicy.

(** *** The reference layout satisfies what the code relies on *)

Lemma score_field_arith (v : Z) :
  Z.shiftr (Z.land v 0x0000FFFF00000000) 32 = (v / 2 ^ 32) mod 65536.
Proof.
  rewrite Z.shiftr_land.
  change (Z.shiftr 0x0000FFFF00000000 32) with (Z.ones 16).
  rewrite Z.land_ones by lia. rewrite Z.shiftr_div_pow2 by lia. reflexivity.
Qed.

Lemma to_int16_mod (x : Z) :
  INT16_MIN <= x <= INT16_MAX -> to_int16 (x mod 65536) = x.
Proof.
  unfold INT16_MIN, INT16_MAX, to_int16. intros H.
  destruct (Z.ltb_spec (x mod 65536) 32768); Z.div_mod_to_equations; lia.
Qed.

Lemma ref_layout_laws : TTLayoutLaws ref_layout.
Proof.
  constructor; simpl.
  - lia.
  - repeat split; discriminate.
  - intros v. unfold INT32_MIN, INT32_MAX.
    pose proof (Z.mod_pos_bound (v / 2 ^ 24) 64). lia.
  - intros P h HP. unfold ref_TTIdx. exists (h mod 2 ^ P). split; [|lia].
    apply Z.mod_pos_bound. apply Z.pow_pos_nonneg; lia.
Qed.

Lemma ref_layout_roundtrip : fields_roundtrip ref_layout ref_ok.
Proof.
  intros score flag depth move eval Hs He (Hf & Hd & Hm) v.
  assert (Hv : v = (eval mod 65536) * 281474976710656 + (score mod 65536) * 4294967296
                   + flag * 1073741824 + depth * 16777216 + move) by reflexivity.
  clearbody v.
  pose proof (Z.mod_pos_bound eval 65536 ltac:(lia)) as He16.
  pose proof (Z.mod_pos_bound score 65536 ltac:(lia)) as Hs16.
  change (2 ^ 24) with 16777216 in Hm.
  repeat split.
  - rewrite score_field_arith. change (2 ^ 32) with 4294967296.
    replace ((v / 4294967296) mod 65536) with (score mod 65536);
      [apply to_int16_mod; assumption|].
    Z.div_mod_to_equations. lia.
  - simpl. change (2 ^ 24) with 16777216. Z.div_mod_to_equations. lia.
  - simpl. change (2 ^ 30) with 1073741824. Z.div_mod_to_equations. lia.
  - simpl. change (2 ^ 24) with 16777216. Z.div_mod_to_equations. lia.
  - simpl. change (2 ^ 48) with 281474976710656.
    replace ((v / 281474976710656) mod 65536) with (eval mod 65536);
      [apply to_int16_mod; assumption|].
    Z.div_mod_to_equations. lia.
Qed.

(** *** Writes of [TTPut] and the shape of a bucket *)

Section TranspositionBuckets.
Context {L : TTLayout}.

Lemma first_hit_or_none (tbl : list Z) (idx hash : Z) (n : nat) :
  (exists j, (j < n)%nat /\ first_hit tbl idx hash j /\
             (slot_key tbl idx j = 0 \/ slot_key tbl idx j = hash)) \/
  (forall j, (j < n)%nat -> slot_key tbl idx j <> 0 /\ slot_key tbl idx j <> hash).
Proof.
  induction n as [|n [(j & Hj & Fj & Kj)|Hnone]].
  - right. intros j Hj. lia.
  - left. exists j. split; [lia | split; [exact Fj | exact Kj]].
  - destruct (Z.eq_dec (slot_key tbl idx n) 0) as [Hz|Hnz].
    + left. exists n. split; [lia | split; [| left; exact Hz]].
      intros j' Hj'. apply Hnone. exact Hj'.
    + destruct (Z.eq_dec (slot_key tbl idx n) hash) as [Hh|Hnh].
      * left. exists n. split; [lia | split; [| right; exact Hh]].
        intros j' Hj'. apply Hnone. exact Hj'.
      * right. intros j Hj. destruct (Nat.eq_dec j n) as [->|Hne];
          [split; assumption | apply Hnone; lia].
Qed.

(** The scan of [TTPut] always answers; a slot it chooses lies in the
    bucket, no slot before it holds [hash], and when it is empty no slot
    before it is. *)
Lemma TTPut_scan_total (laws : TTLayoutLaws L) (tbl : list Z)
      (idx hash depth flag : Z) :
  bucket_in tbl idx ->
  exists r,
    TTPut_scan tbl hash depth flag (Z.to_nat BUCKET_SIZE) idx idx INT32_MAX = Ok r /\
    match r with
    | ScanReturn v =>
        exists j, Z.of_nat j < BUCKET_SIZE /\ v = slot_val tbl idx j /\
                  slot_key tbl idx j = hash /\ hash <> 0 /\
                  TTDepth v > depth /\ flag <> TT_EXACT
    | ScanSlot s =>
        exists j, Z.of_nat j < BUCKET_SIZE /\ s = idx + 2 * Z.of_nat j /\
                  (forall j', (j' < j)%nat -> slot_key tbl idx j' <> hash) /\
                  (slot_key tbl idx j = 0 ->
                   forall j', (j' < j)%nat -> slot_key tbl idx j' <> 0)
    end.
Proof.
  intros Hin. pose proof (bucket_size_pos L laws) as HB.
  destruct (TTPut_scan_spec laws tbl idx hash depth flag Hin
              (Z.to_nat BUCKET_SIZE) O idx INT32_MAX) as (r & Hr & H1 & H2 & H3).
  { lia. }
  { intros _. lia. }
  { intros j' Hj'. lia. }
  { exists O. split; [lia|]. left. repeat split. }
  replace (idx + 2 * Z.of_nat 0) with idx in Hr by lia.
  exists r. split; [exact Hr|].
  destruct (first_hit_or_none tbl idx hash (Z.to_nat BUCKET_SIZE))
    as [(j & Hj & Fj & Kj)|Hnone].
  - assert (Hj' : Z.of_nat j < BUCKET_SIZE) by lia.
    destruct (Z.eq_dec (slot_key tbl idx j) 0) as [Hz|Hnz].
    + rewrite (H1 j Hj' Fj Hz). exists j. repeat split; [exact Hj'| |].
      * intros j' Hlt. apply (Fj j' Hlt).
      * intros _ j' Hlt. apply (Fj j' Hlt).
    + assert (Hh : slot_key tbl idx j = hash) by (destruct Kj; [contradiction|assumption]).
      rewrite (H2 j Hj' Fj Hnz Hh).
      destruct (Z.gtb_spec (TTDepth (slot_val tbl idx j)) depth) as [Hgt|Hle]; simpl.
      * destruct (Z.eqb_spec flag TT_EXACT) as [He|Hne]; simpl.
        -- exists j. repeat split; [exact Hj'| |].
           ++ intros j' Hlt. apply (Fj j' Hlt).
           ++ intros _ j' Hlt. apply (Fj j' Hlt).
        -- exists j. repeat split; try assumption; [congruence | lia].
      * exists j. repeat split; [exact Hj'| |].
        -- intros j' Hlt. apply (Fj j' Hlt).
        -- intros _ j' Hlt. apply (Fj j' Hlt).
  - destruct H3 as (j & Hj & Hrj & _).
    { intros j Hj. apply Hnone. lia. }
    rewrite Hrj. exists j. repeat split; [exact Hj| |].
    + intros j' Hlt. apply Hnone. lia.
    + intros _ j' Hlt. apply Hnone. lia.
Qed.

Lemma tt_set_Ok (tbl tbl' : list Z) (i v : Z) :
  tt_set tbl i v = Ok tbl' ->
  0 <= i < Z.of_nat (length tbl) /\ tbl' = <[Z.to_nat i := v]> tbl.
Proof.
  unfold tt_set.
  destruct (Z.leb_spec 0 i) as [Hlo|Hlo];
    destruct (Z.ltb_spec i (Z.of_nat (length tbl))) as [Hhi|Hhi];
    simpl; intros Heq; inversion Heq. split; [lia | reflexivity].
Qed.

(** A successful [TTPut_store] writes the key and the packed entry, and
    nothing else; the packed entry passed every assertion. *)
Lemma TTPut_store_Ok (s hash depth score flag move ply eval : Z)
      (t t' : TTState) (tt : Z) :
  TTPut_store s hash depth score flag move ply eval t = Ok (tt, t') ->
  tt = TTEntry (adjustedScore score ply) flag depth move eval /\
  POWER t' = POWER t /\
  0 <= s /\ s + 1 < Z.of_nat (length (TRANSPOSITION_ENTRIES t)) /\
  TRANSPOSITION_ENTRIES t' =
    <[Z.to_nat (s + 1) := tt]> (<[Z.to_nat s := hash]> (TRANSPOSITION_ENTRIES t)) /\
  INT16_MIN <= adjustedScore score ply <= INT16_MAX /\
  depth = TTDepth tt /\ score = TTScore tt ply /\ flag = TTFlag tt /\
  move = TTMove tt /\ eval = TTEval tt.
Proof.
  unfold TTPut_store. intros H.
  repeat (apply bind_Ok in H; destruct H as (? & ? & H)).
  repeat match goal with
         | Ha : assert _ = Ok _ |- _ => apply assert_Ok in Ha
         | Hs : tt_set _ _ _ = Ok _ |- _ => apply tt_set_Ok in Hs; destruct Hs as [? ?]
         end.
  inversion H; subst; clear H. simpl.
  rewrite length_insert in *.
  unfold INT16_MIN, INT16_MAX in *.
  repeat split; try reflexivity; try lia.
Qed.

End TranspositionBuckets.

Section TranspositionInvariant.
Context {L : TTLayout}.

Lemma slot_key_replicate (n : nat) (idx : Z) (j : nat) :
  slot_key (replicate n 0) idx j = 0.
Proof.
  unfold slot_key.
  destruct (replicate n 0 !! Z.to_nat (idx + 2 * Z.of_nat j)) as [v|] eqn:E;
    [|reflexivity].
  apply lookup_replicate in E. simpl. tauto.
Qed.

Lemma slot_key_written (tbl : list Z) (idx hash v : Z) (j : nat) :
  0 <= idx -> idx + 2 * Z.of_nat j + 1 < Z.of_nat (length tbl) ->
  slot_key (<[Z.to_nat (idx + 2 * Z.of_nat j + 1) := v]>
              (<[Z.to_nat (idx + 2 * Z.of_nat j) := hash]> tbl)) idx j = hash.
Proof.
  intros H0 H1. unfold slot_key.
  rewrite list_lookup_insert_ne by lia.
  rewrite list_lookup_insert_eq by lia. reflexivity.
Qed.

Lemma slot_val_written (tbl : list Z) (idx hash v : Z) (j : nat) :
  0 <= idx -> idx + 2 * Z.of_nat j + 1 < Z.of_nat (length tbl) ->
  slot_val (<[Z.to_nat (idx + 2 * Z.of_nat j + 1) := v]>
              (<[Z.to_nat (idx + 2 * Z.of_nat j) := hash]> tbl)) idx j = v.
Proof.
  intros H0 H1. unfold slot_val.
  rewrite list_lookup_insert_eq by (rewrite length_insert; lia). reflexivity.
Qed.

Lemma slot_key_other (tbl : list Z) (s idx2 hash v : Z) (j2 : nat) :
  0 <= s -> 0 <= idx2 ->
  idx2 + 2 * Z.of_nat j2 <> s -> idx2 + 2 * Z.of_nat j2 <> s + 1 ->
  slot_key (<[Z.to_nat (s + 1) := v]> (<[Z.to_nat s := hash]> tbl)) idx2 j2
  = slot_key tbl idx2 j2.
Proof.
  intros H0 H1 H2 H3. unfold slot_key.
  rewrite !list_lookup_insert_ne by lia. reflexivity.
Qed.

Lemma TTInit_inv (mb : Z) (t t' : TTState) :
  1 <= BUCKET_SIZE -> TTInit mb t = Ok t' -> tt_inv t'.
Proof.
  intros HB. unfold TTInit. intros H.
  apply bind_Ok in H. destruct H as (u & Ha & H). apply assert_Ok in Ha.
  apply andb_prop in Ha as [Ha _]. apply andb_prop in Ha as [_ Hp].
  apply Z.leb_le in Hp.
  inversion H; subst; clear H.
  set (power := _ + Z.log2 mb - Z.log2 BUCKET_SIZE - 1) in *.
  clearbody power. unfold tt_inv, TTClear; simpl.
  split.
  - right. split; [exact Hp|].
    rewrite !length_replicate, Z.shiftl_1_l.
    replace (2 ^ power * 8 * BUCKET_SIZE * 2) with (2 ^ power * BUCKET_SIZE * 2 * 8) by lia.
    rewrite Z.div_mul by lia.
    pose proof (Z.pow_pos_nonneg 2 power). rewrite Z2Nat.id by nia. lia.
  - intros k Hk j1 j2 _ _ _. apply slot_key_replicate.
Qed.

Lemma TTClear_inv (t : TTState) : tt_inv t -> tt_inv (TTClear t).
Proof.
  intros [Hlen _]. unfold tt_inv, TTClear; simpl. split.
  - destruct Hlen as [Hnil|[Hp Hlen]].
    + left. rewrite Hnil. reflexivity.
    + right. rewrite length_replicate. split; assumption.
  - intros k Hk j1 j2 _ _ _. apply slot_key_replicate.
Qed.

Lemma tt_inv_bucket_in (laws : TTLayoutLaws L) (t : TTState) (hash : Z) :
  tt_inv t -> TRANSPOSITION_ENTRIES t <> [] ->
  exists k, 0 <= k /\ TTIdx (POWER t) hash = 2 * BUCKET_SIZE * k /\
            bucket_in (TRANSPOSITION_ENTRIES t) (TTIdx (POWER t) hash).
Proof.
  intros [[Hnil|[Hp Hlen]] _] Hne; [contradiction|].
  pose proof (bucket_size_pos L laws) as HB.
  destruct (TTIdx_bucket L laws (POWER t) hash Hp) as (k & Hk & Hidx).
  exists k. split; [lia|]. split; [exact Hidx|].
  unfold bucket_in. rewrite Hidx, Hlen. split; nia.
Qed.

Lemma TTPut_scan_nil (hash depth flag idx rIdx rDepth : Z) (n : nat) :
  (0 < n)%nat -> TTPut_scan [] hash depth flag n idx rIdx rDepth = Abort.
Proof.
  destruct n as [|n]; [lia|]. intros _. simpl. unfold tt_get.
  destruct (idx <? 0); reflexivity.
Qed.

Lemma TTPut_inv (laws : TTLayoutLaws L) (hash depth score flag move ply eval : Z)
      (t t' : TTState) (v : Z) :
  hash <> 0 -> tt_inv t ->
  TTPut hash depth score flag move ply eval t = Ok (v, t') -> tt_inv t'.
Proof.
  intros Hh Hinv Hput.
  pose proof (bucket_size_pos L laws) as HB.
  destruct (decide (TRANSPOSITION_ENTRIES t = [])) as [Hnil|Hne].
  { unfold TTPut in Hput. rewrite Hnil, TTPut_scan_nil in Hput by lia. discriminate. }
  destruct (tt_inv_bucket_in laws t hash Hinv Hne) as (k & Hk & Hidx & Hin).
  destruct (TTPut_scan_total laws _ _ hash depth flag Hin) as (r & Hr & Hshape).
  unfold TTPut in Hput. rewrite Hr in Hput. simpl in Hput.
  destruct r as [v0|s].
  - inversion Hput; subst. exact Hinv.
  - destruct Hshape as (j & Hj & Hs & _ & Hempty).
    apply TTPut_store_Ok in Hput.
    destruct Hput as (_ & HP & Hs0 & Hs1 & Htbl & _).
    destruct Hinv as [Hlen Hpre]. split.
    + right. destruct Hlen as [Hnil|[Hp Hlen]]; [contradiction|].
      rewrite Htbl, !length_insert, HP. split; assumption.
    + intros k2 Hk2 j1 j2 Hlt Hj2 Hz. rewrite Htbl in *.
      destruct (Z.eq_dec k2 k) as [->|Hk2ne].
      * (* the bucket written *)
        rewrite <- Hidx in *. rewrite Hs in *.
        destruct (Nat.eq_dec j1 j) as [->|Hj1].
        { rewrite slot_key_written in Hz by lia. contradiction. }
        rewrite slot_key_other in Hz by lia.
        pose proof (Hpre k Hk j1 j2 Hlt) as Hold. rewrite <- Hidx in Hold.
        specialize (Hold Hj2 Hz).
        destruct (Nat.eq_dec j2 j) as [->|Hj2ne].
        { exfalso. apply (Hempty Hold j1 Hlt). exact Hz. }
        rewrite slot_key_other by lia. exact Hold.
      * (* another bucket *)
        assert (Hsep : forall j', Z.of_nat j' < BUCKET_SIZE ->
                  2 * BUCKET_SIZE * k2 + 2 * Z.of_nat j' <> s /\
                  2 * BUCKET_SIZE * k2 + 2 * Z.of_nat j' <> s + 1).
        { intros j' Hj'. rewrite Hs, Hidx. split; nia. }
        destruct (Hsep j1 ltac:(lia)) as [A1 B1].
        destruct (Hsep j2 Hj2) as [A2 B2].
        rewrite slot_key_other in Hz by (try assumption; nia).
        rewrite slot_key_other by (try assumption; nia).
        apply (Hpre k2 Hk2 j1 j2 Hlt Hj2 Hz).
Qed.

Lemma tt_start_inv : tt_inv tt_start.
Proof.
  split; [left; reflexivity|].
  intros k Hk j1 j2 _ _ _. apply (slot_key_replicate 0).
Qed.

Lemma run_ops_inv (laws : TTLayoutLaws L) (ops : list TTOp) :
  Forall put_hash_nonzero ops ->
  forall t t', tt_inv t -> run_ops ops t = Ok t' -> tt_inv t'.
Proof.
  induction 1 as [|op ops Hop Hops IH]; intros t t' Hinv Hrun; simpl in Hrun.
  - inversion Hrun; subst. exact Hinv.
  - apply bind_Ok in Hrun. destruct Hrun as (t1 & Hstep & Hrest).
    apply (IH t1 t'); [|exact Hrest].
    destruct op as [mb| |hash depth score flag move ply eval]; simpl in Hstep.
    + apply (TTInit_inv mb t t1); [apply (bucket_size_pos L laws) | exact Hstep].
    + inversion Hstep; subst. apply TTClear_inv. exact Hinv.
    + apply bind_Ok in Hstep. destruct Hstep as ([v t2] & Hput & Heq).
      inversion Heq; subst.
      apply (TTPut_inv laws hash depth score flag move ply eval t t1 v);
        assumption.
Qed.

End TranspositionInvariant.

Section TranspositionClaims.
Context {L : TTLayout}.

Lemma TTProbe_scan_hit (tbl : list Z) (idx hash : Z) (j : nat) :
  bucket_in tbl idx -> Z.of_nat j < BUCKET_SIZE ->
  slot_key tbl idx j = hash ->
  (forall j', (j' < j)%nat -> slot_key tbl idx j' <> hash) ->
  forall (n j0 : nat),
    Z.of_nat j0 + Z.of_nat n = BUCKET_SIZE -> (j0 <= j)%nat ->
    TTProbe_scan tbl hash n (idx + 2 * Z.of_nat j0) = Ok (slot_val tbl idx j).
Proof.
  intros Hin Hj Hkey Hbefore. induction n as [|n IH]; intros j0 Hsum Hle.
  - lia.
  - simpl. rewrite (tt_get_key tbl idx j0 Hin) by lia. simpl.
    destruct (Z.eqb_spec (slot_key tbl idx j0) hash) as [He|Hne].
    + assert (j0 = j).
      { destruct (Nat.eq_dec j0 j) as [Heq|Hneq]; [exact Heq|].
        exfalso. apply (Hbefore j0); [lia | exact He]. }
      subst j0. apply tt_get_val; assumption.
    + assert (j0 <> j) by (intros ->; contradiction).
      replace (idx + 2 * Z.of_nat j0 + 2) with (idx + 2 * Z.of_nat (S j0)) by lia.
      apply IH; lia.
Qed.

(** C2, as amended.  For a score whose adjusted value passes the range
    assertions of [TTPut], at a ply that is not negative: [TTPut]
    returns; unless it kept a deeper entry of the same position, the
    16-bit score field of the entry it wrote is [score + ply] for
    [score > MATE_BOUND], [score - ply] for [score < -MATE_BOUND] and
    [score] otherwise; [TTProbe] finds that entry, and [TTScore] at the
    same ply gives back [score]. *)
Theorem TTPut_mate_adjustment (laws : TTLayoutLaws L) (ok : Z -> Z -> Z -> Prop)
        (hash depth score flag move ply eval : Z) (t : TTState) :
  fields_roundtrip L ok -> ok flag depth move ->
  bucket_in (TRANSPOSITION_ENTRIES t) (TTIdx (POWER t) hash) ->
  0 <= ply ->
  INT16_MIN <= adjustedScore score ply <= INT16_MAX ->
  INT16_MIN <= eval <= INT16_MAX ->
  exists tt t',
    TTPut hash depth score flag move ply eval t = Ok (tt, t') /\
    ((t' = t /\ TTDepth tt > depth /\ flag <> TT_EXACT) \/
     ((score > MATE_BOUND -> TTScore_raw tt = score + ply) /\
      (score < - MATE_BOUND -> TTScore_raw tt = score - ply) /\
      (- MATE_BOUND <= score <= MATE_BOUND -> TTScore_raw tt = score) /\
      TTProbe hash t' = Ok tt /\
      TTScore tt ply = score)).
Proof.
  intros Hrt Hok Hin Hply Hadj Heval.
  pose proof (bucket_size_pos L laws) as HB.
  destruct (TTPut_scan_total laws _ _ hash depth flag Hin) as (r & Hr & Hshape).
  unfold TTPut. rewrite Hr. simpl.
  destruct r as [v|s].
  - destruct Hshape as (j & Hj & Hv & Hk & Hh & Hd & Hf).
    exists v, t. split; [reflexivity|]. left. repeat split; assumption.
  - destruct Hshape as (j & Hj & Hs & Hbefore & _). subst s.
    destruct (Hrt (adjustedScore score ply) flag depth move eval Hadj Heval Hok)
      as (Hraw & Hdepth & Hflag & Hmove & Hev).
    set (tt := TTEntry (adjustedScore score ply) flag depth move eval) in *.
    assert (Hscore : TTScore tt ply = score).
    { unfold TTScore, TTScore_raw. rewrite Hraw. unfold adjustedScore, MATE_BOUND.
      zcases; lia. }
    destruct Hin as [Hi0 Hi1].
    set (tbl := TRANSPOSITION_ENTRIES t) in *.
    set (idx := TTIdx (POWER t) hash) in *.
    set (tbl' := <[Z.to_nat (idx + 2 * Z.of_nat j + 1) := tt]>
                   (<[Z.to_nat (idx + 2 * Z.of_nat j) := hash]> tbl)).
    exists tt, {| POWER := POWER t; SIZE := SIZE t; TRANSPOSITION_ENTRIES := tbl' |}.
    split.
    + unfold TTPut_store. fold tt. fold tbl. unfold assert, tt_set.
      unfold INT16_MIN, INT16_MAX in *.
      destruct (Z.leb_spec (adjustedScore score ply) 32767); [|lia].
      destruct (Z.geb_spec (adjustedScore score ply) (-32768)); [|lia].
      destruct (Z.leb_spec eval 32767); [|lia].
      destruct (Z.geb_spec eval (-32768)); [|lia]. simpl.
      destruct (Z.leb_spec 0 (idx + 2 * Z.of_nat j)); [|lia].
      destruct (Z.ltb_spec (idx + 2 * Z.of_nat j) (Z.of_nat (length tbl))); [|lia].
      simpl. rewrite length_insert.
      destruct (Z.leb_spec 0 (idx + 2 * Z.of_nat j + 1)); [|lia].
      destruct (Z.ltb_spec (idx + 2 * Z.of_nat j + 1) (Z.of_nat (length tbl))); [|lia].
      simpl. rewrite Hdepth, Hscore, Hflag, Hmove, Hev, !Z.eqb_refl. reflexivity.
    + right.
      assert (Hraw' : TTScore_raw tt = adjustedScore score ply) by exact Hraw.
      unfold adjustedScore, MATE_BOUND in Hraw'. unfold MATE_BOUND.
      split; [|split; [|split; [|split]]].
      * intros Hs. revert Hraw'. zcases; lia.
      * intros Hs. revert Hraw'. zcases; lia.
      * intros Hs. revert Hraw'. zcases; lia.
      * unfold TTProbe; simpl. fold idx.
        assert (Hin' : bucket_in tbl' idx).
        { unfold bucket_in, tbl'. rewrite !length_insert. split; assumption. }
        replace idx with (idx + 2 * Z.of_nat 0) at 1 by lia.
        rewrite (TTProbe_scan_hit tbl' idx hash j Hin' Hj).
        -- unfold tbl'. rewrite slot_val_written by lia. reflexivity.
        -- unfold tbl'. apply slot_key_written; lia.
        -- intros j' Hj'. unfold tbl'.
           rewrite slot_key_other by lia. apply Hbefore. exact Hj'.
        -- lia.
        -- lia.
      * exact Hscore.
Qed.

(** C10, as amended.  After any run of [TTInit], [TTClear] and [TTPut]
    from the start of the program in which no [TTPut] is given hash 0,
    the non-empty slots of every bucket are a prefix of it; so no empty
    slot precedes a slot that holds a non-zero hash, and the scan of
    [TTPut] reaches that slot. *)
Theorem TT_bucket_prefix (laws : TTLayoutLaws L) (ops : list TTOp) (t : TTState) :
  Forall put_hash_nonzero ops ->
  run_ops ops tt_start = Ok t ->
  (forall k, 0 <= k ->
     bucket_prefix (TRANSPOSITION_ENTRIES t) (2 * BUCKET_SIZE * k)) /\
  (forall hash, bucket_prefix (TRANSPOSITION_ENTRIES t) (TTIdx (POWER t) hash)) /\
  (forall hash j j', hash <> 0 -> Z.of_nat j < BUCKET_SIZE -> (j' < j)%nat ->
     slot_key (TRANSPOSITION_ENTRIES t) (TTIdx (POWER t) hash) j = hash ->
     slot_key (TRANSPOSITION_ENTRIES t) (TTIdx (POWER t) hash) j' <> 0).
Proof.
  intros Hops Hrun.
  pose proof (run_ops_inv laws ops Hops tt_start t tt_start_inv Hrun) as [Hlen Hpre].
  assert (Hbucket : forall hash,
             bucket_prefix (TRANSPOSITION_ENTRIES t) (TTIdx (POWER t) hash)).
  { intros hash. destruct Hlen as [Hnil|[Hp Hlen]].
    - rewrite Hnil. intros j1 j2 _ _ _. apply (slot_key_replicate 0).
    - destruct (TTIdx_bucket L laws (POWER t) hash Hp) as (k & Hk & ->).
      apply Hpre. lia. }
  split; [exact Hpre|]. split; [exact Hbucket|].
  intros hash j j' Hh Hj Hlt Hkey Hz.
  apply Hh. rewrite <- Hkey. apply (Hbucket hash j' j Hlt Hj Hz).
Qed.

End TranspositionClaims.

(** C1, at the sample table: slot 0 holds another position and slot 1 is
    empty, so an entry for hash 7 goes to slot 1. *)
Lemma TTPut_replacement_policy_witness :
  TTPut 7 3 10 2 1 0 10 sample_table
  = TTPut_store 2 7 3 10 2 1 0 10 sample_table.
Proof.
  assert (Hin : bucket_in (TRANSPOSITION_ENTRIES sample_table)
                          (TTIdx (POWER sample_table) 7)).
  { split; vm_compute; discriminate. }
  apply (proj1 (TTPut_replacement_policy ref_layout_laws 7 3 10 2 1 0 10
                  sample_table Hin) 1%nat).
  - reflexivity.
  - intros j' Hj'. assert (j' = O) by lia. subst j'.
    split; vm_compute; discriminate.
  - reflexivity.
Defined.

(** C2, at the sample table: a mate score 32000 stored at ply 3. *)
Lemma TTPut_mate_adjustment_witness :
  exists tt t',
    TTPut 7 3 32000 2 1 3 10 sample_table = Ok (tt, t') /\
    ((t' = sample_table /\ TTDepth tt > 3 /\ 2 <> TT_EXACT) \/
     ((32000 > MATE_BOUND -> TTScore_raw tt = 32000 + 3) /\
      (32000 < - MATE_BOUND -> TTScore_raw tt = 32000 - 3) /\
      (- MATE_BOUND <= 32000 <= MATE_BOUND -> TTScore_raw tt = 32000) /\
      TTProbe 7 t' = Ok tt /\
      TTScore tt 3 = 32000)).
Proof.
  apply (TTPut_mate_adjustment ref_layout_laws ref_ok 7 3 32000 2 1 3 10
           sample_table ref_layout_roundtrip).
  - unfold ref_ok. lia.
  - split; vm_compute; discriminate.
  - lia.
  - vm_compute. split; discriminate.
  - vm_compute. split; discriminate.
Defined.

(** C2 fails for scores whose adjusted value leaves 16 bits: for the score
    CHECKMATE at ply 1 no table word has the score field [score + ply],
    and [TTPut] stops at its range assertion. *)
Lemma TTPut_mate_adjustment_counterexample :
  TTPut 7 3 32767 2 1 1 10 sample_table = Abort /\
  (forall v, TTScore_raw v <> 32767 + 1).
Proof.
  split; [vm_compute; reflexivity|].
  intros v. unfold TTScore_raw. rewrite score_field_arith.
  pose proof (Z.mod_pos_bound (v / 2 ^ 32) 65536 ltac:(lia)) as Hb.
  unfold to_int16. destruct (Z.ltb_spec ((v / 2 ^ 32) mod 65536) 32768); lia.
Qed.

Lemma TT_bucket_prefix_witness :
  succeeds (run_ops sample_ops tt_start) = true /\
  match run_ops sample_ops tt_start with
  | Ok t => bucket_prefix (TRANSPOSITION_ENTRIES t) 0
  | _ => False
  end.
Proof.
  assert (Hops : Forall put_hash_nonzero sample_ops).
  { repeat constructor; simpl; discriminate. }
  assert (Hok : succeeds (run_ops sample_ops tt_start) = true).
  { vm_compute. reflexivity. }
  destruct (run_ops sample_ops tt_start) as [t| |] eqn:Hrun;
    [|discriminate Hok..].
  split; [reflexivity|].
  pose proof (TT_bucket_prefix ref_layout_laws sample_ops t Hops Hrun) as [HH _].
  specialize (HH 0 ltac:(lia)). exact HH.
Defined.

(** C10 fails when a position of hash 0 is stored: with both slots of
    bucket 0 taken, [TTPut] of hash 0 evicts slot 0, whose key is then 0,
    the key of an empty slot, while slot 1 still holds its position. *)
Lemma TT_bucket_prefix_counterexample :
  ~ (forall (ops : list TTOp) (t : TTState),
       run_ops ops tt_start = Ok t ->
       forall hash, bucket_prefix (TRANSPOSITION_ENTRIES t) (TTIdx (POWER t) hash)).
Proof.
  intros H.
  assert (E : (t ← run_ops zero_hash_ops tt_start;
               Ok (POWER t, slot_key (TRANSPOSITION_ENTRIES t) 0 0,
                   slot_key (TRANSPOSITION_ENTRIES t) 0 1))
              = Ok (15, 0, 65536)).
  { vm_compute. reflexivity. }
  destruct (run_ops zero_hash_ops tt_start) as [t| |] eqn:Hrun;
    [|discriminate E..].
  injection E as HP K0 K1.
  specialize (H zero_hash_ops t Hrun 0 O 1%nat).
  rewrite HP in H. change (TTIdx 15 0) with 0 in H.
  rewrite K0, K1 in H. specialize (H ltac:(lia) ltac:(reflexivity) eq_refl).
  discriminate H.
Qed.

(** *** Sample runs of the search *)

Example toy_quiesce_root :
  score_of (quiesce 5 (-1000) 1000 (toy_state 0 0 0 0)) = Ok 300.
Proof. vm_compute. reflexivity. Qed.

Example toy_negamax_root :
  score_of (negamax 5 (-1000) 1000 1 (toy_state 0 0 0 0)) = Ok 300.
Proof. vm_compute. reflexivity. Qed.

(** *** The ply limit, the table cutoffs, the aspiration window, the
    moves quiescence passes over *)

Section SearchClaims.
Context {L : TTLayout} {P : Position} {E : Engine}.

Lemma no_draw_negamax (b : Board) :
  no_draw b -> isRepetition b || isMaterialDraw b || (halfMove b >? 99) = false.
Proof.
  intros (H1 & H2 & H3). rewrite H1, H2. simpl.
  destruct (Z.gtb_spec (halfMove b) 99); [lia | reflexivity].
Qed.

Lemma no_draw_quiesce (b : Board) :
  no_draw b -> isMaterialDraw b || isRepetition b || (halfMove b >? 99) = false.
Proof.
  intros (H1 & H2 & H3). rewrite H1, H2. simpl.
  destruct (Z.gtb_spec (halfMove b) 99); [lia | reflexivity].
Qed.

Lemma data_poll (st : State) : data (poll st) = data st.
Proof.
  unfold poll. destruct (Z.land (nodes (data st)) 2047 =? 0); [|reflexivity].
  destruct (communicate (env st) (params st)). reflexivity.
Qed.

Lemma table_poll (st : State) : table (poll st) = table st.
Proof.
  unfold poll. destruct (Z.land (nodes (data st)) 2047 =? 0); [|reflexivity].
  destruct (communicate (env st) (params st)). reflexivity.
Qed.

Lemma trace_poll (st : State) : trace (poll st) = trace st.
Proof.
  unfold poll. destruct (Z.land (nodes (data st)) 2047 =? 0); [|reflexivity].
  destruct (communicate (env st) (params st)). reflexivity.
Qed.

(** C5, as amended.  In [negamax] away from the root and in [quiesce],
    when the position is no draw and [ply > MAX_DEPTH - 1], the call
    returns the static evaluation of the position (with an empty
    principal variation, the node counted). *)
Theorem max_ply_static_eval (fuel : nat) (alpha beta depth : Z) (st : State) :
  ply (data st) > MAX_DEPTH - 1 ->
  ply (data st) <> 0 ->
  no_draw (board (data st)) ->
  negamax (S (S fuel)) alpha beta depth st
    = Ok (Evaluate (board (data st)), [], count_node st) /\
  quiesce (S fuel) alpha beta st
    = Ok (Evaluate (board (data st)), [], count_node st).
Proof.
  intros Hply Hroot Hdraw.
  assert (Hq : forall f, quiesce (S f) alpha beta st
                         = Ok (Evaluate (board (data st)), [], count_node st)).
  { intros f. cbn [quiesce]. unfold quiesce_body. cbn [count_node data set_data board set_counts ply].
    rewrite (no_draw_quiesce _ Hdraw).
    destruct (Z.gtb_spec (ply (data st)) (MAX_DEPTH - 1)); [reflexivity | lia]. }
  split; [|apply Hq].
  cbn [negamax]. unfold negamax_body.
  destruct (Z.eqb_spec depth 0) as [Hd|Hd]; [apply Hq|].
  unfold negamax_window. cbn [count_node data set_data board set_counts ply].
  destruct (Z.eqb_spec (ply (data st)) 0) as [Hz|_]; [contradiction|].
  rewrite (no_draw_negamax _ Hdraw).
  destruct (Z.gtb_spec (ply (data st)) (MAX_DEPTH - 1)); [reflexivity | lia].
Qed.

(** C9.  In [quiesce] a table hit cuts off whatever the stored depth: an
    exact score always, a lower bound that reaches beta, an upper bound
    that does not exceed alpha.  In [negamax] the same cutoff is taken
    only when the stored depth is at least the remaining depth: the
    cutoff test answers only for such entries, the call then returns the
    stored score, and with a stored depth below the remaining depth (or
    a bound that does not cut) the call goes on to search the node,
    whatever the stored score and bound. *)
Theorem tt_cutoff_depth (fuel : nat) (alpha beta depth : Z) (st : State)
        (ttValue : Z) :
  let b := board (data st) in
  let p := ply (data st) in
  let score := TTScore ttValue p in
  let cut (lo hi : Z) :=
    TTFlag ttValue = TT_EXACT \/
    (TTFlag ttValue = TT_LOWER /\ score >= hi) \/
    (TTFlag ttValue = TT_UPPER /\ score <= lo) in
  no_draw b ->
  TTProbe (zobrist b) (table st) = Ok ttValue ->
  ttValue <> 0 ->
  (p <= MAX_DEPTH - 1 -> cut alpha beta ->
   quiesce (S fuel) alpha beta st = Ok (score, [], poll (count_node st))) /\
  (forall lo hi s, negamax_tt_cutoff ttValue lo hi depth p = Some s ->
     TTDepth ttValue >= depth /\ s = score /\ cut lo hi) /\
  (TTDepth ttValue < depth ->
   forall lo hi, negamax_tt_cutoff ttValue lo hi depth p = None) /\
  (forall lo hi, depth <> 0 -> aget (skipMove (data st)) p = 0 ->
     negamax_window (p =? 0) alpha beta (count_node st) = Next (lo, hi) ->
     TTDepth ttValue >= depth -> cut lo hi ->
     negamax (S fuel) alpha beta depth st = Ok (score, [], poll (count_node st))) /\
  (forall lo hi, depth <> 0 -> aget (skipMove (data st)) p = 0 ->
     negamax_window (p =? 0) alpha beta (count_node st) = Next (lo, hi) ->
     TTDepth ttValue < depth \/ ~ cut lo hi ->
     negamax (S fuel) alpha beta depth st =
       negamax_search (negamax fuel) fuel (negb (beta - alpha =? 1)) (p =? 0)
                      alpha 0 depth lo hi ttValue (poll (count_node st))).
Proof.
  intros b p score cut Hdraw Hprobe Hhit.
  assert (Hcut : forall lo hi, cut lo hi ->
            quiesce_tt_cutoff ttValue lo hi p = Some score).
  { intros lo hi Hc. unfold quiesce_tt_cutoff. fold score.
    destruct (Z.eqb_spec ttValue 0) as [Hz|_]; [contradiction|].
    destruct (Z.eqb_spec (TTFlag ttValue) TT_EXACT) as [He|Hne]; [reflexivity|].
    destruct Hc as [He|[[Hl Hs]|[Hu Hs]]]; [contradiction| |].
    - rewrite Hl, Z.eqb_refl.
      destruct (Z.geb_spec score hi); [reflexivity | lia].
    - rewrite Hu, Z.eqb_refl.
      destruct ((TT_UPPER =? TT_LOWER) && (score >=? hi)); [reflexivity|].
      destruct (Z.leb_spec score lo); [reflexivity | lia]. }
  assert (Hncut : forall lo hi s, negamax_tt_cutoff ttValue lo hi depth p = Some s ->
            TTDepth ttValue >= depth /\ s = score /\ cut lo hi).
  { intros lo hi s. unfold negamax_tt_cutoff. fold score.
    destruct (Z.eqb_spec ttValue 0) as [Hz|_]; [discriminate|].
    destruct (Z.geb_spec (TTDepth ttValue) depth) as [Hd|Hd]; [|discriminate].
    destruct (Z.eqb_spec (TTFlag ttValue) TT_EXACT) as [He|Hne].
    { intros Hs. inversion Hs. split; [lia|]. split; [reflexivity|]. left. exact He. }
    destruct (Z.eqb_spec (TTFlag ttValue) TT_LOWER) as [Hl|Hnl];
      destruct (Z.geb_spec score hi) as [Hhi|Hhi]; simpl.
    - intros Hs. inversion Hs. split; [lia|]. split; [reflexivity|].
      right. left. split; [exact Hl | lia].
    - destruct (Z.eqb_spec (TTFlag ttValue) TT_UPPER) as [Hu|Hnu];
        destruct (Z.leb_spec score lo) as [Hlo|Hlo]; simpl; try discriminate.
      intros Hs. inversion Hs. split; [lia|]. split; [reflexivity|].
      right. right. split; [exact Hu | lia].
    - destruct (Z.eqb_spec (TTFlag ttValue) TT_UPPER) as [Hu|Hnu];
        destruct (Z.leb_spec score lo) as [Hlo|Hlo]; simpl; try discriminate.
      intros Hs. inversion Hs. split; [lia|]. split; [reflexivity|].
      right. right. split; [exact Hu | lia].
    - destruct (Z.eqb_spec (TTFlag ttValue) TT_UPPER) as [Hu|Hnu];
        destruct (Z.leb_spec score lo) as [Hlo|Hlo]; simpl; try discriminate.
      intros Hs. inversion Hs. split; [lia|]. split; [reflexivity|].
      right. right. split; [exact Hu | lia]. }
  split; [|split; [exact Hncut|split; [|split]]].
  - intros Hp Hc. cbn [quiesce]. unfold quiesce_body.
    cbn [count_node data set_data board set_counts ply]. fold b. fold p.
    rewrite (no_draw_quiesce _ Hdraw).
    destruct (Z.gtb_spec p (MAX_DEPTH - 1)); [lia|].
    rewrite table_poll. cbn [count_node table set_data]. rewrite Hprobe.
    cbn [mbind Res_bind]. rewrite (Hcut alpha beta Hc). reflexivity.
  - intros Hd lo hi. unfold negamax_tt_cutoff.
    destruct (ttValue =? 0); [reflexivity|].
    destruct (Z.geb_spec (TTDepth ttValue) depth); [lia | reflexivity].
  - intros lo hi Hd Hskip Hwin Hdepth Hc. cbn [negamax]. unfold negamax_body.
    destruct (Z.eqb_spec depth 0) as [Hz|_]; [contradiction|].
    fold p. rewrite Hwin. unfold negamax_node. rewrite Hskip.
    cbn [Z.eqb negb]. rewrite data_poll, table_poll.
    cbn [count_node data set_data board set_counts ply table]. fold b.
    rewrite Hprobe. cbn [mbind Res_bind].
    assert (Hn : negamax_tt_cutoff ttValue lo hi depth p = Some score).
    { unfold negamax_tt_cutoff.
      destruct (Z.eqb_spec ttValue 0) as [Hz|_]; [contradiction|].
      destruct (Z.geb_spec (TTDepth ttValue) depth); [|lia].
      pose proof (Hcut lo hi Hc) as Hq. unfold quiesce_tt_cutoff in Hq.
      destruct (Z.eqb_spec ttValue 0) as [Hz|_]; [contradiction|]. exact Hq. }
    fold p. rewrite Hn. reflexivity.
  - intros lo hi Hd Hskip Hwin Hno. cbn [negamax]. unfold negamax_body.
    destruct (Z.eqb_spec depth 0) as [Hz|_]; [contradiction|].
    fold p. rewrite Hwin. unfold negamax_node. rewrite Hskip.
    cbn [Z.eqb negb]. rewrite data_poll, table_poll.
    cbn [count_node data set_data board set_counts ply table]. fold b.
    rewrite Hprobe. cbn [mbind Res_bind].
    assert (Hn : negamax_tt_cutoff ttValue lo hi depth p = None).
    { destruct (negamax_tt_cutoff ttValue lo hi depth p) as [s|] eqn:Hs;
        [|reflexivity].
      destruct (Hncut lo hi s Hs) as (Hge & _ & Hc).
      destruct Hno as [Hlt|Hnc]; [lia | contradiction]. }
    fold p. rewrite Hn. reflexivity.
Qed.

Lemma int_ok_spec (x : Z) : int_ok x = true <-> INT32_MIN <= x <= INT32_MAX.
Proof. unfold int_ok. rewrite andb_true_iff, Z.leb_le, Z.leb_le. tauto. Qed.

Lemma delta_half (delta : Z) :
  0 <= delta ->
  2 * (delta + Z.quot delta 2) <= 3 * delta < 2 * (delta + Z.quot delta 2) + 2.
Proof.
  intros Hd.
  pose proof (Z.quot_rem delta 2 ltac:(lia)) as Hq.
  pose proof (Z.rem_bound_pos delta 2 Hd ltac:(lia)) as Hr. lia.
Qed.

(** A widening of a window within the mate scores whose delta stays an
    [int]. *)
Lemma aspiration_widen_Ok (delta alpha beta s : Z) :
  1 <= delta -> - CHECKMATE <= alpha -> alpha < beta -> beta <= CHECKMATE ->
  delta + Z.quot delta 2 <= INT32_MAX ->
  aspiration_widen delta alpha beta s =
    if s <=? alpha then
      Ok (Some (delta + Z.quot delta 2, Z.max (alpha - delta) (- CHECKMATE),
                Z.quot (alpha + beta) 2))
    else if s >=? beta then
      Ok (Some (delta + Z.quot delta 2, alpha, Z.min (beta + delta) CHECKMATE))
    else Ok None.
Proof.
  intros Hd Ha Hab Hb Hfit. unfold aspiration_widen.
  pose proof (delta_half delta ltac:(lia)) as Hh.
  unfold CHECKMATE, INT32_MAX in *.
  assert (H1 : int_ok (alpha + beta) = true)
    by (apply int_ok_spec; unfold INT32_MIN, INT32_MAX; lia).
  assert (H2 : int_ok (alpha - delta) = true)
    by (apply int_ok_spec; unfold INT32_MIN, INT32_MAX; lia).
  assert (H3 : int_ok (delta + Z.quot delta 2) = true)
    by (apply int_ok_spec; unfold INT32_MIN, INT32_MAX; lia).
  assert (H4 : int_ok (beta + delta) = true)
    by (apply int_ok_spec; unfold INT32_MIN, INT32_MAX; lia).
  rewrite H1, H2, H3, H4. reflexivity.
Qed.

(** What a widening that does not overflow leaves. *)
Lemma aspiration_widen_Some (delta alpha beta s delta' alpha' beta' : Z) :
  aspiration_widen delta alpha beta s = Ok (Some (delta', alpha', beta')) ->
  delta' = delta + Z.quot delta 2 /\ INT32_MIN <= delta' <= INT32_MAX /\
  ((s <= alpha /\ INT32_MIN <= alpha - delta /\
    alpha' = Z.max (alpha - delta) (- CHECKMATE) /\
    beta' = Z.quot (alpha + beta) 2) \/
   (alpha < s /\ beta <= s /\ beta + delta <= INT32_MAX /\
    alpha' = alpha /\ beta' = Z.min (beta + delta) CHECKMATE)).
Proof.
  unfold aspiration_widen. intros Hw.
  destruct (Z.leb_spec s alpha) as [Hs|Hs].
  - apply bind_Ok in Hw. destruct Hw as (u1 & _ & Hw).
    apply bind_Ok in Hw. destruct Hw as (u2 & H2 & Hw).
    apply bind_Ok in Hw. destruct Hw as (u3 & H3 & Hw).
    apply assert_Ok, int_ok_spec in H2. apply assert_Ok, int_ok_spec in H3.
    injection Hw as Hd' Ha' Hb'. subst.
    split; [reflexivity|]. split; [exact H3|]. left. lia.
  - destruct (Z.geb_spec s beta) as [Hb|Hb]; [|discriminate Hw].
    apply bind_Ok in Hw. destruct Hw as (u1 & H1 & Hw).
    apply bind_Ok in Hw. destruct Hw as (u2 & H2 & Hw).
    apply assert_Ok, int_ok_spec in H1. apply assert_Ok, int_ok_spec in H2.
    injection Hw as Hd' Ha' Hb'. subst.
    split; [reflexivity|]. split; [exact H2|]. right. lia.
Qed.

Lemma aspiration_widen_None (delta alpha beta s : Z) :
  aspiration_widen delta alpha beta s = Ok None -> alpha < s < beta.
Proof.
  unfold aspiration_widen. intros Hw.
  destruct (Z.leb_spec s alpha) as [Hs|Hs].
  - apply bind_Ok in Hw. destruct Hw as (u1 & _ & Hw).
    apply bind_Ok in Hw. destruct Hw as (u2 & _ & Hw).
    apply bind_Ok in Hw. destruct Hw as (u3 & _ & Hw). discriminate Hw.
  - destruct (Z.geb_spec s beta) as [Hb|Hb]; [|lia].
    apply bind_Ok in Hw. destruct Hw as (u1 & _ & Hw).
    apply bind_Ok in Hw. destruct Hw as (u2 & _ & Hw). discriminate Hw.
Qed.

(** The loop ends with the stop flag set, or with a score inside the
    window of its last search, which it reports. *)
Lemma aspiration_loop_end (fuel : nat) :
  forall k depth delta alpha beta score pv st r pv' st',
    aspiration_loop fuel k depth delta alpha beta score pv st = Ok (r, pv', st') ->
    is_stopped st' = true \/
    exists alpha' beta' st1 st2,
      negamax fuel alpha' beta' depth st1 = Ok (r, pv', st2) /\
      alpha' < r < beta' /\ st' = log st2 (EvInfo depth r pv').
Proof.
  induction k as [|k IH];
    intros depth delta alpha beta score pv st r pv' st' Hrun.
  - simpl in Hrun. destruct (is_stopped st) eqn:Hs; [|discriminate Hrun].
    inversion Hrun; subst. left. exact Hs.
  - cbn [aspiration_loop] in Hrun. destruct (is_stopped st) eqn:Hs.
    { inversion Hrun; subst. left. exact Hs. }
    apply bind_Ok in Hrun. destruct Hrun as ([[s pv1] st1] & Hn & Hrun).
    apply bind_Ok in Hrun. destruct Hrun as (w & Hw & Hrun).
    destruct w as [[[d' a'] b']|].
    + apply (IH _ _ _ _ _ _ _ _ _ _ Hrun).
    + inversion Hrun; subst. right.
      exists alpha, beta, st, st1. split; [exact Hn|]. split; [|reflexivity].
      apply (aspiration_widen_None _ _ _ _ Hw).
Qed.

(** C6, as amended.  An iteration at depth [d >= 2] starts with delta 10
    for [d >= 5] and CHECKMATE below, and with the window
    [max(score - delta, -CHECKMATE), min(score + delta, CHECKMATE)].  For
    a window within the mate scores and a delta that stays an [int]
    ([delta + delta / 2 <= INT32_MAX]), a search that returns
    [s <= alpha] sets beta to [(alpha + beta) / 2] (rounded towards
    zero) and alpha to [max(alpha - delta, -CHECKMATE)]; one that returns
    [s >= beta] sets beta to [min(beta + delta, CHECKMATE)]; after
    either, delta becomes [delta + delta / 2], the integer part of 1.5
    delta.  Beyond that [delta += delta / 2] overflows: delta fits
    through 47 widenings from 10 and 27 from CHECKMATE, not one more.
    The loop goes on with the widened window; it ends when the stop flag
    is set, or with a score inside the window, which is then reported. *)
Theorem aspiration_window (depth score delta alpha beta s : Z) :
  1 <= delta -> - CHECKMATE <= alpha -> alpha < beta -> beta <= CHECKMATE ->
  aspiration_start depth score =
    (let delta0 := if depth >=? 5 then 10 else CHECKMATE in
     (delta0, Z.max (score - delta0) (- CHECKMATE),
      Z.min (score + delta0) CHECKMATE)) /\
  (delta + Z.quot delta 2 <= INT32_MAX -> s <= alpha ->
   aspiration_widen delta alpha beta s =
     Ok (Some (delta + Z.quot delta 2, Z.max (alpha - delta) (- CHECKMATE),
               Z.quot (alpha + beta) 2))) /\
  (delta + Z.quot delta 2 <= INT32_MAX -> alpha < s -> beta <= s ->
   aspiration_widen delta alpha beta s =
     Ok (Some (delta + Z.quot delta 2, alpha, Z.min (beta + delta) CHECKMATE))) /\
  (alpha < s < beta -> aspiration_widen delta alpha beta s = Ok None) /\
  (INT32_MAX < delta + Z.quot delta 2 -> s <= alpha \/ beta <= s ->
   aspiration_widen delta alpha beta s = Abort) /\
  2 * (delta + Z.quot delta 2) <= 3 * delta < 2 * (delta + Z.quot delta 2) + 2 /\
  (int_ok (widened_delta 47 10) = true /\ int_ok (widened_delta 48 10) = false /\
   int_ok (widened_delta 27 CHECKMATE) = true /\
   int_ok (widened_delta 28 CHECKMATE) = false) /\
  (forall fuel k pv st,
     is_stopped st = true ->
     aspiration_loop fuel k depth delta alpha beta score pv st = Ok (score, pv, st)) /\
  (forall fuel k pv st r pv' st',
     is_stopped st = false ->
     negamax fuel alpha beta depth st = Ok (r, pv', st') ->
     aspiration_loop fuel (S k) depth delta alpha beta score pv st =
       (widened ← aspiration_widen delta alpha beta r;
        match widened with
        | Some (delta', alpha', beta') =>
            aspiration_loop fuel k depth delta' alpha' beta' r pv' st'
        | None => Ok (r, pv', log st' (EvInfo depth r pv'))
        end)) /\
  (forall fuel k pv st r pv' st',
     aspiration_loop fuel k depth delta alpha beta score pv st = Ok (r, pv', st') ->
     is_stopped st' = true \/
     exists alpha' beta' st1 st2,
       negamax fuel alpha' beta' depth st1 = Ok (r, pv', st2) /\
       alpha' < r < beta' /\ st' = log st2 (EvInfo depth r pv')) /\
  (forall fuel k pv st,
     depth <= params_depth (params st) -> is_stopped st = false ->
     deepening_loop fuel (S k) depth score pv st =
       let '(delta0, alpha0, beta0) := aspiration_start depth score in
       '(score', pv', st') ← aspiration_loop fuel fuel depth delta0 alpha0 beta0
                                             score pv st;
       deepening_loop fuel k (depth + 1) score' pv' st').
Proof.
  intros Hd Ha Hab Hb.
  split; [reflexivity|].
  split.
  { intros Hfit Hs. rewrite (aspiration_widen_Ok _ _ _ _ Hd Ha Hab Hb Hfit).
    destruct (Z.leb_spec s alpha); [reflexivity | lia]. }
  split.
  { intros Hfit Hs1 Hs2. rewrite (aspiration_widen_Ok _ _ _ _ Hd Ha Hab Hb Hfit).
    destruct (Z.leb_spec s alpha); [lia|].
    destruct (Z.geb_spec s beta); [reflexivity | lia]. }
  split.
  { intros Hs. unfold aspiration_widen.
    destruct (Z.leb_spec s alpha); [lia|].
    destruct (Z.geb_spec s beta); [lia | reflexivity]. }
  split.
  { intros Hover Hs. unfold aspiration_widen.
    assert (H3 : int_ok (delta + Z.quot delta 2) = false).
    { unfold int_ok. destruct (Z.leb_spec (delta + Z.quot delta 2) INT32_MAX);
        [lia | apply andb_false_r]. }
    rewrite H3.
    destruct (Z.leb_spec s alpha).
    - destruct (int_ok (alpha + beta)); [|reflexivity].
      destruct (int_ok (alpha - delta)); reflexivity.
    - destruct (Z.geb_spec s beta); [|lia].
      destruct (int_ok (beta + delta)); reflexivity. }
  split; [apply delta_half; lia|].
  split; [repeat split; vm_compute; reflexivity|].
  split.
  { intros fuel k pv st Hs. destruct k; simpl; rewrite Hs; reflexivity. }
  split.
  { intros fuel k pv st r pv' st' Hs Hn.
    cbn [aspiration_loop]. rewrite Hs, Hn. reflexivity. }
  split; [intros fuel k pv st r pv' st'; apply aspiration_loop_end|].
  intros fuel k pv st Hdp Hs. cbn [deepening_loop].
  rewrite Hs. destruct (Z.leb_spec depth (params_depth (params st))); [|lia].
  reflexivity.
Qed.

(** C8, as amended.  With the queens numbered as in types.h, the move
    loop of [quiesce] passes over every promotion to a knight, bishop or
    rook, and over every move that is no promotion and whose victim has
    [stand_pat + DELTA_CUTOFF + static value < alpha], where
    [DELTA_CUTOFF] is 200 and the victim of an en-passant capture is the
    pawn of the side not to move.  A promotion to a queen is never passed
    over by these lines, whether or not it captures.  A move passed over
    is not searched: the loop goes on with the next index. *)
Theorem quiesce_move_filter (b : Board) (eval alpha move : Z) :
  QUEEN WHITE = QUEEN_WHITE ->
  (KNIGHT_WHITE <= movePromo move <= ROOK_BLACK ->
   quiesce_skip b eval alpha move = true) /\
  (movePromo move = 0 ->
   eval + 200 + STATIC_MATERIAL_VALUE (PIECE_TYPE (captured_piece b move)) < alpha ->
   quiesce_skip b eval alpha move = true) /\
  (movePromo move = 0 -> moveEP move = true ->
   captured_piece b move = PAWN (xside b)) /\
  (movePromo move = 0 -> moveEP move = false ->
   captured_piece b move = squares b (moveEnd move)) /\
  (QUEEN_WHITE <= movePromo move <= QUEEN_BLACK ->
   quiesce_skip b eval alpha move = false) /\
  (forall self k i ml beta bestScore pv st,
     i < ml_count ml ->
     ml_move (bubbleTopMove ml i) i = move -> board (data st) = b ->
     (movePromo move <> 0 \/ captured_piece b move <> NO_PIECE) ->
     quiesce_skip b eval alpha move = true ->
     quiesce_loop self (S k) i ml eval alpha beta bestScore pv st =
     quiesce_loop self k (i + 1) (bubbleTopMove ml i) eval alpha beta bestScore pv st).
Proof.
  intros HQ.
  assert (Hskip : quiesce_skip b eval alpha move =
                  if negb (movePromo move =? 0) then movePromo move <? 8
                  else eval + 200
                       + STATIC_MATERIAL_VALUE (PIECE_TYPE (captured_piece b move))
                       <? alpha).
  { unfold quiesce_skip. rewrite HQ. reflexivity. }
  unfold KNIGHT_WHITE, ROOK_BLACK, QUEEN_WHITE, QUEEN_BLACK.
  split; [|split; [|split; [|split; [|split]]]].
  - intros Hp. rewrite Hskip.
    destruct (Z.eqb_spec (movePromo move) 0); [lia|]. simpl.
    destruct (Z.ltb_spec (movePromo move) 8); [reflexivity | lia].
  - intros Hp Hd. rewrite Hskip, Hp. simpl.
    destruct (Z.ltb_spec (eval + 200
      + STATIC_MATERIAL_VALUE (PIECE_TYPE (captured_piece b move))) alpha);
      [reflexivity | lia].
  - intros _ Hep. unfold captured_piece. rewrite Hep. reflexivity.
  - intros _ Hep. unfold captured_piece. rewrite Hep. reflexivity.
  - intros Hp. rewrite Hskip.
    destruct (Z.eqb_spec (movePromo move) 0); [lia|]. simpl.
    destruct (Z.ltb_spec (movePromo move) 8); [lia | reflexivity].
  - intros self k i ml beta bestScore pv st Hi Hm Hb Hassert Hsk.
    cbn [quiesce_loop]. destruct (Z.ltb_spec i (ml_count ml)); [|lia].
    cbn [negb]. rewrite Hm, Hb.
    assert (Ha : negb (movePromo move =? 0)
                 || negb (captured_piece b move =? NO_PIECE) = true).
    { destruct Hassert as [Hp|Hc].
      - destruct (Z.eqb_spec (movePromo move) 0); [contradiction | reflexivity].
      - destruct (Z.eqb_spec (captured_piece b move) NO_PIECE);
          [contradiction | apply orb_true_r]. }
    rewrite Ha. cbn [assert mbind Res_bind]. rewrite Hsk. reflexivity.
Qed.

End SearchClaims.

(** C5 at the sample engine: node 0 at ply 128. *)
Lemma max_ply_static_eval_witness :
  negamax 2 0 1000 1 (toy_state 0 128 0 0)
    = Ok (50, [], count_node (toy_state 0 128 0 0)) /\
  quiesce 1 0 1000 (toy_state 0 128 0 0)
    = Ok (50, [], count_node (toy_state 0 128 0 0)).
Proof.
  apply (max_ply_static_eval 0 0 1000 1 (toy_state 0 128 0 0)).
  - vm_compute. reflexivity.
  - vm_compute. discriminate.
  - repeat split. vm_compute. discriminate.
Defined.

(** C5 fails at [ply = MAX_DEPTH - 1], where the guard [ply > MAX_DEPTH - 1]
    of the code lets the search go on ([MAX_DEPTH] being 128 here): at ply
    127 the static evaluation of node 0 is 50 and both searches return
    300.  It fails as well in a drawn position, where 0 is returned
    before the ply is looked at (node 3 at ply 128). *)
Lemma max_ply_static_eval_counterexample :
  ply (data (toy_state 0 127 0 0)) >= MAX_DEPTH - 1 /\
  Evaluate (board (data (toy_state 0 127 0 0))) = 50 /\
  score_of (quiesce 5 0 1000 (toy_state 0 127 0 0)) = Ok 300 /\
  score_of (negamax 5 0 1000 1 (toy_state 0 127 0 0)) = Ok 300 /\
  ply (data (toy_state 3 128 0 0)) >= MAX_DEPTH - 1 /\
  Evaluate (board (data (toy_state 3 128 0 0))) = 50 /\
  score_of (quiesce 5 0 1000 (toy_state 3 128 0 0)) = Ok 0 /\
  score_of (negamax 5 0 1000 1 (toy_state 3 128 0 0)) = Ok 0.
Proof.
  repeat split; vm_compute; try reflexivity; discriminate.
Qed.

(** C9 at the sample engine.  The table holds an exact score 77 of
    depth 0 for node 0: [quiesce] returns it.  With the score stored at
    depth 3, [negamax] returns it at depth 1, and searches the node at
    depth 4, where it finds 0 (node 1 is a stalemate). *)
Lemma tt_cutoff_depth_witness :
  quiesce 1 0 1000 (toy_hit_state 0)
    = Ok (77, [], poll (count_node (toy_hit_state 0))) /\
  negamax 1 0 1000 1 (toy_deep_state 0)
    = Ok (77, [], poll (count_node (toy_deep_state 0))) /\
  negamax 6 0 1000 4 (toy_deep_state 0)
    = negamax_search (negamax 5) 5 true true 0 0 4 0 1000
                     (ref_TTEntry 77 2 3 0 50) (poll (count_node (toy_deep_state 0))) /\
  score_of (negamax 6 0 1000 4 (toy_deep_state 0)) = Ok 0.
Proof.
  assert (Hdraw : no_draw (board (data (toy_hit_state 0)))).
  { repeat split. vm_compute. discriminate. }
  assert (Hprobe : TTProbe (zobrist (board (data (toy_hit_state 0))))
                           (table (toy_hit_state 0))
                   = Ok (ref_TTEntry 77 2 0 0 50)).
  { vm_compute. reflexivity. }
  assert (Hhit : ref_TTEntry 77 2 0 0 50 <> 0).
  { vm_compute. discriminate. }
  assert (Hprobe3 : TTProbe (zobrist (board (data (toy_deep_state 0))))
                            (table (toy_deep_state 0))
                    = Ok (ref_TTEntry 77 2 3 0 50)).
  { vm_compute. reflexivity. }
  assert (Hhit3 : ref_TTEntry 77 2 3 0 50 <> 0).
  { vm_compute. discriminate. }
  split; [|split; [|split]].
  - apply (proj1 (tt_cutoff_depth 0 0 1000 1 (toy_hit_state 0)
                    (ref_TTEntry 77 2 0 0 50) Hdraw Hprobe Hhit)).
    + vm_compute. discriminate.
    + left. vm_compute. reflexivity.
  - apply (proj1 (proj2 (proj2 (proj2
             (tt_cutoff_depth 0 0 1000 1 (toy_deep_state 0)
                (ref_TTEntry 77 2 3 0 50) Hdraw Hprobe3 Hhit3)))) 0 1000).
    + discriminate.
    + reflexivity.
    + reflexivity.
    + vm_compute. discriminate.
    + left. vm_compute. reflexivity.
  - apply (proj2 (proj2 (proj2 (proj2
             (tt_cutoff_depth 5 0 1000 4 (toy_deep_state 0)
                (ref_TTEntry 77 2 3 0 50) Hdraw Hprobe3 Hhit3)))) 0 1000).
    + discriminate.
    + reflexivity.
    + reflexivity.
    + left. vm_compute. reflexivity.
  - vm_compute. reflexivity.
Defined.

(** C6 at depth 5 after a score of 0: the window starts as [-10, 10];
    a search that returns -10 fails low, one that returns 10 fails high,
    one that returns 3 ends the loop; a delta of 2000000000 cannot be
    widened. *)
Lemma aspiration_window_witness :
  aspiration_start 5 0 = (10, -10, 10) /\
  aspiration_widen 10 (-10) 10 (-10) = Ok (Some (15, -20, 0)) /\
  aspiration_widen 10 (-10) 10 10 = Ok (Some (15, -10, 20)) /\
  aspiration_widen 10 (-10) 10 3 = Ok None /\
  aspiration_widen 2000000000 (-10) 10 10 = Abort.
Proof.
  assert (Hd : 1 <= 10) by lia.
  assert (Hd2 : 1 <= 2000000000) by lia.
  assert (Ha : - CHECKMATE <= -10) by (unfold CHECKMATE; lia).
  assert (Hab : -10 < 10) by lia.
  assert (Hb : 10 <= CHECKMATE) by (unfold CHECKMATE; lia).
  pose proof (aspiration_window 5 0 10 (-10) 10 (-10) Hd Ha Hab Hb) as Hlow.
  pose proof (aspiration_window 5 0 10 (-10) 10 10 Hd Ha Hab Hb) as Hhigh.
  pose proof (aspiration_window 5 0 10 (-10) 10 3 Hd Ha Hab Hb) as Hin.
  pose proof (aspiration_window 5 0 2000000000 (-10) 10 10 Hd2 Ha Hab Hb) as Hover.
  split; [exact (proj1 Hlow)|].
  split.
  { apply (proj1 (proj2 Hlow)); [unfold INT32_MAX; cbn; lia | lia]. }
  split.
  { apply (proj1 (proj2 (proj2 Hhigh))); [unfold INT32_MAX; cbn; lia | lia | lia]. }
  split.
  { apply (proj1 (proj2 (proj2 (proj2 Hin)))). lia. }
  apply (proj1 (proj2 (proj2 (proj2 (proj2 Hover)))));
    [unfold INT32_MAX; cbn; lia | right; lia].
Defined.

(** C6 fails below depth 5 and near the mate scores: at depth 2 after a
    score of 100 the window is [-32667, 32767], neither unbounded nor
    [score - delta, score + delta]; at depth 5 after a score of 32760 the
    upper end is CHECKMATE, not [score + 10]. *)
Lemma aspiration_window_counterexample :
  aspiration_start 2 100 = (32767, -32667, 32767) /\
  -32667 <> - CHECKMATE /\ 32767 <> 100 + 32767 /\
  aspiration_start 5 32760 = (10, 32750, 32767) /\ 32767 <> 32760 + 10.
Proof. repeat split; vm_compute; congruence. Qed.

(** C8 at the sample engine: a promotion to a knight. *)
Lemma quiesce_move_filter_witness :
  quiesce_skip (P:=toy_position) [6] 0 500 (toy_move 7 2 0) = true.
Proof.
  apply (proj1 (quiesce_move_filter (P:=toy_position) [6] 0 500 (toy_move 7 2 0)
                  eq_refl)).
  vm_compute. split; discriminate.
Defined.

(** C8 fails for a capture that promotes to a queen: at node 6 the move
    to node 7 captures a pawn and [0 + 200 + 100 < 500], yet the move is
    not passed over, and [quiesce] searches it: it returns 900, the
    evaluation after the capture, where the stand-pat score is 0. *)
Lemma quiesce_move_filter_counterexample :
  moveCapture (toy_move 7 8 1) = true /\
  0 + DELTA_CUTOFF
    + STATIC_MATERIAL_VALUE
        (PIECE_TYPE (captured_piece (P:=toy_position) [6] (toy_move 7 8 1))) < 500 /\
  quiesce_skip (P:=toy_position) [6] 0 500 (toy_move 7 8 1) = false /\
  stand_pat (P:=toy_position) 0 [6] 0 = 0 /\
  score_of (quiesce 5 500 1000 (toy_state 6 0 0 0)) = Ok 900.
Proof. repeat split; vm_compute; reflexivity. Qed.

(** *** What a search adds to the trace *)

Section TraceInduction.
Context {L : TTLayout} {P : Position} {E : Engine}.

(** [Q] holds of a call of [ttPut] that stores the bound [bound_of]
    selects, given that the stop flag is clear when [strict] is assumed;
    [strict] brings the laws of move generation with it. *)
Variable Q : Event -> Prop.
Variable strict : Prop.
Hypothesis Q_put :
  forall stop alpha0 beta hash depth score move p eval,
    (strict -> stop = 0) ->
    Q (EvTTPut stop alpha0 beta hash depth score (bound_of score beta alpha0)
               move p eval).
Hypothesis strict_laws : strict -> EngineLaws.

Lemma grows_refl (st : State) : trace_grows Q st st.
Proof. exists []. split; [reflexivity | constructor]. Qed.

Lemma grows_eq (st st' : State) : trace st' = trace st -> trace_grows Q st st'.
Proof. intros H. exists []. split; [exact H | constructor]. Qed.

Lemma grows_trans (st1 st2 st3 : State) :
  trace_grows Q st1 st2 -> trace_grows Q st2 st3 -> trace_grows Q st1 st3.
Proof.
  intros (n1 & H1 & F1) (n2 & H2 & F2). exists (n2 ++ n1). split.
  - rewrite H2, H1. apply app_assoc.
  - apply Forall_app. split; assumption.
Qed.

Lemma grows_pre (st1 st2 st3 : State) :
  trace st2 = trace st1 -> trace_grows Q st2 st3 -> trace_grows Q st1 st3.
Proof. intros H G. apply (grows_trans st1 st2 st3); [apply grows_eq; exact H | exact G]. Qed.

Lemma grows_post (st1 st2 st3 : State) :
  trace_grows Q st1 st2 -> trace st3 = trace st2 -> trace_grows Q st1 st3.
Proof. intros G H. apply (grows_trans st1 st2 st3); [exact G | apply grows_eq; exact H]. Qed.

Lemma is_stopped_false (st : State) :
  is_stopped st = false -> stopped (params st) = 0.
Proof.
  unfold is_stopped. destruct (Z.eqb_spec (stopped (params st)) 0); [tauto | discriminate].
Qed.

Lemma quiesce_loop_trace (self : Z -> Z -> State -> Res Result) :
  spec_q Q self ->
  forall k i ml eval alpha beta bestScore pv st r pv' st',
    quiesce_loop self k i ml eval alpha beta bestScore pv st = Ok (r, pv', st') ->
    trace_grows Q st st'.
Proof.
  intros Hself. induction k as [|k IH];
    intros i ml eval alpha beta bestScore pv st r pv' st' Hrun;
    cbn [quiesce_loop] in Hrun;
    destruct (negb (i <? ml_count ml));
    try (inversion Hrun; subst; apply grows_refl); try discriminate.
  apply bind_Ok in Hrun. destruct Hrun as (u & _ & Hrun).
  destruct (quiesce_skip _ _ _ _); [apply (IH _ _ _ _ _ _ _ _ _ _ _ Hrun)|].
  destruct (ml_score _ _ <? 0); [inversion Hrun; subst; apply grows_refl|].
  apply bind_Ok in Hrun. destruct Hrun as ([[r1 cpv] st1] & Hchild & Hrun).
  apply Hself in Hchild.
  assert (G : trace_grows Q st (pop_move (ml_move (bubbleTopMove ml i) i) st1)).
  { apply (grows_post _ st1); [|reflexivity].
    apply (grows_pre _ (push_move (ml_move (bubbleTopMove ml i) i) st));
      [reflexivity | exact Hchild]. }
  destruct (is_stopped _); [inversion Hrun; subst; exact G|].
  destruct (- r1 >? bestScore).
  - destruct (_ >=? beta); [inversion Hrun; subst; exact G|].
    apply (grows_trans _ _ _ G). apply (IH _ _ _ _ _ _ _ _ _ _ _ Hrun).
  - apply (grows_trans _ _ _ G). apply (IH _ _ _ _ _ _ _ _ _ _ _ Hrun).
Qed.

Lemma quiesce_body_trace (self : Z -> Z -> State -> Res Result) (k : nat) :
  spec_q Q self -> spec_q Q (quiesce_body self k).
Proof.
  intros Hself alpha beta st r pv st' Hrun. unfold quiesce_body in Hrun.
  destruct (_ || _ || _); [inversion Hrun; subst; apply grows_eq; reflexivity|].
  destruct (_ >? _); [inversion Hrun; subst; apply grows_eq; reflexivity|].
  apply bind_Ok in Hrun. destruct Hrun as (ttValue & _ & Hrun).
  assert (G0 : trace (poll (count_node st)) = trace st).
  { rewrite trace_poll. reflexivity. }
  destruct (quiesce_tt_cutoff _ _ _ _).
  { inversion Hrun; subst. apply grows_eq. exact G0. }
  destruct (_ >=? beta).
  { inversion Hrun; subst. apply grows_eq. exact G0. }
  apply quiesce_loop_trace in Hrun; [|exact Hself].
  apply (grows_pre _ _ _ G0 Hrun).
Qed.

Lemma quiesce_trace (fuel : nat) : spec_q Q (quiesce fuel).
Proof.
  induction fuel as [|f IH]; [intros alpha beta st r pv st' H; discriminate|].
  apply quiesce_body_trace. exact IH.
Qed.

Lemma negamax_prune_trace (self : Z -> Z -> Z -> State -> Res Result)
      (skip depth beta eval0 ttValue : Z) (st : State) (c : Ctl (PV * State)) :
  spec_n Q self ->
  negamax_prune self skip depth beta eval0 ttValue st = Ok c ->
  match c with
  | Return (_, _, st') => trace_grows Q st st'
  | Next (_, st') => trace_grows Q st st'
  end.
Proof.
  intros Hself Hrun. unfold negamax_prune in Hrun.
  destruct (_ && _ && _); [inversion Hrun; subst; apply grows_refl|].
  destruct (_ && _ && _ && _ && _); [|inversion Hrun; subst; apply grows_refl].
  apply bind_Ok in Hrun. destruct Hrun as ([[r1 cpv] st1] & Hchild & Hrun).
  apply Hself in Hchild.
  assert (G : trace_grows Q st (pop_null st1)).
  { apply (grows_post _ st1); [|reflexivity].
    apply (grows_pre _ (push_null st)); [reflexivity | exact Hchild]. }
  destruct (is_stopped _); [inversion Hrun; subst; exact G|].
  destruct (_ >=? beta); inversion Hrun; subst; exact G.
Qed.

Lemma negamax_singular_trace (self : Z -> Z -> Z -> State -> Res Result)
      (fr : Frame) (move : Z) (pv : PV) (st : State) (c : Ctl (bool * PV * State)) :
  spec_n Q self ->
  negamax_singular self fr move pv st = Ok c ->
  match c with
  | Return (_, _, st') => trace_grows Q st st'
  | Next (_, _, st') => trace_grows Q st st'
  end.
Proof.
  intros Hself Hrun. unfold negamax_singular in Hrun.
  destruct (singular_candidate _ _ _); [|inversion Hrun; subst; apply grows_refl].
  apply bind_Ok in Hrun. destruct Hrun as ([[r1 pv1] st1] & Hchild & Hrun).
  apply Hself in Hchild.
  assert (G : trace_grows Q st (set_skip NULL_MOVE st1)).
  { apply (grows_post _ st1); [|reflexivity].
    apply (grows_pre _ (set_skip move st)); [reflexivity | exact Hchild]. }
  destruct (r1 <? _); [inversion Hrun; subst; exact G|].
  destruct (_ >=? _); inversion Hrun; subst; exact G.
Qed.

Lemma negamax_ladder_trace (self : Z -> Z -> Z -> State -> Res Result)
      (fr : Frame) (alpha newDepth R numMoves : Z) (childPv : PV) (st : State)
      (r : Z) (pv' : PV) (st' : State) :
  spec_n Q self ->
  negamax_ladder self fr alpha newDepth R numMoves childPv st = Ok (r, pv', st') ->
  trace_grows Q st st'.
Proof.
  intros Hself Hrun. unfold negamax_ladder in Hrun.
  apply bind_Ok in Hrun. destruct Hrun as ([[s1 c1] st1] & H1 & Hrun).
  assert (G1 : trace_grows Q st st1).
  { destruct (negb (R =? 1)).
    - apply bind_Ok in H1. destruct H1 as ([[r1 c] s] & Hc & H1).
      inversion H1; subst. apply (Hself _ _ _ _ _ _ _ Hc).
    - inversion H1; subst. apply grows_refl. }
  apply bind_Ok in Hrun. destruct Hrun as ([[s2 c2] st2] & H2 & Hrun).
  assert (G2 : trace_grows Q st1 st2).
  { destruct (_ || _).
    - apply bind_Ok in H2. destruct H2 as ([[r2 c] s] & Hc & H2).
      inversion H2; subst. apply (Hself _ _ _ _ _ _ _ Hc).
    - inversion H2; subst. apply grows_refl. }
  cbn beta iota in Hrun.
  destruct (isPV fr && _).
  - apply bind_Ok in Hrun. destruct Hrun as ([[r3 c] s] & Hc & Hrun).
    inversion Hrun; subst.
    apply (grows_trans _ _ _ G1). apply (grows_trans _ _ _ G2).
    apply (Hself _ _ _ _ _ _ _ Hc).
  - inversion Hrun; subst. apply (grows_trans _ _ _ G1 G2).
Qed.

Lemma loop_exhausted (fr : Frame) (st0 : State) (i : Z) (lp : Loop) :
  loop_inv Q strict fr st0 i lp -> ml_count (lp_ml lp) <= i ->
  loop_exit Q strict fr st0 lp.
Proof.
  intros [G Hs] Hi. split; [exact G|].
  intros Hst Hskip Hcount. destruct (Hs Hst) as (Hwf & Hn & Hi0 & Hzero & Hpos).
  destruct (Z.eq_dec (lp_numMoves lp) 0) as [Hz|Hnz]; [|apply Hpos; exact Hnz].
  destruct (Hzero Hz) as [_ Hi1]. specialize (Hi1 Hskip).
  destruct Hwf as [Hc _]. lia.
Qed.

Lemma negamax_loop_trace (self : Z -> Z -> Z -> State -> Res Result)
      (fr : Frame) (st0 : State) :
  spec_n Q self ->
  forall k i lp c,
    loop_inv Q strict fr st0 i lp ->
    negamax_loop self fr k i lp = Ok c ->
    match c with
    | Return (_, _, st') => trace_grows Q st0 st'
    | Next lp' => loop_exit Q strict fr st0 lp'
    end.
Proof.
  intros Hself. induction k as [|k IH]; intros i lp c Hinv Hrun;
    cbn [negamax_loop] in Hrun;
    destruct (Z.ltb_spec i (ml_count (lp_ml lp))) as [Hi|Hi]; cbn [negb] in Hrun;
    try discriminate;
    try (inversion Hrun; subst; apply (loop_exhausted fr st0 i lp Hinv Hi)).
  destruct Hinv as [G Hs].
  set (ml := bubbleTopMove (lp_ml lp) i) in *.
  set (move := ml_move ml i) in *.
  assert (Hwf' : strict -> wf_moves ml /\ i < ml_count ml).
  { intros Hst. destruct (Hs Hst) as (Hwf & _).
    pose proof (strict_laws Hst) as laws. split.
    - apply (bubble_wf laws). exact Hwf.
    - unfold ml. rewrite (bubble_count laws). exact Hi. }
  destruct (Z.eqb_spec (fr_skipMove fr) move) as [Hsk|Hsk].
  { (* the excluded move *)
    refine (IH _ _ _ _ Hrun). unfold loop_inv. split; [exact G|]. cbn.
    intros Hst. destruct (Hs Hst) as (Hwf & Hn & Hi0 & Hzero & Hpos).
    destruct (Hwf' Hst) as [[_ Hnn] Hlt].
    split; [apply Hwf'; exact Hst|]. split; [exact Hn|]. split; [lia|].
    split; [|exact Hpos].
    intros Hz. destruct (Hzero Hz) as [Hb Hi1]. split; [exact Hb|].
    intros Hskip. exfalso. apply (Hnn i); [lia|].
    fold move. rewrite <- Hsk. exact Hskip. }
  destruct (negamax_pruned fr _ _ _ move) eqn:Hpr.
  { (* a pruned move *)
    refine (IH _ _ _ _ Hrun). unfold loop_inv. split; [exact G|]. cbn.
    intros Hst. destruct (Hs Hst) as (Hwf & Hn & Hi0 & Hzero & Hpos).
    split; [apply Hwf'; exact Hst|]. split; [exact Hn|]. split; [lia|].
    split; [|exact Hpos].
    intros Hz. exfalso. destruct (Hzero Hz) as [Hb _].
    unfold negamax_pruned in Hpr. rewrite Hb in Hpr.
    unfold CHECKMATE, MATE_BOUND in Hpr.
    destruct (negb (isPV fr)); simpl in Hpr; discriminate. }
  apply bind_Ok in Hrun. destruct Hrun as (sing & Hsing & Hrun).
  pose proof (negamax_singular_trace _ _ _ _ _ _ Hself Hsing) as Gs.
  destruct sing as [[[r0 pv0] st0']|[[se pv1] st1]].
  { inversion Hrun; subst. cbv beta iota. apply (grows_trans _ _ _ G Gs). }
  apply bind_Ok in Hrun. destruct Hrun as ([[score cpv] st3] & Hlad & Hrun).
  apply negamax_ladder_trace in Hlad; [|exact Hself].
  assert (G4 : trace_grows Q st0 (pop_move move st3)).
  { apply (grows_trans _ _ _ G). apply (grows_trans _ _ _ Gs).
    apply (grows_post _ st3); [|reflexivity].
    apply (grows_pre _ (push_move move st1)); [reflexivity | exact Hlad]. }
  destruct (is_stopped (pop_move move st3)) eqn:Hstop.
  { inversion Hrun; subst. exact G4. }
  apply is_stopped_false in Hstop.
  assert (Hnext : forall lp1,
             lp_st lp1 = pop_move move st3 -> lp_ml lp1 = ml ->
             lp_numMoves lp1 = lp_numMoves lp + 1 ->
             loop_inv Q strict fr st0 (i + 1) lp1).
  { intros lp1 E1 E2 E3. unfold loop_inv. split; [rewrite E1; exact G4|].
    intros Hst. destruct (Hs Hst) as (Hwf & Hn & Hi0 & Hzero & Hpos).
    rewrite E1, E2, E3.
    split; [apply Hwf'; exact Hst|]. split; [lia|]. split; [lia|].
    split; [intros Hz; lia | intros _; exact Hstop]. }
  destruct (score >? lp_bestScore lp).
  + destruct (_ >=? fr_beta fr).
    * (* beta cutoff *)
      inversion Hrun; subst. cbv beta iota. unfold loop_exit. split; cbn.
      -- apply (grows_post _ _ _ G4). reflexivity.
      -- intros _ _ _. exact Hstop.
    * refine (IH _ _ _ _ Hrun). apply Hnext; reflexivity.
  + refine (IH _ _ _ _ Hrun). apply Hnext; reflexivity.
Qed.

Lemma negamax_finish_trace (fr : Frame) (st0 : State) (lp : Loop)
      (r : Z) (pv : PV) (st' : State) :
  loop_exit Q strict fr st0 lp ->
  negamax_finish fr lp = Ok (r, pv, st') ->
  trace_grows Q st0 st'.
Proof.
  intros [G Hs] Hrun. unfold negamax_finish in Hrun.
  destruct (Z.eqb_spec (ml_count (lp_ml lp)) 0) as [Hc|Hc].
  { inversion Hrun; subst. exact G. }
  apply bind_Ok in Hrun. destruct Hrun as (st1 & Hput & Hrun).
  apply bind_Ok in Hrun. destruct Hrun as (u1 & _ & Hrun).
  apply bind_Ok in Hrun. destruct Hrun as (u2 & _ & Hrun).
  inversion Hrun; subst. clear Hrun.
  destruct (Z.eqb_spec (fr_skipMove fr) 0) as [Hsk|Hsk].
  - apply bind_Ok in Hput. destruct Hput as ([v t] & _ & Hput).
    inversion Hput; subst. apply (grows_trans _ _ _ G).
    eexists [_]. split; [reflexivity|]. constructor; [|constructor].
    apply Q_put. intros Hst. apply (Hs Hst Hsk Hc).
  - inversion Hput; subst. exact G.
Qed.

Lemma negamax_node_trace (self : Z -> Z -> Z -> State -> Res Result) (k : nat)
      (pvNode root : bool) (alpha0 skip depth alpha beta : Z) (st : State)
      (r : Z) (pv : PV) (st' : State) :
  spec_n Q self ->
  negamax_node self k pvNode root alpha0 skip depth alpha beta st = Ok (r, pv, st') ->
  trace_grows Q st st'.
Proof.
  intros Hself Hrun. unfold negamax_node, negamax_search in Hrun.
  apply bind_Ok in Hrun. destruct Hrun as (ttValue & _ & Hrun).
  destruct (negamax_tt_cutoff _ _ _ _ _).
  { inversion Hrun; subst. apply grows_refl. }
  apply bind_Ok in Hrun. destruct Hrun as (u & _ & Hrun).
  apply bind_Ok in Hrun. destruct Hrun as (pr & Hpr & Hrun).
  match type of Hpr with
  | (if _ then _ else Ok (Next (_, ?s))) = _ => set (st1 := s) in *
  end.
  assert (Gp : match pr with
               | Return (_, _, st2) => trace_grows Q st st2
               | Next (_, st2) => trace_grows Q st st2
               end).
  { destruct (negb pvNode && _).
    - apply negamax_prune_trace in Hpr; [|exact Hself].
      destruct pr as [[[r0 pv0] st2]|[cpv st2]];
        apply (grows_pre _ st1); try reflexivity; exact Hpr.
    - inversion Hpr; subst. apply grows_eq. reflexivity. }
  destruct pr as [[[r0 pv0] st2]|[cpv st2]].
  { inversion Hrun; subst. exact Gp. }
  apply bind_Ok in Hrun. destruct Hrun as (lp & Hloop & Hrun).
  apply (negamax_loop_trace self _ st2 Hself) in Hloop.
  - destruct lp as [[[r0 pv0] st3]|lp'].
    + inversion Hrun; subst. apply (grows_trans _ _ _ Gp Hloop).
    + apply (grows_trans _ _ _ Gp).
      apply (negamax_finish_trace _ _ _ _ _ _ Hloop Hrun).
  - unfold loop_inv. split; cbn; [apply grows_refl|].
    intros Hst. split; [apply (generate_wf (strict_laws Hst))|].
    split; [lia|]. split; [lia|]. split; [|intros H; contradiction].
    intros _. split; reflexivity.
Qed.

Lemma negamax_body_trace (self : Z -> Z -> Z -> State -> Res Result)
      (q : Z -> Z -> State -> Res Result) (k : nat) :
  spec_n Q self -> spec_q Q q -> spec_n Q (negamax_body self q k).
Proof.
  intros Hself Hq alpha beta depth st r pv st' Hrun. unfold negamax_body in Hrun.
  destruct (depth =? 0); [apply (Hq _ _ _ _ _ _ Hrun)|].
  destruct (negamax_window _ _ _ _) as [[[r0 pv0] st1]|[alpha' beta']] eqn:Hw.
  - inversion Hrun; subst. unfold negamax_window in Hw.
    destruct (ply (data st) =? 0); [discriminate|].
    destruct (_ || _ || _); [inversion Hw; subst; apply grows_eq; reflexivity|].
    destruct (_ >? _); [inversion Hw; subst; apply grows_eq; reflexivity|].
    destruct (_ >=? _); [inversion Hw; subst; apply grows_eq; reflexivity|].
    discriminate.
  - apply negamax_node_trace in Hrun; [|exact Hself].
    apply (grows_pre _ (poll (count_node st))); [|exact Hrun].
    rewrite trace_poll. reflexivity.
Qed.

Lemma negamax_trace (fuel : nat) : spec_n Q (negamax fuel).
Proof.
  induction fuel as [|f IH]; [intros alpha beta depth st r pv st' H; discriminate|].
  apply negamax_body_trace; [exact IH | apply quiesce_trace].
Qed.

End TraceInduction.

(** *** The bound stored with a node, and the stop flag *)

Section TraceClaims.
Context {L : TTLayout} {P : Position} {E : Engine}.

Lemma bound_of_cases (laws : TTLayoutLaws L) (score beta alpha0 : Z) :
  (bound_of score beta alpha0 = TT_LOWER <-> score >= beta) /\
  (bound_of score beta alpha0 = TT_UPPER <-> score < beta /\ score <= alpha0) /\
  (bound_of score beta alpha0 = TT_EXACT <-> alpha0 < score < beta).
Proof.
  destruct (flags_distinct L laws) as (H1 & H2 & H3). unfold bound_of.
  destruct (Z.geb_spec score beta); destruct (Z.leb_spec score alpha0);
    repeat split; intros; try lia; try congruence; try reflexivity.
Qed.

Lemma negamax_finish_put (fr : Frame) (lp : Loop) (r : Z) (pv : PV) (st' : State) :
  negamax_finish fr lp = Ok (r, pv, st') ->
  ml_count (lp_ml lp) <> 0 -> fr_skipMove fr = 0 ->
  let st := lp_st lp in
  let d := data st in
  let flag := bound_of r (fr_beta fr) (a0 fr) in
  r = lp_bestScore lp /\
  trace st' = EvTTPut (stopped (params st)) (a0 fr) (fr_beta fr) (zobrist (board d))
                      (fr_depth fr) r flag (lp_bestMove lp) (ply d)
                      (aget (evals d) (ply d)) :: trace st /\
  exists v, TTPut (zobrist (board d)) (fr_depth fr) r flag (lp_bestMove lp) (ply d)
                  (aget (evals d) (ply d)) (table st) = Ok (v, table st').
Proof.
  intros Hrun Hc Hsk. unfold negamax_finish in Hrun.
  destruct (Z.eqb_spec (ml_count (lp_ml lp)) 0); [contradiction|].
  rewrite Hsk in Hrun. cbn [Z.eqb] in Hrun.
  apply bind_Ok in Hrun. destruct Hrun as (st1 & Hput & Hrun).
  apply bind_Ok in Hrun. destruct Hrun as (u1 & _ & Hrun).
  apply bind_Ok in Hrun. destruct Hrun as (u2 & _ & Hrun).
  inversion Hrun; subst. clear Hrun.
  apply bind_Ok in Hput. destruct Hput as ([v t] & Hput & Heq).
  inversion Heq; subst. cbn. split; [reflexivity|]. split; [reflexivity|].
  exists v. exact Hput.
Qed.

Lemma negamax_window_beta (alpha beta : Z) (st : State) (alpha' beta' : Z) :
  negamax_window (ply (data st) =? 0) alpha beta (count_node st)
    = Next (alpha', beta') ->
  beta' = node_beta beta st.
Proof.
  intros Hw. unfold negamax_window in Hw. unfold node_beta.
  cbn [count_node data set_data set_counts ply board] in Hw.
  destruct (ply (data st) =? 0); [injection Hw as _ <-; reflexivity|].
  destruct (_ || _ || _); [discriminate Hw|].
  destruct (_ >? _); [discriminate Hw|].
  destruct (_ >=? _); [discriminate Hw|].
  injection Hw as _ <-. reflexivity.
Qed.

(** Every call of [ttPut] of a run is the one that ends some call of
    [negamax], with the alpha that call was given. *)
Lemma negamax_calls_put (fuel : nat) : spec_n put_of_call (negamax fuel).
Proof.
  induction fuel as [|f IH]; [intros alpha beta depth st r pv st' H; discriminate H|].
  intros alpha beta depth st r pv st' Hcall.
  pose proof Hcall as Hrun. cbn [negamax] in Hrun. unfold negamax_body in Hrun.
  destruct (depth =? 0); [apply (quiesce_trace put_of_call f _ _ _ _ _ _ Hrun)|].
  destruct (negamax_window _ _ _ _) as [[[r0 pv0] st1]|[alpha' beta']] eqn:Hw.
  { injection Hrun as <- <- <-. unfold negamax_window in Hw.
    destruct (ply (data st) =? 0); [discriminate Hw|].
    destruct (_ || _ || _); [injection Hw as <- <- <-; apply grows_eq; reflexivity|].
    destruct (_ >? _); [injection Hw as <- <- <-; apply grows_eq; reflexivity|].
    destruct (_ >=? _); [injection Hw as <- <- <-; apply grows_eq; reflexivity|].
    discriminate Hw. }
  pose proof (negamax_window_beta _ _ _ _ _ Hw) as Hbeta.
  apply (grows_pre _ _ (poll (count_node st))); [rewrite trace_poll; reflexivity|].
  set (st0 := poll (count_node st)) in *.
  unfold negamax_node, negamax_search in Hrun.
  apply bind_Ok in Hrun. destruct Hrun as (ttValue & _ & Hrun).
  destruct (negamax_tt_cutoff _ _ _ _ _).
  { injection Hrun as <- <- <-. apply grows_refl. }
  apply bind_Ok in Hrun. destruct Hrun as (u & _ & Hrun).
  apply bind_Ok in Hrun. destruct Hrun as (pr & Hpr & Hrun).
  match type of Hpr with
  | (if _ then _ else Ok (Next (_, ?s))) = _ => set (st1 := s) in *
  end.
  assert (Gp : match pr with
               | Return (_, _, st2) => trace_grows put_of_call st0 st2
               | Next (_, st2) => trace_grows put_of_call st0 st2
               end).
  { destruct (negb _ && _).
    - apply (negamax_prune_trace put_of_call) in Hpr; [|exact IH].
      destruct pr as [[[r0 pv0] st2]|[cpv st2]];
        apply (grows_pre _ _ st1); try reflexivity; exact Hpr.
    - injection Hpr as <-. apply grows_eq. reflexivity. }
  destruct pr as [[[r0 pv0] st2]|[cpv st2]].
  { injection Hrun as <- <- <-. exact Gp. }
  apply bind_Ok in Hrun. destruct Hrun as (lp & Hloop & Hrun).
  apply (negamax_loop_trace put_of_call False (fun H : False => match H with end)
           (negamax f) _ st2 IH) in Hloop;
    [|split; cbn; [apply grows_refl | intros []]].
  destruct lp as [[[r0 pv0] st3]|lp'].
  { injection Hrun as <- <- <-. apply (grows_trans _ _ _ _ Gp Hloop). }
  destruct Hloop as [Gl _].
  apply (grows_trans _ _ _ _ Gp). apply (grows_trans _ _ _ _ Gl).
  destruct (Z.eq_dec (ml_count (lp_ml lp')) 0) as [Hc|Hc].
  { unfold negamax_finish in Hrun.
    destruct (Z.eqb_spec (ml_count (lp_ml lp')) 0); [|contradiction].
    injection Hrun as <- <- <-. apply grows_refl. }
  destruct (Z.eq_dec (aget (skipMove (data st)) (ply (data st))) 0) as [Hsk|Hsk].
  - destruct (negamax_finish_put _ _ _ _ _ Hrun Hc Hsk) as (Hr & Htr & _).
    cbn [a0 fr_beta fr_depth] in Htr.
    eexists [_]. split; [exact Htr|]. constructor; [|constructor].
    exists (S f), alpha, beta, depth, st, r, pv, st'.
    split; [exact Hcall|]. rewrite Hbeta. repeat split.
  - unfold negamax_finish in Hrun.
    destruct (Z.eqb_spec (ml_count (lp_ml lp')) 0); [contradiction|].
    cbn [fr_skipMove] in Hrun.
    destruct (Z.eqb_spec (aget (skipMove (data st)) (ply (data st))) 0);
      [contradiction|].
    apply bind_Ok in Hrun. destruct Hrun as (st4 & Hput & Hrun).
    apply bind_Ok in Hrun. destruct Hrun as (u1 & _ & Hrun).
    apply bind_Ok in Hrun. destruct Hrun as (u2 & _ & Hrun).
    injection Hput as <-. injection Hrun as <- <- <-. apply grows_refl.
Qed.

(** C7, as amended.  Every call of [ttPut] in a run of [negamax] is the
    one that ends some call of [negamax]: it stores the score [r] that
    call returns, with the bound that is LOWER exactly when [r >= beta],
    UPPER exactly when [r < beta] and [r <= a0], and EXACT exactly when
    [a0 < r < beta], where [a0] is the alpha that call was given and
    [beta] the beta it goes on with: the beta it was given at the root,
    that beta lowered to [CHECKMATE - ply - 1] elsewhere.  Against the
    beta the call was given, an UPPER or EXACT entry has [r < beta], and
    a LOWER entry has [r >= beta] at the root and wherever that beta is
    at most [CHECKMATE - ply - 1].  The node that reaches the end of
    [negamax] with a move list that is not empty and no excluded move
    returns its best score and makes the call recorded. *)
Theorem negamax_bound_kind (laws : TTLayoutLaws L) :
  (forall fuel alpha beta depth st r pv st',
     negamax fuel alpha beta depth st = Ok (r, pv, st') ->
     exists new, trace st' = new ++ trace st /\
       forall e, In e new ->
         exists f a b d s r1 pv1 s1 stop hash flag move p eval,
           negamax f a b d s = Ok (r1, pv1, s1) /\
           e = EvTTPut stop a (node_beta b s) hash d r1 flag move p eval /\
           (flag = TT_LOWER <-> r1 >= node_beta b s) /\
           (flag = TT_UPPER <-> r1 < node_beta b s /\ r1 <= a) /\
           (flag = TT_EXACT <-> a < r1 < node_beta b s) /\
           (flag = TT_UPPER -> r1 <= a /\ r1 < b) /\
           (flag = TT_EXACT -> a < r1 < b) /\
           (flag = TT_LOWER ->
            ply (data s) = 0 \/ b <= CHECKMATE - ply (data s) - 1 -> r1 >= b)) /\
  (forall fr lp r pv st',
     negamax_finish fr lp = Ok (r, pv, st') ->
     ml_count (lp_ml lp) <> 0 -> fr_skipMove fr = 0 ->
     r = lp_bestScore lp /\
     exists stop hash depth flag move p eval v,
       trace st' = EvTTPut stop (a0 fr) (fr_beta fr) hash depth r flag move p eval
                   :: trace (lp_st lp) /\
       TTPut hash depth r flag move p eval (table (lp_st lp)) = Ok (v, table st') /\
       (flag = TT_LOWER <-> r >= fr_beta fr) /\
       (flag = TT_UPPER <-> r < fr_beta fr /\ r <= a0 fr) /\
       (flag = TT_EXACT <-> a0 fr < r < fr_beta fr)).
Proof.
  split.
  - intros fuel alpha beta depth st r pv st' Hrun.
    destruct (negamax_calls_put fuel _ _ _ _ _ _ _ Hrun) as (new & Htr & Hall).
    exists new. split; [exact Htr|].
    intros e Hin. rewrite Forall_forall in Hall. apply list_elem_of_In in Hin.
    destruct (Hall _ Hin) as (f & a & b & d & s & r1 & pv1 & s1 & Hcall & He).
    destruct e as [stop alpha0 beta' hash d' score flag move p eval| |];
      [|contradiction|contradiction].
    destruct He as (-> & -> & -> & -> & ->).
    exists f, a, b, d, s, r1, pv1, s1, stop, hash,
           (bound_of r1 (node_beta b s) a), move, p, eval.
    split; [exact Hcall|]. split; [reflexivity|].
    destruct (bound_of_cases laws r1 (node_beta b s) a) as (HL & HU & HE).
    split; [exact HL|]. split; [exact HU|]. split; [exact HE|].
    assert (Hle : node_beta b s <= b).
    { unfold node_beta. destruct (ply (data s) =? 0); lia. }
    split; [intros Hf; apply HU in Hf; lia|].
    split; [intros Hf; apply HE in Hf; lia|].
    intros Hf Hb. apply HL in Hf.
    assert (Heq : node_beta b s = b).
    { unfold node_beta. destruct (Z.eqb_spec (ply (data s)) 0); [reflexivity|].
      destruct Hb as [Hb|Hb]; [contradiction | lia]. }
    lia.
  - intros fr lp r pv st' Hrun Hc Hsk.
    destruct (negamax_finish_put fr lp r pv st' Hrun Hc Hsk) as (Hr & Htr & v & Hput).
    split; [exact Hr|].
    do 7 eexists. exists v. split; [exact Htr|]. split; [exact Hput|].
    apply (bound_of_cases laws).
Qed.

Lemma same_search_refl (st : State) : same_search st st.
Proof. split; reflexivity. Qed.

Lemma same_search_count (st1 st2 : State) :
  same_search st1 st2 -> same_search (count_node st1) (count_node st2).
Proof.
  intros [Hd Ht]. split; unfold count_node; cbn [data table set_data];
    [rewrite Hd | rewrite Ht]; reflexivity.
Qed.

Lemma same_search_poll (st1 st2 : State) :
  same_search st1 st2 -> same_search (poll st1) (poll st2).
Proof.
  intros [Hd Ht]. split; [rewrite !data_poll | rewrite !table_poll]; assumption.
Qed.

Lemma same_search_set_data (st1 st2 : State) (d : SearchData) :
  same_search st1 st2 -> same_search (set_data st1 d) (set_data st2 d).
Proof. intros [Hd Ht]. split; cbn; [reflexivity | exact Ht]. Qed.

(** A move loop of [quiesce] that searches no move leaves its variables
    as they are. *)
Lemma quiesce_loop_no_child (self : Z -> Z -> State -> Res Result) :
  forall k i ml eval alpha beta bestScore pv st1 st2 res,
    data st1 = data st2 ->
    quiesce_loop no_child_q k i ml eval alpha beta bestScore pv st1 = Ok res ->
    res = (bestScore, pv, st1) /\
    quiesce_loop self k i ml eval alpha beta bestScore pv st2
      = Ok (bestScore, pv, st2).
Proof.
  induction k as [|k IH];
    intros i ml eval alpha beta bestScore pv st1 st2 res Hd Hrun;
    cbn [quiesce_loop] in *;
    destruct (negb (i <? ml_count ml));
    try (injection Hrun as <-; split; reflexivity); try discriminate Hrun.
  rewrite <- Hd.
  destruct (assert _); cbn [mbind Res_bind] in *; try discriminate Hrun.
  destruct (quiesce_skip _ _ _ _); [apply (IH _ _ _ _ _ _ _ _ _ _ Hd Hrun)|].
  destruct (ml_score _ _ <? 0); [injection Hrun as <-; split; reflexivity|].
  discriminate Hrun.
Qed.

(** A frame of [quiesce] that returns without searching a child returns
    the same from every state with the same search data and table. *)
Lemma quiesce_body_no_child (self : Z -> Z -> State -> Res Result) (k : nat)
      (alpha beta : Z) (st1 st2 : State) (r : Z) (pv : PV) (st1' : State) :
  same_search st1 st2 ->
  quiesce_body no_child_q k alpha beta st1 = Ok (r, pv, st1') ->
  exists st2',
    quiesce_body self k alpha beta st2 = Ok (r, pv, st2') /\
    same_search st1' st2'.
Proof.
  intros Hs Hrun. unfold quiesce_body in *.
  pose proof (same_search_count _ _ Hs) as Hc.
  pose proof (same_search_poll _ _ Hc) as Hp.
  set (c1 := count_node st1) in *. set (c2 := count_node st2) in *.
  destruct Hc as [Hcd Hct]. rewrite <- Hcd.
  destruct (_ || _ || _).
  { injection Hrun as <- <- <-. eexists. split; [reflexivity | split; assumption]. }
  destruct (_ >? _).
  { injection Hrun as <- <- <-. eexists. split; [reflexivity | split; assumption]. }
  set (p1 := poll c1) in *. set (p2 := poll c2) in *.
  destruct Hp as [Hpd Hpt]. rewrite <- Hpt, <- Hpd.
  destruct (TTProbe _ _) as [ttValue| |]; cbn [mbind Res_bind] in *;
    try discriminate Hrun.
  destruct (quiesce_tt_cutoff _ _ _ _).
  { injection Hrun as <- <- <-. eexists. split; [reflexivity | split; assumption]. }
  destruct (_ >=? beta).
  { injection Hrun as <- <- <-. eexists. split; [reflexivity|].
    apply same_search_set_data. split; assumption. }
  match type of Hrun with
  | quiesce_loop _ _ _ _ _ _ _ _ _ (set_data _ ?d) = _ =>
      destruct (quiesce_loop_no_child self _ _ _ _ _ _ _ _ (set_data p1 d)
                  (set_data p2 d) _ eq_refl Hrun) as [Hres Hrun2]
  end.
  injection Hres as -> -> ->. eexists. split; [exact Hrun2|].
  apply same_search_set_data. split; assumption.
Qed.

Lemma negamax_ladder_no_child (fr : Frame) (alpha newDepth R numMoves : Z)
      (childPv : PV) (st : State) (res : Result) :
  1 <= numMoves ->
  negamax_ladder no_child_n fr alpha newDepth R numMoves childPv st = Ok res ->
  False.
Proof.
  intros Hn Hrun. unfold negamax_ladder, no_child_n in Hrun.
  destruct (R =? 1); cbn [negb andb orb mbind Res_bind] in Hrun;
    [|discriminate Hrun].
  destruct (isPV fr); cbn [negb andb orb mbind Res_bind] in Hrun;
    [|discriminate Hrun].
  destruct (Z.gtb_spec numMoves 1); cbn [mbind Res_bind] in Hrun;
    [discriminate Hrun|].
  destruct (Z.eqb_spec numMoves 1); cbn [orb mbind Res_bind] in Hrun;
    [discriminate Hrun | lia].
Qed.

Lemma negamax_prune_no_child (self : Z -> Z -> Z -> State -> Res Result)
      (skip depth beta eval0 ttValue : Z) (st1 st2 : State) (c : Ctl (PV * State)) :
  data st1 = data st2 ->
  negamax_prune no_child_n skip depth beta eval0 ttValue st1 = Ok c ->
  (exists e, c = Return (e, [], st1) /\
             negamax_prune self skip depth beta eval0 ttValue st2
               = Ok (Return (e, [], st2))) \/
  (c = Next ([], st1) /\
   negamax_prune self skip depth beta eval0 ttValue st2 = Ok (Next ([], st2))).
Proof.
  intros Hd Hrun. unfold negamax_prune in *. rewrite <- Hd.
  destruct (_ && _ && _).
  { injection Hrun as <-. left. eexists. split; reflexivity. }
  destruct (_ && _ && _ && _ && _); [discriminate Hrun|].
  injection Hrun as <-. right. split; reflexivity.
Qed.

Lemma negamax_singular_no_child (self : Z -> Z -> Z -> State -> Res Result)
      (fr : Frame) (move : Z) (pv : PV) (st1 st2 : State)
      (c : Ctl (bool * PV * State)) :
  data st1 = data st2 ->
  negamax_singular no_child_n fr move pv st1 = Ok c ->
  c = Next (false, pv, st1) /\
  negamax_singular self fr move pv st2 = Ok (Next (false, pv, st2)).
Proof.
  intros Hd Hrun. unfold negamax_singular in *. rewrite <- Hd.
  destruct (singular_candidate _ _ _); [discriminate Hrun|].
  injection Hrun as <-. split; reflexivity.
Qed.

(** A move loop of [negamax] that searches no move passes over the
    moves that are left. *)
Lemma negamax_loop_no_child (self : Z -> Z -> Z -> State -> Res Result)
      (fr : Frame) :
  forall k i lp1 lp2 c,
    same_loop lp1 lp2 -> 0 <= lp_numMoves lp1 ->
    negamax_loop no_child_n fr k i lp1 = Ok c ->
    exists lp1' lp2',
      c = Next lp1' /\ negamax_loop self fr k i lp2 = Ok (Next lp2') /\
      same_loop lp1' lp2'.
Proof.
  induction k as [|k IH]; intros i lp1 lp2 c Hs Hn Hrun;
    pose proof Hs as (Hml & Hal & Hbs & Hbm & Hnm & Hpv & Hcpv & Hd & Ht);
    cbn [negamax_loop] in *; rewrite <- Hml;
    destruct (negb (i <? ml_count (lp_ml lp1)));
    try (injection Hrun as <-; exists lp1, lp2; repeat split; assumption);
    try discriminate Hrun.
  rewrite <- Hd, <- Hbs, <- Hnm.
  destruct (fr_skipMove fr =? _).
  { eapply IH; [ | | exact Hrun]; [repeat split; cbn; congruence | exact Hn]. }
  destruct (negamax_pruned fr _ _ _ _).
  { eapply IH; [ | | exact Hrun]; [repeat split; cbn; congruence | exact Hn]. }
  exfalso.
  destruct (negamax_singular no_child_n fr _ _ _) as [sing| |] eqn:Hsing;
    cbn [mbind Res_bind] in Hrun; try discriminate Hrun.
  destruct (negamax_singular_no_child self _ _ _ _ (lp_st lp1) _ eq_refl Hsing)
    as [-> _].
  destruct (negamax_ladder _ _ _ _ _ _ _ _) as [res| |] eqn:Hlad;
    cbn [mbind Res_bind] in Hrun; try discriminate Hrun.
  apply negamax_ladder_no_child in Hlad; [exact Hlad | lia].
Qed.

Lemma negamax_finish_no_child (fr : Frame) (lp1 lp2 : Loop)
      (r : Z) (pv : PV) (st1' : State) :
  same_loop lp1 lp2 ->
  negamax_finish fr lp1 = Ok (r, pv, st1') ->
  exists st2',
    negamax_finish fr lp2 = Ok (r, pv, st2') /\ same_search st1' st2'.
Proof.
  intros (Hml & Hal & Hbs & Hbm & Hnm & Hpv & Hcpv & Hd & Ht) Hrun.
  unfold negamax_finish in *. rewrite <- Hml, <- Hd, <- Ht, <- Hbs, <- Hbm, <- Hpv.
  destruct (ml_count (lp_ml lp1) =? 0).
  { injection Hrun as <- <- <-. eexists. split; [reflexivity | split; assumption]. }
  destruct (fr_skipMove fr =? 0).
  - destruct (TTPut _ _ _ _ _ _ _ _) as [[v t]| |]; cbn [mbind Res_bind] in *;
      try discriminate Hrun.
    destruct (assert (_ >=? _)); cbn [mbind Res_bind] in *; try discriminate Hrun.
    destruct (assert (_ <=? _)); cbn [mbind Res_bind] in *; try discriminate Hrun.
    injection Hrun as <- <- <-. eexists. split; [reflexivity|].
    split; cbn; [exact Hd | reflexivity].
  - cbn [mbind Res_bind] in *.
    destruct (assert (_ >=? _)); cbn [mbind Res_bind] in *; try discriminate Hrun.
    destruct (assert (_ <=? _)); cbn [mbind Res_bind] in *; try discriminate Hrun.
    injection Hrun as <- <- <-. eexists. split; [reflexivity | split; assumption].
Qed.

(** A frame of [negamax] that returns without searching a child returns
    the same from every state with the same search data and table. *)
Lemma negamax_body_no_child (self : Z -> Z -> Z -> State -> Res Result)
      (q : Z -> Z -> State -> Res Result) (k : nat)
      (alpha beta depth : Z) (st1 st2 : State) (r : Z) (pv : PV) (st1' : State) :
  same_search st1 st2 ->
  negamax_body no_child_n no_child_q k alpha beta depth st1 = Ok (r, pv, st1') ->
  exists st2',
    negamax_body self q k alpha beta depth st2 = Ok (r, pv, st2') /\
    same_search st1' st2'.
Proof.
  intros Hs Hrun. unfold negamax_body in *.
  pose proof Hs as [Hd0 _]. rewrite <- Hd0.
  destruct (depth =? 0); [discriminate Hrun|].
  pose proof (same_search_count _ _ Hs) as Hc.
  pose proof (same_search_poll _ _ Hc) as Hp.
  set (c1 := count_node st1) in *. set (c2 := count_node st2) in *.
  unfold negamax_window in *.
  destruct Hc as [Hcd Hct]. rewrite <- Hcd.
  assert (Hnode : forall a b,
    negamax_node no_child_n k (negb (beta - alpha =? 1)) (ply (data st1) =? 0)
                 alpha (aget (skipMove (data st1)) (ply (data st1))) depth a b
                 (poll c1) = Ok (r, pv, st1') ->
    exists st2',
      negamax_node self k (negb (beta - alpha =? 1)) (ply (data st1) =? 0)
                   alpha (aget (skipMove (data st1)) (ply (data st1))) depth a b
                   (poll c2) = Ok (r, pv, st2') /\
      same_search st1' st2').
  { clear Hrun. intros a b Hrun.
    set (p1 := poll c1) in *. set (p2 := poll c2) in *.
    destruct Hp as [Hpd Hpt].
    unfold negamax_node, negamax_search in *. rewrite <- Hpt, <- Hpd.
    destruct (if negb _ then _ else _) as [ttValue| |]; cbn [mbind Res_bind] in *;
      try discriminate Hrun.
    destruct (negamax_tt_cutoff _ _ _ _ _).
    { injection Hrun as <- <- <-. eexists. split; [reflexivity | split; assumption]. }
    destruct (assert _); cbn [mbind Res_bind] in *; try discriminate Hrun.
    match type of Hrun with
    | context [negamax_prune _ _ _ _ _ _ (set_data _ ?d)] =>
        set (d1 := d) in *
    end.
    assert (Hpr : exists pr1 pr2,
              (if negb (negb (beta - alpha =? 1)) && (checkers (board (data p1)) =? 0)
               then negamax_prune no_child_n (aget (skipMove (data st1)) (ply (data st1)))
                      depth b (static_eval ttValue (board (data p1))) ttValue
                      (set_data p1 d1)
               else Ok (Next ([], set_data p1 d1))) = Ok pr1 /\
              (if negb (negb (beta - alpha =? 1)) && (checkers (board (data p1)) =? 0)
               then negamax_prune self (aget (skipMove (data st1)) (ply (data st1)))
                      depth b (static_eval ttValue (board (data p1))) ttValue
                      (set_data p2 d1)
               else Ok (Next ([], set_data p2 d1))) = Ok pr2 /\
              ((exists e, pr1 = Return (e, [], set_data p1 d1) /\
                          pr2 = Return (e, [], set_data p2 d1)) \/
               (pr1 = Next ([], set_data p1 d1) /\
                pr2 = Next ([], set_data p2 d1)))).
    { destruct (negb (negb (beta - alpha =? 1)) && _).
      - destruct (negamax_prune no_child_n _ _ _ _ _ _) as [pr1| |] eqn:Hpr1;
          cbn [mbind Res_bind] in Hrun; try discriminate Hrun.
        destruct (negamax_prune_no_child self _ _ _ _ _ (set_data p1 d1)
                    (set_data p2 d1) _ eq_refl Hpr1) as [(e & -> & H2)|[-> H2]].
        + do 2 eexists. split; [reflexivity|]. split; [exact H2|].
          left. exists e. split; reflexivity.
        + do 2 eexists. split; [reflexivity|]. split; [exact H2|].
          right. split; reflexivity.
      - do 2 eexists. split; [reflexivity|]. split; [reflexivity|].
        right. split; reflexivity. }
    destruct Hpr as (pr1 & pr2 & H1 & H2 & Hrel).
    rewrite H1 in Hrun. rewrite H2. cbn [mbind Res_bind] in *.
    destruct Hrel as [(e & -> & ->)|[-> ->]].
    { injection Hrun as <- <- <-. eexists. split; [reflexivity|].
      apply same_search_set_data. split; assumption. }
    match type of Hrun with
    | context [negamax_loop _ ?fr _ _ ?lp] =>
        destruct (negamax_loop no_child_n fr k 0 lp) as [c| |] eqn:Hloop;
        cbn [mbind Res_bind] in Hrun; try discriminate Hrun
    end.
    match type of Hloop with
    | negamax_loop _ ?fr _ _ ?lp = _ =>
        destruct (negamax_loop_no_child self fr k 0 lp
                    {| lp_ml := generateMoves d1; lp_alpha := a;
                       lp_bestScore := - CHECKMATE; lp_bestMove := 0;
                       lp_numMoves := 0; lp_pv := []; lp_childPv := [];
                       lp_st := set_data p2 d1 |} c)
          as (lp1' & lp2' & -> & Hloop2 & Hsame);
        [repeat split; cbn; assumption | cbn; lia | exact Hloop |]
    end.
    cbn [data set_data] in *. rewrite Hloop2. cbn [mbind Res_bind].
    apply (negamax_finish_no_child _ _ _ _ _ _ Hsame Hrun). }
  destruct (ply (data st1) =? 0); [apply Hnode; exact Hrun|].
  destruct (_ || _ || _).
  { injection Hrun as <- <- <-. eexists. split; [reflexivity | split; assumption]. }
  destruct (_ >? _).
  { injection Hrun as <- <- <-. eexists. split; [reflexivity | split; assumption]. }
  destruct (_ >=? _).
  { injection Hrun as <- <- <-. eexists. split; [reflexivity | split; assumption]. }
  apply Hnode. exact Hrun.
Qed.

(** C4, as amended.  When the search of a move returns with the stop flag
    set, the move loops of [quiesce] and [negamax] return 0 right after
    the unmake, and so does the null-move search of [negamax].  No call
    of [ttPut] is made while the stop flag is set, and [quiesce] makes
    none at all.  A frame that returns without searching a child returns
    what it returns from any state with the same search data and table,
    whatever the stop flag: the flag is not read.  A singular-extension
    search that does not fail low returns its bound from the frame
    without a look at the flag. *)
Theorem stop_unwinds (laws : EngineLaws) :
  (forall self k i ml eval alpha beta bestScore pv st move r cpv st1,
     i < ml_count ml -> move = ml_move (bubbleTopMove ml i) i ->
     (movePromo move <> 0 \/ captured_piece (board (data st)) move <> NO_PIECE) ->
     quiesce_skip (board (data st)) eval alpha move = false ->
     0 <= ml_score (bubbleTopMove ml i) i ->
     self (- beta) (- alpha) (push_move move st) = Ok (r, cpv, st1) ->
     is_stopped (pop_move move st1) = true ->
     quiesce_loop self (S k) i ml eval alpha beta bestScore pv st
       = Ok (0, pv, pop_move move st1)) /\
  (forall self fr k i lp move se pv1 st1 newDepth R score cpv st3,
     i < ml_count (lp_ml lp) -> move = ml_move (bubbleTopMove (lp_ml lp) i) i ->
     fr_skipMove fr <> move ->
     negamax_pruned fr (board (data (lp_st lp))) (lp_bestScore lp)
                    (lp_numMoves lp) move = false ->
     negamax_singular self fr move (lp_pv lp) (lp_st lp) = Ok (Next (se, pv1, st1)) ->
     newDepth = (if se || negb (checkers (board (data (push_move move st1))) =? 0)
                 then fr_depth fr + 1 else fr_depth fr) ->
     R = reduction fr (lp_numMoves lp + 1) (ml_score (bubbleTopMove (lp_ml lp) i) i)
                   (negb (movePromo move =? 0) || moveCapture move) ->
     negamax_ladder self fr (lp_alpha lp) newDepth R (lp_numMoves lp + 1)
                    (lp_childPv lp) (push_move move st1) = Ok (score, cpv, st3) ->
     is_stopped (pop_move move st3) = true ->
     negamax_loop self fr (S k) i lp = Ok (Return (0, pv1, pop_move move st3))) /\
  (forall self skip depth beta eval0 ttValue st R r cpv st1,
     let eval := prune_eval ttValue depth eval0 (ply (data st)) in
     (depth <=? 6) && (eval - FUTILITY depth >=? beta) && (eval <? MATE_BOUND) = false ->
     (depth >=? 3) && negb (aget (moves (data st)) (ply (data st) - 1) =? NULL_MOVE)
       && (skip =? 0) && (eval >=? beta) && hasNonPawn (board (data st)) = true ->
     R = (let R0 := 3 + Z.quot depth 6 + Z.min (Z.quot (eval - beta) 200) 3 in
          if R0 >? depth then depth else R0) ->
     self (- beta) (- beta + 1) (depth - R) (push_null st) = Ok (r, cpv, st1) ->
     is_stopped (pop_null st1) = true ->
     negamax_prune self skip depth beta eval0 ttValue st
       = Ok (Return (0, [], pop_null st1))) /\
  (forall fuel alpha beta depth st r pv st',
     negamax fuel alpha beta depth st = Ok (r, pv, st') ->
     exists new, trace st' = new ++ trace st /\
       forall stop alpha0 beta' hash d score flag move p eval,
         In (EvTTPut stop alpha0 beta' hash d score flag move p eval) new ->
         stop = 0) /\
  (forall fuel alpha beta st r pv st',
     quiesce fuel alpha beta st = Ok (r, pv, st') -> trace st' = trace st) /\
  (forall fuel alpha beta st1 st2 r pv st1',
     same_search st1 st2 ->
     quiesce_body no_child_q fuel alpha beta st1 = Ok (r, pv, st1') ->
     exists st2',
       quiesce (S fuel) alpha beta st2 = Ok (r, pv, st2') /\
       same_search st1' st2') /\
  (forall fuel alpha beta depth st1 st2 r pv st1',
     same_search st1 st2 ->
     negamax_body no_child_n no_child_q fuel alpha beta depth st1
       = Ok (r, pv, st1') ->
     exists st2',
       negamax (S fuel) alpha beta depth st2 = Ok (r, pv, st2') /\
       same_search st1' st2') /\
  (forall self fr k i lp move sBeta score pv1 st1,
     i < ml_count (lp_ml lp) -> move = ml_move (bubbleTopMove (lp_ml lp) i) i ->
     fr_skipMove fr <> move ->
     negamax_pruned fr (board (data (lp_st lp))) (lp_bestScore lp)
                    (lp_numMoves lp) move = false ->
     singular_candidate fr (ply (data (lp_st lp))) move = true ->
     sBeta = Z.max (TTScore (fr_ttValue fr) (ply (data (lp_st lp)))
                    - fr_depth fr * 2) (- CHECKMATE) ->
     self (sBeta - 1) sBeta (Z.quot (fr_depth fr) 2 - 1) (set_skip move (lp_st lp))
       = Ok (score, pv1, st1) ->
     sBeta <= score -> fr_beta fr <= sBeta ->
     negamax_loop self fr (S k) i lp
       = Ok (Return (sBeta, pv1, set_skip NULL_MOVE st1))).
Proof.
  split; [|split; [|split; [|split; [|split; [|split; [|split]]]]]].
  - intros self k i ml eval alpha beta bestScore pv st move r cpv st1
           Hi Hm Hassert Hskip Hscore Hchild Hstop.
    cbn [quiesce_loop]. destruct (Z.ltb_spec i (ml_count ml)); [|lia].
    cbn [negb]. rewrite <- Hm.
    assert (Ha : negb (movePromo move =? 0)
                 || negb (captured_piece (board (data st)) move =? NO_PIECE) = true).
    { destruct Hassert as [Hp|Hc].
      - destruct (Z.eqb_spec (movePromo move) 0); [contradiction | reflexivity].
      - destruct (Z.eqb_spec (captured_piece (board (data st)) move) NO_PIECE);
          [contradiction | apply orb_true_r]. }
    rewrite Ha. cbn [assert mbind Res_bind]. rewrite Hskip.
    destruct (Z.ltb_spec (ml_score (bubbleTopMove ml i) i) 0); [lia|].
    rewrite Hchild. cbn [mbind Res_bind]. rewrite Hstop. reflexivity.
  - intros self fr k i lp move se pv1 st1 newDepth R score cpv st3
           Hi Hm Hsk Hpr Hsing HnD HR Hlad Hstop.
    cbn [negamax_loop]. destruct (Z.ltb_spec i (ml_count (lp_ml lp))); [|lia].
    cbn [negb]. rewrite <- Hm.
    destruct (Z.eqb_spec (fr_skipMove fr) move); [contradiction|].
    rewrite Hpr, Hsing. cbn [mbind Res_bind]. rewrite <- HnD, <- HR, Hlad.
    cbn [mbind Res_bind]. rewrite Hstop. reflexivity.
  - intros self skip depth beta eval0 ttValue st R r cpv st1 eval
           Hrfp Hnmp HR Hchild Hstop.
    unfold negamax_prune. fold eval. rewrite Hrfp, Hnmp.
    cbv zeta in HR. rewrite <- HR, Hchild. cbn [mbind Res_bind].
    rewrite Hstop. reflexivity.
  - intros fuel alpha beta depth st r pv st' Hrun.
    assert (Hspec : spec_n put_unstopped (negamax fuel)).
    { apply (negamax_trace put_unstopped True).
      - intros stop alpha0 beta0 hash d score move p eval Hs. apply Hs. exact I.
      - intros _. exact laws. }
    destruct (Hspec _ _ _ _ _ _ _ Hrun) as (new & Htr & Hall).
    exists new. split; [exact Htr|].
    intros stop alpha0 beta' hash d score flag move p eval Hin.
    rewrite Forall_forall in Hall. apply list_elem_of_In in Hin.
    apply (Hall _ Hin).
  - intros fuel alpha beta st r pv st' Hrun.
    destruct (quiesce_trace (fun _ => False) fuel _ _ _ _ _ _ Hrun)
      as (new & Htr & Hall).
    destruct new as [|e new]; [exact Htr|].
    inversion Hall; subst. contradiction.
  - intros fuel alpha beta st1 st2 r pv st1' Hs Hrun. cbn [quiesce].
    apply (quiesce_body_no_child _ _ _ _ _ _ _ _ _ Hs Hrun).
  - intros fuel alpha beta depth st1 st2 r pv st1' Hs Hrun. cbn [negamax].
    apply (negamax_body_no_child _ _ _ _ _ _ _ _ _ _ _ Hs Hrun).
  - intros self fr k i lp move sBeta score pv1 st1
           Hi Hm Hsk Hpr Hcand HsB Hchild Hlow Hhigh.
    cbn [negamax_loop]. destruct (Z.ltb_spec i (ml_count (lp_ml lp))); [|lia].
    cbn [negb]. rewrite <- Hm.
    destruct (Z.eqb_spec (fr_skipMove fr) move); [contradiction|].
    rewrite Hpr. unfold negamax_singular. rewrite Hcand. cbv zeta.
    rewrite <- HsB, Hchild. cbn [mbind Res_bind].
    destruct (Z.ltb_spec score sBeta); [lia|].
    destruct (Z.geb_spec sBeta (fr_beta fr)); [reflexivity | lia].
Qed.

End TraceClaims.

(** *** The sample engine keeps the laws of move generation *)

Lemma toy_list_wf (l : list (Z * Z)) :
  Forall (fun m => fst m <> 0) l -> wf_moves (toy_list l).
Proof.
  intros Hall. split; [simpl; lia|].
  intros i Hi. unfold ml_move, toy_list in *. simpl in *.
  assert (Hlt : (Z.to_nat i < length (map fst l))%nat) by (rewrite length_map; lia).
  rewrite Forall_forall in Hall.
  intros Hz. destruct (nth_split (map fst l) 0 Hlt) as (l1 & l2 & Heq & _).
  assert (Hin : In (nth (Z.to_nat i) (map fst l) 0) (map fst l)) by (apply nth_In; exact Hlt).
  apply in_map_iff in Hin. destruct Hin as (m & Hm & Hin).
  apply list_elem_of_In in Hin. apply (Hall m Hin). rewrite Hm. exact Hz.
Qed.

Lemma toy_laws : EngineLaws (E := toy_engine).
Proof.
  constructor.
  - intros d. apply toy_list_wf. simpl. unfold toy_moves.
    repeat match goal with
           | |- context [if ?c then _ else _] => destruct c
           end;
      repeat constructor; vm_compute; discriminate.
  - intros ml i. reflexivity.
  - intros ml i H. exact H.
Qed.

(** The sample search of node 0 to depth 1 returns 300 and stores it as
    an exact score: alpha at entry is -1000, beta is 1000. *)
Example toy_negamax_trace :
  trace_of (negamax 5 (-1000) 1000 1 (toy_state 0 0 0 0))
  = Ok [EvTTPut 0 (-1000) 1000 1 1 300 TT_EXACT (toy_move 1 0 1) 0 50].
Proof. vm_compute. reflexivity. Qed.

(** C7 at the sample engine. *)
Lemma negamax_bound_kind_witness :
  match negamax 5 (-1000) 1000 1 (toy_state 0 0 0 0) with
  | Ok (r, pv, st') =>
      exists new, trace st' = new ++ [] /\
        forall e, In e new ->
          exists f a b d s r1 pv1 s1 stop hash flag move p eval,
            negamax f a b d s = Ok (r1, pv1, s1) /\
            e = EvTTPut stop a (node_beta b s) hash d r1 flag move p eval /\
            (flag = TT_LOWER <-> r1 >= node_beta b s) /\
            (flag = TT_UPPER <-> r1 < node_beta b s /\ r1 <= a) /\
            (flag = TT_EXACT <-> a < r1 < node_beta b s) /\
            (flag = TT_UPPER -> r1 <= a /\ r1 < b) /\
            (flag = TT_EXACT -> a < r1 < b) /\
            (flag = TT_LOWER ->
             ply (data s) = 0 \/ b <= CHECKMATE - ply (data s) - 1 -> r1 >= b)
  | _ => False
  end.
Proof.
  assert (Hok : succeeds (negamax 5 (-1000) 1000 1 (toy_state 0 0 0 0)) = true).
  { vm_compute. reflexivity. }
  destruct (negamax 5 (-1000) 1000 1 (toy_state 0 0 0 0)) as [[[r pv] st']| |] eqn:Hrun;
    [|discriminate Hok..].
  exact (proj1 (negamax_bound_kind ref_layout_laws) 5%nat (-1000) 1000 1
               (toy_state 0 0 0 0) r pv st' Hrun).
Defined.

(** C7 fails against the beta a call is given.  Node 4, one ply from the
    root, is searched with the window [-1000, 32767]; mate-distance
    pruning lowers beta to 32765, the search returns 32765 (the mate
    after the move to node 5) and stores it as a lower bound, below the
    beta of 32767 that the call was given. *)
Lemma negamax_bound_kind_counterexample :
  score_of (negamax 5 (-1000) 32767 1 (toy_state 4 1 0 0)) = Ok 32765 /\
  trace_of (negamax 5 (-1000) 32767 1 (toy_state 4 1 0 0))
  = Ok [EvTTPut 0 (-1000) 32765 5 1 32765 TT_LOWER (toy_move 5 0 0) 1 0] /\
  node_beta 32767 (toy_state 4 1 0 0) = 32765 /\
  32765 < 32767.
Proof. repeat split; vm_compute; reflexivity. Qed.

(** C4 at the sample engine, in states whose next node counted polls
    the outside world, which sets the stop flag.  The capture from node
    0 to node 1 is searched by [quiesce] and by [negamax] at depth 1,
    and the null move one ply from the root: each search returns with
    the flag set, and the frame returns 0.  The frame of [quiesce] that
    sets the flag itself and fails high returns its stand-pat score 50,
    as it does where nothing asks to stop. *)
Lemma stop_unwinds_witness :
  match quiesce 3 (-1000) 1000 (push_move (toy_move 1 0 1) (toy_polling_state 0 0)) with
  | Ok (r, cpv, st1) =>
      is_stopped (pop_move (toy_move 1 0 1) st1) = true /\
      quiesce_loop (quiesce 3) 1 0 (toy_list (toy_noisy 0)) 50 (-1000) 1000 50 []
                   (toy_polling_state 0 0)
      = Ok (0, [], pop_move (toy_move 1 0 1) st1)
  | _ => False
  end /\
  match negamax_ladder (negamax 4) toy_root_frame (-1000) 1 1 1 []
                       (push_move (toy_move 1 0 1) (toy_polling_state 0 0)) with
  | Ok (score, cpv, st3) =>
      is_stopped (pop_move (toy_move 1 0 1) st3) = true /\
      negamax_loop (negamax 4) toy_root_frame 1 0 (toy_root_loop (toy_polling_state 0 0))
      = Ok (Return (0, [], pop_move (toy_move 1 0 1) st3))
  | _ => False
  end /\
  match negamax 4 0 1 0 (push_null toy_polling_child) with
  | Ok (r, cpv, st1) =>
      is_stopped (pop_null st1) = true /\
      negamax_prune (negamax 4) 0 3 0 50 0 toy_polling_child
      = Ok (Return (0, [], pop_null st1))
  | _ => False
  end /\
  stopped_of (quiesce 5 (-1000) 10 (toy_polling_state 0 0)) = Ok 1 /\
  score_of (quiesce 5 (-1000) 10 (toy_polling_state 0 0)) = Ok 50 /\
  score_of (quiesce 5 (-1000) 10 (set_env (toy_polling_state 0 0) false)) = Ok 50.
Proof.
  pose proof (stop_unwinds toy_laws) as (Hq & Hn & Hnull & _ & _ & Hleaf & _ & _).
  set (m := toy_move 1 0 1). set (st := toy_polling_state 0 0).
  split; [|split; [|split; [|split; [|split]]]].
  - assert (Hs : match quiesce 3 (-1000) 1000 (push_move m st) with
                 | Ok (_, _, st1) => is_stopped (pop_move m st1)
                 | _ => false
                 end = true) by (vm_compute; reflexivity).
    destruct (quiesce 3 (-1000) 1000 (push_move m st)) as [[[r cpv] st1]| |] eqn:Hrun;
      [|discriminate Hs|discriminate Hs].
    split; [exact Hs|].
    apply (Hq (quiesce 3) 0%nat 0 (toy_list (toy_noisy 0)) 50 (-1000) 1000 50 []
              st m r cpv st1).
    + vm_compute. reflexivity.
    + reflexivity.
    + right. vm_compute. discriminate.
    + vm_compute. reflexivity.
    + vm_compute. discriminate.
    + exact Hrun.
    + exact Hs.
  - assert (Hs : match negamax_ladder (negamax 4) toy_root_frame (-1000) 1 1 1 []
                                      (push_move m st) with
                 | Ok (_, _, st3) => is_stopped (pop_move m st3)
                 | _ => false
                 end = true) by (vm_compute; reflexivity).
    destruct (negamax_ladder (negamax 4) toy_root_frame (-1000) 1 1 1 []
                             (push_move m st)) as [[[score cpv] st3]| |] eqn:Hrun;
      [|discriminate Hs|discriminate Hs].
    split; [exact Hs|].
    apply (Hn (negamax 4) toy_root_frame 0%nat 0 (toy_root_loop st) m false [] st
              1 1 score cpv st3).
    + vm_compute. reflexivity.
    + reflexivity.
    + vm_compute. discriminate.
    + vm_compute. reflexivity.
    + reflexivity.
    + vm_compute. reflexivity.
    + vm_compute. reflexivity.
    + exact Hrun.
    + exact Hs.
  - assert (Hs : match negamax 4 0 1 0 (push_null toy_polling_child) with
                 | Ok (_, _, st1) => is_stopped (pop_null st1)
                 | _ => false
                 end = true) by (vm_compute; reflexivity).
    destruct (negamax 4 0 1 0 (push_null toy_polling_child))
      as [[[r cpv] st1]| |] eqn:Hrun; [|discriminate Hs|discriminate Hs].
    split; [exact Hs|].
    apply (Hnull (negamax 4) 0 3 0 50 0 toy_polling_child 3 r cpv st1).
    + vm_compute. reflexivity.
    + vm_compute. reflexivity.
    + vm_compute. reflexivity.
    + exact Hrun.
    + exact Hs.
  - vm_compute. reflexivity.
  - vm_compute. reflexivity.
  - assert (Hs : score_of (quiesce_body no_child_q 4 (-1000) 10 st) = Ok 50)
      by (vm_compute; reflexivity).
    destruct (quiesce_body no_child_q 4 (-1000) 10 st) as [[[r pv] st1]| |] eqn:Hrun;
      [|discriminate Hs|discriminate Hs].
    injection Hs as ->.
    destruct (Hleaf 4%nat (-1000) 10 st (set_env st false) 50 pv st1) as (st2 & H2 & _).
    + split; reflexivity.
    + exact Hrun.
    + rewrite H2. reflexivity.
Defined.

(** C4 fails for the frames that search no child after the flag is set.
    At node 0 the first node counted polls the outside world, which sets
    the stop flag; [quiesce] then returns its stand-pat score 50, and
    [negamax] at depth 0 passes it on.  At node 5, checkmated two plies
    from the root, [negamax] returns [-CHECKMATE + 2] with the flag set. *)
Lemma stop_unwinds_counterexample :
  stopped_of (quiesce 5 (-1000) 10 (toy_polling_state 0 0)) = Ok 1 /\
  score_of (quiesce 5 (-1000) 10 (toy_polling_state 0 0)) = Ok 50 /\
  stopped_of (negamax 5 (-1000) 10 0 (toy_polling_state 0 0)) = Ok 1 /\
  score_of (negamax 5 (-1000) 10 0 (toy_polling_state 0 0)) = Ok 50 /\
  stopped_of (negamax 5 (-1000) 1000 1 (toy_polling_state 5 2)) = Ok 1 /\
  score_of (negamax 5 (-1000) 1000 1 (toy_polling_state 5 2)) = Ok (-32765).
Proof. repeat split; vm_compute; reflexivity. Qed.

(** *** Score bounds: the table *)

Section TableBounds.
Context {L : TTLayout} {P : Position} {E : Engine}.
Hypothesis laws : SearchLaws.

Lemma TTScore_raw_range (v : Z) : -32768 <= TTScore_raw v <= 32767.
Proof.
  unfold TTScore_raw. rewrite score_field_arith.
  pose proof (Z.mod_pos_bound (v / 2 ^ 32) 65536 ltac:(lia)).
  unfold to_int16. destruct (Z.ltb_spec ((v / 2 ^ 32) mod 65536) 32768); lia.
Qed.

Lemma TTScore_bounds (v p : Z) :
  entry_ok v -> v <> 0 -> 0 <= p <= 2001 ->
  - CHECKMATE + p <= TTScore v p <= CHECKMATE - p.
Proof.
  intros [Hz|[Hraw _]] Hv Hp; [contradiction|].
  pose proof (TTScore_raw_range v) as Hr.
  unfold TTScore, CHECKMATE, MATE_BOUND in *. zcases; lia.
Qed.

Lemma TTProbe_scan_entry (tbl : list Z) (hash : Z) (m : Z) :
  0 <= m ->
  (forall n v, 0 <= n -> tbl !! Z.to_nat (2 * n + 1) = Some v -> entry_ok v) ->
  forall (k : nat) (j : Z) (v : Z),
    0 <= j ->
    TTProbe_scan tbl hash k (2 * m + 2 * j) = Ok v -> entry_ok v.
Proof.
  intros Hm Hodd. induction k as [|k IH]; intros j v Hj Hrun; simpl in Hrun.
  - inversion Hrun. left. reflexivity.
  - apply bind_Ok in Hrun. destruct Hrun as (key & _ & Hrun).
    destruct (key =? hash).
    + unfold tt_get in Hrun. destruct (2 * m + 2 * j + 1 <? 0); [discriminate|].
      destruct (tbl !! Z.to_nat (2 * m + 2 * j + 1)) as [w|] eqn:Hw; [|discriminate].
      inversion Hrun; subst. apply (Hodd (m + j) v); [lia|].
      replace (2 * (m + j) + 1) with (2 * m + 2 * j + 1) by lia. exact Hw.
    + replace (2 * m + 2 * j + 2) with (2 * m + 2 * (j + 1)) in Hrun by lia.
      apply (IH (j + 1) v); [lia | exact Hrun].
Qed.

Lemma TTProbe_entry_ok (hash : Z) (t : TTState) (v : Z) :
  table_ok t -> TTProbe hash t = Ok v -> entry_ok v.
Proof.
  intros (HP & Hlen & Hodd) Hrun. unfold TTProbe in Hrun.
  destruct (TTIdx_bucket L (layout_laws laws) (POWER t) hash HP) as (k & Hk & Hidx).
  rewrite Hidx in Hrun.
  replace (2 * BUCKET_SIZE * k) with (2 * (BUCKET_SIZE * k) + 2 * 0) in Hrun by lia.
  pose proof (bucket_size_pos L (layout_laws laws)) as HB.
  assert (Hm : 0 <= BUCKET_SIZE * k) by (apply Z.mul_nonneg_nonneg; lia).
  apply (TTProbe_scan_entry _ hash (BUCKET_SIZE * k) Hm Hodd
           (Z.to_nat BUCKET_SIZE) 0 v);
    [lia | exact Hrun].
Qed.

Lemma table_ok_bucket_in (hash : Z) (t : TTState) :
  table_ok t ->
  bucket_in (TRANSPOSITION_ENTRIES t) (TTIdx (POWER t) hash) /\
  exists m, 0 <= m /\ TTIdx (POWER t) hash = 2 * m.
Proof.
  intros (HP & Hlen & _).
  pose proof (bucket_size_pos L (layout_laws laws)) as HB.
  destruct (TTIdx_bucket L (layout_laws laws) (POWER t) hash HP) as (k & Hk & Hidx).
  assert (Hm : 0 <= BUCKET_SIZE * k) by (apply Z.mul_nonneg_nonneg; lia).
  split.
  - unfold bucket_in. rewrite Hidx, Hlen. split; nia.
  - exists (BUCKET_SIZE * k). split; [exact Hm | lia].
Qed.

Lemma TTPut_table_ok (hash depth score flag move p eval : Z) (t t' : TTState) (v : Z) :
  table_ok t -> 0 <= p -> - CHECKMATE + p <= score -> eval_ok eval ->
  TTPut hash depth score flag move p eval t = Ok (v, t') -> table_ok t'.
Proof.
  intros Hok Hp Hscore Heval Hput.
  destruct (table_ok_bucket_in hash t Hok) as (Hin & m & Hm & Hidx).
  destruct (TTPut_scan_total (layout_laws laws) _ _ hash depth flag Hin)
    as (r & Hr & Hshape).
  unfold TTPut in Hput. rewrite Hr in Hput. cbn [mbind Res_bind] in Hput.
  destruct r as [v0|s].
  { inversion Hput; subst. exact Hok. }
  destruct Hshape as (j & Hj & Hs & _).
  apply TTPut_store_Ok in Hput.
  destruct Hput as (Htt & HP & Hs0 & Hs1 & Htbl & _ & _ & Hsc & _ & _ & Hev).
  destruct Hok as (HP0 & Hlen & Hodd).
  split; [rewrite HP; exact HP0|].
  split; [rewrite Htbl, !length_insert, HP; exact Hlen|].
  intros n w Hn Hw. rewrite Htbl in Hw.
  destruct (Z.eq_dec (2 * n + 1) (s + 1)) as [He|Hne].
  - rewrite He in Hw. rewrite list_lookup_insert_eq in Hw
      by (rewrite length_insert; lia).
    inversion Hw; subst w. right. split.
    + pose proof (TTScore_raw_range v) as Hr0.
      revert Hsc. unfold TTScore, CHECKMATE, MATE_BOUND in *. zcases; lia.
    + rewrite <- Hev. exact Heval.
  - rewrite !list_lookup_insert_ne in Hw by lia.
    apply (Hodd n w Hn Hw).
Qed.

Lemma static_eval_ok (ttValue : Z) (b : Board) :
  entry_ok ttValue -> eval_ok (static_eval ttValue b).
Proof.
  intros Hok. unfold static_eval.
  destruct (Z.eqb_spec ttValue 0) as [Hz|Hnz]; [apply (Evaluate_ok laws)|].
  destruct Hok as [Hz|[_ He]]; [contradiction | exact He].
Qed.

Lemma eval_ok_bounds (e p : Z) :
  eval_ok e -> 0 <= p <= 2001 -> - CHECKMATE + p <= e <= CHECKMATE - p.
Proof. unfold eval_ok, CHECKMATE, MATE_BOUND. lia. Qed.

Lemma stand_pat_bounds (ttValue : Z) (b : Board) (p : Z) :
  entry_ok ttValue -> 0 <= p <= 2001 ->
  - CHECKMATE + p <= stand_pat ttValue b p <= CHECKMATE - p.
Proof.
  intros Hok Hp. unfold stand_pat.
  pose proof (eval_ok_bounds _ p (static_eval_ok ttValue b Hok) Hp) as He.
  destruct (Z.eqb_spec ttValue 0) as [Hz|Hnz]; [exact He|].
  destruct (TTFlag ttValue =? _); [apply TTScore_bounds; assumption | exact He].
Qed.

Lemma prune_eval_bounds (ttValue depth eval p : Z) :
  entry_ok ttValue -> eval_ok eval -> 0 <= p <= 2001 ->
  - CHECKMATE + p <= prune_eval ttValue depth eval p <= CHECKMATE - p.
Proof.
  intros Hok He Hp. unfold prune_eval.
  pose proof (eval_ok_bounds _ p He Hp) as Hb.
  destruct (Z.eqb_spec ttValue 0) as [Hz|Hnz]; [exact Hb|]. cbn [negb andb].
  destruct (TTDepth ttValue >=? depth); [|exact Hb].
  destruct (TTFlag ttValue =? _); [apply TTScore_bounds; assumption | exact Hb].
Qed.

End TableBounds.

(** *** Score bounds: quiescence *)

Section QuiesceBounds.
Context {L : TTLayout} {P : Position} {E : Engine}.
Hypothesis laws : SearchLaws.

Lemma inv_eq (st st' : State) :
  table st' = table st -> evals (data st') = evals (data st) ->
  search_inv st -> search_inv st'.
Proof. intros Ht He [H1 H2]. split; [rewrite Ht | rewrite He]; assumption. Qed.

Lemma frame_eq (st st' : State) :
  ply (data st') = ply (data st) -> skipMove (data st') = skipMove (data st) ->
  frame st st'.
Proof.
  intros Hp Hs. split; [exact Hp|]. rewrite Hs. split; [reflexivity | tauto].
Qed.

Lemma frame_trans (st1 st2 st3 : State) :
  frame st1 st2 -> frame st2 st3 -> frame st1 st3.
Proof.
  intros (P1 & S1 & Z1) (P2 & S2 & Z2). rewrite P1 in *.
  split; [lia|]. split.
  - intros j Hj. rewrite S2, S1 by lia. reflexivity.
  - intros Hz. apply Z2. apply Z1. exact Hz.
Qed.

(** A call one ply deeper, between a make and an unmake. *)
Lemma frame_child (st sa sb sc : State) :
  ply (data sa) = ply (data st) + 1 -> skipMove (data sa) = skipMove (data st) ->
  frame sa sb ->
  ply (data sc) = ply (data sb) - 1 -> skipMove (data sc) = skipMove (data sb) ->
  frame st sc /\
  aget (skipMove (data sc)) (ply (data st) + 1)
  = aget (skipMove (data st)) (ply (data st) + 1).
Proof.
  intros Pa Sa (Pb & Sb & _) Pc Sc. rewrite Pa in *. rewrite Sa in *.
  split.
  - split; [lia|]. rewrite Sc. split.
    + intros j Hj. apply Sb. lia.
    + intros Hz. rewrite Sb by lia. exact Hz.
  - rewrite Sc. apply Sb. lia.
Qed.

Lemma quiesce_loop_bounds (self : Z -> Z -> State -> Res Result) (st0 : State) :
  bounds_q self ->
  0 <= ply (data st0) <= MAX_DEPTH - 1 ->
  forall k i ml eval alpha beta bestScore pv st r pv' st',
    search_inv st -> frame st0 st ->
    - CHECKMATE + ply (data st0) <= bestScore <= CHECKMATE - ply (data st0) ->
    quiesce_loop self k i ml eval alpha beta bestScore pv st = Ok (r, pv', st') ->
    search_inv st' /\ frame st0 st' /\
    - CHECKMATE + ply (data st0) <= r <= CHECKMATE - ply (data st0).
Proof.
  intros Hself Hp0. induction k as [|k IH];
    intros i ml eval alpha beta bestScore pv st r pv' st' Hinv Hfr Hbest Hrun;
    cbn [quiesce_loop] in Hrun;
    destruct (negb (i <? ml_count ml));
    try (inversion Hrun; subst; split; [exact Hinv | split; [exact Hfr | exact Hbest]]);
    try discriminate.
  apply bind_Ok in Hrun. destruct Hrun as (u & _ & Hrun).
  destruct (quiesce_skip _ _ _ _); [apply (IH _ _ _ _ _ _ _ _ _ _ _ Hinv Hfr Hbest Hrun)|].
  destruct (ml_score _ _ <? 0).
  { inversion Hrun; subst. split; [exact Hinv | split; [exact Hfr | exact Hbest]]. }
  set (move := ml_move (bubbleTopMove ml i) i) in *.
  apply bind_Ok in Hrun. destruct Hrun as ([[r1 cpv] st1] & Hchild & Hrun).
  assert (Hply : ply (data st) = ply (data st0)) by apply Hfr.
  apply Hself in Hchild;
    [|apply (inv_eq st); [reflexivity | reflexivity | exact Hinv]
     |cbn; lia].
  destruct Hchild as (Hinv1 & Hfr1 & Hr1). cbn in Hr1.
  destruct (frame_child st (push_move move st) st1 (pop_move move st1))
    as [Hfr2 _]; try reflexivity; try exact Hfr1.
  assert (Hinv2 : search_inv (pop_move move st1)).
  { apply (inv_eq st1); [reflexivity | reflexivity | exact Hinv1]. }
  pose proof (frame_trans _ _ _ Hfr Hfr2) as Hfr3.
  destruct (is_stopped _).
  { inversion Hrun; subst. split; [exact Hinv2|]. split; [exact Hfr3|].
    pose proof (MAX_DEPTH_ok laws). unfold CHECKMATE. lia. }
  destruct (- r1 >? bestScore).
  - destruct (_ >=? beta).
    + inversion Hrun; subst. split; [exact Hinv2|]. split; [exact Hfr3|]. lia.
    + apply (IH _ _ _ _ _ _ _ _ _ _ _ Hinv2 Hfr3) in Hrun; [exact Hrun | lia].
  - apply (IH _ _ _ _ _ _ _ _ _ _ _ Hinv2 Hfr3 Hbest Hrun).
Qed.

Lemma inv_set_evals (st : State) (p e : Z) :
  search_inv st -> eval_ok e ->
  search_inv (set_data st (set_evals (data st) (aset (evals (data st)) p e))).
Proof.
  intros [Ht He] Hok. split; [exact Ht|]. cbn. intros j.
  unfold aget, aset. rewrite lookup_insert.
  destruct (decide (p = j)); [exact Hok | apply He].
Qed.

Lemma quiesce_body_bounds (self : Z -> Z -> State -> Res Result) (k : nat) :
  bounds_q self -> bounds_q (quiesce_body self k).
Proof.
  intros Hself alpha beta st r pv st' Hinv Hp Hrun. unfold quiesce_body in Hrun.
  pose proof (MAX_DEPTH_ok laws) as HM.
  assert (Hinv0 : search_inv (count_node st)).
  { apply (inv_eq st); [reflexivity | reflexivity | exact Hinv]. }
  assert (Hfr0 : frame st (count_node st)) by (apply frame_eq; reflexivity).
  cbn [count_node data set_data board set_counts ply] in Hrun.
  destruct (_ || _ || _).
  { inversion Hrun; subst. split; [exact Hinv0|]. split; [exact Hfr0|].
    unfold CHECKMATE. lia. }
  destruct (Z.gtb_spec (ply (data st)) (MAX_DEPTH - 1)) as [Hgt|Hle].
  { inversion Hrun; subst. split; [exact Hinv0|]. split; [exact Hfr0|].
    apply eval_ok_bounds; [apply (Evaluate_ok laws) | lia]. }
  set (st1 := poll (count_node st)) in *.
  assert (Hd1 : data st1 = data (count_node st)) by apply data_poll.
  assert (Ht1 : table st1 = table st) by (unfold st1; rewrite table_poll; reflexivity).
  assert (Hinv1 : search_inv st1).
  { apply (inv_eq st); [exact Ht1 | rewrite Hd1; reflexivity | exact Hinv]. }
  assert (Hfr1 : frame st st1) by (apply frame_eq; rewrite Hd1; reflexivity).
  apply bind_Ok in Hrun. destruct Hrun as (ttValue & Hprobe & Hrun).
  assert (Hentry : entry_ok ttValue).
  { eapply (TTProbe_entry_ok laws); [apply Hinv1 | exact Hprobe]. }
  destruct (quiesce_tt_cutoff ttValue alpha beta (ply (data st))) as [s|] eqn:Hcut.
  { inversion Hrun; subst. split; [exact Hinv1|]. split; [exact Hfr1|].
    unfold quiesce_tt_cutoff in Hcut.
    destruct (Z.eqb_spec ttValue 0) as [Hz|Hnz]; [discriminate|].
    assert (Hb : - CHECKMATE + ply (data st) <= TTScore ttValue (ply (data st))
                 <= CHECKMATE - ply (data st))
      by (apply TTScore_bounds; [exact Hentry | exact Hnz | lia]).
    destruct (TTFlag ttValue =? TT_EXACT); [inversion Hcut; subst; exact Hb|].
    destruct (_ && _); [inversion Hcut; subst; exact Hb|].
    destruct (_ && _); [inversion Hcut; subst; exact Hb | discriminate]. }
  match type of Hrun with
  | context [quiesce_loop _ _ _ _ _ _ _ _ _ ?s] => set (st2 := s) in *
  end.
  assert (Hinv2 : search_inv st2).
  { apply inv_set_evals; [exact Hinv1 | apply (static_eval_ok laws); exact Hentry]. }
  assert (Hfr2 : frame st st2).
  { apply (frame_trans _ _ _ Hfr1). apply frame_eq; reflexivity. }
  assert (Hsp : - CHECKMATE + ply (data st)
                <= stand_pat ttValue (board (data st)) (ply (data st))
                <= CHECKMATE - ply (data st)).
  { apply (stand_pat_bounds laws); [exact Hentry | lia]. }
  destruct (_ >=? beta).
  { inversion Hrun; subst. split; [exact Hinv2|]. split; [exact Hfr2|]. exact Hsp. }
  apply (quiesce_loop_bounds self st Hself ltac:(lia)) in Hrun;
    [exact Hrun | exact Hinv2 | exact Hfr2 | exact Hsp].
Qed.

Lemma quiesce_bounds (fuel : nat) : bounds_q (quiesce fuel).
Proof.
  induction fuel as [|f IH];
    [intros alpha beta st r pv st' _ _ H; discriminate|].
  apply quiesce_body_bounds. exact IH.
Qed.

End QuiesceBounds.

(** *** Score bounds: the parts of a [negamax] node *)

Section NegamaxBounds.
Context {L : TTLayout} {P : Position} {E : Engine}.
Hypothesis laws : SearchLaws.

Lemma aget_aset (a : gmap Z Z) (i j v : Z) :
  aget (aset a i v) j = if decide (i = j) then v else aget a j.
Proof.
  unfold aget, aset. rewrite lookup_insert.
  destruct (decide (i = j)); reflexivity.
Qed.

Lemma frame_refl (st : State) : frame st st.
Proof. apply frame_eq; reflexivity. Qed.

(** A call one ply below a frame at ply [p] with no excluded move. *)
Lemma child_bounds (self : Z -> Z -> Z -> State -> Res Result) (p : Z) :
  bounds_n self -> 0 <= p <= MAX_DEPTH - 1 ->
  forall a b d s r c s',
    search_inv s -> ply (data s) = p + 1 ->
    aget (skipMove (data s)) (p + 1) = 0 ->
    a <= CHECKMATE - p - 1 ->
    self a b d s = Ok (r, c, s') ->
    search_inv s' /\ frame s s' /\
    - CHECKMATE + p + 1 <= r <= CHECKMATE - p - 1.
Proof.
  intros Hself Hp a b d s r c s' Hinv Hply Hskip Ha Hrun.
  apply Hself in Hrun; [|exact Hinv|lia|lia|intros Hz; lia].
  rewrite Hply in Hrun. destruct Hrun as (Hinv' & Hfr & Hr & Hlow).
  specialize (Hlow Hskip). split; [exact Hinv'|]. split; [exact Hfr|]. lia.
Qed.

Lemma negamax_prune_bounds (self : Z -> Z -> Z -> State -> Res Result)
      (skip depth beta eval0 ttValue : Z) (st : State) (c : Ctl (PV * State)) :
  bounds_n self ->
  search_inv st -> 0 <= ply (data st) <= MAX_DEPTH - 1 ->
  - CHECKMATE + ply (data st) < beta <= CHECKMATE - ply (data st) ->
  eval_ok eval0 -> entry_ok ttValue ->
  aget (skipMove (data st)) (ply (data st) + 1) = 0 ->
  negamax_prune self skip depth beta eval0 ttValue st = Ok c ->
  match c with
  | Return res => bounds_ret st res
  | Next (_, st') =>
      search_inv st' /\ frame st st' /\
      aget (skipMove (data st')) (ply (data st) + 1) = 0
  end.
Proof.
  intros Hself Hinv Hp Hbeta He Hentry Hskip Hrun.
  pose proof (MAX_DEPTH_ok laws) as HM.
  unfold negamax_prune in Hrun.
  pose proof (prune_eval_bounds ttValue depth eval0 (ply (data st))
                Hentry He ltac:(lia)) as Hpe.
  destruct (_ && _ && _).
  { inversion Hrun; subst. split; [exact Hinv|]. split; [apply frame_refl | exact Hpe]. }
  destruct (_ && _ && _ && _ && _).
  2: { inversion Hrun; subst. split; [exact Hinv|]. split; [apply frame_refl | exact Hskip]. }
  apply bind_Ok in Hrun. destruct Hrun as ([[r1 cpv] st1] & Hchild & Hrun).
  apply (child_bounds self (ply (data st)) Hself Hp) in Hchild;
    [|apply (inv_eq st); [reflexivity | reflexivity | exact Hinv]
     |reflexivity|exact Hskip|lia].
  destruct Hchild as (Hinv1 & Hfr1 & Hr1).
  destruct (frame_child st (push_null st) st1 (pop_null st1))
    as [Hfr2 Hz2]; try reflexivity; try exact Hfr1.
  assert (Hinv2 : search_inv (pop_null st1)).
  { apply (inv_eq st1); [reflexivity | reflexivity | exact Hinv1]. }
  destruct (is_stopped _).
  { inversion Hrun; subst. split; [exact Hinv2|]. split; [exact Hfr2|].
    unfold CHECKMATE. lia. }
  destruct (_ >=? beta); inversion Hrun; subst.
  - split; [exact Hinv2|]. split; [exact Hfr2 | lia].
  - split; [exact Hinv2|]. split; [exact Hfr2|]. rewrite Hz2. exact Hskip.
Qed.

Lemma negamax_singular_bounds (self : Z -> Z -> Z -> State -> Res Result)
      (fr : Frame) (move : Z) (pv : PV) (st : State) (c : Ctl (bool * PV * State)) :
  bounds_n self ->
  search_inv st -> 0 <= ply (data st) <= MAX_DEPTH - 1 ->
  isRoot fr = (ply (data st) =? 0) ->
  fr_skipMove fr = aget (skipMove (data st)) (ply (data st)) ->
  - CHECKMATE + ply (data st) < fr_beta fr ->
  negamax_singular self fr move pv st = Ok c ->
  match c with
  | Return res => bounds_ret st res
  | Next (_, _, st') => search_inv st' /\ frame st st'
  end.
Proof.
  intros Hself Hinv Hp Hroot Hskip Hbeta Hrun.
  pose proof (MAX_DEPTH_ok laws) as HM.
  unfold negamax_singular in Hrun.
  destruct (singular_candidate fr (ply (data st)) move) eqn:Hcand.
  2: { inversion Hrun; subst. split; [exact Hinv | apply frame_refl]. }
  unfold singular_candidate in Hcand.
  repeat (apply andb_prop in Hcand; destruct Hcand as [Hcand ?]).
  match goal with H : negb (isRoot fr) = true |- _ => rename H into Hnr end.
  match goal with H : (fr_skipMove fr =? 0) = true |- _ => rename H into Hs0 end.
  match goal with H : (Z.abs _ <? MATE_BOUND) = true |- _ => rename H into Habs end.
  apply Z.eqb_eq in Hs0. apply Z.ltb_lt in Habs. apply Z.geb_le in Hcand.
  rewrite Hroot in Hnr. destruct (Z.eqb_spec (ply (data st)) 0) as [Hz|Hnz];
    [discriminate|].
  set (sBeta := Z.max (TTScore (fr_ttValue fr) (ply (data st)) - fr_depth fr * 2)
                      (- CHECKMATE)) in *.
  assert (HsB : - CHECKMATE <= sBeta <= MATE_BOUND).
  { unfold sBeta, CHECKMATE, MATE_BOUND in *. lia. }
  apply bind_Ok in Hrun. destruct Hrun as ([[r1 pv1] st1] & Hchild & Hrun).
  apply Hself in Hchild;
    [|apply (inv_eq st); [reflexivity | reflexivity | exact Hinv]
     |cbn; lia
     |cbn; unfold CHECKMATE, MATE_BOUND in *; lia
     |cbn; intros Hz; contradiction].
  destruct Hchild as (Hinv1 & (Hp1 & Hs1 & Hz1) & _). cbn in Hp1, Hs1, Hz1.
  assert (Hinv2 : search_inv (set_skip NULL_MOVE st1)).
  { apply (inv_eq st1); [reflexivity | reflexivity | exact Hinv1]. }
  assert (Hfr2 : frame st (set_skip NULL_MOVE st1)).
  { split; [cbn; exact Hp1|]. cbn. rewrite Hp1. split.
    - intros j Hj. rewrite aget_aset. destruct (decide (ply (data st) = j)) as [<-|Hne].
      + unfold NULL_MOVE. rewrite <- Hskip, Hs0. reflexivity.
      + rewrite Hs1 by exact Hj. rewrite aget_aset.
        destruct (decide (ply (data st) = j)); [contradiction | reflexivity].
    - intros Hz. rewrite aget_aset.
      destruct (decide (ply (data st) = ply (data st) + 1)); [lia|].
      apply Hz1. rewrite aget_aset.
      destruct (decide (ply (data st) = ply (data st) + 1)); [lia | exact Hz]. }
  destruct (r1 <? sBeta).
  { inversion Hrun; subst. split; assumption. }
  destruct (Z.geb_spec sBeta (fr_beta fr)); inversion Hrun; subst.
  - split; [exact Hinv2|]. split; [exact Hfr2|].
    unfold CHECKMATE, MATE_BOUND in *. lia.
  - split; assumption.
Qed.

Lemma negamax_ladder_bounds (self : Z -> Z -> Z -> State -> Res Result)
      (fr : Frame) (p alpha newDepth R numMoves : Z) (childPv : PV) (st : State)
      (score : Z) (cpv : PV) (st' : State) :
  bounds_n self -> 0 <= p <= MAX_DEPTH - 1 ->
  search_inv st -> ply (data st) = p + 1 ->
  aget (skipMove (data st)) (p + 1) = 0 ->
  - CHECKMATE + p <= alpha < fr_beta fr -> fr_beta fr <= CHECKMATE - p ->
  negamax_ladder self fr alpha newDepth R numMoves childPv st = Ok (score, cpv, st') ->
  search_inv st' /\ frame st st' /\ - CHECKMATE + p <= score <= CHECKMATE - p.
Proof.
  intros Hself Hp Hinv Hply Hskip Halpha Hbeta Hrun.
  unfold negamax_ladder in Hrun.
  assert (Hstep : forall a b d s r c s1 s',
             search_inv s1 -> frame s s1 -> ply (data s) = p + 1 ->
             aget (skipMove (data s)) (p + 1) = 0 ->
             a <= CHECKMATE - p - 1 ->
             self a b d s1 = Ok (r, c, s') ->
             search_inv s' /\ frame s s' /\
             - CHECKMATE + p <= - r <= CHECKMATE - p).
  { intros a b d s r c s1 s' Hi (Fp & Fs & Fz) Hpl Hsk Ha Hc.
    apply (child_bounds self p Hself Hp) in Hc;
      [|exact Hi|lia|rewrite Fs by lia; exact Hsk|exact Ha].
    destruct Hc as (Hi' & Hf' & Hr). split; [exact Hi'|].
    split; [apply (frame_trans _ s1); [split; [exact Fp | split; assumption] | exact Hf']|].
    lia. }
  apply bind_Ok in Hrun. destruct Hrun as ([[s1 c1] st1] & H1 & Hrun).
  assert (G1 : search_inv st1 /\ frame st st1 /\ - CHECKMATE + p <= s1 <= CHECKMATE - p).
  { destruct (negb (R =? 1)).
    - apply bind_Ok in H1. destruct H1 as ([[r1 c] s] & Hc & H1).
      inversion H1; subst.
      apply (Hstep _ _ _ st _ _ st _ Hinv (frame_refl st) Hply Hskip) in Hc;
        [exact Hc | lia].
    - inversion H1; subst. split; [exact Hinv|]. split; [apply frame_refl | lia]. }
  destruct G1 as (Hinv1 & Hfr1 & Hs1).
  apply bind_Ok in Hrun. destruct Hrun as ([[s2 c2] st2] & H2 & Hrun).
  assert (G2 : search_inv st2 /\ frame st st2 /\ - CHECKMATE + p <= s2 <= CHECKMATE - p).
  { destruct (_ || _).
    - apply bind_Ok in H2. destruct H2 as ([[r2 c] s] & Hc & H2).
      inversion H2; subst.
      apply (Hstep _ _ _ st _ _ st1 _ Hinv1 Hfr1 Hply Hskip) in Hc;
        [exact Hc | lia].
    - inversion H2; subst. split; [exact Hinv1|]. split; [exact Hfr1 | exact Hs1]. }
  destruct G2 as (Hinv2 & Hfr2 & Hs2).
  cbn beta iota in Hrun.
  destruct (isPV fr && _).
  - apply bind_Ok in Hrun. destruct Hrun as ([[r3 c] s] & Hc & Hrun).
    inversion Hrun; subst.
    apply (Hstep _ _ _ st _ _ st2 _ Hinv2 Hfr2 Hply Hskip) in Hc;
      [exact Hc | lia].
  - inversion Hrun; subst. split; [exact Hinv2|]. split; [exact Hfr2 | exact Hs2].
Qed.

End NegamaxBounds.

(** *** Score bounds: the move loop and the whole of [negamax] *)

Section NegamaxLoopBounds.
Context {L : TTLayout} {P : Position} {E : Engine}.
Hypothesis laws : SearchLaws.

Lemma bf_loop_same (n : nat) (j : Z) (ml : MoveList) (depth : Z) (d : SearchData) :
  ply (bf_loop n j ml depth d) = ply d /\
  skipMove (bf_loop n j ml depth d) = skipMove d /\
  evals (bf_loop n j ml depth d) = evals d.
Proof.
  revert j d. induction n as [|n IH]; intros j d; cbn [bf_loop]; [tauto|].
  destruct (IH (j + 1)
              (if moveCapture (ml_move ml j) || negb (movePromo (ml_move ml j) =? 0)
               then d else addBFHeuristic d (ml_move ml j) depth))
    as (H1 & H2 & H3).
  rewrite H1, H2, H3.
  destruct (moveCapture (ml_move ml j) || negb (movePromo (ml_move ml j) =? 0));
    repeat split; reflexivity.
Qed.

Lemma beta_cutoff_same (fr : Frame) (ml : MoveList) (i move : Z) (tactical : bool)
      (st : State) :
  table (beta_cutoff fr ml i move tactical st) = table st /\
  ply (data (beta_cutoff fr ml i move tactical st)) = ply (data st) /\
  skipMove (data (beta_cutoff fr ml i move tactical st)) = skipMove (data st) /\
  evals (data (beta_cutoff fr ml i move tactical st)) = evals (data st).
Proof.
  unfold beta_cutoff. cbn [table data set_data].
  split; [reflexivity|].
  match goal with
  | |- context [bf_loop ?n ?j ?m ?dp ?d] =>
      destruct (bf_loop_same n j m dp d) as (H1 & H2 & H3)
  end.
  rewrite H1, H2, H3.
  destruct tactical; [repeat split; reflexivity|].
  unfold addHistoryHeuristic, addCounter, addKiller.
  destruct (aget (killers (data st)) (2 * ply (data st)) =? move);
    repeat split; reflexivity.
Qed.

Lemma bounds_exhausted (fr : Frame) (st0 : State) (i : Z) (lp : Loop) :
  bounds_inv fr st0 i lp -> ml_count (lp_ml lp) <= i -> bounds_exit fr st0 lp.
Proof.
  intros (Hinv & Hfr & _ & Hwf & Hi0 & Hn & _ & Hbest & Hzero & Hpos) Hi.
  split; [exact Hinv|]. split; [exact Hfr|]. split; [exact Hbest|].
  intros Hskip Hcount.
  destruct (Z.eq_dec (lp_numMoves lp) 0) as [Hz|Hnz]; [|apply Hpos; exact Hnz].
  destruct (Hzero Hz) as [_ Hi1]. specialize (Hi1 Hskip).
  destruct Hwf as [Hc _]. lia.
Qed.

Lemma negamax_loop_bounds (self : Z -> Z -> Z -> State -> Res Result)
      (fr : Frame) (st0 : State) :
  bounds_n self ->
  0 <= ply (data st0) <= MAX_DEPTH - 1 ->
  isRoot fr = (ply (data st0) =? 0) ->
  fr_skipMove fr = aget (skipMove (data st0)) (ply (data st0)) ->
  fr_beta fr <= CHECKMATE - ply (data st0) ->
  forall k i lp c,
    bounds_inv fr st0 i lp ->
    negamax_loop self fr k i lp = Ok c ->
    match c with
    | Return res => bounds_ret st0 res
    | Next lp' => bounds_exit fr st0 lp'
    end.
Proof.
  intros Hself Hp Hroot Hskip0 Hbeta.
  pose proof (MAX_DEPTH_ok laws) as HM.
  pose proof (engine_laws laws) as elaws.
  induction k as [|k IH]; intros i lp c Hinv Hrun;
    cbn [negamax_loop] in Hrun;
    destruct (Z.ltb_spec i (ml_count (lp_ml lp))) as [Hi|Hi]; cbn [negb] in Hrun;
    try discriminate;
    try (inversion Hrun; subst; apply (bounds_exhausted fr st0 i lp Hinv Hi)).
  destruct Hinv as (Hinv & Hfr & Hsk1 & Hwf & Hi0 & Hn & Halpha & Hbest & Hzero & Hpos).
  set (p := ply (data st0)) in *.
  set (ml := bubbleTopMove (lp_ml lp) i) in *.
  set (move := ml_move ml i) in *.
  assert (Hwf' : wf_moves ml) by (apply (bubble_wf elaws); exact Hwf).
  assert (Hlt : i < ml_count ml) by (unfold ml; rewrite (bubble_count elaws); exact Hi).
  assert (Hply : ply (data (lp_st lp)) = p) by apply Hfr.
  destruct (Z.eqb_spec (fr_skipMove fr) move) as [Hsk|Hsk].
  { (* the excluded move *)
    refine (IH _ _ _ _ Hrun). unfold bounds_inv. cbn. fold p.
    split; [exact Hinv|]. split; [exact Hfr|]. split; [exact Hsk1|].
    split; [exact Hwf'|]. split; [lia|]. split; [exact Hn|]. split; [exact Halpha|].
    split; [exact Hbest|]. split; [|exact Hpos].
    intros Hz. destruct (Hzero Hz) as [Hb Hi1]. split; [exact Hb|].
    intros Hskip. exfalso. destruct Hwf' as [_ Hnn]. apply (Hnn i); [lia|].
    fold move. rewrite <- Hsk. exact Hskip. }
  destruct (negamax_pruned fr _ _ _ move) eqn:Hpr.
  { (* a pruned move *)
    refine (IH _ _ _ _ Hrun). unfold bounds_inv. cbn. fold p.
    split; [exact Hinv|]. split; [exact Hfr|]. split; [exact Hsk1|].
    split; [exact Hwf'|]. split; [lia|]. split; [exact Hn|]. split; [exact Halpha|].
    split; [exact Hbest|]. split; [|exact Hpos].
    intros Hz. exfalso. destruct (Hzero Hz) as [Hb _].
    unfold negamax_pruned in Hpr. rewrite Hb in Hpr.
    unfold CHECKMATE, MATE_BOUND in Hpr.
    destruct (negb (isPV fr)); simpl in Hpr; discriminate. }
  apply bind_Ok in Hrun. destruct Hrun as (sing & Hsing & Hrun).
  apply (negamax_singular_bounds laws) in Hsing;
    [|exact Hself|exact Hinv|rewrite Hply; exact Hp|rewrite Hply; exact Hroot
     |rewrite Hply; destruct Hfr as (_ & Fs & _); rewrite Fs by (fold p; lia);
      exact Hskip0
     |rewrite Hply; lia].
  destruct sing as [[[r0 pv0] st0']|[[se pv1] st1]].
  { inversion Hrun; subst. cbv beta iota.
    destruct Hsing as (Hi' & Hf' & Hr'). rewrite Hply in Hr'.
    split; [exact Hi'|]. split; [apply (frame_trans _ _ _ Hfr Hf') | exact Hr']. }
  destruct Hsing as (Hinv1 & Hfr1).
  assert (Hfr01 : frame st0 st1) by apply (frame_trans _ _ _ Hfr Hfr1).
  assert (Hply1 : ply (data st1) = p) by apply Hfr01.
  assert (Hsk11 : aget (skipMove (data st1)) (p + 1) = 0).
  { destruct Hfr1 as (_ & _ & Fz). rewrite Hply in Fz. apply Fz. exact Hsk1. }
  apply bind_Ok in Hrun. destruct Hrun as ([[score cpv] st3] & Hlad & Hrun).
  apply (negamax_ladder_bounds self fr p) in Hlad;
    [|exact Hself|exact Hp
     |apply (inv_eq st1); [reflexivity | reflexivity | exact Hinv1]
     |cbn; lia|cbn; exact Hsk11|exact Halpha|exact Hbeta].
  destruct Hlad as (Hinv3 & Hfr3 & Hscore).
  destruct (frame_child st1 (push_move move st1) st3 (pop_move move st3))
    as [Hfr4 Hz4]; try reflexivity; try exact Hfr3.
  rewrite Hply1 in Hz4.
  assert (Hinv4 : search_inv (pop_move move st3)).
  { apply (inv_eq st3); [reflexivity | reflexivity | exact Hinv3]. }
  assert (Hfr04 : frame st0 (pop_move move st3)) by apply (frame_trans _ _ _ Hfr01 Hfr4).
  assert (Hsk4 : aget (skipMove (data (pop_move move st3))) (p + 1) = 0).
  { rewrite Hz4. exact Hsk11. }
  destruct (is_stopped (pop_move move st3)).
  { inversion Hrun; subst. cbv beta iota. split; [exact Hinv4|].
    split; [exact Hfr04|]. fold p. unfold CHECKMATE. lia. }
  assert (Hnext : forall lp1,
             lp_st lp1 = pop_move move st3 -> lp_ml lp1 = ml ->
             lp_numMoves lp1 = lp_numMoves lp + 1 ->
             - CHECKMATE + p <= lp_alpha lp1 < fr_beta fr ->
             - CHECKMATE + p <= lp_bestScore lp1 <= CHECKMATE - p ->
             bounds_inv fr st0 (i + 1) lp1).
  { intros lp1 E1 E2 E3 Ha Hb. unfold bounds_inv. fold p. rewrite E1, E2, E3.
    split; [exact Hinv4|]. split; [exact Hfr04|]. split; [exact Hsk4|].
    split; [exact Hwf'|]. split; [lia|]. split; [lia|]. split; [exact Ha|].
    split; [lia|]. split; [intros Hz; lia | intros _; lia]. }
  destruct (Z.gtb_spec score (lp_bestScore lp)) as [Hgt|Hle].
  - destruct (Z.geb_spec (if score >? lp_alpha lp then score else lp_alpha lp)
                         (fr_beta fr)) as [Hcut|Hnocut].
    + (* beta cutoff *)
      inversion Hrun; subst. cbv beta iota. unfold bounds_exit. cbn. fold p.
      destruct (beta_cutoff_same fr ml i move
                  (negb (movePromo move =? 0) || moveCapture move)
                  (pop_move move st3)) as (Bt & Bp & Bs & Be).
      split; [apply (inv_eq (pop_move move st3)); assumption|].
      split; [apply (frame_trans _ _ _ Hfr04); apply frame_eq; assumption|].
      split; [lia|]. intros _ _. lia.
    + refine (IH _ _ _ _ Hrun). apply Hnext; try reflexivity; cbn.
      * destruct (Z.gtb_spec score (lp_alpha lp)); lia.
      * lia.
  - refine (IH _ _ _ _ Hrun). apply Hnext; try reflexivity; cbn.
    + exact Halpha.
    + destruct (Z.eq_dec (lp_numMoves lp) 0) as [Hz|Hnz].
      * destruct (Hzero Hz) as [Hb _]. lia.
      * specialize (Hpos Hnz). lia.
Qed.

End NegamaxLoopBounds.

Section NegamaxNodeBounds.
Context {L : TTLayout} {P : Position} {E : Engine}.
Hypothesis laws : SearchLaws.

Lemma negamax_finish_bounds (fr : Frame) (st0 : State) (lp : Loop)
      (r : Z) (pv : PV) (st' : State) :
  0 <= ply (data st0) <= MAX_DEPTH - 1 ->
  bounds_exit fr st0 lp ->
  negamax_finish fr lp = Ok (r, pv, st') ->
  search_inv st' /\ frame st0 st' /\
  - CHECKMATE <= r <= CHECKMATE - ply (data st0) /\
  (fr_skipMove fr = 0 -> - CHECKMATE + ply (data st0) <= r).
Proof.
  intros Hp (Hinv & Hfr & Hbest & Hlow) Hrun.
  pose proof (MAX_DEPTH_ok laws) as HM.
  assert (Hply : ply (data (lp_st lp)) = ply (data st0)) by apply Hfr.
  unfold negamax_finish in Hrun. rewrite Hply in Hrun.
  destruct (Z.eqb_spec (ml_count (lp_ml lp)) 0) as [Hc|Hc].
  { inversion Hrun; subst. split; [exact Hinv|]. split; [exact Hfr|].
    destruct (negb _); unfold CHECKMATE; split; lia. }
  apply bind_Ok in Hrun. destruct Hrun as (st1 & Hput & Hrun).
  apply bind_Ok in Hrun. destruct Hrun as (u1 & _ & Hrun).
  apply bind_Ok in Hrun. destruct Hrun as (u2 & _ & Hrun).
  inversion Hrun; subst. clear Hrun.
  assert (G : search_inv st' /\ frame (lp_st lp) st').
  { destruct (Z.eqb_spec (fr_skipMove fr) 0) as [Hsk|Hsk].
    - apply bind_Ok in Hput. destruct Hput as ([v t] & Hput & Heq).
      inversion Heq; subst. split; [|apply frame_eq; reflexivity].
      destruct Hinv as [Ht He]. split; [|exact He]. cbn.
      apply (TTPut_table_ok laws) in Hput;
        [exact Hput | exact Ht | lia | apply (Hlow Hsk Hc) | apply He].
    - inversion Hput; subst. split; [exact Hinv | apply frame_refl]. }
  destruct G as [Hinv' Hfr'].
  split; [exact Hinv'|]. split; [apply (frame_trans _ _ _ Hfr Hfr')|].
  split; [exact Hbest|]. intros Hsk. apply (Hlow Hsk Hc).
Qed.

Lemma negamax_node_bounds (self : Z -> Z -> Z -> State -> Res Result) (k : nat)
      (pvNode : bool) (alpha0 depth alpha beta : Z) (st : State)
      (r : Z) (pv : PV) (st' : State) :
  bounds_n self ->
  search_inv st -> 0 <= ply (data st) <= MAX_DEPTH - 1 ->
  - CHECKMATE + ply (data st) <= alpha < beta ->
  beta <= CHECKMATE - ply (data st) ->
  negamax_node self k pvNode (ply (data st) =? 0) alpha0
               (aget (skipMove (data st)) (ply (data st))) depth alpha beta st
    = Ok (r, pv, st') ->
  search_inv st' /\ frame st st' /\
  - CHECKMATE <= r <= CHECKMATE - ply (data st) /\
  (aget (skipMove (data st)) (ply (data st)) = 0 ->
   - CHECKMATE + ply (data st) <= r).
Proof.
  intros Hself Hinv Hp Halpha Hbeta Hrun.
  pose proof (MAX_DEPTH_ok laws) as HM.
  set (p := ply (data st)) in *.
  set (skip := aget (skipMove (data st)) p) in *.
  unfold negamax_node, negamax_search in Hrun. fold p in Hrun.
  apply bind_Ok in Hrun. destruct Hrun as (ttValue & Hprobe & Hrun).
  assert (Hentry : entry_ok ttValue).
  { destruct (negb (skip =? 0)).
    - inversion Hprobe. left. reflexivity.
    - eapply (TTProbe_entry_ok laws); [apply Hinv | exact Hprobe]. }
  destruct (negamax_tt_cutoff ttValue alpha beta depth p) as [s|] eqn:Hcut.
  { inversion Hrun; subst. split; [exact Hinv|]. split; [apply frame_refl|].
    unfold negamax_tt_cutoff in Hcut.
    destruct (Z.eqb_spec ttValue 0) as [Hz|Hnz]; [discriminate|].
    assert (Hb : - CHECKMATE + p <= TTScore ttValue p <= CHECKMATE - p)
      by (apply TTScore_bounds; [exact Hentry | exact Hnz | lia]).
    assert (Hr : r = TTScore ttValue p).
    { destruct (TTDepth ttValue >=? depth); [|discriminate].
      destruct (TTFlag ttValue =? TT_EXACT); [inversion Hcut; reflexivity|].
      destruct (_ && _); [inversion Hcut; reflexivity|].
      destruct (_ && _); [inversion Hcut; reflexivity | discriminate]. }
    rewrite Hr. split; [lia|]. intros _. lia. }
  apply bind_Ok in Hrun. destruct Hrun as (u & Hassert & Hrun).
  apply bind_Ok in Hrun. destruct Hrun as (pr & Hpr & Hrun).
  match type of Hpr with
  | (if _ then _ else Ok (Next (_, ?s))) = _ => set (st1 := s) in *
  end.
  assert (Heval : eval_ok (static_eval ttValue (board (data st))))
    by (apply (static_eval_ok laws); exact Hentry).
  assert (Hinv1 : search_inv st1).
  { destruct Hinv as [Ht He]. split; [exact Ht|]. cbn. intros j.
    rewrite aget_aset. destruct (decide (p = j)); [exact Heval | apply He]. }
  assert (Hfr1 : frame st st1).
  { split; [reflexivity|]. cbn. fold p. split.
    - intros j Hj. rewrite aget_aset.
      destruct (decide (p + 1 = j)); [lia | reflexivity].
    - intros _. rewrite aget_aset.
      destruct (decide (p + 1 = p + 1)); [reflexivity | contradiction]. }
  assert (Hsk1 : aget (skipMove (data st1)) (p + 1) = 0).
  { cbn. rewrite aget_aset.
    destruct (decide (p + 1 = p + 1)); [reflexivity | contradiction]. }
  assert (Hply1 : ply (data st1) = p) by reflexivity.
  assert (Gp : match pr with
               | Return res => bounds_ret st1 res
               | Next (_, st2) =>
                   search_inv st2 /\ frame st1 st2 /\
                   aget (skipMove (data st2)) (p + 1) = 0
               end).
  { destruct (negb pvNode && _).
    - apply (negamax_prune_bounds laws) in Hpr;
        [exact Hpr | exact Hself | exact Hinv1 | rewrite Hply1; exact Hp
         | rewrite Hply1; lia | exact Heval | exact Hentry
         | rewrite Hply1; exact Hsk1].
    - inversion Hpr; subst. split; [exact Hinv1|].
      split; [apply frame_refl | exact Hsk1]. }
  destruct pr as [[[r0 pv0] st2]|[cpv st2]].
  { inversion Hrun; subst. destruct Gp as (Hi & Hf & Hr). rewrite Hply1 in Hr.
    split; [exact Hi|]. split; [apply (frame_trans _ _ _ Hfr1 Hf)|].
    split; [lia|]. intros _. lia. }
  destruct Gp as (Hinv2 & Hfr2 & Hsk2).
  assert (Hfr02 : frame st st2) by apply (frame_trans _ _ _ Hfr1 Hfr2).
  assert (Hply2 : ply (data st2) = p) by apply Hfr02.
  assert (Hskip2 : aget (skipMove (data st2)) p = skip).
  { destruct Hfr02 as (_ & Fs & _). apply Fs. fold p. lia. }
  apply bind_Ok in Hrun. destruct Hrun as (lp & Hloop & Hrun).
  match type of Hloop with
  | negamax_loop _ ?f _ _ _ = _ => set (fr := f) in *
  end.
  apply (negamax_loop_bounds laws self fr st2) in Hloop;
    [|exact Hself|rewrite Hply2; exact Hp|rewrite Hply2; reflexivity
     |rewrite Hply2, Hskip2; reflexivity|rewrite Hply2; exact Hbeta|].
  2: { unfold bounds_inv. cbn. rewrite Hply2.
       split; [exact Hinv2|]. split; [apply frame_refl|]. split; [exact Hsk2|].
       split; [apply (generate_wf (engine_laws laws))|].
       split; [lia|]. split; [lia|]. split; [exact Halpha|].
       split; [unfold CHECKMATE; lia|].
       split; [intros _; split; reflexivity | intros H; contradiction]. }
  destruct lp as [[[r0 pv0] st3]|lp'].
  - inversion Hrun; subst. destruct Hloop as (Hi & Hf & Hr). rewrite Hply2 in Hr.
    split; [exact Hi|]. split; [apply (frame_trans _ _ _ Hfr02 Hf)|].
    split; [lia|]. intros _. lia.
  - apply (negamax_finish_bounds fr st2) in Hrun;
      [|rewrite Hply2; exact Hp|exact Hloop].
    rewrite Hply2 in Hrun. destruct Hrun as (Hi & Hf & Hr & Hlow).
    split; [exact Hi|]. split; [apply (frame_trans _ _ _ Hfr02 Hf)|].
    split; [exact Hr|]. exact Hlow.
Qed.

Lemma negamax_body_bounds (self : Z -> Z -> Z -> State -> Res Result)
      (q : Z -> Z -> State -> Res Result) (k : nat) :
  bounds_n self -> bounds_q q -> bounds_n (negamax_body self q k).
Proof.
  intros Hself Hq alpha beta depth st r pv st' Hinv Hp Halpha Hroot Hrun.
  pose proof (MAX_DEPTH_ok laws) as HM.
  unfold negamax_body in Hrun.
  destruct (depth =? 0).
  { apply Hq in Hrun; [|exact Hinv|exact Hp].
    destruct Hrun as (Hi & Hf & Hr). split; [exact Hi|]. split; [exact Hf|].
    split; [lia|]. intros _. lia. }
  assert (Hinv0 : search_inv (count_node st)).
  { apply (inv_eq st); [reflexivity | reflexivity | exact Hinv]. }
  assert (Hfr0 : frame st (count_node st)) by (apply frame_eq; reflexivity).
  set (st1 := poll (count_node st)) in *.
  assert (Hd1 : data st1 = data (count_node st)) by apply data_poll.
  assert (Ht1 : table st1 = table st) by (unfold st1; rewrite table_poll; reflexivity).
  assert (Hinv1 : search_inv st1).
  { apply (inv_eq st); [exact Ht1 | rewrite Hd1; reflexivity | exact Hinv]. }
  assert (Hfr1 : frame st st1) by (apply frame_eq; rewrite Hd1; reflexivity).
  assert (Hply1 : ply (data st1) = ply (data st)) by (rewrite Hd1; reflexivity).
  assert (Hsk1 : skipMove (data st1) = skipMove (data st)) by (rewrite Hd1; reflexivity).
  destruct (negamax_window _ _ _ _) as [[[r0 pv0] st2]|[alpha' beta']] eqn:Hw.
  - inversion Hrun; subst. unfold negamax_window in Hw.
    cbn [count_node data set_data board set_counts ply] in Hw.
    destruct (Z.eqb_spec (ply (data st)) 0) as [Hz|Hnz]; [discriminate|].
    destruct (_ || _ || _).
    { inversion Hw; subst. split; [exact Hinv0|]. split; [exact Hfr0|].
      unfold CHECKMATE. split; [lia|]. intros _. lia. }
    destruct (Z.gtb_spec (ply (data st)) (MAX_DEPTH - 1)).
    { inversion Hw; subst. split; [exact Hinv0|]. split; [exact Hfr0|].
      pose proof (eval_ok_bounds _ (ply (data st))
                    (Evaluate_ok laws (board (data st))) ltac:(lia)).
      split; [lia|]. intros _. lia. }
    destruct (Z.geb_spec (Z.max alpha (- CHECKMATE + ply (data st)))
                         (Z.min beta (CHECKMATE - ply (data st) - 1)));
      [|discriminate].
    inversion Hw; subst. split; [exact Hinv0|]. split; [exact Hfr0|].
    unfold CHECKMATE in *. split; [lia|]. intros _. lia.
  - assert (Hwin : 0 <= ply (data st) <= MAX_DEPTH - 1 /\
                   - CHECKMATE + ply (data st) <= alpha' < beta' /\
                   beta' <= CHECKMATE - ply (data st)).
    { unfold negamax_window in Hw.
      cbn [count_node data set_data board set_counts ply] in Hw.
      destruct (Z.eqb_spec (ply (data st)) 0) as [Hz|Hnz].
      - inversion Hw; subst. specialize (Hroot Hz). rewrite Hz.
        unfold CHECKMATE in *. lia.
      - destruct (_ || _ || _); [discriminate|].
        destruct (Z.gtb_spec (ply (data st)) (MAX_DEPTH - 1)); [discriminate|].
        destruct (Z.geb_spec (Z.max alpha (- CHECKMATE + ply (data st)))
                             (Z.min beta (CHECKMATE - ply (data st) - 1)));
          [discriminate|].
        inversion Hw; subst. unfold CHECKMATE in *. lia. }
    destruct Hwin as (Hp' & Ha' & Hb').
    rewrite <- Hply1 in Hrun. rewrite <- Hsk1 in Hrun.
    apply negamax_node_bounds in Hrun;
      [|exact Hself|exact Hinv1|rewrite Hply1; exact Hp'
       |rewrite Hply1; exact Ha'|rewrite Hply1; exact Hb'].
    rewrite Hply1, Hsk1 in Hrun. destruct Hrun as (Hi & Hf & Hr & Hlow).
    split; [exact Hi|]. split; [apply (frame_trans _ _ _ Hfr1 Hf)|].
    split; [exact Hr | exact Hlow].
Qed.

Lemma negamax_bounds (fuel : nat) : bounds_n (negamax fuel).
Proof.
  induction fuel as [|f IH];
    [intros alpha beta depth st r pv st' _ _ _ _ H; discriminate|].
  apply negamax_body_bounds; [exact IH | apply (quiesce_bounds laws)].
Qed.

End NegamaxNodeBounds.

(** *** The floor of the scores *)

Section ScoreFloor.
Context {L : TTLayout} {P : Position} {E : Engine}.

Lemma quiesce_loop_stand_pat (self : Z -> Z -> State -> Res Result) :
  forall k i ml eval alpha beta bestScore pv st r pv' st',
    quiesce_loop self k i ml eval alpha beta bestScore pv st = Ok (r, pv', st') ->
    bestScore <= r \/ (is_stopped st' = true /\ r = 0).
Proof.
  induction k as [|k IH];
    intros i ml eval alpha beta bestScore pv st r pv' st' Hrun;
    cbn [quiesce_loop] in Hrun;
    destruct (negb (i <? ml_count ml));
    try (inversion Hrun; subst; left; lia); try discriminate.
  apply bind_Ok in Hrun. destruct Hrun as (u & _ & Hrun).
  destruct (quiesce_skip _ _ _ _); [apply (IH _ _ _ _ _ _ _ _ _ _ _ Hrun)|].
  destruct (ml_score _ _ <? 0); [inversion Hrun; subst; left; lia|].
  apply bind_Ok in Hrun. destruct Hrun as ([[r1 cpv] st1] & Hchild & Hrun).
  destruct (is_stopped _) eqn:Hstop.
  { inversion Hrun; subst. right. split; [exact Hstop | reflexivity]. }
  destruct (Z.gtb_spec (- r1) bestScore).
  - destruct (_ >=? beta); [inversion Hrun; subst; left; lia|].
    apply IH in Hrun. destruct Hrun as [Hle|Hst]; [left; lia | right; exact Hst].
  - apply (IH _ _ _ _ _ _ _ _ _ _ _ Hrun).
Qed.

(** C3, as amended.  Once [quiesce] is past its draw test, its ply limit
    and the table cutoff, it returns at least its stand-pat score, or 0
    with the stop flag set after the search of a move.  For a table whose
    entries are in range, evaluations within [MATE_BOUND], a ply between
    0 and [MAX_DEPTH] and an alpha of at most [CHECKMATE - ply] (at the
    root, a window within the mate scores), [negamax] returns a score of
    at least [-CHECKMATE] and at most [CHECKMATE - ply], and of at least
    [-CHECKMATE + ply] when no move is excluded at its ply; it leaves the
    table in range. *)
Theorem search_score_floor (laws : SearchLaws) :
  (forall fuel alpha beta st ttValue r pv st',
     no_draw (board (data st)) -> ply (data st) <= MAX_DEPTH - 1 ->
     TTProbe (zobrist (board (data st))) (table st) = Ok ttValue ->
     quiesce_tt_cutoff ttValue alpha beta (ply (data st)) = None ->
     quiesce fuel alpha beta st = Ok (r, pv, st') ->
     stand_pat ttValue (board (data st)) (ply (data st)) <= r \/
     (is_stopped st' = true /\ r = 0)) /\
  (forall fuel alpha beta depth st r pv st',
     search_inv st -> 0 <= ply (data st) <= MAX_DEPTH ->
     alpha <= CHECKMATE - ply (data st) ->
     (ply (data st) = 0 -> - CHECKMATE <= alpha < beta /\ beta <= CHECKMATE) ->
     negamax fuel alpha beta depth st = Ok (r, pv, st') ->
     - CHECKMATE <= r <= CHECKMATE - ply (data st) /\
     (aget (skipMove (data st)) (ply (data st)) = 0 ->
      - CHECKMATE + ply (data st) <= r) /\
     search_inv st').
Proof.
  split.
  - intros fuel alpha beta st ttValue r pv st' Hdraw Hp Hprobe Hcut Hrun.
    destruct fuel as [|f]; [discriminate|].
    cbn [quiesce] in Hrun. unfold quiesce_body in Hrun.
    cbn [count_node data set_data board set_counts ply] in Hrun.
    rewrite (no_draw_quiesce _ Hdraw) in Hrun.
    destruct (Z.gtb_spec (ply (data st)) (MAX_DEPTH - 1)); [lia|].
    rewrite table_poll in Hrun. cbn [count_node table set_data] in Hrun.
    rewrite Hprobe in Hrun. cbn [mbind Res_bind] in Hrun. rewrite Hcut in Hrun.
    destruct (Z.geb_spec (stand_pat ttValue (board (data st)) (ply (data st))) beta).
    { inversion Hrun; subst. left. lia. }
    apply quiesce_loop_stand_pat in Hrun. exact Hrun.
  - intros fuel alpha beta depth st r pv st' Hinv Hp Halpha Hroot Hrun.
    destruct (negamax_bounds laws fuel alpha beta depth st r pv st'
                Hinv Hp Halpha Hroot Hrun) as (Hinv' & _ & Hr & Hlow).
    split; [exact Hr|]. split; [exact Hlow | exact Hinv'].
Qed.

End ScoreFloor.

Lemma toy_search_laws : SearchLaws (L := ref_layout) (E := toy_engine).
Proof.
  constructor.
  - exact ref_layout_laws.
  - exact toy_laws.
  - intros b. unfold eval_ok, MATE_BOUND. simpl. unfold toy_eval.
    repeat match goal with
           | |- context [if ?c then _ else _] => destruct c
           end; lia.
  - simpl. lia.
Qed.

Lemma toy_state_inv (n p stop skip : Z) : search_inv (toy_state n p stop skip).
Proof.
  split.
  - split; [simpl; lia|]. split; [reflexivity|].
    intros m v Hm Hv. left. simpl in Hv.
    destruct (Z.to_nat (2 * m + 1)) as [|[|[|[|k]]]]; simpl in Hv;
      inversion Hv; reflexivity.
  - intros j. simpl. unfold aget. rewrite lookup_empty.
    unfold eval_ok, MATE_BOUND. simpl. lia.
Qed.

(** C3 at the sample engine: the search of node 0 to depth 1. *)
Lemma search_score_floor_witness :
  match negamax 5 (-1000) 1000 1 (toy_state 0 0 0 0) with
  | Ok (r, pv, st') => - CHECKMATE <= r <= CHECKMATE - 0 /\ - CHECKMATE + 0 <= r
  | _ => False
  end.
Proof.
  assert (Hok : succeeds (negamax 5 (-1000) 1000 1 (toy_state 0 0 0 0)) = true).
  { vm_compute. reflexivity. }
  destruct (negamax 5 (-1000) 1000 1 (toy_state 0 0 0 0)) as [[[r pv] st']| |] eqn:Hrun;
    [|discriminate Hok..].
  destruct (proj2 (search_score_floor toy_search_laws) 5%nat (-1000) 1000 1
                  (toy_state 0 0 0 0) r pv st' (toy_state_inv 0 0 0 0))
    as (Hr & Hlow & _).
  - simpl. lia.
  - simpl. unfold CHECKMATE. lia.
  - intros _. unfold CHECKMATE. lia.
  - exact Hrun.
  - split; [exact Hr|]. apply Hlow. vm_compute. reflexivity.
Defined.

(** C3 fails in two ways.  At node 0 the first node counted polls the
    outside world, which sets the stop flag: [quiesce] searches the
    capture and returns 0, below its stand-pat score 50.  At node 4, one
    ply from the root, with its only move excluded (the call of the
    singular-extension search), [negamax] returns [-CHECKMATE], below
    [-CHECKMATE + 1]. *)
Lemma search_score_floor_counterexample :
  stand_pat (P := toy_position) 0 [0] 0 = 50 /\
  score_of (quiesce 5 0 1000 (toy_polling_state 0 0)) = Ok 0 /\
  ply (data (toy_state 4 1 0 (toy_move 5 0 0))) = 1 /\
  score_of (negamax 5 (-100) (-99) 3 (toy_state 4 1 0 (toy_move 5 0 0)))
    = Ok (- CHECKMATE) /\
  - CHECKMATE < - CHECKMATE + 1.
Proof. repeat split; vm_compute; reflexivity. Qed.

(** ** Further properties of the transposition table *)

Section TranspositionMore.
Context {L : TTLayout}.

Lemma TTProbe_scan_miss (tbl : list Z) (idx hash : Z) :
  bucket_in tbl idx ->
  (forall j, Z.of_nat j < BUCKET_SIZE -> slot_key tbl idx j <> hash) ->
  forall (n j0 : nat), Z.of_nat j0 + Z.of_nat n = BUCKET_SIZE ->
    TTProbe_scan tbl hash n (idx + 2 * Z.of_nat j0) = Ok NO_ENTRY.
Proof.
  intros Hin Hno. induction n as [|n IH]; intros j0 Hsum; [reflexivity|].
  simpl. rewrite (tt_get_key tbl idx j0 Hin) by lia. simpl.
  destruct (Z.eqb_spec (slot_key tbl idx j0) hash) as [He|Hne].
  - exfalso. apply (Hno j0); [lia | exact He].
  - replace (idx + 2 * Z.of_nat j0 + 2) with (idx + 2 * Z.of_nat (S j0)) by lia.
    apply IH. lia.
Qed.

(** Two tables that agree on which slots of a bucket hold [hash], and on
    the entries of those slots, answer a probe for [hash] alike. *)
Lemma TTProbe_scan_ext (tbl tbl' : list Z) (idx hash : Z) :
  bucket_in tbl idx -> bucket_in tbl' idx ->
  (forall j, Z.of_nat j < BUCKET_SIZE ->
     (slot_key tbl idx j = hash <-> slot_key tbl' idx j = hash) /\
     (slot_key tbl idx j = hash -> slot_val tbl' idx j = slot_val tbl idx j)) ->
  forall (n j0 : nat), Z.of_nat j0 + Z.of_nat n = BUCKET_SIZE ->
    TTProbe_scan tbl' hash n (idx + 2 * Z.of_nat j0)
    = TTProbe_scan tbl hash n (idx + 2 * Z.of_nat j0).
Proof.
  intros Hin Hin' Hsame. induction n as [|n IH]; intros j0 Hsum; [reflexivity|].
  assert (Hj0 : Z.of_nat j0 < BUCKET_SIZE) by lia.
  destruct (Hsame j0 Hj0) as [Hiff Hval].
  simpl. rewrite (tt_get_key tbl idx j0 Hin Hj0), (tt_get_key tbl' idx j0 Hin' Hj0).
  simpl.
  destruct (Z.eqb_spec (slot_key tbl idx j0) hash) as [He|Hne];
    destruct (Z.eqb_spec (slot_key tbl' idx j0) hash) as [He'|Hne'].
  - rewrite (tt_get_val tbl idx j0 Hin Hj0), (tt_get_val tbl' idx j0 Hin' Hj0).
    rewrite (Hval He). reflexivity.
  - exfalso. apply Hne'. apply Hiff. exact He.
  - exfalso. apply Hne. apply Hiff. exact He'.
  - replace (idx + 2 * Z.of_nat j0 + 2) with (idx + 2 * Z.of_nat (S j0)) by lia.
    apply IH. lia.
Qed.

Lemma slot_val_other (tbl : list Z) (s idx2 hash v : Z) (j2 : nat) :
  0 <= s -> 0 <= idx2 ->
  idx2 + 2 * Z.of_nat j2 + 1 <> s -> idx2 + 2 * Z.of_nat j2 <> s ->
  slot_val (<[Z.to_nat (s + 1) := v]> (<[Z.to_nat s := hash]> tbl)) idx2 j2
  = slot_val tbl idx2 j2.
Proof.
  intros H0 H1 H2 H3. unfold slot_val.
  rewrite !list_lookup_insert_ne by lia. reflexivity.
Qed.

Lemma TTPut_store_SIZE (s hash depth score flag move ply eval : Z)
      (t t' : TTState) (tt : Z) :
  TTPut_store s hash depth score flag move ply eval t = Ok (tt, t') ->
  SIZE t' = SIZE t.
Proof.
  unfold TTPut_store. intros H.
  repeat (apply bind_Ok in H; destruct H as (? & ? & H)).
  inversion H; subst. reflexivity.
Qed.

(** What a [TTPut] that returns has done: it kept the entry of the first
    slot that holds [hash], or it wrote [hash] and the entry it returns
    to one slot [j] of the bucket, which was the first empty slot with
    no slot of [hash] before it, the first slot of [hash], or a slot of
    a bucket full of other positions. *)
Lemma TTPut_shape (laws : TTLayoutLaws L) (hash depth score flag move ply eval : Z)
      (t t' : TTState) (v : Z) :
  bucket_in (TRANSPOSITION_ENTRIES t) (TTIdx (POWER t) hash) ->
  TTPut hash depth score flag move ply eval t = Ok (v, t') ->
  exists j, Z.of_nat j < BUCKET_SIZE /\
    (forall j', (j' < j)%nat ->
       slot_key (TRANSPOSITION_ENTRIES t) (TTIdx (POWER t) hash) j' <> hash) /\
    ((t' = t /\
      slot_key (TRANSPOSITION_ENTRIES t) (TTIdx (POWER t) hash) j = hash /\
      v = slot_val (TRANSPOSITION_ENTRIES t) (TTIdx (POWER t) hash) j) \/
     (POWER t' = POWER t /\ SIZE t' = SIZE t /\
      TRANSPOSITION_ENTRIES t' =
        <[Z.to_nat (TTIdx (POWER t) hash + 2 * Z.of_nat j + 1) := v]>
          (<[Z.to_nat (TTIdx (POWER t) hash + 2 * Z.of_nat j) := hash]>
             (TRANSPOSITION_ENTRIES t)) /\
      ((slot_key (TRANSPOSITION_ENTRIES t) (TTIdx (POWER t) hash) j = 0 /\
        forall j', (j' < j)%nat ->
          slot_key (TRANSPOSITION_ENTRIES t) (TTIdx (POWER t) hash) j' <> 0) \/
       slot_key (TRANSPOSITION_ENTRIES t) (TTIdx (POWER t) hash) j = hash \/
       (forall j', Z.of_nat j' < BUCKET_SIZE ->
          slot_key (TRANSPOSITION_ENTRIES t) (TTIdx (POWER t) hash) j' <> 0 /\
          slot_key (TRANSPOSITION_ENTRIES t) (TTIdx (POWER t) hash) j' <> hash)))).
Proof.
  set (tbl := TRANSPOSITION_ENTRIES t). set (idx := TTIdx (POWER t) hash).
  intros Hin Hput. pose proof (bucket_size_pos L laws) as HB.
  destruct (TTPut_scan_spec laws tbl idx hash depth flag Hin
              (Z.to_nat BUCKET_SIZE) O idx INT32_MAX) as (r & Hr & H1 & H2 & H3).
  { lia. }
  { intros _. lia. }
  { intros j' Hj'. lia. }
  { exists O. split; [lia|]. left. repeat split. }
  replace (idx + 2 * Z.of_nat 0) with idx in Hr by lia.
  unfold TTPut in Hput. fold tbl idx in Hput. rewrite Hr in Hput. simpl in Hput.
  assert (Hstore : forall j, r = ScanSlot (idx + 2 * Z.of_nat j) ->
            POWER t' = POWER t /\ SIZE t' = SIZE t /\
            TRANSPOSITION_ENTRIES t' =
              <[Z.to_nat (idx + 2 * Z.of_nat j + 1) := v]>
                (<[Z.to_nat (idx + 2 * Z.of_nat j) := hash]> tbl)).
  { intros j Hrj. rewrite Hrj in Hput.
    pose proof (TTPut_store_SIZE _ _ _ _ _ _ _ _ _ _ _ Hput) as HS.
    apply TTPut_store_Ok in Hput.
    destruct Hput as (_ & HP & _ & _ & Htbl & _).
    split; [exact HP|]. split; [exact HS | exact Htbl]. }
  destruct (first_hit_or_none tbl idx hash (Z.to_nat BUCKET_SIZE))
    as [(j & Hj & Fj & Kj)|Hnone].
  - assert (Hj' : Z.of_nat j < BUCKET_SIZE) by lia.
    exists j. split; [exact Hj'|]. split; [intros j' Hlt; apply (Fj j' Hlt)|].
    destruct (Z.eq_dec (slot_key tbl idx j) 0) as [Hz|Hnz].
    + right. destruct (Hstore j (H1 j Hj' Fj Hz)) as (A & B & C).
      split; [exact A|]. split; [exact B|]. split; [exact C|].
      left. split; [exact Hz|]. intros j' Hlt. apply (Fj j' Hlt).
    + assert (Hh : slot_key tbl idx j = hash) by (destruct Kj; [contradiction|assumption]).
      pose proof (H2 j Hj' Fj Hnz Hh) as Hrj.
      destruct ((TTDepth (slot_val tbl idx j) >? depth) && negb (flag =? TT_EXACT)).
      * left. rewrite Hrj in Hput. injection Hput as Hv Ht.
        split; [symmetry; exact Ht|]. split; [exact Hh | symmetry; exact Hv].
      * right. destruct (Hstore j Hrj) as (A & B & C).
        split; [exact A|]. split; [exact B|]. split; [exact C|].
        right. left. exact Hh.
  - destruct H3 as (j & Hj & Hrj & _).
    { intros j Hj. apply Hnone. lia. }
    exists j. split; [exact Hj|].
    split; [intros j' Hlt; apply Hnone; lia|].
    right. destruct (Hstore j Hrj) as (A & B & C).
    split; [exact A|]. split; [exact B|]. split; [exact C|].
    right. right. intros j' Hj'. apply Hnone. lia.
Qed.

Lemma TTPut_written_in (v hash idx : Z) (j : nat) (tbl : list Z) :
  bucket_in tbl idx ->
  bucket_in (<[Z.to_nat (idx + 2 * Z.of_nat j + 1) := v]>
               (<[Z.to_nat (idx + 2 * Z.of_nat j) := hash]> tbl)) idx.
Proof. unfold bucket_in. rewrite !length_insert. tauto. Qed.

(** X1.  Whatever [TTPut] returns is what a probe for the same hash then
    finds: the entry just written, or the deeper entry that was kept. *)
Theorem TTPut_then_TTProbe (laws : TTLayoutLaws L)
        (hash depth score flag move ply eval : Z) (t t' : TTState) (v : Z) :
  bucket_in (TRANSPOSITION_ENTRIES t) (TTIdx (POWER t) hash) ->
  TTPut hash depth score flag move ply eval t = Ok (v, t') ->
  TTProbe hash t' = Ok v.
Proof.
  intros Hin Hput. pose proof (bucket_size_pos L laws) as HB.
  destruct (TTPut_shape laws _ _ _ _ _ _ _ _ _ _ Hin Hput)
    as (j & Hj & Hbefore & [(Ht & Hk & Hv)|(HP & HS & Htbl & _)]).
  - subst t'. unfold TTProbe.
    replace (TTIdx (POWER t) hash) with (TTIdx (POWER t) hash + 2 * Z.of_nat 0) at 1 by lia.
    rewrite (TTProbe_scan_hit _ _ hash j Hin Hj Hk Hbefore) by lia.
    rewrite Hv. reflexivity.
  - unfold TTProbe. rewrite HP, Htbl.
    set (idx := TTIdx (POWER t) hash) in *.
    set (tbl := TRANSPOSITION_ENTRIES t) in *.
    destruct Hin as [Hi0 Hi1].
    set (tbl' := <[Z.to_nat (idx + 2 * Z.of_nat j + 1) := v]>
                   (<[Z.to_nat (idx + 2 * Z.of_nat j) := hash]> tbl)).
    assert (Hin' : bucket_in tbl' idx) by (apply TTPut_written_in; split; assumption).
    assert (Hkey : slot_key tbl' idx j = hash) by (apply slot_key_written; lia).
    assert (Hbef : forall j', (j' < j)%nat -> slot_key tbl' idx j' <> hash).
    { intros j' Hj'. unfold tbl'. rewrite slot_key_other by lia.
      apply Hbefore. exact Hj'. }
    pose proof (TTProbe_scan_hit tbl' idx hash j Hin' Hj Hkey Hbef
                  (Z.to_nat BUCKET_SIZE) O ltac:(lia) ltac:(lia)) as Hhit.
    replace (idx + 2 * Z.of_nat 0) with idx in Hhit by lia.
    rewrite Hhit. unfold tbl'. rewrite slot_val_written by lia. reflexivity.
Qed.

(** X2.  A [TTPut] that returns leaves the size of the table as it was
    and changes at most the two words of one slot of the bucket of its
    hash. *)
Theorem TTPut_frame (laws : TTLayoutLaws L)
        (hash depth score flag move ply eval : Z) (t t' : TTState) (v : Z) :
  bucket_in (TRANSPOSITION_ENTRIES t) (TTIdx (POWER t) hash) ->
  TTPut hash depth score flag move ply eval t = Ok (v, t') ->
  POWER t' = POWER t /\ SIZE t' = SIZE t /\
  length (TRANSPOSITION_ENTRIES t') = length (TRANSPOSITION_ENTRIES t) /\
  exists j, Z.of_nat j < BUCKET_SIZE /\
    forall i : nat,
      i <> Z.to_nat (TTIdx (POWER t) hash + 2 * Z.of_nat j) ->
      i <> Z.to_nat (TTIdx (POWER t) hash + 2 * Z.of_nat j + 1) ->
      TRANSPOSITION_ENTRIES t' !! i = TRANSPOSITION_ENTRIES t !! i.
Proof.
  intros Hin Hput.
  destruct (TTPut_shape laws _ _ _ _ _ _ _ _ _ _ Hin Hput)
    as (j & Hj & _ & [(Ht & _)|(HP & HS & Htbl & _)]).
  - subst t'. repeat split. exists j. split; [exact Hj|]. reflexivity.
  - split; [exact HP|]. split; [exact HS|].
    split; [rewrite Htbl, !length_insert; reflexivity|].
    exists j. split; [exact Hj|]. intros i Hi1 Hi2.
    rewrite Htbl, !list_lookup_insert_ne by congruence. reflexivity.
Qed.

(** X3.  A [TTPut] costs at most one other position its entry, and none
    while the bucket has an empty slot or holds the hash already: the
    probe of every other non-zero hash, but for the one evicted, answers
    as before. *)
Theorem TTPut_keeps_others (laws : TTLayoutLaws L)
        (hash depth score flag move ply eval : Z) (t t' : TTState) (v : Z) :
  0 <= POWER t ->
  Z.of_nat (length (TRANSPOSITION_ENTRIES t)) = 2 * BUCKET_SIZE * 2 ^ POWER t ->
  TTPut hash depth score flag move ply eval t = Ok (v, t') ->
  exists old,
    (forall hash', hash' <> 0 -> hash' <> hash -> hash' <> old ->
       TTProbe hash' t' = TTProbe hash' t) /\
    ((exists j, Z.of_nat j < BUCKET_SIZE /\
        (slot_key (TRANSPOSITION_ENTRIES t) (TTIdx (POWER t) hash) j = 0 \/
         slot_key (TRANSPOSITION_ENTRIES t) (TTIdx (POWER t) hash) j = hash)) ->
     old = 0 \/ old = hash).
Proof.
  intros Hp Hlen Hput. pose proof (bucket_size_pos L laws) as HB.
  assert (Hbucket : forall h,
            exists k, 0 <= k < 2 ^ POWER t /\ TTIdx (POWER t) h = 2 * BUCKET_SIZE * k /\
                      bucket_in (TRANSPOSITION_ENTRIES t) (TTIdx (POWER t) h)).
  { intros h. destruct (TTIdx_bucket L laws (POWER t) h Hp) as (k & Hk & Hidx).
    exists k. split; [exact Hk|]. split; [exact Hidx|].
    unfold bucket_in. rewrite Hidx, Hlen. split; nia. }
  destruct (Hbucket hash) as (k & Hk & Hidx & Hin).
  destruct (TTPut_shape laws _ _ _ _ _ _ _ _ _ _ Hin Hput)
    as (j & Hj & Hbefore & [(Ht & Hkey & _)|(HP & HS & Htbl & Hcase)]).
  - subst t'. exists hash. split; [reflexivity|]. intros _. right. reflexivity.
  - set (tbl := TRANSPOSITION_ENTRIES t) in *.
    set (idx := TTIdx (POWER t) hash) in *.
    exists (slot_key tbl idx j). split.
    + intros hash' Hnz Hne Hold.
      destruct (Hbucket hash') as (k' & Hk' & Hidx' & Hin').
      unfold TTProbe. rewrite HP, Htbl. fold tbl.
      set (idx' := TTIdx (POWER t) hash') in *.
      replace idx' with (idx' + 2 * Z.of_nat 0) by lia.
      apply TTProbe_scan_ext; [exact Hin' | | | lia].
      { unfold bucket_in. rewrite !length_insert. exact Hin'. }
      intros j0 Hj0.
      replace (idx + 2 * Z.of_nat j + 1) with ((idx + 2 * Z.of_nat j) + 1) by lia.
      destruct (Z.eq_dec (idx' + 2 * Z.of_nat j0) (idx + 2 * Z.of_nat j)) as [Heq|Hneq].
      * assert (Hsame : idx' = idx /\ j0 = j).
        { assert (E : idx = 2 * BUCKET_SIZE * k) by exact Hidx.
          assert (E' : idx' = 2 * BUCKET_SIZE * k') by exact Hidx'.
          rewrite E, E' in *.
          destruct (Z.lt_trichotomy k' k) as [Hlt|[Heq'|Hgt]]; split; nia. }
        destruct Hsame as [Hi ->]. rewrite Hi.
        rewrite slot_key_written by (destruct Hin; lia).
        split; [split; intros; congruence | intros; congruence].
      * assert (E : idx = 2 * BUCKET_SIZE * k) by exact Hidx.
        assert (E' : idx' = 2 * BUCKET_SIZE * k') by exact Hidx'.
        assert (Hneq2 : idx' + 2 * Z.of_nat j0 <> idx + 2 * Z.of_nat j + 1)
          by (rewrite E, E'; lia).
        assert (Hneq3 : idx' + 2 * Z.of_nat j0 + 1 <> idx + 2 * Z.of_nat j)
          by (rewrite E, E'; lia).
        rewrite slot_key_other by (destruct Hin; destruct Hin'; lia).
        rewrite slot_val_other by (destruct Hin; destruct Hin'; lia).
        split; [tauto | reflexivity].
    + intros (j0 & Hj0 & Hk0).
      destruct Hcase as [[Hz _]|[Hh|Hfull]]; [left; exact Hz | right; exact Hh |].
      exfalso. destruct (Hfull j0 Hj0) as [A B]. destruct Hk0; contradiction.
Qed.

Lemma TTProbe_scan_zero (len : nat) (hash : Z) :
  forall (n : nat) (i : Z), 0 <= i -> i + 2 * Z.of_nat n <= Z.of_nat len ->
    TTProbe_scan (replicate len 0) hash n i = Ok NO_ENTRY.
Proof.
  assert (Hget : forall i, 0 <= i < Z.of_nat len -> tt_get (replicate len 0) i = Ok 0).
  { intros i Hi. unfold tt_get. destruct (Z.ltb_spec i 0); [lia|].
    rewrite lookup_replicate_2 by lia. reflexivity. }
  induction n as [|n IH]; intros i Hi Hlen; [reflexivity|].
  cbn [TTProbe_scan]. rewrite !Hget by lia. cbn [mbind Res_bind].
  destruct (0 =? hash); [reflexivity | apply IH; lia].
Qed.

(** X4.  On a table just allocated by [TTInit], or cleared by [TTClear],
    the probe of every hash finds nothing. *)
Theorem TTProbe_after_clear (laws : TTLayoutLaws L) :
  (forall mb t t' hash, TTInit mb t = Ok t' -> TTProbe hash t' = Ok NO_ENTRY) /\
  (forall t hash, 0 <= POWER t ->
     Z.of_nat (length (TRANSPOSITION_ENTRIES t)) = 2 * BUCKET_SIZE * 2 ^ POWER t ->
     TTProbe hash (TTClear t) = Ok NO_ENTRY).
Proof.
  pose proof (bucket_size_pos L laws) as HB.
  assert (Hclear : forall t hash, 0 <= POWER t ->
     Z.of_nat (length (TRANSPOSITION_ENTRIES t)) = 2 * BUCKET_SIZE * 2 ^ POWER t ->
     TTProbe hash (TTClear t) = Ok NO_ENTRY).
  { intros t hash Hp Hlen. unfold TTProbe, TTClear. simpl.
    destruct (TTIdx_bucket L laws (POWER t) hash Hp) as (k & Hk & Hidx).
    apply TTProbe_scan_zero; [nia|]. rewrite Hidx, Hlen. nia. }
  split; [|exact Hclear].
  intros mb t t' hash Hinit.
  destruct (TTInit_inv mb t t' HB Hinit) as [[Hnil|[Hp Hlen]] _].
  - exfalso. unfold TTInit in Hinit.
    apply bind_Ok in Hinit. destruct Hinit as (u & Ha & Hinit).
    apply assert_Ok in Ha. apply andb_prop in Ha as [Ha _].
    apply andb_prop in Ha as [_ Hp]. apply Z.leb_le in Hp.
    inversion Hinit; subst; clear Hinit. simpl in Hnil.
    rewrite length_replicate in Hnil.
    apply (f_equal (@length Z)) in Hnil. rewrite length_replicate in Hnil.
    simpl in Hnil. rewrite Z.shiftl_1_l in Hnil.
    set (power := _ + Z.log2 mb - Z.log2 BUCKET_SIZE - 1) in *.
    pose proof (Z.pow_pos_nonneg 2 power ltac:(lia) Hp) as Hpow.
    replace (2 ^ power * 8 * BUCKET_SIZE * 2) with (2 ^ power * BUCKET_SIZE * 2 * 8)
      in Hnil by lia.
    rewrite Z.div_mul in Hnil by lia. nia.
  - assert (Heq : t' = TTClear t').
    { unfold TTInit in Hinit.
      apply bind_Ok in Hinit. destruct Hinit as (u & _ & Hinit).
      inversion Hinit; subst. unfold TTClear. simpl.
      rewrite !length_replicate. reflexivity. }
    rewrite Heq. apply Hclear; assumption.
Qed.

(** X5.  With a bucket size that is a power of two, [TTInit] allocates
    [2^(20 + log2 mb)] bytes: the whole of [mb] megabytes when [mb] is a
    power of two, and otherwise more than half of them and never more. *)
Theorem TTInit_size (mb b : Z) (t t' : TTState) :
  0 <= b -> BUCKET_SIZE = 2 ^ b ->
  TTInit mb t = Ok t' ->
  POWER t' = 16 + Z.log2 mb - b /\
  SIZE t' = 2 ^ (20 + Z.log2 mb) /\
  Z.of_nat (length (TRANSPOSITION_ENTRIES t')) * 8 = SIZE t' /\
  SIZE t' <= mb * 2 ^ 20 < 2 * SIZE t' /\
  (forall a, mb = 2 ^ a -> 0 <= a -> SIZE t' = mb * 2 ^ 20).
Proof.
  intros Hb HB Hinit. unfold TTInit in Hinit.
  change (Z.log2 (1048576 / 8)) with 17 in Hinit.
  rewrite HB, Z.log2_pow2 in Hinit by lia.
  replace (17 + Z.log2 mb - b - 1) with (16 + Z.log2 mb - b) in Hinit by lia.
  apply bind_Ok in Hinit. destruct Hinit as (u & Ha & Hinit).
  apply assert_Ok in Ha. apply andb_prop in Ha as [Ha Hhi].
  apply andb_prop in Ha as [Hmb Hp]. apply Z.leb_le in Hp, Hmb.
  injection Hinit as Ht. subst t'.
  cbn [POWER SIZE TRANSPOSITION_ENTRIES TTClear].
  assert (Hl : 0 <= Z.log2 mb) by apply Z.log2_nonneg.
  assert (Hsize : Z.shiftl 1 (16 + Z.log2 mb - b) * 8 * 2 ^ b * 2 = 2 ^ (20 + Z.log2 mb)).
  { rewrite Z.shiftl_1_l.
    replace (20 + Z.log2 mb) with ((16 + Z.log2 mb - b) + b + 4) by lia.
    rewrite !Z.pow_add_r by lia. change (2 ^ 4) with 16. lia. }
  rewrite Hsize.
  pose proof (Z.log2_spec mb ltac:(lia)) as [Hlo Hup].
  rewrite Z.pow_succ_r in Hup by lia.
  assert (H20 : 2 ^ (20 + Z.log2 mb) = 2 ^ 20 * 2 ^ Z.log2 mb)
    by (rewrite Z.pow_add_r by lia; reflexivity).
  split; [reflexivity|]. split; [reflexivity|].
  split.
  { rewrite !length_replicate.
    pose proof (Z.pow_pos_nonneg 2 (Z.log2 mb) ltac:(lia) Hl) as Hpos.
    rewrite Z2Nat.id.
    - rewrite H20. change (2 ^ 20) with (131072 * 8).
      rewrite <- Z.mul_assoc, (Z.mul_comm 8), Z.mul_assoc, Z.div_mul by lia. lia.
    - apply Z.div_pos; lia. }
  split; [rewrite H20; lia|].
  intros a Ha0 Hage. subst mb. rewrite Z.log2_pow2 by lia.
  rewrite Z.pow_add_r by lia. lia.
Qed.

(** X6.  An entry stored at one ply and read at another: a mate score
    comes back shifted by the difference of the plies, so that the
    distance to mate below the node is the one stored; any other score
    comes back as it was. *)
Theorem TTScore_across_plies (ok : Z -> Z -> Z -> Prop)
        (score flag depth move eval p p' : Z) :
  fields_roundtrip L ok -> ok flag depth move ->
  INT16_MIN <= adjustedScore score p <= INT16_MAX ->
  INT16_MIN <= eval <= INT16_MAX ->
  0 <= p ->
  let tt := TTEntry (adjustedScore score p) flag depth move eval in
  (score > MATE_BOUND -> TTScore tt p' = score + p - p') /\
  (score < - MATE_BOUND -> TTScore tt p' = score - p + p') /\
  (- MATE_BOUND <= score <= MATE_BOUND -> TTScore tt p' = score).
Proof.
  intros Hrt Hok Hadj Heval Hp tt.
  destruct (Hrt (adjustedScore score p) flag depth move eval Hadj Heval Hok)
    as (Hraw & _).
  fold tt in Hraw. unfold TTScore, TTScore_raw. rewrite Hraw.
  unfold adjustedScore, MATE_BOUND. repeat split; intros Hs; zcases; lia.
Qed.

End TranspositionMore.

Section TranspositionUnique.
Context {L : TTLayout}.

Lemma keys_unique_put (laws : TTLayoutLaws L)
      (hash depth score flag move ply eval : Z) (t t' : TTState) (v : Z) :
  hash <> 0 -> tt_inv t ->
  (forall k j1 j2, 0 <= k -> Z.of_nat j1 < BUCKET_SIZE -> Z.of_nat j2 < BUCKET_SIZE ->
     j1 <> j2 -> slot_key (TRANSPOSITION_ENTRIES t) (2 * BUCKET_SIZE * k) j1 <> 0 ->
     slot_key (TRANSPOSITION_ENTRIES t) (2 * BUCKET_SIZE * k) j1
     <> slot_key (TRANSPOSITION_ENTRIES t) (2 * BUCKET_SIZE * k) j2) ->
  TTPut hash depth score flag move ply eval t = Ok (v, t') ->
  forall k j1 j2, 0 <= k -> Z.of_nat j1 < BUCKET_SIZE -> Z.of_nat j2 < BUCKET_SIZE ->
    j1 <> j2 -> slot_key (TRANSPOSITION_ENTRIES t') (2 * BUCKET_SIZE * k) j1 <> 0 ->
    slot_key (TRANSPOSITION_ENTRIES t') (2 * BUCKET_SIZE * k) j1
    <> slot_key (TRANSPOSITION_ENTRIES t') (2 * BUCKET_SIZE * k) j2.
Proof.
  intros Hh Hinv Huniq Hput.
  pose proof (bucket_size_pos L laws) as HB.
  destruct (decide (TRANSPOSITION_ENTRIES t = [])) as [Hnil|Hne].
  { unfold TTPut in Hput. rewrite Hnil, TTPut_scan_nil in Hput by lia. discriminate Hput. }
  destruct (tt_inv_bucket_in laws t hash Hinv Hne) as (k & Hk & Hidx & Hin).
  destruct (TTPut_shape laws _ _ _ _ _ _ _ _ _ _ Hin Hput)
    as (j & Hj & Hbefore & [(Ht & _)|(HP & HS & Htbl & Hcase)]).
  { subst t'. exact Huniq. }
  destruct Hinv as [_ Hpre].
  set (tbl := TRANSPOSITION_ENTRIES t) in *.
  rewrite Hidx in *. destruct Hin as [Hi0 Hi1].
  (* no slot of the bucket but [j] holds [hash] *)
  assert (Hnohash : forall j', Z.of_nat j' < BUCKET_SIZE -> j' <> j ->
            slot_key tbl (2 * BUCKET_SIZE * k) j' <> hash).
  { intros j' Hj' Hjne. destruct Hcase as [[Hz Hnz]|[Hkey|Hfull]].
    - destruct (Nat.lt_trichotomy j' j) as [Hlt|[Heq|Hgt]]; [|contradiction|].
      + apply Hbefore. exact Hlt.
      + rewrite (Hpre k Hk j j' Hgt Hj' Hz). congruence.
    - rewrite <- Hkey. intros Heq.
      apply (Huniq k j j' Hk Hj Hj'); [congruence | rewrite Hkey; exact Hh |].
      symmetry. exact Heq.
    - apply (Hfull j' Hj'). }
  intros k2 j1 j2 Hk2 Hj1 Hj2 Hne12 Hnz1. rewrite Htbl in *.
  replace (2 * BUCKET_SIZE * k + 2 * Z.of_nat j + 1)
    with ((2 * BUCKET_SIZE * k + 2 * Z.of_nat j) + 1) in * by lia.
  destruct (Z.eq_dec k2 k) as [->|Hk2ne].
  - destruct (Nat.eq_dec j1 j) as [->|Hj1ne].
    + rewrite slot_key_written by lia.
      rewrite slot_key_other by lia.
      intros Heq. apply (Hnohash j2 Hj2); [congruence | symmetry; exact Heq].
    + rewrite slot_key_other in Hnz1 by lia.
      rewrite (slot_key_other _ _ _ _ _ j1) by lia.
      destruct (Nat.eq_dec j2 j) as [->|Hj2ne].
      * rewrite slot_key_written by lia. apply Hnohash; assumption.
      * rewrite slot_key_other by lia. apply Huniq; assumption.
  - assert (Hsep : forall j', Z.of_nat j' < BUCKET_SIZE ->
              2 * BUCKET_SIZE * k2 + 2 * Z.of_nat j'
                <> 2 * BUCKET_SIZE * k + 2 * Z.of_nat j /\
              2 * BUCKET_SIZE * k2 + 2 * Z.of_nat j'
                <> 2 * BUCKET_SIZE * k + 2 * Z.of_nat j + 1).
    { intros j' Hj'. split; nia. }
    destruct (Hsep j1 Hj1) as [A1 B1]. destruct (Hsep j2 Hj2) as [A2 B2].
    rewrite slot_key_other in Hnz1 by (try assumption; nia).
    rewrite !slot_key_other by (try assumption; nia).
    apply Huniq; assumption.
Qed.

(** X7.  After any run of [TTInit], [TTClear] and [TTPut] from the start
    of the program in which no [TTPut] is given hash 0, no bucket holds
    the same hash in two of its slots: a position has at most one entry. *)
Theorem TT_keys_unique (laws : TTLayoutLaws L) (ops : list TTOp) (t : TTState) :
  Forall put_hash_nonzero ops ->
  run_ops ops tt_start = Ok t ->
  forall k j1 j2, 0 <= k -> Z.of_nat j1 < BUCKET_SIZE -> Z.of_nat j2 < BUCKET_SIZE ->
    j1 <> j2 -> slot_key (TRANSPOSITION_ENTRIES t) (2 * BUCKET_SIZE * k) j1 <> 0 ->
    slot_key (TRANSPOSITION_ENTRIES t) (2 * BUCKET_SIZE * k) j1
    <> slot_key (TRANSPOSITION_ENTRIES t) (2 * BUCKET_SIZE * k) j2.
Proof.
  intros Hops. 
  assert (Hgen : forall t0 t1, tt_inv t0 ->
     (forall k j1 j2, 0 <= k -> Z.of_nat j1 < BUCKET_SIZE -> Z.of_nat j2 < BUCKET_SIZE ->
        j1 <> j2 -> slot_key (TRANSPOSITION_ENTRIES t0) (2 * BUCKET_SIZE * k) j1 <> 0 ->
        slot_key (TRANSPOSITION_ENTRIES t0) (2 * BUCKET_SIZE * k) j1
        <> slot_key (TRANSPOSITION_ENTRIES t0) (2 * BUCKET_SIZE * k) j2) ->
     run_ops ops t0 = Ok t1 ->
     forall k j1 j2, 0 <= k -> Z.of_nat j1 < BUCKET_SIZE -> Z.of_nat j2 < BUCKET_SIZE ->
        j1 <> j2 -> slot_key (TRANSPOSITION_ENTRIES t1) (2 * BUCKET_SIZE * k) j1 <> 0 ->
        slot_key (TRANSPOSITION_ENTRIES t1) (2 * BUCKET_SIZE * k) j1
        <> slot_key (TRANSPOSITION_ENTRIES t1) (2 * BUCKET_SIZE * k) j2).
  { induction Hops as [|op ops Hop Hops IH]; intros t0 t1 Hinv Huniq Hrun;
      simpl in Hrun.
    - injection Hrun as <-. exact Huniq.
    - apply bind_Ok in Hrun. destruct Hrun as (t2 & Hstep & Hrest).
      assert (Hzero : forall t3 : TTState,
                (exists n, TRANSPOSITION_ENTRIES t3 = replicate n 0) ->
                forall k j1 j2, 0 <= k -> Z.of_nat j1 < BUCKET_SIZE ->
                  Z.of_nat j2 < BUCKET_SIZE -> j1 <> j2 ->
                  slot_key (TRANSPOSITION_ENTRIES t3) (2 * BUCKET_SIZE * k) j1 <> 0 ->
                  slot_key (TRANSPOSITION_ENTRIES t3) (2 * BUCKET_SIZE * k) j1
                  <> slot_key (TRANSPOSITION_ENTRIES t3) (2 * BUCKET_SIZE * k) j2).
      { intros t3 [n Hn] k j1 j2 _ _ _ _ Hnz. exfalso. apply Hnz.
        rewrite Hn. apply slot_key_replicate. }
      destruct op as [mb| |hash depth score flag move ply eval]; simpl in Hstep.
      + apply (IH t2 t1); [| |exact Hrest].
        * apply (TTInit_inv mb t0 t2); [apply (bucket_size_pos L laws) | exact Hstep].
        * apply Hzero. unfold TTInit in Hstep.
          apply bind_Ok in Hstep. destruct Hstep as (u & _ & Hstep).
          injection Hstep as <-. eexists. reflexivity.
      + injection Hstep as <-. apply (IH (TTClear t0) t1); [| |exact Hrest].
        * apply TTClear_inv. exact Hinv.
        * apply Hzero. eexists. reflexivity.
      + apply bind_Ok in Hstep. destruct Hstep as ([v t3] & Hput & Heq).
        injection Heq as <-.
        apply (IH t3 t1); [| |exact Hrest].
        * apply (TTPut_inv laws hash depth score flag move ply eval t0 t3 v);
            assumption.
        * apply (keys_unique_put laws hash depth score flag move ply eval t0 t3 v);
            assumption. }
  intros Hrun. apply (Hgen tt_start t tt_start_inv); [|exact Hrun].
  intros k j1 j2 _ _ _ _ Hnz. exfalso. apply Hnz. apply (slot_key_replicate 0).
Qed.

End TranspositionUnique.

Section TranspositionFields.
Context {L : TTLayout}.

(** X24.  What a [TTPut] that returns hands back: the entry of the same
    position that it kept, which is deeper than the one offered, and
    this only for a bound that is not exact; or the entry it wrote,
    whose depth, score at the same ply, bound, move and evaluation read
    back as they were given, whatever the layout of the entry. *)
Theorem TTPut_entry_fields (laws : TTLayoutLaws L)
        (hash depth score flag move ply eval : Z) (t t' : TTState) (v : Z) :
  bucket_in (TRANSPOSITION_ENTRIES t) (TTIdx (POWER t) hash) ->
  TTPut hash depth score flag move ply eval t = Ok (v, t') ->
  (t' = t /\ TTDepth v > depth /\ flag <> TT_EXACT) \/
  (v = TTEntry (adjustedScore score ply) flag depth move eval /\
   TTDepth v = depth /\ TTScore v ply = score /\ TTFlag v = flag /\
   TTMove v = move /\ TTEval v = eval /\
   INT16_MIN <= adjustedScore score ply <= INT16_MAX /\
   INT16_MIN <= eval <= INT16_MAX).
Proof.
  intros Hin Hput.
  destruct (TTPut_scan_total laws _ _ hash depth flag Hin) as (r & Hr & Hshape).
  unfold TTPut in Hput. rewrite Hr in Hput. cbn [mbind Res_bind] in Hput.
  destruct r as [v0|s].
  - destruct Hshape as (j & _ & _ & _ & _ & Hd & Hf).
    injection Hput as <- <-. left. split; [reflexivity|]. split; assumption.
  - right.
    assert (Heval : INT16_MIN <= eval <= INT16_MAX).
    { unfold TTPut_store in Hput.
      apply bind_Ok in Hput. destruct Hput as (u1 & _ & Hput).
      apply bind_Ok in Hput. destruct Hput as (u2 & _ & Hput).
      apply bind_Ok in Hput. destruct Hput as (u3 & H3 & Hput).
      apply bind_Ok in Hput. destruct Hput as (u4 & H4 & _).
      apply assert_Ok in H3, H4. unfold INT16_MIN, INT16_MAX in *.
      apply Z.leb_le in H3. apply Z.geb_le in H4. lia. }
    apply TTPut_store_Ok in Hput.
    destruct Hput as (Hv & _ & _ & _ & _ & Hadj & Hd & Hs & Hf & Hm & He).
    repeat split; try (symmetry; assumption); try assumption; try lia.
Qed.

End TranspositionFields.

(** ** Further properties of the search driver *)

Section DriverFacts.
Context {L : TTLayout} {P : Position} {E : Engine}.

Lemma aspiration_start_proper (depth score delta alpha beta : Z) :
  - CHECKMATE <= score <= CHECKMATE ->
  aspiration_start depth score = (delta, alpha, beta) ->
  10 <= delta /\ - CHECKMATE <= alpha < beta /\ beta <= CHECKMATE /\
  alpha <= score <= beta.
Proof.
  intros Hs Hstart. unfold aspiration_start in Hstart.
  injection Hstart as <- <- <-. unfold CHECKMATE in *.
  destruct (depth >=? 5); lia.
Qed.

Lemma aspiration_widen_proper (delta alpha beta s delta' alpha' beta' : Z) :
  1 <= delta -> - CHECKMATE <= alpha < beta -> beta <= CHECKMATE ->
  aspiration_widen delta alpha beta s = Ok (Some (delta', alpha', beta')) ->
  delta <= delta' /\ - CHECKMATE <= alpha' < beta' /\ beta' <= CHECKMATE /\
  alpha' <= alpha /\ delta' <= INT32_MAX.
Proof.
  intros Hd Hw Hb Hwiden.
  apply aspiration_widen_Some in Hwiden.
  destruct Hwiden as (Hd' & Hfit & Hcase). unfold CHECKMATE in *.
  pose proof (Z.quot_rem delta 2 ltac:(lia)) as Hq.
  pose proof (Z.rem_bound_pos delta 2 ltac:(lia) ltac:(lia)) as Hr.
  pose proof (Z.quot_rem (alpha + beta) 2 ltac:(lia)) as Hq2.
  destruct Hcase as [(Hs & _ & Ha' & Hb')|(Hs1 & Hs2 & _ & Ha' & Hb')].
  + subst.
    destruct (Z.le_gt_cases 0 (alpha + beta)) as [Hpos|Hneg].
    * pose proof (Z.rem_bound_pos (alpha + beta) 2 Hpos ltac:(lia)). lia.
    * pose proof (Z.rem_bound_pos_neg (alpha + beta) 2 ltac:(lia) ltac:(lia)). lia.
  + subst. lia.
Qed.

(** X8.  The windows of the aspiration loop are proper as long as delta
    stays an [int]: for a score within the mate scores an iteration
    starts with [-CHECKMATE <= alpha < beta <= CHECKMATE] around the
    score; a widening step from such a window overflows nowhere when
    [delta + delta / 2 <= INT32_MAX], and a step that does not overflow
    keeps such a window, does not raise alpha, and does not shrink
    delta. *)
Theorem aspiration_window_proper (depth score delta alpha beta s : Z) :
  - CHECKMATE <= score <= CHECKMATE ->
  1 <= delta -> - CHECKMATE <= alpha < beta -> beta <= CHECKMATE ->
  (forall delta0 alpha0 beta0,
     aspiration_start depth score = (delta0, alpha0, beta0) ->
     10 <= delta0 /\ - CHECKMATE <= alpha0 < beta0 /\ beta0 <= CHECKMATE /\
     alpha0 <= score <= beta0) /\
  (delta + Z.quot delta 2 <= INT32_MAX ->
   succeeds (aspiration_widen delta alpha beta s) = true) /\
  (forall delta' alpha' beta',
     aspiration_widen delta alpha beta s = Ok (Some (delta', alpha', beta')) ->
     delta <= delta' /\ - CHECKMATE <= alpha' < beta' /\ beta' <= CHECKMATE /\
     alpha' <= alpha /\ delta' <= INT32_MAX).
Proof.
  intros Hs Hd Hw Hb. split; [|split].
  - intros delta0 alpha0 beta0. apply aspiration_start_proper. exact Hs.
  - intros Hfit.
    rewrite (aspiration_widen_Ok _ _ _ _ Hd (proj1 Hw) (proj2 Hw) Hb Hfit).
    destruct (s <=? alpha); [reflexivity|].
    destruct (s >=? beta); reflexivity.
  - intros delta' alpha' beta'. apply aspiration_widen_proper; assumption.
Qed.

Lemma negamax_prune_depth (self self' : Z -> Z -> Z -> State -> Res Result)
      (skip depth beta eval0 ttValue : Z) (st : State) :
  (forall a b d s, 0 <= d -> self a b d s = self' a b d s) ->
  negamax_prune self skip depth beta eval0 ttValue st
  = negamax_prune self' skip depth beta eval0 ttValue st.
Proof.
  intros Hagree. unfold negamax_prune.
  destruct (_ && _ && _); [reflexivity|].
  destruct (_ && _ && _ && _ && _); [|reflexivity].
  rewrite Hagree; [reflexivity|].
  destruct (Z.gtb_spec (3 + Z.quot depth 6 + Z.min (Z.quot (prune_eval ttValue depth eval0 (ply (data st)) - beta) 200) 3) depth); lia.
Qed.

Lemma negamax_singular_depth (self self' : Z -> Z -> Z -> State -> Res Result)
      (fr : Frame) (move : Z) (pv : PV) (st : State) :
  (forall a b d s, 0 <= d -> self a b d s = self' a b d s) ->
  negamax_singular self fr move pv st = negamax_singular self' fr move pv st.
Proof.
  intros Hagree. unfold negamax_singular.
  destruct (singular_candidate fr (ply (data st)) move) eqn:Hc; [|reflexivity].
  rewrite Hagree; [reflexivity|].
  unfold singular_candidate in Hc.
  repeat (apply andb_prop in Hc; destruct Hc as [Hc _]).
  apply Z.geb_le in Hc.
  pose proof (Z.quot_rem (fr_depth fr) 2 ltac:(lia)) as Hq.
  pose proof (Z.rem_bound_pos (fr_depth fr) 2 ltac:(lia) ltac:(lia)) as Hr. lia.
Qed.

Lemma negamax_ladder_depth (self self' : Z -> Z -> Z -> State -> Res Result)
      (fr : Frame) (alpha newDepth R numMoves : Z) (childPv : PV) (st : State) :
  (forall a b d s, 0 <= d -> self a b d s = self' a b d s) ->
  0 <= newDepth - R -> 1 <= newDepth ->
  negamax_ladder self fr alpha newDepth R numMoves childPv st
  = negamax_ladder self' fr alpha newDepth R numMoves childPv st.
Proof.
  intros Hagree HR Hn. unfold negamax_ladder.
  rewrite (Hagree (- alpha - 1) (- alpha) (newDepth - R) st HR).
  destruct (if negb (R =? 1) then _ else _) as [[[score1 cpv1] st1]| |];
    cbn [mbind Res_bind]; try reflexivity.
  rewrite (Hagree (- alpha - 1) (- alpha) (newDepth - 1) st1) by lia.
  destruct (if _ || _ then _ else _) as [[[score2 cpv2] st2]| |];
    cbn [mbind Res_bind]; try reflexivity.
  rewrite (Hagree (- fr_beta fr) (- alpha) (newDepth - 1) st2) by lia.
  reflexivity.
Qed.

(** The reduction of a move is at least 1 and leaves a depth of at least
    1 to the reduced search, whatever the table [LMR] holds. *)
Lemma reduction_bounds (fr : Frame) (numMoves sc : Z) (tactical : bool) :
  1 <= fr_depth fr ->
  1 <= reduction fr numMoves sc tactical <= Z.max 1 (fr_depth fr - 1).
Proof.
  intros Hd. unfold reduction.
  destruct (Z.geb_spec (fr_depth fr) 2); cbn [andb]; [|lia].
  destruct (_ && _); [|lia]. lia.
Qed.

Lemma negamax_loop_depth (self self' : Z -> Z -> Z -> State -> Res Result)
      (fr : Frame) :
  (forall a b d s, 0 <= d -> self a b d s = self' a b d s) ->
  1 <= fr_depth fr ->
  forall k i lp, negamax_loop self fr k i lp = negamax_loop self' fr k i lp.
Proof.
  intros Hagree Hd. induction k as [|k IH]; intros i lp; cbn [negamax_loop].
  - reflexivity.
  - destruct (negb _); [reflexivity|].
    destruct (fr_skipMove fr =? _); [apply IH|].
    destruct (negamax_pruned _ _ _ _ _); [apply IH|].
    rewrite (negamax_singular_depth self self') by exact Hagree.
    destruct (negamax_singular self' _ _ _ _) as [[r|[[se pv1] st1]]| |];
      cbn [mbind Res_bind]; try reflexivity.
    rewrite (negamax_ladder_depth self self').
    + destruct (negamax_ladder self' _ _ _ _ _ _ _) as [[[score cpv] st3]| |];
        cbn [mbind Res_bind]; try reflexivity.
      destruct (is_stopped _); [reflexivity|].
      destruct (_ >? _); [|apply IH].
      destruct (_ >=? _); [reflexivity | apply IH].
    + exact Hagree.
    + match goal with
      | |- context [reduction fr ?n ?sc ?t] =>
          pose proof (reduction_bounds fr n sc t Hd) as HR
      end.
      match goal with
      | |- context [if ?c then fr_depth fr + 1 else _] => destruct c
      end; lia.
    + match goal with
      | |- context [if ?c then fr_depth fr + 1 else _] => destruct c
      end; lia.
Qed.

(** X9.  [negamax] makes no recursive call with a negative depth: from
    a depth that is not negative, its body is the same for any two
    functions in the place of the recursive call that agree on the
    depths from 0 on. *)
Theorem negamax_depth_nonneg (self self' : Z -> Z -> Z -> State -> Res Result)
        (q : Z -> Z -> State -> Res Result) (k : nat)
        (alpha beta depth : Z) (st : State) :
  0 <= depth ->
  (forall a b d s, 0 <= d -> self a b d s = self' a b d s) ->
  negamax_body self q k alpha beta depth st
  = negamax_body self' q k alpha beta depth st.
Proof.
  intros Hd Hagree. unfold negamax_body.
  destruct (Z.eqb_spec depth 0) as [Hz|Hnz]; [reflexivity|].
  destruct (negamax_window _ _ _ _) as [r|[alpha' beta']]; [reflexivity|].
  unfold negamax_node.
  destruct (if negb _ then _ else _) as [ttValue| |]; cbn [mbind Res_bind];
    try reflexivity.
  destruct (negamax_tt_cutoff _ _ _ _ _); [reflexivity|].
  unfold negamax_search.
  destruct (assert _); cbn [mbind Res_bind]; try reflexivity.
  rewrite (negamax_prune_depth self self') by exact Hagree.
  destruct (if _ && _ then _ else _) as [[r|[childPv st1]]| |];
    cbn [mbind Res_bind]; try reflexivity.
  rewrite (negamax_loop_depth self self') by (try exact Hagree; cbn; lia).
  reflexivity.
Qed.

(** X10.  The mate distance of an info line.  A score of [CHECKMATE - p],
    the mate given [p] plies from the root, is printed as mate in
    [(p + 1) / 2] moves; a score of [-CHECKMATE + p] is printed as mate
    in minus [p / 2 - p mod 2] moves, which is [p / 2] for the even [p]
    of a side that is mated; any score within [MATE_BOUND] is printed in
    centipawns. *)
Theorem printInfo_mate_distance (p : Z) :
  0 <= p < CHECKMATE - MATE_BOUND ->
  printInfo_score (CHECKMATE - p) = ScoreMate ((p + 1) / 2) /\
  printInfo_score (- CHECKMATE + p) = ScoreMated (p / 2 - p mod 2) /\
  (p mod 2 = 0 -> printInfo_score (- CHECKMATE + p) = ScoreMated (p / 2)) /\
  (forall s, - MATE_BOUND <= s <= MATE_BOUND -> printInfo_score s = ScoreCp s).
Proof.
  intros Hp.
  assert (Hland : forall x, 0 <= x -> Z.land x 1 = x mod 2).
  { intros x Hx. change 1 with (Z.ones 1). rewrite Z.land_ones by lia. reflexivity. }
  assert (Hquot : forall x, 0 <= x -> Z.quot x 2 = x / 2).
  { intros x Hx. apply Z.quot_div_nonneg; lia. }
  assert (H1 : printInfo_score (CHECKMATE - p) = ScoreMate ((p + 1) / 2)).
  { unfold printInfo_score. unfold CHECKMATE, MATE_BOUND in *.
    zcases; try lia.
    replace (32767 - (32767 - p)) with p by lia.
    rewrite Hland, Hquot by lia. f_equal.
    pose proof (Z.div_mod p 2 ltac:(lia)). pose proof (Z.mod_pos_bound p 2 ltac:(lia)).
    pose proof (Z.div_mod (p + 1) 2 ltac:(lia)).
    pose proof (Z.mod_pos_bound (p + 1) 2 ltac:(lia)). lia. }
  assert (H2 : printInfo_score (- CHECKMATE + p) = ScoreMated (p / 2 - p mod 2)).
  { unfold printInfo_score. unfold CHECKMATE, MATE_BOUND in *.
    zcases; try lia.
    replace (32767 + (- (32767) + p)) with p by lia.
    replace (32767 - (- (32767) + p)) with (- p + 32767 * 2) by lia.
    rewrite Hland, Hquot by lia. rewrite Z.mod_add by lia.
    f_equal. f_equal.
    pose proof (Z.div_mod p 2 ltac:(lia)). pose proof (Z.mod_pos_bound p 2 ltac:(lia)).
    pose proof (Z.div_mod (- p) 2 ltac:(lia)).
    pose proof (Z.mod_pos_bound (- p) 2 ltac:(lia)). lia. }
  split; [exact H1|]. split; [exact H2|]. split.
  - intros Heven. rewrite H2, Heven. f_equal. lia.
  - intros s Hs. unfold printInfo_score. unfold MATE_BOUND in *.
    zcases; try lia. reflexivity.
Qed.

End DriverFacts.

(** ** eval.c: game phase and tapered scores *)

Section EvalFacts.
Context {T : EvalTerms}.

(** X11.  [taper] interpolates: at phase 0 it is the middlegame score, at
    phase 256 the endgame score, and for a phase in between it lies
    between the two. *)
Theorem taper_between (score phase : Z) :
  0 <= phase <= 256 ->
  Z.min (scoreMG score) (scoreEG score) <= taper score phase
    <= Z.max (scoreMG score) (scoreEG score) /\
  taper score 0 = scoreMG score /\
  taper score 256 = scoreEG score.
Proof.
  intros Hp. unfold taper.
  set (mg := scoreMG score). set (eg := scoreEG score).
  split; [|split].
  - set (x := mg * (256 - phase) + eg * phase).
    assert (Hlo : 256 * Z.min mg eg <= x) by (unfold x; nia).
    assert (Hhi : x <= 256 * Z.max mg eg) by (unfold x; nia).
    pose proof (Z.quot_rem x 256 ltac:(lia)) as Hq.
    destruct (Z.le_gt_cases 0 x) as [Hpos|Hneg].
    + pose proof (Z.rem_bound_pos x 256 Hpos ltac:(lia)). lia.
    + pose proof (Z.rem_bound_pos_neg x 256 ltac:(lia) ltac:(lia)). lia.
  - replace (mg * (256 - 0) + eg * 0) with (mg * 256) by lia.
    apply Z.quot_mul. lia.
  - replace (mg * (256 - 256) + eg * 256) with (eg * 256) by lia.
    apply Z.quot_mul. lia.
Qed.

Lemma getPhase_loop_acc (pieces : Z -> Z) :
  forall n i acc, getPhase_loop n i pieces acc = acc + getPhase_loop n i pieces 0.
Proof.
  induction n as [|n IH]; intros i acc; cbn [getPhase_loop]; [lia|].
  rewrite (IH (i + 1) (acc + _)), (IH (i + 1) (0 + _)). lia.
Qed.

(** X12.  [getPhase] is defined as long as the knights and bishops, the
    rooks counted twice and the queens four times number at most 24, the
    material at the start of a game; it is then a phase between 0 and
    256, 0 with all of that material on the board and 256 with none of
    it, and it does not grow when material is added. *)
Theorem getPhase_range (pieces : Z -> Z) :
  (forall bb, 0 <= bits bb) ->
  let material :=
    bits (pieces 2) + bits (pieces 3) + bits (pieces 4) + bits (pieces 5)
    + 2 * (bits (pieces 6) + bits (pieces 7))
    + 4 * (bits (pieces 8) + bits (pieces 9)) in
  (material <= 24 ->
   exists phase, getPhase pieces = Ok phase /\ 0 <= phase <= 256 /\
     phase = (256 * (24 - material) + 12) / 24 /\
     (material = 24 -> phase = 0) /\ (material = 0 -> phase = 256)) /\
  (24 < material -> getPhase pieces = Abort).
Proof.
  intros Hbits material.
  assert (Hloop : getPhase_loop 8 2 pieces 0 = material).
  { cbn [getPhase_loop]. unfold material.
    change (2 + 1) with 3. change (3 + 1) with 4. change (4 + 1) with 5.
    change (5 + 1) with 6. change (6 + 1) with 7. change (7 + 1) with 8.
    change (8 + 1) with 9.
    change (phaseMultipliers 2) with 1. change (phaseMultipliers 3) with 1.
    change (phaseMultipliers 4) with 1. change (phaseMultipliers 5) with 1.
    change (phaseMultipliers 6) with 2. change (phaseMultipliers 7) with 2.
    change (phaseMultipliers 8) with 4. change (phaseMultipliers 9) with 4.
    lia. }
  assert (Hmat : 0 <= material).
  { unfold material.
    pose proof (Hbits (pieces 2)). pose proof (Hbits (pieces 3)).
    pose proof (Hbits (pieces 4)). pose proof (Hbits (pieces 5)).
    pose proof (Hbits (pieces 6)). pose proof (Hbits (pieces 7)).
    pose proof (Hbits (pieces 8)). pose proof (Hbits (pieces 9)). lia. }
  unfold getPhase. rewrite Hloop. unfold MAX_PHASE.
  change (Z.quot 24 2) with 12. clearbody material.
  split.
  - intros Hle. destruct (Z.leb_spec 0 (24 - material)); [|lia].
    cbn [assert mbind Res_bind].
    rewrite Z.shiftl_mul_pow2 by lia. change (2 ^ 8) with 256.
    rewrite Z.quot_div_nonneg by lia.
    replace ((24 - material) * 256 + 12) with (256 * (24 - material) + 12) by lia.
    eexists. split; [reflexivity|].
    pose proof (Z.div_mod (256 * (24 - material) + 12) 24 ltac:(lia)) as Hdm.
    pose proof (Z.mod_pos_bound (256 * (24 - material) + 12) 24 ltac:(lia)) as Hm.
    split; [lia|]. split; [reflexivity|].
    split; intros ->; reflexivity.
  - intros Hgt. destruct (Z.leb_spec 0 (24 - material)); [lia | reflexivity].
Qed.

End EvalFacts.

(** ** perft.c *)

Section PerftFacts.
Context {P : Position} {E : Engine}.

Lemma set_board_undo (laws : PositionLaws) (d : SearchData) (m : Z) :
  let d1 := set_board d (makeMove m (board d)) in
  set_board d1 (undoMove m (board d1)) = d.
Proof.
  destruct d. cbn. rewrite (undo_make laws). reflexivity.
Qed.

Lemma leaves_from_nonneg (lv : SearchData -> Z) (ml : MoveList) (d : SearchData) :
  (forall x, 0 <= lv x) ->
  forall n i, 0 <= leaves_from lv n i ml d.
Proof.
  intros Hlv. induction n as [|n IH]; intros i; cbn [leaves_from]; [lia|].
  specialize (IH (i + 1)).
  specialize (Hlv (set_board d (makeMove (ml_move ml i) (board d)))). lia.
Qed.

Lemma leaves_nonneg (n : nat) : forall d, 0 <= leaves n d.
Proof.
  induction n as [|n IH]; intros d; cbn [leaves]; [lia|].
  apply leaves_from_nonneg. exact IH.
Qed.

Lemma leaves_from_ones (ml : MoveList) (d : SearchData) :
  forall n i, leaves_from (fun _ => 1) n i ml d = Z.of_nat n.
Proof.
  induction n as [|n IH]; intros i; cbn [leaves_from]; [reflexivity|].
  rewrite IH. lia.
Qed.

(** The loop of [perft] adds up what the recursive call counts, and
    brings the board back. *)
Lemma perft_loop_partial (laws : PositionLaws)
      (self : Z -> SearchData -> Res (Z * SearchData)) (lv : SearchData -> Z)
      (ml : MoveList) (depth : Z) (d : SearchData) :
  (forall x r x', self (depth - 1) x = Ok (r, x') -> r = lv x /\ x' = x) ->
  forall n i nodes r d',
    perft_loop self n i ml depth nodes d = Ok (r, d') ->
    r = nodes + leaves_from lv n i ml d /\ d' = d.
Proof.
  intros Hself. induction n as [|n IH]; intros i nodes r d' Hrun;
    cbn [perft_loop leaves_from] in *.
  - injection Hrun as <- <-. split; [lia | reflexivity].
  - apply bind_Ok in Hrun. destruct Hrun as (u & _ & Hrun).
    apply bind_Ok in Hrun. destruct Hrun as ([r1 d1] & Hchild & Hrun).
    apply bind_Ok in Hrun. destruct Hrun as (u2 & _ & Hrun).
    destruct (Hself _ _ _ Hchild) as [-> ->].
    rewrite (set_board_undo laws) in Hrun.
    destruct (IH _ _ _ _ Hrun) as [-> ->]. split; [lia | reflexivity].
Qed.

Lemma perft_partial (laws : PositionLaws) :
  (forall d, 0 <= ml_count (generateMoves d)) ->
  forall fuel n d r d',
    perft fuel (Z.of_nat n) d = Ok (r, d') -> r = leaves n d /\ d' = d.
Proof.
  intros Hcount. induction fuel as [|f IH]; intros n d r d' Hrun;
    [discriminate Hrun|].
  cbn [perft] in Hrun.
  destruct n as [|[|n]].
  - injection Hrun as <- <-. split; reflexivity.
  - change (Z.of_nat 1 =? 0) with false in Hrun.
    change (Z.of_nat 1 =? 1) with true in Hrun. cbn iota in Hrun.
    injection Hrun as <- <-. split; [|reflexivity].
    cbn [leaves]. rewrite leaves_from_ones. specialize (Hcount d). lia.
  - destruct (Z.eqb_spec (Z.of_nat (S (S n))) 0); [lia|].
    destruct (Z.eqb_spec (Z.of_nat (S (S n))) 1); [lia|].
    apply (perft_loop_partial laws (perft f) (leaves (S n))) in Hrun.
    + destruct Hrun as [-> ->]. split; [|reflexivity]. cbn [leaves]. lia.
    + intros x r0 x' Hx.
      replace (Z.of_nat (S (S n)) - 1) with (Z.of_nat (S n)) in Hx by lia.
      apply (IH _ _ _ _ Hx).
Qed.

Lemma perft_loop_total (laws : PositionLaws)
      (self : Z -> SearchData -> Res (Z * SearchData)) (lv : SearchData -> Z)
      (ml : MoveList) (depth : Z) (d : SearchData) :
  INT32_MIN < depth -> (forall x, 0 <= lv x) ->
  (forall x, lv x <= INT64_MAX -> self (depth - 1) x = Ok (lv x, x)) ->
  forall n i nodes,
    0 <= nodes -> nodes + leaves_from lv n i ml d <= INT64_MAX ->
    perft_loop self n i ml depth nodes d
    = Ok (nodes + leaves_from lv n i ml d, d).
Proof.
  intros Hd Hlv Hself. induction n as [|n IH]; intros i nodes Hn Hmax;
    cbn [perft_loop leaves_from] in *.
  - f_equal. f_equal. lia.
  - destruct (Z.ltb_spec INT32_MIN depth); [|lia]. cbn [assert mbind Res_bind].
    pose proof (leaves_from_nonneg lv ml d Hlv n (i + 1)) as Hrest.
    pose proof (Hlv (set_board d (makeMove (ml_move ml i) (board d)))) as Hhere.
    rewrite Hself by lia. cbn [mbind Res_bind].
    unfold INT64_MIN, INT64_MAX in *.
    destruct (Z.leb_spec (-9223372036854775808)
                (nodes + lv (set_board d (makeMove (ml_move ml i) (board d)))));
      [|lia].
    destruct (Z.leb_spec
                (nodes + lv (set_board d (makeMove (ml_move ml i) (board d))))
                9223372036854775807); [|lia].
    cbn [andb assert mbind Res_bind].
    rewrite (set_board_undo laws). rewrite IH by lia. f_equal. f_equal. lia.
Qed.

Lemma perft_total (laws : PositionLaws) :
  (forall d, 0 <= ml_count (generateMoves d)) ->
  forall n fuel d, (n < fuel)%nat -> leaves n d <= INT64_MAX ->
    perft fuel (Z.of_nat n) d = Ok (leaves n d, d).
Proof.
  intros Hcount. induction n as [|n IH]; intros fuel d Hf Hmax;
    (destruct fuel as [|f]; [lia|]); cbn [perft].
  - reflexivity.
  - destruct (Z.eqb_spec (Z.of_nat (S n)) 0); [lia|].
    destruct (Z.eqb_spec (Z.of_nat (S n)) 1) as [H1|H1].
    + assert (n = O) by lia. subst n. cbn [leaves].
      rewrite leaves_from_ones. specialize (Hcount d).
      f_equal. f_equal. lia.
    + cbn [leaves] in *.
      rewrite (perft_loop_total laws (perft f) (leaves n)).
      * reflexivity.
      * unfold INT32_MIN. lia.
      * apply leaves_nonneg.
      * intros x Hx. replace (Z.of_nat (S n) - 1) with (Z.of_nat n) by lia.
        apply IH; [lia | exact Hx].
      * lia.
      * lia.
Qed.

(** X13.  With [undoMove] undoing [makeMove] and move lists whose count
    is not negative, [perft] counts the sequences of moves: what it
    returns at depth [n] is the number of sequences of [n] moves from
    the position, and the board is as before; it does return that
    number when it fits 64 bits. *)
Theorem perft_counts_leaves (laws : PositionLaws) :
  (forall d, 0 <= ml_count (generateMoves d)) ->
  (forall fuel n d r d',
     perft fuel (Z.of_nat n) d = Ok (r, d') -> r = leaves n d /\ d' = d) /\
  (forall n fuel d, (n < fuel)%nat -> leaves n d <= INT64_MAX ->
     perft fuel (Z.of_nat n) d = Ok (leaves n d, d)).
Proof.
  intros Hcount. split.
  - apply (perft_partial laws Hcount).
  - apply (perft_total laws Hcount).
Qed.

Lemma PerftTest_loop_partial (laws : PositionLaws) (fuel m : nat)
      (ml : MoveList) (d : SearchData) :
  (forall d, 0 <= ml_count (generateMoves d)) ->
  forall n i total lines r lines' d',
    PerftTest_loop fuel n i ml (Z.of_nat (S m)) total lines d = Ok (r, lines', d') ->
    r = total + leaves_from (leaves m) n i ml d /\ d' = d /\
    exists new, lines' = new ++ lines /\ length new = n /\
      r = total + fold_right (fun l acc => snd l + acc) 0 new /\
      forall j, (j < n)%nat ->
        fst (nth j (rev new) (0, 0)) = ml_move ml (i + Z.of_nat j).
Proof.
  intros Hcount. induction n as [|n IH]; intros i total lines r lines' d' Hrun;
    cbn [PerftTest_loop leaves_from] in *.
  - injection Hrun as <- <- <-. split; [lia|]. split; [reflexivity|].
    exists []. cbn. repeat split; [lia|]. intros j Hj. lia.
  - apply bind_Ok in Hrun. destruct Hrun as (u & _ & Hrun).
    apply bind_Ok in Hrun. destruct Hrun as ([r1 d1] & Hchild & Hrun).
    apply bind_Ok in Hrun. destruct Hrun as (u2 & _ & Hrun).
    replace (Z.of_nat (S m) - 1) with (Z.of_nat m) in Hchild by lia.
    destruct (perft_partial laws Hcount _ _ _ _ _ Hchild) as [-> ->].
    rewrite (set_board_undo laws) in Hrun.
    destruct (IH _ _ _ _ _ _ Hrun) as (-> & -> & new & -> & Hlen & Hsum & Hmoves).
    split; [lia|]. split; [reflexivity|].
    exists (new ++ [(ml_move ml i,
                     leaves m (set_board d (makeMove (ml_move ml i) (board d))))]).
    split; [rewrite <- app_assoc; reflexivity|].
    split; [rewrite length_app; cbn; lia|].
    split.
    + rewrite fold_right_app. cbn [fold_right snd].
      assert (Hfold : forall (l : list (Z * Z)) a,
                fold_right (fun l acc => snd l + acc) a l
                = a + fold_right (fun l acc => snd l + acc) 0 l).
      { induction l as [|x l IHl]; intros a; cbn; [lia|]. rewrite IHl. lia. }
      rewrite Hfold. lia.
    + intros j Hj. rewrite rev_app_distr. cbn [rev app].
      destruct j as [|j]; cbn [nth fst].
      * f_equal. lia.
      * rewrite (Hmoves j) by lia. f_equal. lia.
Qed.

(** X14.  [PerftTest] at a depth of at least 1: the total it prints is
    the number of sequences of [depth] moves from the board, it is the
    sum of the counts of the lines, and there is one line for each move
    of the list, in the order of the list. *)
Theorem PerftTest_total (laws : PositionLaws) (fuel m : nat) (b : Board)
        (d0 : SearchData) (duration total : Z) (lines : list (Z * Z)) :
  (forall d, 0 <= ml_count (generateMoves d)) ->
  PerftTest fuel (Z.of_nat (S m)) b d0 duration = Ok (total, lines) ->
  let d := set_ply (set_board d0 b) 0 in
  total = leaves (S m) d /\
  total = fold_right (fun l acc => snd l + acc) 0 lines /\
  Z.of_nat (length lines) = ml_count (generateMoves d) /\
  (forall j, (j < length lines)%nat ->
     fst (nth j lines (0, 0)) = ml_move (generateMoves d) (Z.of_nat j)) /\
  duration <> 0.
Proof.
  intros Hcount Hrun d. unfold PerftTest in Hrun. fold d in Hrun.
  apply bind_Ok in Hrun. destruct Hrun as ([[t l] d'] & Hloop & Hrun).
  apply bind_Ok in Hrun. destruct Hrun as (u & Ha & Hrun).
  injection Hrun as <- <-.
  apply assert_Ok in Ha. apply andb_prop in Ha as [_ Hdur].
  destruct (PerftTest_loop_partial laws fuel m _ d Hcount _ _ _ _ _ _ _ Hloop)
    as (Ht & _ & new & Hl & Hlen & Hsum & Hmoves).
  rewrite app_nil_r in Hl. subst l.
  split; [cbn [leaves]; lia|].
  split.
  { rewrite Hsum. rewrite Z.add_0_l.
    assert (Hrev : forall (l : list (Z * Z)),
              fold_right (fun l acc => snd l + acc) 0 (rev l)
              = fold_right (fun l acc => snd l + acc) 0 l).
    { induction l as [|x l IHl]; cbn; [reflexivity|].
      rewrite fold_right_app. cbn.
      assert (Hfold : forall (l : list (Z * Z)) a,
                fold_right (fun l acc => snd l + acc) a l
                = a + fold_right (fun l acc => snd l + acc) 0 l).
      { clear. induction l as [|y l IHl]; intros a; cbn; [lia|]. rewrite IHl. lia. }
      rewrite Hfold, IHl. lia. }
    rewrite Hrev. reflexivity. }
  split.
  { rewrite length_rev, Hlen. specialize (Hcount d). lia. }
  split.
  { intros j Hj. rewrite length_rev, Hlen in Hj.
    rewrite (Hmoves j Hj). f_equal. }
  destruct (Z.eqb_spec duration 0); [discriminate Hdur | assumption].
Qed.

(** X15.  With a move in every position, [perft] at a negative depth
    does not return, whatever the fuel, and so [PerftTest] at depth 0,
    which calls it at depth -1, prints no total. *)
Theorem perft_negative_depth :
  (forall d, 0 < ml_count (generateMoves d)) ->
  (forall fuel depth d, depth < 0 -> succeeds (perft fuel depth d) = false) /\
  (forall fuel b d0 duration, succeeds (PerftTest fuel 0 b d0 duration) = false).
Proof.
  intros Hmove.
  assert (Hneg : forall fuel depth d, depth < 0 ->
            succeeds (perft fuel depth d) = false).
  { induction fuel as [|f IH]; intros depth d Hd; [reflexivity|].
    cbn [perft].
    destruct (Z.eqb_spec depth 0) as [H0|H0]; [lia|].
    destruct (Z.eqb_spec depth 1) as [H1|H1]; [lia|].
    specialize (Hmove d).
    destruct (Z.to_nat (ml_count (generateMoves d))) as [|n] eqn:Hn; [lia|].
    cbn [perft_loop].
    destruct (assert (INT32_MIN <? depth)); cbn [mbind Res_bind]; try reflexivity.
    specialize (IH (depth - 1)
                   (set_board d (makeMove (ml_move (generateMoves d) 0) (board d)))
                   ltac:(lia)).
    destruct (perft f (depth - 1) _) as [[r d1]| |]; [discriminate IH | |];
      reflexivity. }
  split; [exact Hneg|].
  intros fuel b d0 duration. unfold PerftTest.
  pose proof (Hmove (set_ply (set_board d0 b) 0)) as Hm.
  destruct (Z.to_nat (ml_count (generateMoves (set_ply (set_board d0 b) 0))))
    as [|n] eqn:Hn; [lia|].
  cbn [PerftTest_loop]. cbn [assert mbind Res_bind].
  change (INT32_MIN <? 0) with true. cbn [assert mbind Res_bind].
  match goal with
  | |- context [perft fuel (0 - 1) ?x] =>
      pose proof (Hneg fuel (0 - 1) x ltac:(lia)) as Hp;
      destruct (perft fuel (0 - 1) x) as [[r d1]| |]
  end; [discriminate Hp | |]; reflexivity.
Qed.

End PerftFacts.

(** ** The driver of the search *)

Section SearchDriver.
Context {L : TTLayout} {P : Position} {E : Engine}.

Lemma TTClear_table_ok (t : TTState) : table_ok t -> table_ok (TTClear t).
Proof.
  intros (Hp & Hlen & _). unfold table_ok, TTClear. cbn.
  split; [exact Hp|]. split; [rewrite length_replicate; exact Hlen|].
  intros n v _ Hv. apply lookup_replicate in Hv as [-> _]. left. reflexivity.
Qed.

Lemma aspiration_loop_bounds (laws : SearchLaws) (fuel : nat) :
  forall k depth delta alpha beta score pv st r pv' st',
    search_inv st -> ply (data st) = 0 ->
    1 <= delta -> - CHECKMATE <= alpha < beta -> beta <= CHECKMATE ->
    - CHECKMATE <= score <= CHECKMATE ->
    aspiration_loop fuel k depth delta alpha beta score pv st = Ok (r, pv', st') ->
    search_inv st' /\ ply (data st') = 0 /\ - CHECKMATE <= r <= CHECKMATE.
Proof.
  pose proof (MAX_DEPTH_ok laws) as HM.
  induction k as [|k IH];
    intros depth delta alpha beta score pv st r pv' st' Hinv Hp Hd Hw Hb Hs Hrun;
    cbn [aspiration_loop] in Hrun;
    (destruct (is_stopped st);
     [injection Hrun as <- <- <-; split; [exact Hinv|]; split; [exact Hp | exact Hs] |]);
    [discriminate Hrun|].
  apply bind_Ok in Hrun. destruct Hrun as ([[s pv1] st1] & Hn & Hrun).
  destruct (negamax_bounds laws fuel alpha beta depth st s pv1 st1 Hinv)
    as (Hinv1 & (Hp1 & _) & Hs1 & _); [lia | lia | intros _; lia | exact Hn |].
  rewrite Hp in *. replace (CHECKMATE - 0) with CHECKMATE in Hs1 by lia.
  apply bind_Ok in Hrun. destruct Hrun as (w & Hwid & Hrun).
  destruct w as [[[d' a'] b']|].
  - destruct (aspiration_widen_proper _ _ _ _ _ _ _ Hd Hw Hb Hwid)
      as (Hd' & Hw' & Hb' & _).
    assert (Hd1 : 1 <= d') by lia.
    apply (IH _ _ _ _ _ _ _ _ _ _ Hinv1 Hp1 Hd1 Hw' Hb' Hs1 Hrun).
  - injection Hrun as <- <- <-.
    split; [|split; [exact Hp1 | exact Hs1]].
    destruct Hinv1 as [H1 H2]. split; assumption.
Qed.

Lemma deepening_loop_bounds (laws : SearchLaws) (fuel : nat) :
  forall k depth score pv st r pv' st',
    search_inv st -> ply (data st) = 0 -> - CHECKMATE <= score <= CHECKMATE ->
    deepening_loop fuel k depth score pv st = Ok (r, pv', st') ->
    search_inv st' /\ ply (data st') = 0 /\ - CHECKMATE <= r <= CHECKMATE.
Proof.
  induction k as [|k IH]; intros depth score pv st r pv' st' Hinv Hp Hs Hrun;
    cbn [deepening_loop] in Hrun;
    (destruct (negb _);
     [injection Hrun as <- <- <-; split; [exact Hinv|]; split; [exact Hp | exact Hs] |]);
    [discriminate Hrun|].
  destruct (aspiration_start depth score) as [[delta alpha] beta] eqn:Hstart.
  destruct (aspiration_start_proper _ _ _ _ _ Hs Hstart) as (Hd & Hw & Hb & _).
  apply bind_Ok in Hrun. destruct Hrun as ([[s pv1] st1] & Ha & Hrun).
  assert (Hd1 : 1 <= delta) by lia.
  destruct (aspiration_loop_bounds laws fuel _ _ _ _ _ _ _ _ _ _ _
              Hinv Hp Hd1 Hw Hb Hs Ha) as (Hinv1 & Hp1 & Hs1).
  apply (IH _ _ _ _ _ _ _ Hinv1 Hp1 Hs1 Hrun).
Qed.

(** X16.  On a table that is allocated, a [Search] that returns leaves a
    score between [-CHECKMATE] and [CHECKMATE] in the search data,
    together with the move of the entry the table holds for the root,
    and the ply at 0. *)
Theorem Search_score_range (laws : SearchLaws) (fuel : nat) (st st' : State) :
  table_ok (table st) ->
  Search fuel st = Ok st' ->
  - CHECKMATE <= data_score (data st') <= CHECKMATE /\
  ply (data st') = 0 /\
  table_ok (table st') /\
  exists entry,
    TTProbe (zobrist (board (data st'))) (table st') = Ok entry /\
    data_bestMove (data st') = TTMove entry.
Proof.
  intros Htab Hrun. unfold Search in Hrun.
  pose proof (MAX_DEPTH_ok laws) as HM.
  set (st0 := set_data (set_table st (TTClear (table st))) (initSearchData (data st)))
    in Hrun.
  assert (Hinv0 : search_inv st0).
  { split; [apply TTClear_table_ok; exact Htab|].
    intros j. cbn. unfold aget. rewrite lookup_empty.
    unfold eval_ok, MATE_BOUND. cbn. lia. }
  apply bind_Ok in Hrun. destruct Hrun as ([[s pv1] st1] & Hn & Hrun).
  destruct (negamax_bounds laws fuel (- CHECKMATE) CHECKMATE 1 st0 s pv1 st1 Hinv0)
    as (Hinv1 & (Hp1 & _) & Hs1 & _);
    [cbn; lia | cbn; unfold CHECKMATE; lia | intros _; unfold CHECKMATE; lia
     | exact Hn |].
  change (ply (data st0)) with 0 in *.
  replace (CHECKMATE - 0) with CHECKMATE in Hs1 by lia.
  apply bind_Ok in Hrun. destruct Hrun as ([[s2 pv2] st2] & Hd & Hrun).
  assert (Hinv1' : search_inv (log st1 (EvInfo 1 s pv1))).
  { destruct Hinv1 as [H1 H2]. split; assumption. }
  destruct (deepening_loop_bounds laws fuel _ _ _ _ (log st1 (EvInfo 1 s pv1))
              _ _ _ Hinv1' Hp1 Hs1 Hd)
    as (Hinv2 & Hp2 & Hs2).
  apply bind_Ok in Hrun. destruct Hrun as (entry & Hprobe & Hrun).
  injection Hrun as <-. cbn.
  split; [exact Hs2|]. split; [exact Hp2|]. split; [apply Hinv2|].
  exists entry. split; [exact Hprobe | reflexivity].
Qed.

(** X23.  On a table whose entries are in range, with evaluations
    within [MATE_BOUND] and at a ply between 0 and [MAX_DEPTH], [quiesce]
    returns a score between [-CHECKMATE + ply] and [CHECKMATE - ply], and
    leaves the table and the recorded evaluations in range. *)
Theorem quiesce_score_range (laws : SearchLaws) (fuel : nat) (alpha beta : Z)
        (st : State) (r : Z) (pv : PV) (st' : State) :
  search_inv st -> 0 <= ply (data st) <= MAX_DEPTH ->
  quiesce fuel alpha beta st = Ok (r, pv, st') ->
  - CHECKMATE + ply (data st) <= r <= CHECKMATE - ply (data st) /\
  search_inv st'.
Proof.
  intros Hinv Hp Hrun.
  destruct (quiesce_bounds laws fuel alpha beta st r pv st' Hinv Hp Hrun)
    as (Hinv' & _ & Hr).
  split; [exact Hr | exact Hinv'].
Qed.

Lemma info_depths_app (l1 l2 : list Event) :
  info_depths (l1 ++ l2) = info_depths l1 ++ info_depths l2.
Proof.
  induction l1 as [|e l1 IH]; [reflexivity|].
  destruct e; cbn; rewrite IH; reflexivity.
Qed.

Lemma info_depths_puts (l : list Event) : Forall is_put l -> info_depths l = [].
Proof.
  induction 1 as [|e l He _ IH]; [reflexivity|].
  destruct e; cbn in *; [exact IH | contradiction | contradiction].
Qed.

Lemma puts_no_bestmove (l : list Event) :
  Forall is_put l -> Forall (fun e => forall m, e <> EvBestMove m) l.
Proof.
  intros H. eapply Forall_impl; [exact H|].
  intros e He m ->. exact He.
Qed.

Lemma negamax_puts (fuel : nat) (alpha beta depth : Z) (st : State)
      (r : Z) (pv : PV) (st' : State) :
  negamax fuel alpha beta depth st = Ok (r, pv, st') ->
  exists new, trace st' = new ++ trace st /\ Forall is_put new.
Proof.
  intros Hrun.
  assert (Hspec : spec_n is_put (negamax fuel)).
  { apply (negamax_trace is_put False).
    - intros. exact I.
    - intros []. }
  apply (Hspec _ _ _ _ _ _ _ Hrun).
Qed.

Lemma depths_from_S (c : Z) (n : nat) :
  map (fun i => c + Z.of_nat i) (seq 0 (S n))
  = c :: map (fun i => (c + 1) + Z.of_nat i) (seq 0 n).
Proof.
  cbn [seq map]. f_equal; [lia|].
  rewrite <- seq_shift, map_map. apply map_ext. intros i. lia.
Qed.

Lemma aspiration_loop_info (fuel : nat) :
  forall k depth delta alpha beta score pv st r pv' st',
    aspiration_loop fuel k depth delta alpha beta score pv st = Ok (r, pv', st') ->
    exists new, trace st' = new ++ trace st /\
      Forall (fun e => forall m, e <> EvBestMove m) new /\
      ((info_depths new = [] /\ is_stopped st' = true) \/
       info_depths new = [depth]).
Proof.
  induction k as [|k IH]; intros depth delta alpha beta score pv st r pv' st' Hrun;
    cbn [aspiration_loop] in Hrun;
    (destruct (is_stopped st) eqn:Hstop;
     [injection Hrun as <- <- <-; exists []; split; [reflexivity|];
      split; [constructor|]; left; split; [reflexivity | exact Hstop] |]);
    [discriminate Hrun|].
  apply bind_Ok in Hrun. destruct Hrun as ([[s pv1] st1] & Hn & Hrun).
  destruct (negamax_puts _ _ _ _ _ _ _ _ Hn) as (new1 & Htr1 & Hputs).
  apply bind_Ok in Hrun. destruct Hrun as (w & _ & Hrun).
  destruct w as [[[d' a'] b']|].
  - destruct (IH _ _ _ _ _ _ _ _ _ _ Hrun) as (new2 & Htr2 & Hnb & Hinfo).
    exists (new2 ++ new1). split; [rewrite Htr2, Htr1; apply app_assoc|].
    split; [apply Forall_app; split; [exact Hnb | apply puts_no_bestmove; exact Hputs]|].
    rewrite info_depths_app, (info_depths_puts new1 Hputs), app_nil_r. exact Hinfo.
  - injection Hrun as <- <- <-. exists (EvInfo depth s pv1 :: new1).
    split; [cbn; rewrite Htr1; reflexivity|].
    split.
    + constructor; [intros m; discriminate | apply puts_no_bestmove; exact Hputs].
    + right. cbn. rewrite (info_depths_puts new1 Hputs). reflexivity.
Qed.

Lemma deepening_loop_stopped (fuel k : nat) (depth score : Z) (pv : PV) (st : State) :
  is_stopped st = true ->
  deepening_loop fuel k depth score pv st = Ok (score, pv, st).
Proof.
  intros Hs. destruct k; cbn [deepening_loop]; rewrite Hs, andb_false_r; reflexivity.
Qed.

Lemma deepening_loop_info (fuel : nat) :
  forall k depth score pv st r pv' st',
    deepening_loop fuel k depth score pv st = Ok (r, pv', st') ->
    exists new n, trace st' = new ++ trace st /\
      Forall (fun e => forall m, e <> EvBestMove m) new /\
      rev (info_depths new) = map (fun i => depth + Z.of_nat i) (seq 0 n).
Proof.
  induction k as [|k IH]; intros depth score pv st r pv' st' Hrun;
    cbn [deepening_loop] in Hrun;
    (destruct (negb _);
     [injection Hrun as <- <- <-; exists [], O; split; [reflexivity|];
      split; [constructor | reflexivity] |]);
    [discriminate Hrun|].
  destruct (aspiration_start depth score) as [[delta alpha] beta].
  apply bind_Ok in Hrun. destruct Hrun as ([[s pv1] st1] & Ha & Hrun).
  destruct (aspiration_loop_info fuel _ _ _ _ _ _ _ _ _ _ _ Ha)
    as (new1 & Htr1 & Hnb1 & [[Hinfo Hstop]|Hinfo]).
  - rewrite (deepening_loop_stopped _ _ _ _ _ _ Hstop) in Hrun.
    injection Hrun as <- <- <-. exists new1, O.
    split; [exact Htr1|]. split; [exact Hnb1|]. rewrite Hinfo. reflexivity.
  - destruct (IH _ _ _ _ _ _ _ Hrun) as (new2 & n & Htr2 & Hnb2 & Hinfo2).
    exists (new2 ++ new1), (S n).
    split; [rewrite Htr2, Htr1; apply app_assoc|].
    split; [apply Forall_app; split; assumption|].
    rewrite info_depths_app, rev_app_distr, Hinfo, Hinfo2, depths_from_S.
    reflexivity.
Qed.

(** X17.  The lines of a [Search] that returns: info lines for the
    depths 1, 2, ..., n in this order, one for each, and then the one
    bestmove line, with the move left in the search data. *)
Theorem Search_info_lines (fuel : nat) (st st' : State) :
  Search fuel st = Ok st' ->
  exists new n,
    trace st' = EvBestMove (data_bestMove (data st')) :: new ++ trace st /\
    Forall (fun e => forall m, e <> EvBestMove m) new /\
    rev (info_depths new) = map (fun i => 1 + Z.of_nat i) (seq 0 (S n)).
Proof.
  intros Hrun. unfold Search in Hrun.
  apply bind_Ok in Hrun. destruct Hrun as ([[s pv1] st1] & Hn & Hrun).
  destruct (negamax_puts _ _ _ _ _ _ _ _ Hn) as (new0 & Htr0 & Hputs).
  apply bind_Ok in Hrun. destruct Hrun as ([[s2 pv2] st2] & Hd & Hrun).
  destruct (deepening_loop_info fuel _ _ _ _ _ _ _ _ Hd)
    as (new2 & n & Htr2 & Hnb2 & Hinfo2).
  apply bind_Ok in Hrun. destruct Hrun as (entry & _ & Hrun).
  pose proof (depths_from_S 1 n) as Hshape.
  injection Hrun as <-. cbn.
  exists (new2 ++ EvInfo 1 s pv1 :: new0), n.
  split.
  { rewrite Htr2. cbn. rewrite Htr0. cbn. rewrite <- app_assoc. reflexivity. }
  split.
  { apply Forall_app. split; [exact Hnb2|].
    constructor; [intros m; discriminate | apply puts_no_bestmove; exact Hputs]. }
  rewrite info_depths_app. cbn [info_depths].
  rewrite (info_depths_puts new0 Hputs), rev_app_distr. cbn [rev app].
  rewrite Hinfo2. symmetry. etransitivity; [exact Hshape | reflexivity].
Qed.

End SearchDriver.

Section MatedRoot.
Context {L : TTLayout} {P : Position} {E : Engine}.

(** At a root in check and without moves, on a table that holds nothing
    for it, [negamax] at a depth other than 0 returns [-CHECKMATE]. *)
Lemma negamax_mated_root (f : nat) (alpha beta depth : Z) (st : State) :
  checkers (board (data st)) <> 0 ->
  (forall d, board d = board (data st) -> ml_count (generateMoves d) = 0) ->
  ply (data st) = 0 ->
  TTProbe (zobrist (board (data st))) (table st) = Ok NO_ENTRY ->
  depth <> 0 ->
  exists st1,
    negamax (S f) alpha beta depth st = Ok (- CHECKMATE, [], st1) /\
    board (data st1) = board (data st) /\ ply (data st1) = 0 /\
    table st1 = table st /\ trace st1 = trace st.
Proof.
  intros Hc Hmoves Hp Hprobe Hd.
  cbn [negamax]. unfold negamax_body.
  destruct (Z.eqb_spec depth 0) as [Hz|_]; [contradiction|].
  rewrite Hp. cbn [Z.eqb]. unfold negamax_window, negamax_node, negamax_search.
  rewrite data_poll, table_poll.
  cbn [count_node data set_data board set_counts table ply].
  rewrite Hprobe.
  assert (Htt : (if negb (aget (skipMove (data st)) 0 =? 0)
                 then Ok NO_ENTRY else Ok NO_ENTRY) = Ok NO_ENTRY)
    by (destruct (negb _); reflexivity).
  rewrite Htt. cbn [mbind Res_bind].
  unfold negamax_tt_cutoff, static_eval, NO_ENTRY. cbn [Z.eqb].
  rewrite Z.eqb_refl. cbn [assert mbind Res_bind].
  destruct (Z.eqb_spec (checkers (board (data st))) 0) as [Hz|_]; [contradiction|].
  rewrite andb_false_r. cbn [mbind Res_bind].
  match goal with
  | |- context [negamax_loop ?self ?fr f 0 ?lp] =>
      assert (Hloop : negamax_loop self fr f 0 lp = Ok (Next lp))
  end.
  { destruct f; cbn [negamax_loop lp_ml]; rewrite Hmoves by reflexivity;
      reflexivity. }
  rewrite Hloop. cbn [mbind Res_bind]. unfold negamax_finish. cbn [lp_ml lp_st lp_pv].
  rewrite Hmoves by reflexivity. cbn [Z.eqb].
  rewrite ?data_poll.
  cbn [data set_data board set_killers set_skipMove set_evals set_counts ply].
  destruct (Z.eqb_spec (checkers (board (data st))) 0) as [Hz|_]; [contradiction|].
  cbn [negb]. rewrite Hp. replace (- CHECKMATE + 0) with (- CHECKMATE) by lia.
  eexists. split; [reflexivity|].
  cbn [data set_data board set_killers set_skipMove set_evals set_counts ply
       table trace].
  rewrite ?table_poll, ?trace_poll. cbn. repeat split. exact Hp.
Qed.

Lemma delta_fits_next (delta : Z) (k : nat) :
  0 <= delta -> delta_fits delta (S k) ->
  0 <= delta + Z.quot delta 2 /\ delta_fits (delta + Z.quot delta 2) k.
Proof.
  unfold delta_fits. intros Hd Hfit.
  pose proof (Z.quot_rem delta 2 ltac:(lia)) as Hq.
  pose proof (Z.rem_bound_pos delta 2 Hd ltac:(lia)) as Hr.
  split; [lia|].
  rewrite Nat2Z.inj_succ, !Z.pow_succ_r in Hfit by lia.
  pose proof (Z.pow_pos_nonneg 3 (Z.of_nat k) ltac:(lia) ltac:(lia)) as H3.
  pose proof (Z.pow_pos_nonneg 2 (Z.of_nat k) ltac:(lia) ltac:(lia)) as H2.
  assert (H : 2 * ((delta + Z.quot delta 2) * 3 ^ Z.of_nat k)
              <= 2 * ((INT32_MAX - CHECKMATE) * 2 ^ Z.of_nat k)); [|lia].
  assert (H' : 2 * (delta + Z.quot delta 2) <= 3 * delta) by lia.
  nia.
Qed.

(** X18.  At a root that is in check and has no move, on a table that
    holds nothing for it, the aspiration loop does not end with a score
    inside the window: [negamax] answers [-CHECKMATE], which is a fail-low
    for every window, and the loop goes on until the stop flag is set.
    This holds through the widenings for which delta stays an [int]. *)
Theorem aspiration_mated_root (fuel : nat) :
  forall k depth delta alpha beta score pv st r pv' st',
    checkers (board (data st)) <> 0 ->
    (forall d, board d = board (data st) -> ml_count (generateMoves d) = 0) ->
    ply (data st) = 0 ->
    TTProbe (zobrist (board (data st))) (table st) = Ok NO_ENTRY ->
    depth <> 0 -> - CHECKMATE <= alpha -> 0 <= delta -> delta_fits delta k ->
    aspiration_loop fuel k depth delta alpha beta score pv st = Ok (r, pv', st') ->
    is_stopped st' = true /\ trace st' = trace st.
Proof.
  induction k as [|k IH];
    intros depth delta alpha beta score pv st r pv' st'
           Hc Hmoves Hp Hprobe Hd Ha Hdl Hfit Hrun;
    cbn [aspiration_loop] in Hrun;
    (destruct (is_stopped st) eqn:Hstop;
     [injection Hrun as <- <- <-; split; [exact Hstop | reflexivity] |]);
    [discriminate Hrun|].
  destruct fuel as [|f]; [discriminate Hrun|].
  destruct (negamax_mated_root f alpha beta depth st Hc Hmoves Hp Hprobe Hd)
    as (st1 & Hn & Hb1 & Hp1 & Ht1 & Htr1).
  rewrite Hn in Hrun. cbn [mbind Res_bind] in Hrun.
  apply bind_Ok in Hrun. destruct Hrun as (w & Hw & Hrun).
  unfold aspiration_widen in Hw.
  destruct (Z.leb_spec (- CHECKMATE) alpha) as [_|Hlt]; [|lia].
  apply bind_Ok in Hw. destruct Hw as (u1 & _ & Hw).
  apply bind_Ok in Hw. destruct Hw as (u2 & _ & Hw).
  apply bind_Ok in Hw. destruct Hw as (u3 & _ & Hw).
  injection Hw as <-.
  destruct (delta_fits_next delta k Hdl Hfit) as [Hdl' Hfit'].
  apply IH in Hrun.
  - destruct Hrun as [Hs Htr]. split; [exact Hs | rewrite Htr; exact Htr1].
  - rewrite Hb1. exact Hc.
  - intros d Hbd. apply Hmoves. rewrite Hbd. exact Hb1.
  - exact Hp1.
  - rewrite Hb1, Ht1. exact Hprobe.
  - exact Hd.
  - unfold CHECKMATE. lia.
  - exact Hdl'.
  - exact Hfit'.
Qed.

End MatedRoot.

(** ** What a call of the search leaves of the search data *)

Section WalkInduction.
Context {L : TTLayout} {P : Position} {E : Engine}.
Hypothesis HM : 1 <= MAX_DEPTH.

Lemma walk_refl (st : State) : walk st st.
Proof. unfold walk. repeat split; try lia. Qed.

Lemma walk_trans (st1 st2 st3 : State) : walk st1 st2 -> walk st2 st3 -> walk st1 st3.
Proof.
  intros (A1 & A2 & A4 & A5 & A6) (B1 & B2 & B4 & B5 & B6).
  unfold walk. rewrite B1, A1.
  split; [reflexivity|].
  split; [intros laws; rewrite (B2 laws); apply (A2 laws)|].
  repeat split; try lia.
  intros j Hj. rewrite B6 by lia. apply A6. exact Hj.
Qed.

Lemma walk_same (st st' : State) : same_pos (data st) (data st') -> walk st st'.
Proof.
  intros (A1 & A2 & _ & A4 & A5). unfold walk. rewrite A1, A2, A4, A5.
  repeat split; try lia.
Qed.

Lemma walk_in_trans (st0 st1 st2 : State) :
  walk_in st0 st1 -> walk st1 st2 -> walk_in st0 st2.
Proof.
  intros (W & S) W2. split; [apply (walk_trans _ _ _ W W2)|].
  destruct W2 as (_ & _ & B4 & _). lia.
Qed.

Lemma same_pos_refl (d : SearchData) : same_pos d d.
Proof. repeat split. Qed.

Lemma same_pos_poll (st : State) : same_pos (data st) (data (poll st)).
Proof. rewrite data_poll. apply same_pos_refl. Qed.

(** The count of a node. *)
Lemma walk_count (st : State) : walk_in st (count_node st).
Proof. unfold walk_in, walk, count_node. cbn. repeat split; try lia. Qed.

(** A call one ply deeper, between a make and an unmake. *)
Lemma walk_child (move : Z) (st st1 : State) :
  ply (data st) <= MAX_DEPTH - 1 ->
  walk (push_move move st) st1 -> walk st (pop_move move st1).
Proof.
  intros Hp (A1 & A2 & A4 & A5 & A6). unfold walk, push_move, pop_move in *.
  cbn in *. rewrite A1.
  split; [lia|].
  split; [intros laws; rewrite (A2 laws); apply (undo_make laws)|].
  repeat split; try lia.
  intros j Hj. rewrite A6 by lia. unfold aget, aset.
  rewrite lookup_insert_ne by lia. reflexivity.
Qed.

Lemma walk_null (st st1 : State) :
  ply (data st) <= MAX_DEPTH - 1 ->
  walk (push_null st) st1 -> walk st (pop_null st1).
Proof.
  intros Hp (A1 & A2 & A4 & A5 & A6). unfold walk, push_null, pop_null in *.
  cbn in *. rewrite A1.
  split; [lia|].
  split; [intros laws; rewrite (A2 laws); apply (undo_null laws)|].
  repeat split; try lia.
  intros j Hj. rewrite A6 by lia. unfold aget, aset.
  rewrite lookup_insert_ne by lia. reflexivity.
Qed.

Lemma walk_skip (m m' : Z) (st st1 : State) :
  walk (set_skip m st) st1 -> walk st (set_skip m' st1).
Proof. intros H. exact H. Qed.

Lemma walk_ret_nil (st0 st : State) (r : Z) :
  walk_in st0 st -> walk_ret st0 (r, [], st).
Proof. intros H. split; [exact H | cbn; lia]. Qed.

Lemma walk_ret_pv (st0 st : State) (r : Z) (pv : PV) :
  walk_in st0 st -> Z.of_nat (length pv) <= MAX_DEPTH - ply (data st0) ->
  walk_ret st0 (r, pv, st).
Proof. intros H Hl. split; [exact H | lia]. Qed.

Lemma quiesce_loop_walk (self : Z -> Z -> State -> Res Result) (st0 : State) :
  walk_q self -> ply (data st0) <= MAX_DEPTH - 1 ->
  forall k i ml eval alpha beta bestScore pv st res,
    walk_in st0 st ->
    Z.of_nat (length pv) <= MAX_DEPTH - ply (data st0) ->
    quiesce_loop self k i ml eval alpha beta bestScore pv st = Ok res ->
    walk_ret st0 res.
Proof.
  intros Hself Hp. induction k as [|k IH];
    intros i ml eval alpha beta bestScore pv st res Hin Hpv Hrun;
    cbn [quiesce_loop] in Hrun;
    destruct (negb (i <? ml_count ml));
    try (injection Hrun as <-; apply walk_ret_pv; assumption);
    try discriminate Hrun.
  apply bind_Ok in Hrun. destruct Hrun as (u & _ & Hrun).
  destruct (quiesce_skip _ _ _ _); [apply (IH _ _ _ _ _ _ _ _ _ Hin Hpv Hrun)|].
  destruct (ml_score _ _ <? 0);
    [injection Hrun as <-; apply walk_ret_pv; assumption|].
  apply bind_Ok in Hrun. destruct Hrun as ([[r1 cpv] st1] & Hchild & Hrun).
  set (move := ml_move (bubbleTopMove ml i) i) in *.
  assert (Hply : ply (data st) = ply (data st0)) by apply Hin.
  apply Hself in Hchild. destruct Hchild as [Hin1 Hcpv].
  replace (ply (data (push_move move st))) with (ply (data st0) + 1) in Hcpv
    by (cbn; lia).
  assert (Hin4 : walk_in st0 (pop_move move st1)).
  { apply (walk_in_trans _ _ _ Hin). apply walk_child; [lia | apply Hin1]. }
  destruct (is_stopped _);
    [injection Hrun as <-; apply walk_ret_pv; assumption|].
  assert (Hpv' : Z.of_nat (length (if - r1 >? alpha then move :: cpv else pv))
                 <= MAX_DEPTH - ply (data st0)).
  { destruct (- r1 >? alpha); [cbn [length]; lia | exact Hpv]. }
  destruct (- r1 >? bestScore).
  - destruct (_ >=? beta);
      [injection Hrun as <-; apply walk_ret_pv; assumption|].
    apply (IH _ _ _ _ _ _ _ _ _ Hin4 Hpv' Hrun).
  - apply (IH _ _ _ _ _ _ _ _ _ Hin4 Hpv Hrun).
Qed.

Lemma quiesce_body_walk (self : Z -> Z -> State -> Res Result) (k : nat) :
  walk_q self -> walk_q (quiesce_body self k).
Proof.
  intros Hself alpha beta st res Hrun. unfold quiesce_body in Hrun.
  pose proof (walk_count st) as Hc.
  destruct (_ || _ || _).
  { injection Hrun as <-. apply walk_ret_nil. exact Hc. }
  cbn [count_node data set_data set_counts ply] in Hrun.
  destruct (Z.gtb_spec (ply (data st)) (MAX_DEPTH - 1)) as [Hgt|Hle].
  { injection Hrun as <-. apply walk_ret_nil. exact Hc. }
  apply bind_Ok in Hrun. destruct Hrun as (ttValue & _ & Hrun).
  assert (Hc1 : walk_in st (poll (count_node st))).
  { apply (walk_in_trans _ _ _ Hc). apply walk_same. apply same_pos_poll. }
  destruct (quiesce_tt_cutoff _ _ _ _).
  { injection Hrun as <-. apply walk_ret_nil. exact Hc1. }
  match type of Hrun with
  | context [set_data ?s ?d] =>
      assert (Hc2 : walk_in st (set_data s d));
      [apply (walk_in_trans _ _ _ Hc1); apply walk_same; repeat split|]
  end.
  destruct (_ >=? beta).
  { injection Hrun as <-. apply walk_ret_nil. exact Hc2. }
  apply (quiesce_loop_walk self st Hself Hle) in Hrun;
    [exact Hrun | exact Hc2 | cbn; lia].
Qed.

Lemma quiesce_walk (fuel : nat) : walk_q (quiesce fuel).
Proof.
  induction fuel as [|f IH]; [intros alpha beta st res H; discriminate H|].
  apply quiesce_body_walk. exact IH.
Qed.

Lemma same_pos_trans (d1 d2 d3 : SearchData) :
  same_pos d1 d2 -> same_pos d2 d3 -> same_pos d1 d3.
Proof.
  intros (A1 & A2 & A3 & A4 & A5) (B1 & B2 & B3 & B4 & B5).
  unfold same_pos. rewrite B1, B2, B3, B4, B5. repeat split; assumption.
Qed.

Lemma bf_loop_pos (n : nat) (j : Z) (ml : MoveList) (depth : Z) (d : SearchData) :
  same_pos d (bf_loop n j ml depth d).
Proof.
  revert j d. induction n as [|n IH]; intros j d; cbn [bf_loop];
    [apply same_pos_refl|].
  apply (same_pos_trans d
           (if moveCapture (ml_move ml j) || negb (movePromo (ml_move ml j) =? 0)
            then d else addBFHeuristic d (ml_move ml j) depth)); [|apply IH].
  destruct (_ || _); repeat split.
Qed.

Lemma beta_cutoff_pos (fr : Frame) (ml : MoveList) (i move : Z) (tactical : bool)
      (st : State) :
  same_pos (data st) (data (beta_cutoff fr ml i move tactical st)).
Proof.
  unfold beta_cutoff. cbn [data set_data].
  match goal with
  | |- context [bf_loop ?n ?j ?m ?dp ?d] =>
      apply (same_pos_trans (data st) d); [|apply bf_loop_pos]
  end.
  destruct tactical; [apply same_pos_refl|].
  unfold addHistoryHeuristic, addCounter, addKiller.
  destruct (aget (killers (data st)) (2 * ply (data st)) =? move); repeat split.
Qed.

Lemma negamax_prune_walk (self : Z -> Z -> Z -> State -> Res Result)
      (skip depth beta eval0 ttValue : Z) (st : State) (c : Ctl (PV * State)) :
  walk_n self -> ply (data st) <= MAX_DEPTH - 1 ->
  negamax_prune self skip depth beta eval0 ttValue st = Ok c ->
  match c with
  | Return (_, pv, st') =>
      walk st st' /\ Z.of_nat (length pv) <= MAX_DEPTH - ply (data st)
  | Next (cpv, st') =>
      walk st st' /\ Z.of_nat (length cpv) <= MAX_DEPTH - ply (data st) - 1
  end.
Proof.
  intros Hself Hp Hrun. unfold negamax_prune in Hrun.
  destruct (_ && _ && _);
    [injection Hrun as <-; split; [apply walk_refl | cbn; lia]|].
  destruct (_ && _ && _ && _ && _);
    [|injection Hrun as <-; split; [apply walk_refl | cbn; lia]].
  apply bind_Ok in Hrun. destruct Hrun as ([[r1 cpv] st1] & Hchild & Hrun).
  apply Hself in Hchild. destruct Hchild as [[Hw _] Hcpv].
  replace (ply (data (push_null st))) with (ply (data st) + 1) in Hcpv by (cbn; lia).
  apply walk_null in Hw; [|exact Hp].
  destruct (is_stopped _); [injection Hrun as <-; split; [exact Hw | cbn; lia]|].
  destruct (_ >=? beta); injection Hrun as <-;
    (split; [exact Hw | cbn; lia]).
Qed.

Lemma negamax_singular_walk (self : Z -> Z -> Z -> State -> Res Result)
      (fr : Frame) (move : Z) (pv : PV) (st : State) (c : Ctl (bool * PV * State)) :
  walk_n self -> ply (data st) <= MAX_DEPTH ->
  Z.of_nat (length pv) <= MAX_DEPTH - ply (data st) ->
  negamax_singular self fr move pv st = Ok c ->
  match c with
  | Return (_, pv', st') =>
      walk st st' /\ Z.of_nat (length pv') <= MAX_DEPTH - ply (data st)
  | Next (_, pv', st') =>
      walk st st' /\ Z.of_nat (length pv') <= MAX_DEPTH - ply (data st)
  end.
Proof.
  intros Hself Hp Hpv Hrun. unfold negamax_singular in Hrun.
  destruct (singular_candidate _ _ _);
    [|injection Hrun as <-; split; [apply walk_refl | exact Hpv]].
  apply bind_Ok in Hrun. destruct Hrun as ([[r1 pv1] st1] & Hchild & Hrun).
  apply Hself in Hchild. destruct Hchild as [[Hw _] Hpv1].
  change (ply (data (set_skip move st))) with (ply (data st)) in Hpv1.
  apply (walk_skip move NULL_MOVE) in Hw.
  assert (Hpv2 : Z.of_nat (length pv1) <= MAX_DEPTH - ply (data st)) by lia.
  destruct (r1 <? _); [injection Hrun as <-; split; assumption|].
  destruct (_ >=? _); injection Hrun as <-; split; assumption.
Qed.

Lemma negamax_ladder_walk (self : Z -> Z -> Z -> State -> Res Result)
      (fr : Frame) (alpha newDepth R numMoves : Z) (childPv : PV) (st : State)
      (r : Z) (pv' : PV) (st' : State) :
  walk_n self -> ply (data st) <= MAX_DEPTH ->
  Z.of_nat (length childPv) <= MAX_DEPTH - ply (data st) ->
  negamax_ladder self fr alpha newDepth R numMoves childPv st = Ok (r, pv', st') ->
  walk st st' /\ Z.of_nat (length pv') <= MAX_DEPTH - ply (data st).
Proof.
  intros Hself Hp Hcpv Hrun. unfold negamax_ladder in Hrun.
  apply bind_Ok in Hrun. destruct Hrun as ([[s1 c1] st1] & H1 & Hrun).
  assert (G1 : walk st st1 /\ Z.of_nat (length c1) <= MAX_DEPTH - ply (data st)).
  { destruct (negb (R =? 1)).
    - apply bind_Ok in H1. destruct H1 as ([[r1 c] s] & Hc & H1).
      injection H1 as <- <- <-. apply Hself in Hc.
      destruct Hc as [[Hw _] Hl]. split; [exact Hw | lia].
    - injection H1 as <- <- <-. split; [apply walk_refl | exact Hcpv]. }
  destruct G1 as [W1 L1].
  assert (P1 : ply (data st1) = ply (data st)) by apply W1.
  apply bind_Ok in Hrun. destruct Hrun as ([[s2 c2] st2] & H2 & Hrun).
  assert (G2 : walk st st2 /\ Z.of_nat (length c2) <= MAX_DEPTH - ply (data st)).
  { destruct (_ || _).
    - apply bind_Ok in H2. destruct H2 as ([[r2 c] s] & Hc & H2).
      injection H2 as <- <- <-. apply Hself in Hc.
      destruct Hc as [[Hw _] Hl]. rewrite P1 in Hl.
      split; [apply (walk_trans _ _ _ W1 Hw) | lia].
    - injection H2 as <- <- <-. split; assumption. }
  destruct G2 as [W2 L2].
  assert (P2 : ply (data st2) = ply (data st)) by apply W2.
  cbn beta iota in Hrun.
  destruct (isPV fr && _).
  - apply bind_Ok in Hrun. destruct Hrun as ([[r3 c] s] & Hc & Hrun).
    injection Hrun as <- <- <-. apply Hself in Hc.
    destruct Hc as [[Hw _] Hl]. rewrite P2 in Hl.
    split; [apply (walk_trans _ _ _ W2 Hw) | lia].
  - injection Hrun as <- <- <-. split; assumption.
Qed.

Lemma negamax_loop_walk (self : Z -> Z -> Z -> State -> Res Result)
      (fr : Frame) (st0 : State) :
  walk_n self -> ply (data st0) <= MAX_DEPTH - 1 ->
  forall k i lp c,
    walk_inv st0 lp ->
    negamax_loop self fr k i lp = Ok c ->
    match c with
    | Return res => walk_ret st0 res
    | Next lp' => walk_inv st0 lp'
    end.
Proof.
  intros Hself Hp. induction k as [|k IH]; intros i lp c Hinv Hrun;
    cbn [negamax_loop] in Hrun;
    destruct (negb (i <? ml_count (lp_ml lp)));
    try (injection Hrun as <-; exact Hinv); try discriminate Hrun.
  destruct Hinv as (Hin & Hpv & Hcpv).
  set (ml := bubbleTopMove (lp_ml lp) i) in *.
  set (move := ml_move ml i) in *.
  assert (Hply : ply (data (lp_st lp)) = ply (data st0)) by apply Hin.
  destruct (fr_skipMove fr =? move).
  { refine (IH _ _ _ _ Hrun). split; [exact Hin|]. split; assumption. }
  destruct (negamax_pruned fr _ _ _ move).
  { refine (IH _ _ _ _ Hrun). split; [exact Hin|]. split; assumption. }
  apply bind_Ok in Hrun. destruct Hrun as (sing & Hsing & Hrun).
  apply negamax_singular_walk in Hsing;
    [|exact Hself | rewrite Hply; lia | rewrite Hply; exact Hpv].
  rewrite Hply in Hsing.
  destruct sing as [[[r0 pv0] st0']|[[se pv1] st1]].
  { injection Hrun as <-. destruct Hsing as [Hw Hl].
    apply walk_ret_pv; [apply (walk_in_trans _ _ _ Hin Hw) | exact Hl]. }
  destruct Hsing as [Hw1 Hpv1].
  assert (Hin1 : walk_in st0 st1) by apply (walk_in_trans _ _ _ Hin Hw1).
  assert (Hply1 : ply (data st1) = ply (data st0)) by apply Hin1.
  apply bind_Ok in Hrun. destruct Hrun as ([[score cpv] st3] & Hlad & Hrun).
  apply negamax_ladder_walk in Hlad;
    [|exact Hself | cbn; lia | cbn; lia].
  destruct Hlad as [Hw3 Hcpv3].
  replace (ply (data (push_move move st1))) with (ply (data st0) + 1) in Hcpv3
    by (cbn; lia).
  assert (Hin4 : walk_in st0 (pop_move move st3)).
  { apply (walk_in_trans _ _ _ Hin1). apply walk_child; [lia | exact Hw3]. }
  destruct (is_stopped _);
    [injection Hrun as <-; apply walk_ret_pv; [exact Hin4 | exact Hpv1]|].
  assert (Hpv' : Z.of_nat (length (if score >? lp_alpha lp then move :: cpv else pv1))
                 <= MAX_DEPTH - ply (data st0)).
  { destruct (score >? lp_alpha lp); [cbn [length]; lia | exact Hpv1]. }
  destruct (score >? lp_bestScore lp).
  - destruct (_ >=? fr_beta fr).
    + injection Hrun as <-. unfold walk_inv. cbn [lp_st lp_pv lp_childPv].
      split; [|split; [exact Hpv' | lia]].
      apply (walk_in_trans _ _ _ Hin4). apply walk_same. apply beta_cutoff_pos.
    + refine (IH _ _ _ _ Hrun). unfold walk_inv. cbn [lp_st lp_pv lp_childPv].
      split; [exact Hin4|]. split; [exact Hpv' | lia].
  - refine (IH _ _ _ _ Hrun). unfold walk_inv. cbn [lp_st lp_pv lp_childPv].
    split; [exact Hin4|]. split; [exact Hpv1 | lia].
Qed.

Lemma negamax_finish_walk (fr : Frame) (st0 : State) (lp : Loop) (res : Result) :
  walk_inv st0 lp -> negamax_finish fr lp = Ok res -> walk_ret st0 res.
Proof.
  intros (Hin & Hpv & _) Hrun. unfold negamax_finish in Hrun.
  destruct (ml_count (lp_ml lp) =? 0);
    [injection Hrun as <-; apply walk_ret_pv; assumption|].
  apply bind_Ok in Hrun. destruct Hrun as (st1 & Hput & Hrun).
  apply bind_Ok in Hrun. destruct Hrun as (u1 & _ & Hrun).
  apply bind_Ok in Hrun. destruct Hrun as (u2 & _ & Hrun).
  injection Hrun as <-. apply walk_ret_pv; [|exact Hpv].
  apply (walk_in_trans _ _ _ Hin). apply walk_same.
  destruct (fr_skipMove fr =? 0).
  - apply bind_Ok in Hput. destruct Hput as ([v t] & _ & Heq).
    injection Heq as <-. apply same_pos_refl.
  - injection Hput as <-. apply same_pos_refl.
Qed.

Lemma negamax_node_walk (self : Z -> Z -> Z -> State -> Res Result) (k : nat)
      (pvNode root : bool) (alpha0 skip depth alpha beta : Z) (st0 st : State)
      (res : Result) :
  walk_n self -> ply (data st0) <= MAX_DEPTH - 1 ->
  walk_in st0 st ->
  negamax_node self k pvNode root alpha0 skip depth alpha beta st = Ok res ->
  walk_ret st0 res.
Proof.
  intros Hself Hp Hin Hrun. unfold negamax_node, negamax_search in Hrun.
  assert (Hply : ply (data st) = ply (data st0)) by apply Hin.
  apply bind_Ok in Hrun. destruct Hrun as (ttValue & _ & Hrun).
  destruct (negamax_tt_cutoff _ _ _ _ _).
  { injection Hrun as <-. apply walk_ret_nil. exact Hin. }
  apply bind_Ok in Hrun. destruct Hrun as (u & _ & Hrun).
  apply bind_Ok in Hrun. destruct Hrun as (pr & Hprune & Hrun).
  match type of Hprune with
  | context [set_data st ?d] =>
      assert (Hin1 : walk_in st0 (set_data st d));
      [apply (walk_in_trans _ _ _ Hin); apply walk_same; repeat split|];
      set (st1 := set_data st d) in *
  end.
  assert (Hply1 : ply (data st1) = ply (data st0)) by apply Hin1.
  assert (Hpr : match pr with
                | Return (_, pv, st') =>
                    walk st1 st' /\ Z.of_nat (length pv) <= MAX_DEPTH - ply (data st0)
                | Next (cpv, st') =>
                    walk st1 st' /\
                    Z.of_nat (length cpv) <= MAX_DEPTH - ply (data st0) - 1
                end).
  { destruct (negb pvNode && _).
    - apply negamax_prune_walk in Hprune; [|exact Hself | rewrite Hply1; exact Hp].
      rewrite Hply1 in Hprune. exact Hprune.
    - injection Hprune as <-. split; [apply walk_refl | cbn; lia]. }
  destruct pr as [[[r0 pv0] st0']|[childPv st2]].
  { injection Hrun as <-. destruct Hpr as [Hw Hl].
    apply walk_ret_pv; [apply (walk_in_trans _ _ _ Hin1 Hw) | exact Hl]. }
  destruct Hpr as [Hw2 Hcpv].
  apply bind_Ok in Hrun. destruct Hrun as (lp & Hloop & Hrun).
  apply (negamax_loop_walk self _ st0 Hself Hp) in Hloop.
  - destruct lp as [r1|lp'].
    + injection Hrun as <-. exact Hloop.
    + apply (negamax_finish_walk _ st0 lp' res Hloop Hrun).
  - unfold walk_inv. cbn [lp_st lp_pv lp_childPv].
    split; [apply (walk_in_trans _ _ _ Hin1 Hw2)|].
    split; [cbn; lia | exact Hcpv].
Qed.

Lemma negamax_body_walk (self : Z -> Z -> Z -> State -> Res Result)
      (q : Z -> Z -> State -> Res Result) (k : nat) :
  walk_n self -> walk_q q -> walk_n (negamax_body self q k).
Proof.
  intros Hself Hq alpha beta depth st res Hrun. unfold negamax_body in Hrun.
  destruct (depth =? 0); [apply (Hq _ _ _ _ Hrun)|].
  pose proof (walk_count st) as Hc.
  unfold negamax_window in Hrun.
  cbn [count_node data set_data set_counts ply board] in Hrun.
  assert (Hnode : forall a b,
            ply (data st) <= MAX_DEPTH - 1 ->
            negamax_node self k (negb (beta - alpha =? 1)) (ply (data st) =? 0)
                         alpha (aget (skipMove (data st)) (ply (data st)))
                         depth a b (poll (count_node st)) = Ok res ->
            walk_ret st res).
  { intros a b Hle Hn.
    apply (negamax_node_walk self k _ _ _ _ _ _ _ st _ res Hself Hle) in Hn;
      [exact Hn|].
    apply (walk_in_trans _ _ _ Hc). apply walk_same. apply same_pos_poll. }
  destruct (Z.eqb_spec (ply (data st)) 0) as [Hroot|Hnroot].
  { apply (Hnode alpha beta); [lia | exact Hrun]. }
  destruct (_ || _ || _).
  { injection Hrun as <-. apply walk_ret_nil. exact Hc. }
  destruct (Z.gtb_spec (ply (data st)) (MAX_DEPTH - 1)) as [Hgt|Hle].
  { injection Hrun as <-. apply walk_ret_nil. exact Hc. }
  destruct (_ >=? _).
  { injection Hrun as <-. apply walk_ret_nil. exact Hc. }
  apply (Hnode _ _ Hle Hrun).
Qed.

Lemma negamax_walk (fuel : nat) : walk_n (negamax fuel).
Proof.
  induction fuel as [|f IH]; [intros alpha beta depth st res H; discriminate H|].
  apply negamax_body_walk; [exact IH | apply quiesce_walk].
Qed.

End WalkInduction.

Section WalkClaims.
Context {L : TTLayout} {P : Position} {E : Engine}.

(** X19.  With [undoMove] undoing [makeMove] and [undoNullMove] undoing
    [nullMove], a call of [negamax] or of [quiesce] that returns leaves
    the board and the ply as it found them, and the moves recorded for
    the plies before its own. *)
Theorem search_restores_position (laws : PositionLaws) :
  1 <= MAX_DEPTH ->
  (forall fuel alpha beta depth st r pv st',
     negamax fuel alpha beta depth st = Ok (r, pv, st') ->
     ply (data st') = ply (data st) /\ board (data st') = board (data st) /\
     forall j, j < ply (data st) ->
       aget (moves (data st')) j = aget (moves (data st)) j) /\
  (forall fuel alpha beta st r pv st',
     quiesce fuel alpha beta st = Ok (r, pv, st') ->
     ply (data st') = ply (data st) /\ board (data st') = board (data st) /\
     forall j, j < ply (data st) ->
       aget (moves (data st')) j = aget (moves (data st)) j).
Proof.
  intros HM. split.
  - intros fuel alpha beta depth st r pv st' Hrun.
    destruct (negamax_walk HM fuel _ _ _ _ _ Hrun)
      as [[(W1 & W2 & _ & _ & W6) _] _].
    split; [exact W1|]. split; [exact (W2 laws) | exact W6].
  - intros fuel alpha beta st r pv st' Hrun.
    destruct (quiesce_walk fuel _ _ _ _ Hrun)
      as [[(W1 & W2 & _ & _ & W6) _] _].
    split; [exact W1|]. split; [exact (W2 laws) | exact W6].
Qed.

(** X20.  After a call of [negamax] or of [quiesce] that returns,
    [seldepth] is at least the ply of the call, not below what it was,
    and not above [MAX_DEPTH] unless it or the ply was before. *)
Theorem search_seldepth_range :
  1 <= MAX_DEPTH ->
  (forall fuel alpha beta depth st r pv st',
     negamax fuel alpha beta depth st = Ok (r, pv, st') ->
     Z.max (seldepth (data st)) (ply (data st)) <= seldepth (data st') /\
     seldepth (data st')
       <= Z.max (Z.max (seldepth (data st)) (ply (data st))) MAX_DEPTH) /\
  (forall fuel alpha beta st r pv st',
     quiesce fuel alpha beta st = Ok (r, pv, st') ->
     Z.max (seldepth (data st)) (ply (data st)) <= seldepth (data st') /\
     seldepth (data st')
       <= Z.max (Z.max (seldepth (data st)) (ply (data st))) MAX_DEPTH).
Proof.
  intros HM. split.
  - intros fuel alpha beta depth st r pv st' Hrun.
    destruct (negamax_walk HM fuel _ _ _ _ _ Hrun)
      as [[(_ & _ & W4 & W5 & _) Hs] _].
    split; [lia | exact W5].
  - intros fuel alpha beta st r pv st' Hrun.
    destruct (quiesce_walk fuel _ _ _ _ Hrun)
      as [[(_ & _ & W4 & W5 & _) Hs] _].
    split; [lia | exact W5].
Qed.

(** X21.  The principal variation a call of [negamax] or of [quiesce]
    at ply [p] returns has at most [MAX_DEPTH - p] moves: together with
    the moves before it, it does not reach beyond ply [MAX_DEPTH]. *)
Theorem search_pv_length :
  1 <= MAX_DEPTH ->
  (forall fuel alpha beta depth st r pv st',
     negamax fuel alpha beta depth st = Ok (r, pv, st') ->
     Z.of_nat (length pv) <= Z.max 0 (MAX_DEPTH - ply (data st))) /\
  (forall fuel alpha beta st r pv st',
     quiesce fuel alpha beta st = Ok (r, pv, st') ->
     Z.of_nat (length pv) <= Z.max 0 (MAX_DEPTH - ply (data st))).
Proof.
  intros HM. split.
  - intros fuel alpha beta depth st r pv st' Hrun.
    apply (negamax_walk HM fuel _ _ _ _ _ Hrun).
  - intros fuel alpha beta st r pv st' Hrun.
    apply (quiesce_walk fuel _ _ _ _ Hrun).
Qed.

Lemma quiesce_loop_table (self : Z -> Z -> State -> Res Result) :
  (forall alpha beta st r pv st',
     self alpha beta st = Ok (r, pv, st') -> table st' = table st) ->
  forall k i ml eval alpha beta bestScore pv st r pv' st',
    quiesce_loop self k i ml eval alpha beta bestScore pv st = Ok (r, pv', st') ->
    table st' = table st.
Proof.
  intros Hself. induction k as [|k IH];
    intros i ml eval alpha beta bestScore pv st r pv' st' Hrun;
    cbn [quiesce_loop] in Hrun;
    destruct (negb (i <? ml_count ml));
    try (injection Hrun as <- <- <-; reflexivity); try discriminate Hrun.
  apply bind_Ok in Hrun. destruct Hrun as (u & _ & Hrun).
  destruct (quiesce_skip _ _ _ _); [apply (IH _ _ _ _ _ _ _ _ _ _ _ Hrun)|].
  destruct (ml_score _ _ <? 0); [injection Hrun as <- <- <-; reflexivity|].
  apply bind_Ok in Hrun. destruct Hrun as ([[r1 cpv] st1] & Hchild & Hrun).
  apply Hself in Hchild. cbn in Hchild.
  destruct (is_stopped _); [injection Hrun as <- <- <-; exact Hchild|].
  destruct (- r1 >? bestScore).
  - destruct (_ >=? beta); [injection Hrun as <- <- <-; exact Hchild|].
    apply IH in Hrun. rewrite Hrun. exact Hchild.
  - apply IH in Hrun. rewrite Hrun. exact Hchild.
Qed.

(** X22.  [quiesce] reads the transposition table and never writes it:
    the table after a call is the table before. *)
Theorem quiesce_keeps_table (fuel : nat) (alpha beta : Z) (st : State)
        (r : Z) (pv : PV) (st' : State) :
  quiesce fuel alpha beta st = Ok (r, pv, st') -> table st' = table st.
Proof.
  revert alpha beta st r pv st'.
  induction fuel as [|f IH]; intros alpha beta st r pv st' Hrun;
    [discriminate Hrun|].
  cbn [quiesce] in Hrun. unfold quiesce_body in Hrun.
  destruct (_ || _ || _); [injection Hrun as <- <- <-; reflexivity|].
  destruct (_ >? _); [injection Hrun as <- <- <-; reflexivity|].
  apply bind_Ok in Hrun. destruct Hrun as (ttValue & _ & Hrun).
  destruct (quiesce_tt_cutoff _ _ _ _);
    [injection Hrun as <- <- <-; rewrite table_poll; reflexivity|].
  destruct (_ >=? beta);
    [injection Hrun as <- <- <-; cbn [table set_data]; rewrite table_poll;
     reflexivity|].
  apply (quiesce_loop_table (quiesce f) IH) in Hrun.
  rewrite Hrun. cbn [table set_data]. rewrite table_poll. reflexivity.
Qed.

End WalkClaims.

(** ** The further properties at the sample data *)

Lemma sample_table_in (hash : Z) :
  bucket_in (TRANSPOSITION_ENTRIES sample_table) (TTIdx (POWER sample_table) hash).
Proof.
  unfold bucket_in. cbn. unfold ref_TTIdx. cbn.
  rewrite Z.mod_1_r. cbn. lia.
Qed.

(** X1 at the sample table: the entry stored for hash 7 is found. *)
Lemma TTPut_then_TTProbe_witness :
  match TTPut 7 3 10 2 1 0 10 sample_table with
  | Ok (v, t') => TTProbe 7 t' = Ok v
  | _ => False
  end.
Proof.
  destruct (TTPut 7 3 10 2 1 0 10 sample_table) as [[v t']| |] eqn:Hput.
  - exact (TTPut_then_TTProbe ref_layout_laws 7 3 10 2 1 0 10 sample_table t' v
             (sample_table_in 7) Hput).
  - vm_compute in Hput. discriminate Hput.
  - vm_compute in Hput. discriminate Hput.
Defined.

(** X2 at the sample table. *)
Lemma TTPut_frame_witness :
  match TTPut 7 3 10 2 1 0 10 sample_table with
  | Ok (v, t') =>
      length (TRANSPOSITION_ENTRIES t') = length (TRANSPOSITION_ENTRIES sample_table)
  | _ => False
  end.
Proof.
  destruct (TTPut 7 3 10 2 1 0 10 sample_table) as [[v t']| |] eqn:Hput.
  - exact (proj1 (proj2 (proj2
             (TTPut_frame ref_layout_laws 7 3 10 2 1 0 10 sample_table t' v
                (sample_table_in 7) Hput)))).
  - vm_compute in Hput. discriminate Hput.
  - vm_compute in Hput. discriminate Hput.
Defined.

(** X3 at the sample table: slot 1 is empty, so the entry of hash 5
    stays. *)
Lemma TTPut_keeps_others_witness :
  match TTPut 7 3 10 2 1 0 10 sample_table with
  | Ok (v, t') => TTProbe 5 t' = TTProbe 5 sample_table
  | _ => False
  end.
Proof.
  destruct (TTPut 7 3 10 2 1 0 10 sample_table) as [[v t']| |] eqn:Hput.
  - destruct (TTPut_keeps_others ref_layout_laws 7 3 10 2 1 0 10 sample_table t' v)
      as (old & Hkeep & Hold); [cbn; lia | reflexivity | exact Hput |].
    apply Hkeep; [lia | lia |].
    destruct Hold as [-> | ->]; [|lia|lia].
    exists 1%nat. split; [cbn; lia | left; reflexivity].
  - vm_compute in Hput. discriminate Hput.
  - vm_compute in Hput. discriminate Hput.
Defined.

(** X4 at the sample table, cleared. *)
Lemma TTProbe_after_clear_witness :
  TTProbe 5 (TTClear sample_table) = Ok NO_ENTRY.
Proof.
  apply (proj2 (TTProbe_after_clear ref_layout_laws) sample_table 5);
    [cbn; lia | reflexivity].
Defined.

(** X5 for one megabyte and the buckets of two slots of the reference
    layout. *)
Lemma TTInit_size_witness :
  match TTInit 1 tt_start with
  | Ok t' => SIZE t' = 2 ^ 20 /\ POWER t' = 15
  | _ => False
  end.
Proof.
  assert (Hok : succeeds (TTInit 1 tt_start) = true) by (vm_compute; reflexivity).
  destruct (TTInit 1 tt_start) as [t'| |] eqn:Hinit;
    [|discriminate Hok|discriminate Hok].
  assert (HB : BUCKET_SIZE = 2 ^ 1) by reflexivity.
  destruct (TTInit_size 1 1 tt_start t' ltac:(lia) HB Hinit)
    as (HP & HS & _).
  split; [exact HS | exact HP].
Defined.

(** X6: a mate score stored at ply 3 and read at ply 5. *)
Lemma TTScore_across_plies_witness :
  TTScore (TTEntry (adjustedScore 32000 3) 2 3 1 10) 5 = 32000 + 3 - 5.
Proof.
  apply (TTScore_across_plies ref_ok 32000 2 3 1 10 3 5 ref_layout_roundtrip).
  - unfold ref_ok. lia.
  - vm_compute. split; discriminate.
  - vm_compute. split; discriminate.
  - lia.
  - unfold MATE_BOUND. lia.
Defined.

(** X7 after the sample run. *)
Lemma TT_keys_unique_witness :
  match run_ops sample_ops tt_start with
  | Ok t =>
      slot_key (TRANSPOSITION_ENTRIES t) 0 0 <> 0 ->
      slot_key (TRANSPOSITION_ENTRIES t) 0 0 <> slot_key (TRANSPOSITION_ENTRIES t) 0 1
  | _ => False
  end.
Proof.
  assert (Hops : Forall put_hash_nonzero sample_ops).
  { repeat constructor; simpl; discriminate. }
  assert (Hok : succeeds (run_ops sample_ops tt_start) = true).
  { vm_compute. reflexivity. }
  destruct (run_ops sample_ops tt_start) as [t| |] eqn:Hrun;
    [|discriminate Hok|discriminate Hok].
  pose proof (TT_keys_unique ref_layout_laws sample_ops t Hops Hrun 0 O 1%nat) as HH.
  apply HH; [lia | cbn; lia | cbn; lia | lia].
Defined.

(** X24 at the sample table. *)
Lemma TTPut_entry_fields_witness :
  match TTPut 7 3 10 2 1 0 10 sample_table with
  | Ok (v, t') =>
      (t' = sample_table /\ TTDepth v > 3 /\ 2 <> TT_EXACT) \/
      (TTDepth v = 3 /\ TTScore v 0 = 10 /\ TTFlag v = 2 /\ TTMove v = 1 /\
       TTEval v = 10)
  | _ => False
  end.
Proof.
  destruct (TTPut 7 3 10 2 1 0 10 sample_table) as [[v t']| |] eqn:Hput.
  - destruct (TTPut_entry_fields ref_layout_laws 7 3 10 2 1 0 10 sample_table t' v
                (sample_table_in 7) Hput)
      as [Hkept|(_ & Hd & Hs & Hf & Hm & He & _)].
    + left. exact Hkept.
    + right. repeat split; assumption.
  - vm_compute in Hput. discriminate Hput.
  - vm_compute in Hput. discriminate Hput.
Defined.

(** X9 at the sample engine: a recursive call that faults at a negative
    depth changes nothing. *)
Lemma negamax_depth_nonneg_witness :
  negamax_body (negamax 3) (quiesce 3) 3 (-1000) 1000 1 (toy_state 0 0 0 0)
  = negamax_body (fun a b d s => if d <? 0 then Abort else negamax 3 a b d s)
                 (quiesce 3) 3 (-1000) 1000 1 (toy_state 0 0 0 0).
Proof.
  apply negamax_depth_nonneg; [lia|].
  intros a b d s Hd. destruct (Z.ltb_spec d 0); [lia | reflexivity].
Defined.

(** X10: the mate given three plies from the root is a mate in two. *)
Lemma printInfo_mate_distance_witness :
  printInfo_score (CHECKMATE - 3) = ScoreMate ((3 + 1) / 2).
Proof.
  apply (printInfo_mate_distance 3). unfold CHECKMATE, MATE_BOUND. lia.
Defined.

(** X11 for the score that packs 5 and 40, halfway between the phases. *)
Lemma taper_between_witness :
  Z.min (scoreMG (5 + 65536 * 40)) (scoreEG (5 + 65536 * 40))
    <= taper (5 + 65536 * 40) 128
    <= Z.max (scoreMG (5 + 65536 * 40)) (scoreEG (5 + 65536 * 40)).
Proof. apply (taper_between (5 + 65536 * 40) 128). lia. Defined.

Lemma fold_bits_nonneg (bb : Z) (l : list nat) :
  0 <= fold_right (fun i acc => b2z (Z.testbit bb (Z.of_nat i)) + acc) 0 l.
Proof.
  induction l as [|i l IH]; cbn [fold_right]; [lia|].
  destruct (Z.testbit bb (Z.of_nat i)); cbn [b2z]; lia.
Qed.

Lemma sample_bits_nonneg (bb : Z) : 0 <= bits bb.
Proof. exact (fold_bits_nonneg bb (seq 0 64)). Qed.

(** X12 at the start of a game: the phase is 0. *)
Lemma getPhase_range_witness :
  exists phase, getPhase start_pieces = Ok phase /\ 0 <= phase <= 256.
Proof.
  destruct (proj1 (getPhase_range start_pieces sample_bits_nonneg))
    as (phase & H1 & H2 & _).
  - vm_compute. discriminate.
  - exists phase. split; [exact H1 | exact H2].
Defined.

Lemma toy_position_laws : PositionLaws (P := toy_position).
Proof. constructor; intros; reflexivity. Qed.

Lemma toy_counts (d : SearchData) : 0 <= ml_count (generateMoves d).
Proof. apply (generate_wf toy_laws d). Qed.

(** X13 at the sample engine: two moves from node 0. *)
Lemma perft_counts_leaves_witness :
  perft 5 (Z.of_nat 1) (data (toy_state 0 0 0 0))
  = Ok (leaves 1 (data (toy_state 0 0 0 0)), data (toy_state 0 0 0 0)).
Proof.
  apply (proj2 (perft_counts_leaves toy_position_laws toy_counts)).
  - lia.
  - vm_compute. discriminate.
Defined.

(** X14 at the sample engine. *)
Lemma PerftTest_total_witness :
  match PerftTest (P := toy_position) 5 (Z.of_nat 1) [0] (data (toy_state 0 0 0 0)) 1 with
  | Ok (total, lines) =>
      total = leaves 1 (set_ply (set_board (P := toy_position)
                                  (data (toy_state 0 0 0 0)) [0]) 0)
  | _ => False
  end.
Proof.
  destruct (PerftTest (P := toy_position) 5 (Z.of_nat 1) [0] (data (toy_state 0 0 0 0)) 1)
    as [[total lines]| |] eqn:Hrun.
  - exact (proj1 (PerftTest_total (P := toy_position) toy_position_laws 5 0 [0]
                    (data (toy_state 0 0 0 0)) 1 total lines toy_counts Hrun)).
  - vm_compute in Hrun. discriminate Hrun.
  - vm_compute in Hrun. discriminate Hrun.
Defined.

(** X15 at the engine in which every position has a move. *)
Lemma perft_negative_depth_witness :
  succeeds (perft (E := loop_engine) 7 (-1) (data (toy_state 0 0 0 0))) = false.
Proof.
  apply (proj1 (perft_negative_depth (E := loop_engine)
                  (fun d => ltac:(cbn; lia)))).
  lia.
Defined.

(** X16 at the sample engine. *)
Lemma Search_score_range_witness :
  match Search 8 (toy_state 0 0 0 0) with
  | Ok st' => - CHECKMATE <= data_score (data st') <= CHECKMATE
  | _ => False
  end.
Proof.
  assert (Hok : succeeds (Search 8 (toy_state 0 0 0 0)) = true)
    by (vm_compute; reflexivity).
  destruct (Search 8 (toy_state 0 0 0 0)) as [st'| |] eqn:Hrun;
    [|discriminate Hok|discriminate Hok].
  exact (proj1 (Search_score_range toy_search_laws 8 (toy_state 0 0 0 0) st'
                  (proj1 (toy_state_inv 0 0 0 0)) Hrun)).
Defined.

(** X17 at the sample engine. *)
Lemma Search_info_lines_witness :
  match Search 8 (toy_state 0 0 0 0) with
  | Ok st' =>
      exists new n,
        trace st' = EvBestMove (data_bestMove (data st')) :: new ++ [] /\
        Forall (fun e => forall m, e <> EvBestMove m) new /\
        rev (info_depths new) = map (fun i => 1 + Z.of_nat i) (seq 0 (S n))
  | _ => False
  end.
Proof.
  assert (Hok : succeeds (Search 8 (toy_state 0 0 0 0)) = true)
    by (vm_compute; reflexivity).
  destruct (Search 8 (toy_state 0 0 0 0)) as [st'| |] eqn:Hrun;
    [|discriminate Hok|discriminate Hok].
  exact (Search_info_lines 8 (toy_state 0 0 0 0) st' Hrun).
Defined.

(** X8 at depth 5 after a score of 0: the search fails high at 10. *)
Lemma aspiration_window_proper_witness :
  aspiration_start 5 0 = (10, -10, 10) /\
  aspiration_widen 10 (-10) 10 10 = Ok (Some (15, -10, 20)) /\
  10 <= 15 /\ - CHECKMATE <= -10 < 20 /\ 20 <= CHECKMATE /\ -10 <= -10 /\
  15 <= INT32_MAX.
Proof.
  assert (Hs : - CHECKMATE <= 0 <= CHECKMATE) by (unfold CHECKMATE; lia).
  assert (Hd : 1 <= 10) by lia.
  assert (Hw : - CHECKMATE <= -10 < 10) by (unfold CHECKMATE; lia).
  assert (Hb : 10 <= CHECKMATE) by (unfold CHECKMATE; lia).
  split; [reflexivity|]. split; [reflexivity|].
  apply (proj2 (proj2 (aspiration_window_proper 5 0 10 (-10) 10 10 Hs Hd Hw Hb))
               15 (-10) 20).
  reflexivity.
Defined.

(** X18 at node 5 of the sample engine, in check and without moves, as
    the root: the loop ends because the poll sets the stop flag. *)
Lemma aspiration_mated_root_witness :
  match aspiration_loop 5 5 2 CHECKMATE (- CHECKMATE) 0 (- CHECKMATE) []
                        (toy_polling_state 5 0) with
  | Ok (r, pv, st') => is_stopped st' = true
  | _ => False
  end.
Proof.
  assert (Hok : succeeds (aspiration_loop 5 5 2 CHECKMATE (- CHECKMATE) 0
                            (- CHECKMATE) [] (toy_polling_state 5 0)) = true)
    by (vm_compute; reflexivity).
  destruct (aspiration_loop 5 5 2 CHECKMATE (- CHECKMATE) 0 (- CHECKMATE) []
              (toy_polling_state 5 0)) as [[[r pv] st']| |] eqn:Hrun;
    [|discriminate Hok|discriminate Hok].
  apply (aspiration_mated_root 5 5 2 CHECKMATE (- CHECKMATE) 0 (- CHECKMATE) []
           (toy_polling_state 5 0) r pv st').
  - vm_compute. discriminate.
  - intros d Hd. cbn in *. rewrite Hd. reflexivity.
  - reflexivity.
  - vm_compute. reflexivity.
  - lia.
  - lia.
  - unfold CHECKMATE. lia.
  - unfold delta_fits. vm_compute. discriminate.
  - exact Hrun.
Defined.

Lemma toy_max_depth : 1 <= MAX_DEPTH.
Proof. cbn. lia. Qed.

(** X19 at the sample engine. *)
Lemma search_restores_position_witness :
  match negamax 5 (-1000) 1000 1 (toy_state 0 0 0 0) with
  | Ok (r, pv, st') => ply (data st') = 0 /\ board (data st') = [0]
  | _ => False
  end.
Proof.
  assert (Hok : succeeds (negamax 5 (-1000) 1000 1 (toy_state 0 0 0 0)) = true)
    by (vm_compute; reflexivity).
  destruct (negamax 5 (-1000) 1000 1 (toy_state 0 0 0 0)) as [[[r pv] st']| |] eqn:Hrun;
    [|discriminate Hok|discriminate Hok].
  destruct (proj1 (search_restores_position toy_position_laws toy_max_depth)
                  5%nat (-1000) 1000 1 (toy_state 0 0 0 0) r pv st' Hrun)
    as (Hp & Hb & _).
  split; [exact Hp | exact Hb].
Defined.

(** X20 at the sample engine, two plies from the root. *)
Lemma search_seldepth_range_witness :
  match negamax 5 (-1000) 1000 1 (toy_state 0 2 0 0) with
  | Ok (r, pv, st') =>
      Z.max 0 2 <= seldepth (data st') /\
      seldepth (data st') <= Z.max (Z.max 0 2) MAX_DEPTH
  | _ => False
  end.
Proof.
  assert (Hok : succeeds (negamax 5 (-1000) 1000 1 (toy_state 0 2 0 0)) = true)
    by (vm_compute; reflexivity).
  destruct (negamax 5 (-1000) 1000 1 (toy_state 0 2 0 0)) as [[[r pv] st']| |] eqn:Hrun;
    [|discriminate Hok|discriminate Hok].
  exact (proj1 (search_seldepth_range toy_max_depth)
               5%nat (-1000) 1000 1 (toy_state 0 2 0 0) r pv st' Hrun).
Defined.

(** X21 at the sample engine. *)
Lemma search_pv_length_witness :
  match negamax 5 (-1000) 1000 1 (toy_state 0 0 0 0) with
  | Ok (r, pv, st') => Z.of_nat (length pv) <= Z.max 0 (MAX_DEPTH - 0)
  | _ => False
  end.
Proof.
  assert (Hok : succeeds (negamax 5 (-1000) 1000 1 (toy_state 0 0 0 0)) = true)
    by (vm_compute; reflexivity).
  destruct (negamax 5 (-1000) 1000 1 (toy_state 0 0 0 0)) as [[[r pv] st']| |] eqn:Hrun;
    [|discriminate Hok|discriminate Hok].
  exact (proj1 (search_pv_length toy_max_depth)
               5%nat (-1000) 1000 1 (toy_state 0 0 0 0) r pv st' Hrun).
Defined.

(** X22 at the sample engine. *)
Lemma quiesce_keeps_table_witness :
  match quiesce 5 (-1000) 1000 (toy_state 0 0 0 0) with
  | Ok (r, pv, st') => table st' = toy_table
  | _ => False
  end.
Proof.
  assert (Hok : succeeds (quiesce 5 (-1000) 1000 (toy_state 0 0 0 0)) = true)
    by (vm_compute; reflexivity).
  destruct (quiesce 5 (-1000) 1000 (toy_state 0 0 0 0)) as [[[r pv] st']| |] eqn:Hrun;
    [|discriminate Hok|discriminate Hok].
  exact (quiesce_keeps_table 5 (-1000) 1000 (toy_state 0 0 0 0) r pv st' Hrun).
Defined.

(** X23 at the sample engine. *)
Lemma quiesce_score_range_witness :
  match quiesce 5 (-1000) 1000 (toy_state 0 0 0 0) with
  | Ok (r, pv, st') => - CHECKMATE + 0 <= r <= CHECKMATE - 0
  | _ => False
  end.
Proof.
  assert (Hok : succeeds (quiesce 5 (-1000) 1000 (toy_state 0 0 0 0)) = true)
    by (vm_compute; reflexivity).
  destruct (quiesce 5 (-1000) 1000 (toy_state 0 0 0 0)) as [[[r pv] st']| |] eqn:Hrun;
    [|discriminate Hok|discriminate Hok].
  refine (proj1 (quiesce_score_range toy_search_laws 5 (-1000) 1000
                   (toy_state 0 0 0 0) r pv st' (toy_state_inv 0 0 0 0) _ Hrun)).
  cbn. lia.
Defined.
